(** * Qub for TypeScript: iterators, iterables, containers, spans and the lexer

    A shallow embedding of [sources/Qub.ts].  Every class of the source is a
    record (its fields) together with one function per method; a method that
    mutates its receiver returns the new receiver next to its result.  The
    [Iterator<T>] interface is a type class, the decorators ([where], [skip],
    [take], [map], [concatenate]) are instances over the class of the
    iterator they wrap, and the [Iterable] hierarchy is a tagged union whose
    methods dispatch on the tag.

    Conventions.
    - A TypeScript type [T] is a Rocq type with a distinguished value
      [undefined] (class [Undefined]): without strict null checks every
      TypeScript type contains it.
    - A count argument ([toSkip], [toTake]) is [option Z]: [None] is
      [undefined], [Some z] an integer.  An index argument of [get] is a
      [number]: [undefined], [NaN] or a rational, so that fractional indices
      can be written; its sums are exact.  The indexes and lengths of spans
      and lexes are integers, added and subtracted with the rounding of
      doubles ([nearestNumber]).  Infinities are not modelled.
    - A [while] loop is a [Fixpoint] on a fuel argument.  The fuel handed to
      a loop over an iterator is that iterator's [remaining] bound, a loop
      variant that is not part of the source; the lemmas named [*_spec] show
      that under the iterator laws the loop leaves by its own test.  *)

From Stdlib Require Import String Ascii ZArith List Bool Lia QArith Lqa.
Import ListNotations.
Close Scope Q_scope.
Open Scope Z_scope.

Set Implicit Arguments.
Unset Strict Implicit.

(** ** Values *)

(** [let result: T;] leaves [result] at [undefined]. *)
Class Undefined (T : Type) : Type := undefined : T.

#[global] Instance Undefined_option {A : Type} : Undefined (option A) := None.

(** [isDefined(value)]: [value !== undefined && value !== null]. *)
Definition isDefined {A : Type} (value : option A) : bool :=
  match value with Some _ => true | None => false end.

(** A JavaScript number used as an index. *)
Inductive number : Type :=
| NumUndefined
| NaN
| Num (q : Q).

Definition Qlt_bool (x y : Q) : bool := negb (Qle_bool y x).

(** [a <= b] and [a < b] on numbers: false as soon as one side is
    [undefined] (which converts to [NaN]) or [NaN]. *)
Definition number_le (a b : number) : bool :=
  match a, b with Num x, Num y => Qle_bool x y | _, _ => false end.

Definition number_lt (a b : number) : bool :=
  match a, b with Num x, Num y => Qlt_bool x y | _, _ => false end.

Definition number_add (a b : number) : number :=
  match a, b with Num x, Num y => Num (x + y)%Q | _, _ => NaN end.

Definition number_isDefined (a : number) : bool :=
  match a with NumUndefined => false | _ => true end.

Definition ofZ (z : Z) : number := Num (inject_Z z).

(** [array[index]]: a property lookup, [undefined] unless the index is a
    non-negative integer below the array's length. *)
Definition arrayGet {T : Type} `{Undefined T} (array : list T) (index : number) : T :=
  match index with
  | Num q =>
      let r := Qred q in
      if (Qden r =? 1)%positive && (0 <=? Qnum r)
      then nth (Z.to_nat (Qnum r)) array undefined
      else undefined
  | _ => undefined
  end.

(** Comparisons of a counter with a count argument. *)
Definition count_lt (a : Z) (b : option Z) : bool :=
  match b with Some y => a <? y | None => false end.

Definition count_le (a : Z) (b : option Z) : bool :=
  match b with Some y => a <=? y | None => false end.

(** [toSkip && 0 < toSkip]: the argument is truthy (defined, not zero) and
    positive. *)
Definition truthyPositive (n : option Z) : option Z :=
  match n with
  | Some z => if negb (z =? 0) && (0 <? z) then Some z else None
  | None => None
  end.

(** ** The Iterator interface *)

(** The four abstract methods of [IteratorBase].  [hasCurrent] and
    [getCurrent] return the receiver too: [SkipIterator] mutates in both.
    [remaining] bounds the number of [next()] calls that can still return
    true; it only serves as fuel. *)
Class Iterator (I T : Type) : Type := {
  hasStarted : I -> bool;
  hasCurrent : I -> bool * I;
  next : I -> bool * I;
  getCurrent : I -> T * I;
  remaining : I -> nat
}.

Section IteratorBase.
Context {I T : Type} `{Iterator I T}.

(** [takeCurrent()] *)
Definition takeCurrent (this : I) : T * I :=
  let (result, this1) := getCurrent this in
  (result, snd (next this1)).

(** The [while (this.next()) { ++result; }] loop of [getCount()]. *)
Fixpoint getCount_loop (fuel : nat) (result : Z) (this : I) : Z * I :=
  match fuel with
  | O => (result, this)
  | S fuel' =>
      let (moved, this1) := next this in
      if moved then getCount_loop fuel' (result + 1) this1 else (result, this1)
  end.

(** [IteratorBase.getCount()] *)
Definition IteratorBase_getCount (this : I) : Z * I :=
  let (has, this1) := hasCurrent this in
  getCount_loop (S (remaining this1)) (if has then 1 else 0) this1.

(** [for (const value of this)]: a [JavascriptIterator] is created, which
    records [_hasInitialValue = iterator.hasCurrent()], and its [next()] is
    called until [done]; the first call does not advance when there was an
    initial value. *)
Fixpoint forOf_loop (fuel : nat) (this : I) (result : list T) : list T * I :=
  match fuel with
  | O => (result, this)
  | S fuel' =>
      let (moved, this1) := next this in
      let (value, this2) := getCurrent this1 in
      if moved then forOf_loop fuel' this2 (result ++ [value]) else (result, this2)
  end.

(** [IteratorBase.toArray()] *)
Definition IteratorBase_toArray (this : I) : list T * I :=
  let (hasInitialValue, this1) := hasCurrent this in
  if hasInitialValue then
    let (value, this2) := getCurrent this1 in
    forOf_loop (S (remaining this2)) this2 [value]
  else
    forOf_loop (S (remaining this1)) this1 [].

(** [first()] without a condition. *)
Definition IteratorBase_first (this : I) : T * I :=
  let this1 := if negb (hasStarted this) then snd (next this) else this in
  getCurrent this1.

(** [any()] without a condition: [this.hasCurrent() || this.next()]. *)
Definition IteratorBase_any (this : I) : bool * I :=
  let (has, this1) := hasCurrent this in
  if has then (true, this1) else next this1.
End IteratorBase.

(** ** Iterator decorators *)

(** [IteratorDecorator] forwards the four methods to [_innerIterator]; its
    subclasses below inherit what they do not override, and [super.next()]
    is the inner iterator's [next()]. *)

(** *** WhereIterator *)

Record WhereIterator (I T : Type) : Type := {
  where_innerIterator : I;
  where_condition : option (T -> bool)
}.

Section WhereIterator.
Context {I T : Type} `{Iterator I T}.

(** The constructor's loop:
    [while (this.hasCurrent() && !this._condition(this.getCurrent())) super.next();] *)
Fixpoint WhereIterator_settle (condition : T -> bool) (fuel : nat) (inner : I) : I :=
  match fuel with
  | O => inner
  | S fuel' =>
      let (has, inner1) := hasCurrent inner in
      if has then
        let (value, inner2) := getCurrent inner1 in
        if negb (condition value)
        then WhereIterator_settle condition fuel' (snd (next inner2))
        else inner2
      else inner1
  end.

Definition new_WhereIterator (innerIterator : I) (condition : option (T -> bool))
  : WhereIterator I T :=
  match condition with
  | Some c =>
      Build_WhereIterator
        (WhereIterator_settle c (S (remaining innerIterator)) innerIterator) condition
  | None => Build_WhereIterator innerIterator condition
  end.

(** [while (super.next() && !this._condition(this.getCurrent())) { }] *)
Fixpoint WhereIterator_seek (condition : T -> bool) (fuel : nat) (inner : I) : I :=
  match fuel with
  | O => inner
  | S fuel' =>
      let (moved, inner1) := next inner in
      if moved then
        let (value, inner2) := getCurrent inner1 in
        if negb (condition value)
        then WhereIterator_seek condition fuel' inner2
        else inner2
      else inner1
  end.

Definition WhereIterator_next (this : WhereIterator I T) : bool * WhereIterator I T :=
  let inner := where_innerIterator this in
  let inner1 :=
    match where_condition this with
    | None => snd (next inner)
    | Some c => WhereIterator_seek c (S (remaining inner)) inner
    end in
  let (has, inner2) := hasCurrent inner1 in
  (has, Build_WhereIterator inner2 (where_condition this)).

#[global] Instance WhereIterator_Iterator : Iterator (WhereIterator I T) T := {
  hasStarted this := hasStarted (where_innerIterator this);
  hasCurrent this :=
    let (has, inner) := hasCurrent (where_innerIterator this) in
    (has, Build_WhereIterator inner (where_condition this));
  next := WhereIterator_next;
  getCurrent this :=
    let (value, inner) := getCurrent (where_innerIterator this) in
    (value, Build_WhereIterator inner (where_condition this));
  remaining this := remaining (where_innerIterator this)
}.
End WhereIterator.

(** *** SkipIterator *)

Record SkipIterator (I : Type) : Type := {
  skip_innerIterator : I;
  skip_toSkip : option Z;
  skip_skipped : Z
}.

Section SkipIterator.
Context {I T : Type} `{Iterator I T}.

Definition new_SkipIterator (innerIterator : I) (toSkip : option Z) : SkipIterator I :=
  Build_SkipIterator innerIterator toSkip 0.

(** [while (this._skipped < this._toSkip) { if (!super.next()) this._skipped = this._toSkip; else ++this._skipped; }] *)
Fixpoint skipValues_loop (fuel : nat) (inner : I) (toSkip : option Z) (skipped : Z)
  : I * Z :=
  match fuel with
  | O => (inner, skipped)
  | S fuel' =>
      match toSkip with
      | Some target =>
          if skipped <? target then
            let (moved, inner1) := next inner in
            if moved
            then skipValues_loop fuel' inner1 toSkip (skipped + 1)
            else skipValues_loop fuel' inner1 toSkip target
          else (inner, skipped)
      | None => (inner, skipped)
      end
  end.

Definition skipValues (this : SkipIterator I) : SkipIterator I :=
  let fuel :=
    match skip_toSkip this with
    | Some target => S (Z.to_nat (target - skip_skipped this))
    | None => 1%nat
    end in
  let (inner, skipped) :=
    skipValues_loop fuel (skip_innerIterator this) (skip_toSkip this) (skip_skipped this) in
  Build_SkipIterator inner (skip_toSkip this) skipped.

Definition SkipIterator_hasCurrent (this : SkipIterator I) : bool * SkipIterator I :=
  let (has, inner) := hasCurrent (skip_innerIterator this) in
  let this1 := Build_SkipIterator inner (skip_toSkip this) (skip_skipped this) in
  let this2 := if has then skipValues this1 else this1 in
  let (result, inner') := hasCurrent (skip_innerIterator this2) in
  (result, Build_SkipIterator inner' (skip_toSkip this2) (skip_skipped this2)).

Definition SkipIterator_next (this : SkipIterator I) : bool * SkipIterator I :=
  let this1 := skipValues this in
  let (result, inner) := next (skip_innerIterator this1) in
  (result, Build_SkipIterator inner (skip_toSkip this1) (skip_skipped this1)).

Definition SkipIterator_getCurrent (this : SkipIterator I) : T * SkipIterator I :=
  let (has, inner) := hasCurrent (skip_innerIterator this) in
  let this1 := Build_SkipIterator inner (skip_toSkip this) (skip_skipped this) in
  let this2 := if has then skipValues this1 else this1 in
  let (result, inner') := getCurrent (skip_innerIterator this2) in
  (result, Build_SkipIterator inner' (skip_toSkip this2) (skip_skipped this2)).

#[global] Instance SkipIterator_Iterator : Iterator (SkipIterator I) T := {
  hasStarted this := hasStarted (skip_innerIterator this);
  hasCurrent := SkipIterator_hasCurrent;
  next := SkipIterator_next;
  getCurrent := SkipIterator_getCurrent;
  remaining this := remaining (skip_innerIterator this)
}.
End SkipIterator.

(** *** TakeIterator *)

Record TakeIterator (I : Type) : Type := {
  take_innerIterator : I;
  take_toTake : option Z;
  take_taken : Z
}.

Section TakeIterator.
Context {I T : Type} `{Iterator I T} `{Undefined T}.

(** [this._taken = super.hasCurrent() ? 1 : 0;] *)
Definition new_TakeIterator (innerIterator : I) (toTake : option Z) : TakeIterator I :=
  let (has, inner) := hasCurrent innerIterator in
  Build_TakeIterator inner toTake (if has then 1 else 0).

(** [isDefined(this._toTake) && this._taken <= this._toTake] *)
Definition canTakeValue (this : TakeIterator I) : bool :=
  isDefined (take_toTake this) && count_le (take_taken this) (take_toTake this).

(** [super.hasCurrent() && this.canTakeValue()] *)
Definition TakeIterator_hasCurrent (this : TakeIterator I) : bool * TakeIterator I :=
  let (has, inner) := hasCurrent (take_innerIterator this) in
  let this1 := Build_TakeIterator inner (take_toTake this) (take_taken this) in
  (has && canTakeValue this1, this1).

Definition TakeIterator_next (this : TakeIterator I) : bool * TakeIterator I :=
  let this1 :=
    if canTakeValue this
    then Build_TakeIterator (snd (next (take_innerIterator this)))
           (take_toTake this) (take_taken this + 1)
    else this in
  TakeIterator_hasCurrent this1.

(** [this.hasCurrent() ? super.getCurrent() : undefined] *)
Definition TakeIterator_getCurrent (this : TakeIterator I) : T * TakeIterator I :=
  let (has, this1) := TakeIterator_hasCurrent this in
  if has then
    let (value, inner) := getCurrent (take_innerIterator this1) in
    (value, Build_TakeIterator inner (take_toTake this1) (take_taken this1))
  else (undefined, this1).

#[global] Instance TakeIterator_Iterator : Iterator (TakeIterator I) T := {
  hasStarted this := hasStarted (take_innerIterator this);
  hasCurrent := TakeIterator_hasCurrent;
  next := TakeIterator_next;
  getCurrent := TakeIterator_getCurrent;
  remaining this := remaining (take_innerIterator this)
}.
End TakeIterator.

(** *** MapIterator *)

Record MapIterator (I InnerT OuterT : Type) : Type := {
  map_innerIterator : I;
  map_mapFunction : option (InnerT -> OuterT);
  map_started : bool
}.

Section MapIterator.
Context {I InnerT OuterT : Type} `{Iterator I InnerT} `{Undefined OuterT}.

Definition new_MapIterator (innerIterator : I) (mapFunction : option (InnerT -> OuterT))
  : MapIterator I InnerT OuterT :=
  Build_MapIterator innerIterator mapFunction (hasStarted innerIterator).

(** [this._mapFunction ? this._innerIterator.hasCurrent() : false] *)
Definition MapIterator_hasCurrent (this : MapIterator I InnerT OuterT)
  : bool * MapIterator I InnerT OuterT :=
  match map_mapFunction this with
  | Some _ =>
      let (has, inner) := hasCurrent (map_innerIterator this) in
      (has, Build_MapIterator inner (map_mapFunction this) (map_started this))
  | None => (false, this)
  end.

(** [this._started = true; return isDefined(this._mapFunction) && this._innerIterator.next();] *)
Definition MapIterator_next (this : MapIterator I InnerT OuterT)
  : bool * MapIterator I InnerT OuterT :=
  match map_mapFunction this with
  | Some _ =>
      let (moved, inner) := next (map_innerIterator this) in
      (moved, Build_MapIterator inner (map_mapFunction this) true)
  | None => (false, Build_MapIterator (map_innerIterator this) (map_mapFunction this) true)
  end.

(** [this.hasCurrent() ? this._mapFunction(this._innerIterator.getCurrent()) : undefined] *)
Definition MapIterator_getCurrent (this : MapIterator I InnerT OuterT)
  : OuterT * MapIterator I InnerT OuterT :=
  let (has, this1) := MapIterator_hasCurrent this in
  match has, map_mapFunction this1 with
  | true, Some mapFunction =>
      let (value, inner) := getCurrent (map_innerIterator this1) in
      (mapFunction value, Build_MapIterator inner (map_mapFunction this1) (map_started this1))
  | _, _ => (undefined, this1)
  end.

#[global] Instance MapIterator_Iterator : Iterator (MapIterator I InnerT OuterT) OuterT := {
  hasStarted this := map_started this;
  hasCurrent := MapIterator_hasCurrent;
  next := MapIterator_next;
  getCurrent := MapIterator_getCurrent;
  remaining this := S (remaining (map_innerIterator this))
}.

(** [MapIterator.getCount()] *)
Definition MapIterator_getCount (this : MapIterator I InnerT OuterT)
  : Z * MapIterator I InnerT OuterT :=
  match map_mapFunction this with
  | Some _ =>
      let (result, inner) := IteratorBase_getCount (map_innerIterator this) in
      (result, Build_MapIterator inner (map_mapFunction this) true)
  | None => (0, Build_MapIterator (map_innerIterator this) (map_mapFunction this) true)
  end.
End MapIterator.

(** *** ConcatenateIterator *)

Record ConcatenateIterator (I1 I2 : Type) : Type := {
  concat_first : I1;
  concat_second : I2
}.

Section ConcatenateIterator.
Context {I1 I2 T : Type} `{Iterator I1 T} `{Iterator I2 T}.

(** [this._first.hasCurrent() || this._second.hasCurrent()] *)
Definition ConcatenateIterator_hasCurrent (this : ConcatenateIterator I1 I2)
  : bool * ConcatenateIterator I1 I2 :=
  let (has1, first) := hasCurrent (concat_first this) in
  if has1 then (true, Build_ConcatenateIterator first (concat_second this))
  else
    let (has2, second) := hasCurrent (concat_second this) in
    (has2, Build_ConcatenateIterator first second).

(** [this._first.next() || this._second.next()] *)
Definition ConcatenateIterator_next (this : ConcatenateIterator I1 I2)
  : bool * ConcatenateIterator I1 I2 :=
  let (moved1, first) := next (concat_first this) in
  if moved1 then (true, Build_ConcatenateIterator first (concat_second this))
  else
    let (moved2, second) := next (concat_second this) in
    (moved2, Build_ConcatenateIterator first second).

(** [this._first.hasCurrent() ? this._first.getCurrent() : this._second.getCurrent()] *)
Definition ConcatenateIterator_getCurrent (this : ConcatenateIterator I1 I2)
  : T * ConcatenateIterator I1 I2 :=
  let (has1, first) := hasCurrent (concat_first this) in
  if has1 then
    let (value, first') := getCurrent first in
    (value, Build_ConcatenateIterator first' (concat_second this))
  else
    let (value, second) := getCurrent (concat_second this) in
    (value, Build_ConcatenateIterator first second).

#[global] Instance ConcatenateIterator_Iterator : Iterator (ConcatenateIterator I1 I2) T := {
  hasStarted this := hasStarted (concat_first this);
  hasCurrent := ConcatenateIterator_hasCurrent;
  next := ConcatenateIterator_next;
  getCurrent := ConcatenateIterator_getCurrent;
  remaining this := (remaining (concat_first this) + remaining (concat_second this))%nat
}.
End ConcatenateIterator.

(** ** ArrayList and its iterators *)

(** [_data] is the backing array and [_count] the number of slots in use;
    [removeAt] leaves the array at its length. *)
Record ArrayList (T : Type) : Type := {
  _data : list T;
  _count : nat
}.

(** [array[index] = value] for an index inside the array. *)
Fixpoint arraySet {T : Type} (array : list T) (index : nat) (value : T) : list T :=
  match array, index with
  | [], _ => []
  | _ :: rest, O => value :: rest
  | x :: rest, S index' => x :: arraySet rest index' value
  end.

Section ArrayList.
Context {T : Type} `{Undefined T}.

(** [new ArrayList<T>()] *)
Definition new_ArrayList : ArrayList T := Build_ArrayList [] 0.

Definition ArrayList_getCount (this : ArrayList T) : Z := Z.of_nat (_count this).

(** [ArrayList.get(index)] *)
Definition ArrayList_get (this : ArrayList T) (index : number) : T :=
  if number_isDefined index && number_le (ofZ 0) index
     && number_lt index (ofZ (ArrayList_getCount this))
  then arrayGet (_data this) index
  else undefined.

(** [ArrayList.add(value)] *)
Definition ArrayList_add (this : ArrayList T) (value : T) : ArrayList T :=
  let data :=
    if (_count this =? length (_data this))%nat
    then _data this ++ [value]
    else arraySet (_data this) (_count this) value in
  Build_ArrayList data (S (_count this)).

(** [ArrayList.addAll(values)] for an array of values (or nothing). *)
Definition ArrayList_addAll (this : ArrayList T) (values : option (list T)) : ArrayList T :=
  match values with
  | Some vs => fold_left ArrayList_add vs this
  | None => this
  end.

(** [new ArrayList<T>(values)] *)
Definition ArrayList_of (values : list T) : ArrayList T :=
  ArrayList_addAll new_ArrayList (Some values).
End ArrayList.

(** The iterators keep a reference to the list; it is held here by value,
    so a list is not modified while one of its iterators is in use. *)
Record ArrayListForwardIterator (T : Type) : Type := {
  fwd_arrayList : ArrayList T;
  fwd_currentIndex : option Z
}.

Record ArrayListReverseIterator (T : Type) : Type := {
  rev_arrayList : ArrayList T;
  rev_currentIndex : option Z
}.

(** [_currentIndex] read as the argument of [get]. *)
Definition indexNumber (currentIndex : option Z) : number :=
  match currentIndex with Some i => ofZ i | None => NumUndefined end.

Section ArrayListIterator.
Context {T : Type} `{Undefined T}.

(** [this._currentIndex === this._arrayList.getCount()] *)
Definition fwd_atEnd (this : ArrayListForwardIterator T) : bool :=
  match fwd_currentIndex this with
  | Some i => i =? ArrayList_getCount (fwd_arrayList this)
  | None => false
  end.

Definition ArrayListForwardIterator_next (this : ArrayListForwardIterator T)
  : bool * ArrayListForwardIterator T :=
  let this1 :=
    if negb (isDefined (fwd_currentIndex this))
    then Build_ArrayListForwardIterator (fwd_arrayList this) (Some 0)
    else if negb (fwd_atEnd this)
         then Build_ArrayListForwardIterator (fwd_arrayList this)
                (option_map Z.succ (fwd_currentIndex this))
         else this in
  (negb (fwd_atEnd this1), this1).

#[global] Instance ArrayListForwardIterator_Iterator
  : Iterator (ArrayListForwardIterator T) T := {
  hasStarted this := isDefined (fwd_currentIndex this);
  hasCurrent this := (isDefined (fwd_currentIndex this) && negb (fwd_atEnd this), this);
  next := ArrayListForwardIterator_next;
  getCurrent this :=
    (ArrayList_get (fwd_arrayList this) (indexNumber (fwd_currentIndex this)), this);
  remaining this := S (_count (fwd_arrayList this))
}.

(** [this._currentIndex < 0] *)
Definition rev_atEnd (this : ArrayListReverseIterator T) : bool :=
  match rev_currentIndex this with
  | Some i => i <? 0
  | None => false
  end.

Definition ArrayListReverseIterator_next (this : ArrayListReverseIterator T)
  : bool * ArrayListReverseIterator T :=
  let this1 :=
    if negb (isDefined (rev_currentIndex this))
    then Build_ArrayListReverseIterator (rev_arrayList this)
           (Some (ArrayList_getCount (rev_arrayList this) - 1))
    else if negb (rev_atEnd this)
         then Build_ArrayListReverseIterator (rev_arrayList this)
                (option_map Z.pred (rev_currentIndex this))
         else this in
  (negb (rev_atEnd this1), this1).

#[global] Instance ArrayListReverseIterator_Iterator
  : Iterator (ArrayListReverseIterator T) T := {
  hasStarted this := isDefined (rev_currentIndex this);
  hasCurrent this := (isDefined (rev_currentIndex this) && negb (rev_atEnd this), this);
  next := ArrayListReverseIterator_next;
  getCurrent this :=
    (ArrayList_get (rev_arrayList this) (indexNumber (rev_currentIndex this)), this);
  remaining this := S (_count (rev_arrayList this))
}.

(** [ArrayList.iterate()] and [ArrayList.iterateReverse()] *)
Definition ArrayList_iterate (this : ArrayList T) : ArrayListForwardIterator T :=
  Build_ArrayListForwardIterator this None.

Definition ArrayList_iterateReverse (this : ArrayList T) : ArrayListReverseIterator T :=
  Build_ArrayListReverseIterator this None.
End ArrayListIterator.

(** ** The iterator laws *)

(** The three states of the iterator protocol, with the values still to
    come: not started, positioned at a value, or exhausted. *)
Inductive cursor (T : Type) : Type :=
| NotStarted (rest : list T)
| At (value : T) (rest : list T)
| Done.

Arguments NotStarted {T} rest.
Arguments At {T} value rest.
Arguments Done {T}.

Section Cursor.
Context {T : Type} `{Undefined T}.

Definition started (st : cursor T) : bool :=
  match st with NotStarted _ => false | _ => true end.

Definition positioned (st : cursor T) : bool :=
  match st with At _ _ => true | _ => false end.

Definition current (st : cursor T) : T :=
  match st with At value _ => value | _ => undefined end.

(** The values that further [next()] calls will reach. *)
Definition upcoming (st : cursor T) : list T :=
  match st with NotStarted rest => rest | At _ rest => rest | Done => [] end.

(** The values a traversal from this state yields: the current one, if
    any, and the upcoming ones. *)
Definition contents (st : cursor T) : list T :=
  match st with NotStarted rest => rest | At value rest => value :: rest | Done => [] end.

(** The state of a started iterator whose current and upcoming values
    are the given ones. *)
Definition cursor_at (values : list T) : cursor T :=
  match values with
  | [] => Done
  | value :: rest => At value rest
  end.

Definition advance (st : cursor T) : cursor T := cursor_at (upcoming st).

Fixpoint advanceN (n : nat) (st : cursor T) : cursor T :=
  match n with
  | O => st
  | S n' => advanceN n' (advance st)
  end.
End Cursor.

(** An implementation obeys the laws when its states are related to cursor
    states in such a way that every method answers as the cursor does and
    leaves a related state. *)
Class IteratorLaws (I T : Type) `{Iterator I T} `{Undefined T} : Type := {
  models : I -> cursor T -> Prop;
  models_hasStarted : forall this st, models this st -> hasStarted this = started st;
  models_hasCurrent : forall this st, models this st ->
    exists this', hasCurrent this = (positioned st, this') /\ models this' st;
  models_getCurrent : forall this st, models this st ->
    exists this', getCurrent this = (current st, this') /\ models this' st;
  models_next : forall this st, models this st ->
    exists this', next this = (positioned (advance st), this') /\ models this' (advance st);
  models_remaining : forall this st, models this st ->
    (length (upcoming st) < remaining this)%nat
}.

Section CursorFacts.
Context {T : Type} `{Undefined T}.

Lemma started_advance (st : cursor T) : started (advance st) = true.
Proof. unfold advance, cursor_at. destruct (upcoming st); reflexivity. Qed.

Lemma advance_Done : advance (@Done T) = Done.
Proof. reflexivity. Qed.

Lemma advanceN_Done (n : nat) : advanceN n (@Done T) = Done.
Proof. induction n; simpl; auto. Qed.

Lemma positioned_advance_false (st : cursor T) :
  positioned (advance st) = false -> advance st = Done.
Proof. unfold advance, cursor_at. destruct (upcoming st); simpl; congruence. Qed.

Lemma positioned_advance (st : cursor T) :
  positioned (advance st) = negb (match upcoming st with [] => true | _ => false end).
Proof. unfold advance, cursor_at. destruct (upcoming st); reflexivity. Qed.

Lemma contents_advance (st : cursor T) : contents (advance st) = upcoming st.
Proof. unfold advance, cursor_at. destruct (upcoming st); reflexivity. Qed.

Lemma upcoming_advance (st : cursor T) : upcoming (advance st) = tl (upcoming st).
Proof. unfold advance, cursor_at. destruct (upcoming st); reflexivity. Qed.

Lemma advanceN_succ (n : nat) (st : cursor T) :
  advanceN (S n) st = advance (advanceN n st).
Proof. revert st. induction n; intros st; [reflexivity|]. simpl in *. now rewrite IHn. Qed.

Lemma contents_advanceN (n : nat) (st : cursor T) :
  contents (advanceN (S n) st) = skipn n (upcoming st).
Proof.
  revert st. induction n; intros st.
  - simpl. apply contents_advance.
  - change (advanceN (S (S n)) st) with (advanceN (S n) (advance st)).
    rewrite IHn, upcoming_advance. destruct (upcoming st); simpl; auto.
    now rewrite skipn_nil.
Qed.

Lemma cursor_of_contents (st : cursor T) :
  started st = true ->
  st = cursor_at (contents st).
Proof. destruct st; simpl; congruence. Qed.
End CursorFacts.

(** What the laws give for the inherited methods of [IteratorBase]. *)
Section IteratorBaseLaws.
Context {I T : Type} `{IteratorLaws I T}.

Lemma forOf_loop_spec (fuel : nat) : forall (this : I) (st : cursor T) (result : list T),
  models this st -> (length (upcoming st) < fuel)%nat ->
  exists this', forOf_loop fuel this result = (result ++ upcoming st, this')
                /\ models this' Done.
Proof.
  induction fuel as [|fuel IH]; intros this st result Hm Hlen; [lia|].
  simpl.
  destruct (models_next Hm) as (this1 & -> & Hm1).
  destruct (models_getCurrent Hm1) as (this2 & -> & Hm2).
  unfold advance, cursor_at in *. destruct (upcoming st) as [|value rest] eqn:Hup; simpl in *.
  - exists this2. now rewrite app_nil_r.
  - destruct (IH this2 (At value rest) (result ++ [value]) Hm2) as (this' & -> & Hm').
    + simpl. lia.
    + exists this'. simpl. now rewrite <- app_assoc.
Qed.

(** Draining an iterator yields the contents of its state and leaves it
    exhausted. *)
Lemma toArray_spec (this : I) (st : cursor T) :
  models this st ->
  exists this', IteratorBase_toArray this = (contents st, this') /\ models this' Done.
Proof.
  intros Hm. unfold IteratorBase_toArray.
  destruct (models_hasCurrent Hm) as (this1 & -> & Hm1).
  destruct st as [rest|value rest|]; cbn [positioned contents].
  - apply (@forOf_loop_spec _ this1 (NotStarted rest) []); auto.
    pose proof (models_remaining Hm1). simpl in *. lia.
  - destruct (models_getCurrent Hm1) as (this2 & -> & Hm2). cbn [current].
    apply (@forOf_loop_spec _ this2 (At value rest) [value]); auto.
    pose proof (models_remaining Hm2). simpl in *. lia.
  - apply (@forOf_loop_spec _ this1 Done []); auto.
    simpl. lia.
Qed.

Lemma getCount_loop_spec (fuel : nat) : forall (this : I) (st : cursor T) (result : Z),
  models this st -> (length (upcoming st) < fuel)%nat ->
  exists this', getCount_loop fuel result this
                = (result + Z.of_nat (length (upcoming st)), this')
                /\ models this' Done.
Proof.
  induction fuel as [|fuel IH]; intros this st result Hm Hlen; [lia|].
  simpl.
  destruct (models_next Hm) as (this1 & -> & Hm1).
  unfold advance, cursor_at in *. destruct (upcoming st) as [|value rest] eqn:Hup; simpl in *.
  - exists this1. split; auto. f_equal. lia.
  - destruct (IH this1 (At value rest) (result + 1) Hm1) as (this' & -> & Hm').
    + simpl. lia.
    + exists this'. split; auto. simpl. f_equal. lia.
Qed.

Lemma getCount_spec (this : I) (st : cursor T) :
  models this st ->
  exists this', IteratorBase_getCount this = (Z.of_nat (length (contents st)), this')
                /\ models this' Done.
Proof.
  intros Hm. unfold IteratorBase_getCount.
  destruct (models_hasCurrent Hm) as (this1 & -> & Hm1).
  destruct (@getCount_loop_spec (S (remaining this1)) this1 st
              (if positioned st then 1 else 0) Hm1) as (this' & -> & Hm').
  - pose proof (models_remaining Hm1). lia.
  - exists this'. split; auto. f_equal.
    destruct st; cbn [positioned upcoming contents length]; lia.
Qed.

Lemma first_spec (this : I) (st : cursor T) :
  models this st ->
  fst (IteratorBase_first this) = hd undefined (contents st).
Proof.
  intros Hm. unfold IteratorBase_first.
  rewrite (models_hasStarted Hm).
  destruct st as [rest|value rest|]; simpl.
  - destruct (models_next Hm) as (this1 & -> & Hm1). simpl.
    destruct (models_getCurrent Hm1) as (this2 & -> & Hm2). simpl.
    unfold advance, cursor_at. simpl. destruct rest; reflexivity.
  - destruct (models_getCurrent Hm) as (this2 & -> & Hm2). reflexivity.
  - destruct (models_getCurrent Hm) as (this2 & -> & Hm2). reflexivity.
Qed.
End IteratorBaseLaws.

(** ** Numbers: facts about integers read as numbers *)

Lemma Qle_bool_inject_Z (a b : Z) : Qle_bool (inject_Z a) (inject_Z b) = (a <=? b).
Proof. unfold Qle_bool, inject_Z. simpl. now rewrite !Z.mul_1_r. Qed.

Lemma Qlt_bool_inject_Z (a b : Z) : Qlt_bool (inject_Z a) (inject_Z b) = (a <? b).
Proof.
  unfold Qlt_bool. rewrite Qle_bool_inject_Z.
  destruct (Z.leb_spec b a), (Z.ltb_spec a b); simpl; auto; lia.
Qed.

Lemma Qred_inject_Z (a : Z) : Qred (inject_Z a) = inject_Z a.
Proof.
  unfold Qred, inject_Z.
  generalize (Z.ggcd_gcd a 1) (Z.ggcd_correct_divisors a 1).
  destruct (Z.ggcd a 1) as (g, (aa, bb)). simpl.
  rewrite Z.gcd_1_r. intros -> [Ha Hb].
  replace aa with a by lia. replace bb with 1 by lia. reflexivity.
Qed.

Lemma arrayGet_ofZ {T : Type} `{Undefined T} (array : list T) (i : Z) :
  arrayGet array (ofZ i) = if 0 <=? i then nth (Z.to_nat i) array undefined else undefined.
Proof. unfold arrayGet, ofZ. rewrite Qred_inject_Z. reflexivity. Qed.

(** ** ArrayList: what a list holds *)

Section ArrayListFacts.
Context {T : Type} `{Undefined T}.

(** The slots in use. *)
Definition ArrayList_contents (this : ArrayList T) : list T :=
  firstn (_count this) (_data this).

(** The class invariant: the slots in use lie inside the backing array. *)
Definition ArrayList_wf (this : ArrayList T) : Prop :=
  (_count this <= length (_data this))%nat.

Lemma ArrayList_contents_length (this : ArrayList T) :
  ArrayList_wf this -> length (ArrayList_contents this) = _count this.
Proof. unfold ArrayList_wf, ArrayList_contents. intros. rewrite length_firstn. lia. Qed.

Lemma ArrayList_get_ofZ (this : ArrayList T) (i : Z) :
  ArrayList_get this (ofZ i)
  = if (0 <=? i) && (i <? ArrayList_getCount this)
    then nth (Z.to_nat i) (ArrayList_contents this) undefined
    else undefined.
Proof.
  unfold ArrayList_get. rewrite arrayGet_ofZ. unfold ofZ at 1 2 3. simpl.
  rewrite Qle_bool_inject_Z, Qlt_bool_inject_Z.
  unfold ArrayList_contents, ArrayList_getCount.
  destruct (Z.leb_spec 0 i); simpl; auto.
  destruct (Z.ltb_spec i (Z.of_nat (_count this))); auto.
  rewrite nth_firstn.
  destruct (Nat.ltb_spec (Z.to_nat i) (_count this)); auto. lia.
Qed.

Lemma ArrayList_get_undefined (this : ArrayList T) :
  ArrayList_get this NumUndefined = undefined.
Proof. reflexivity. Qed.

Lemma ArrayList_add_contents (this : ArrayList T) (value : T) :
  ArrayList_wf this ->
  ArrayList_wf (ArrayList_add this value)
  /\ ArrayList_contents (ArrayList_add this value) = ArrayList_contents this ++ [value].
Proof.
  unfold ArrayList_wf, ArrayList_contents, ArrayList_add.
  destruct this as [data count]. simpl. revert count.
  induction data as [|x data IH]; intros count Hwf; simpl in *.
  - assert (count = 0%nat) by lia. subst. simpl. split; [lia | reflexivity].
  - destruct count as [|count]; simpl.
    + split; [lia | reflexivity].
    + specialize (IH count ltac:(lia)).
      destruct (Nat.eqb_spec count (length data)).
      * simpl in *. rewrite length_app in *. simpl in *. split; [lia|].
        f_equal. now destruct IH as [_ ->].
      * simpl in *. split; [lia|]. f_equal. now destruct IH as [_ ->].
Qed.

Lemma ArrayList_addAll_contents (values : list T) : forall this : ArrayList T,
  ArrayList_wf this ->
  ArrayList_wf (ArrayList_addAll this (Some values))
  /\ ArrayList_contents (ArrayList_addAll this (Some values))
     = ArrayList_contents this ++ values.
Proof.
  induction values as [|v values IH]; intros this Hwf; simpl.
  - now rewrite app_nil_r.
  - destruct (ArrayList_add_contents v Hwf) as [Hwf' Hc].
    destruct (IH _ Hwf') as [Hwf'' Hc'']. split; auto.
    simpl in Hc''. rewrite Hc'', Hc, <- app_assoc. reflexivity.
Qed.

Lemma ArrayList_of_contents (values : list T) :
  ArrayList_wf (ArrayList_of values) /\ ArrayList_contents (ArrayList_of values) = values.
Proof.
  unfold ArrayList_of.
  apply (@ArrayList_addAll_contents values new_ArrayList).
  unfold ArrayList_wf. simpl. lia.
Qed.
End ArrayListFacts.

(** ** The ArrayList iterators obey the laws *)

Section ListFacts.
Context {T : Type}.

Lemma skipn_succ_tl (n : nat) (l : list T) : skipn (S n) l = tl (skipn n l).
Proof.
  revert l. induction n; intros [|x l]; simpl; auto.
  rewrite <- IHn. reflexivity.
Qed.

Lemma hd_skipn_nth (n : nat) (l : list T) (d : T) : hd d (skipn n l) = nth n l d.
Proof. revert l. induction n; intros [|x l]; simpl; auto. Qed.

Lemma skipn_nil_iff (n : nat) (l : list T) : skipn n l = [] <-> (length l <= n)%nat.
Proof.
  split; intros Hl.
  - pose proof (length_skipn n l) as Hs. rewrite Hl in Hs. simpl in Hs. lia.
  - now apply skipn_all2.
Qed.
End ListFacts.

#[local] Arguments skipn : simpl never.

Section CursorAt.
Context {T : Type} `{Undefined T}.

Lemma advance_cursor_at (l : list T) : advance (cursor_at l) = cursor_at (tl l).
Proof. destruct l; reflexivity. Qed.

Lemma positioned_cursor_at (l : list T) :
  positioned (cursor_at l) = negb (length l =? 0)%nat.
Proof. destruct l; reflexivity. Qed.

Lemma current_cursor_at (l : list T) : current (cursor_at l) = hd undefined l.
Proof. destruct l; reflexivity. Qed.

Lemma upcoming_cursor_at (l : list T) : upcoming (cursor_at l) = tl l.
Proof. destruct l; reflexivity. Qed.

Lemma contents_cursor_at (l : list T) : contents (cursor_at l) = l.
Proof. destruct l; reflexivity. Qed.

Lemma started_cursor_at (l : list T) : started (cursor_at l) = true.
Proof. destruct l; reflexivity. Qed.

Lemma length_tl (l : list T) : length (tl l) = (length l - 1)%nat.
Proof. destruct l; simpl; lia. Qed.
End CursorAt.

Section ArrayListIteratorLaws.
Context {T : Type} `{Undefined T}.

Definition fwd_models (this : ArrayListForwardIterator T) (st : cursor T) : Prop :=
  ArrayList_wf (fwd_arrayList this) /\
  match fwd_currentIndex this with
  | None => st = NotStarted (ArrayList_contents (fwd_arrayList this))
  | Some i =>
      0 <= i <= ArrayList_getCount (fwd_arrayList this)
      /\ st = cursor_at (skipn (Z.to_nat i) (ArrayList_contents (fwd_arrayList this)))
  end.

Lemma fwd_positioned (list : ArrayList T) (i : Z) :
  ArrayList_wf list -> 0 <= i <= ArrayList_getCount list ->
  positioned (cursor_at (skipn (Z.to_nat i) (ArrayList_contents list)))
  = negb (i =? ArrayList_getCount list).
Proof.
  intros Hwf Hi. rewrite positioned_cursor_at, length_skipn, ArrayList_contents_length by auto.
  unfold ArrayList_getCount in *.
  destruct (Z.eqb_spec i (Z.of_nat (_count list))), (Nat.eqb_spec (_count list - Z.to_nat i) 0);
    simpl; auto; lia.
Qed.

Lemma fwd_models_next (this : ArrayListForwardIterator T) (st : cursor T) :
  fwd_models this st ->
  exists this', next this = (positioned (advance st), this') /\ fwd_models this' (advance st).
Proof.
  destruct this as [list [i|]]; unfold fwd_models; simpl; intros [Hwf Hst].
  - destruct Hst as [Hi ->].
    unfold ArrayListForwardIterator_next, fwd_atEnd. simpl.
    rewrite advance_cursor_at, <- skipn_succ_tl.
    destruct (Z.eqb_spec i (ArrayList_getCount list)) as [->|Hne]; simpl.
    + exists (Build_ArrayListForwardIterator list (Some (ArrayList_getCount list))).
      simpl. rewrite Z.eqb_refl. simpl. split.
      * f_equal. rewrite positioned_cursor_at. symmetry.
        apply negb_false_iff, Nat.eqb_eq.
        rewrite length_skipn, ArrayList_contents_length by auto.
        unfold ArrayList_getCount. lia.
      * split; auto. split; auto. f_equal. rewrite !skipn_all2; auto;
          rewrite ArrayList_contents_length by auto; unfold ArrayList_getCount; lia.
    + replace (S (Z.to_nat i)) with (Z.to_nat (Z.succ i)) by lia.
      exists (Build_ArrayListForwardIterator list (Some (Z.succ i))). simpl. split.
      * f_equal. symmetry. apply fwd_positioned; auto. lia.
      * split; auto. split; auto. lia.
  - subst st. unfold ArrayListForwardIterator_next, fwd_atEnd. simpl.
    exists (Build_ArrayListForwardIterator list (Some 0)). simpl. split.
    + f_equal. unfold advance. simpl. symmetry.
      apply (@fwd_positioned list 0); auto. unfold ArrayList_getCount. lia.
    + split; auto. split; auto. unfold ArrayList_getCount. lia.
Qed.

Lemma fwd_models_getCurrent (this : ArrayListForwardIterator T) (st : cursor T) :
  fwd_models this st ->
  exists this', getCurrent this = (current st, this') /\ fwd_models this' st.
Proof.
  intros Hm. exists this. split; auto.
  destruct this as [list [i|]]; unfold fwd_models in Hm; simpl in *; destruct Hm as [Hwf Hst].
  - destruct Hst as [Hi ->]. f_equal.
    rewrite ArrayList_get_ofZ, current_cursor_at, hd_skipn_nth.
    destruct (Z.leb_spec 0 i); [|lia]. simpl.
    destruct (Z.ltb_spec i (ArrayList_getCount list)); auto.
    rewrite nth_overflow; auto.
    rewrite ArrayList_contents_length by auto. unfold ArrayList_getCount in *. lia.
  - subst st. reflexivity.
Qed.

#[global] Instance ArrayListForwardIterator_Laws
  : IteratorLaws (I := ArrayListForwardIterator T) (T := T).
Proof.
  refine {| models := fwd_models;
            models_next := fwd_models_next;
            models_getCurrent := fwd_models_getCurrent |}.
  - intros [list [i|]] st [Hwf Hst]; simpl in *.
    + destruct Hst as [_ ->]. now rewrite started_cursor_at.
    + now subst st.
  - intros this st Hm. exists this. split; auto.
    destruct this as [list [i|]]; destruct Hm as [Hwf Hst]; simpl in *.
    + destruct Hst as [Hi ->]. unfold fwd_atEnd. simpl. f_equal.
      symmetry. now apply fwd_positioned.
    + now subst st.
  - intros [list [i|]] st [Hwf Hst]; simpl in *.
    + destruct Hst as [Hi ->].
      rewrite upcoming_cursor_at, length_tl, length_skipn, ArrayList_contents_length by auto.
      lia.
    + subst st. simpl. rewrite ArrayList_contents_length by auto. lia.
Defined.
End ArrayListIteratorLaws.

Section ArrayListReverseIteratorLaws.
Context {T : Type} `{Undefined T}.

Definition rev_models (this : ArrayListReverseIterator T) (st : cursor T) : Prop :=
  ArrayList_wf (rev_arrayList this) /\
  match rev_currentIndex this with
  | None => st = NotStarted (rev (ArrayList_contents (rev_arrayList this)))
  | Some i =>
      -1 <= i <= ArrayList_getCount (rev_arrayList this) - 1
      /\ st = cursor_at
                (skipn (Z.to_nat (ArrayList_getCount (rev_arrayList this) - 1 - i))
                   (rev (ArrayList_contents (rev_arrayList this))))
  end.

Lemma rev_positioned (list : ArrayList T) (i : Z) :
  ArrayList_wf list -> -1 <= i <= ArrayList_getCount list - 1 ->
  positioned (cursor_at (skipn (Z.to_nat (ArrayList_getCount list - 1 - i))
                           (rev (ArrayList_contents list))))
  = negb (i <? 0).
Proof.
  intros Hwf Hi.
  rewrite positioned_cursor_at, length_skipn, length_rev, ArrayList_contents_length by auto.
  unfold ArrayList_getCount in *.
  destruct (Z.ltb_spec i 0),
    (Nat.eqb_spec (_count list - Z.to_nat (Z.of_nat (_count list) - 1 - i)) 0);
    simpl; auto; lia.
Qed.

Lemma rev_models_next (this : ArrayListReverseIterator T) (st : cursor T) :
  rev_models this st ->
  exists this', next this = (positioned (advance st), this') /\ rev_models this' (advance st).
Proof.
  destruct this as [list [i|]]; unfold rev_models; simpl; intros [Hwf Hst].
  - destruct Hst as [Hi ->].
    unfold ArrayListReverseIterator_next, rev_atEnd. simpl.
    rewrite advance_cursor_at, <- skipn_succ_tl.
    destruct (Z.ltb_spec i 0) as [Hneg|Hpos]; simpl.
    + exists (Build_ArrayListReverseIterator list (Some i)). simpl.
      destruct (Z.ltb_spec i 0); [|lia]. simpl. split.
      * f_equal. rewrite positioned_cursor_at. symmetry.
        apply negb_false_iff, Nat.eqb_eq.
        rewrite length_skipn, length_rev, ArrayList_contents_length by auto.
        unfold ArrayList_getCount. lia.
      * split; auto. split; auto. f_equal. rewrite !skipn_all2; auto;
          rewrite length_rev, ArrayList_contents_length by auto;
          unfold ArrayList_getCount; lia.
    + replace (S (Z.to_nat (ArrayList_getCount list - 1 - i)))
        with (Z.to_nat (ArrayList_getCount list - 1 - Z.pred i)) by lia.
      exists (Build_ArrayListReverseIterator list (Some (Z.pred i))). simpl. split.
      * f_equal. symmetry. apply rev_positioned; auto. lia.
      * split; auto. split; auto. lia.
  - subst st. unfold ArrayListReverseIterator_next, rev_atEnd. simpl.
    exists (Build_ArrayListReverseIterator list (Some (ArrayList_getCount list - 1))).
    simpl. split.
    + f_equal. unfold advance. simpl. symmetry.
      replace (cursor_at (rev (ArrayList_contents list)))
        with (cursor_at (skipn (Z.to_nat (ArrayList_getCount list - 1
                                            - (ArrayList_getCount list - 1)))
                           (rev (ArrayList_contents list)))).
      * apply rev_positioned; auto. unfold ArrayList_getCount. lia.
      * now replace (ArrayList_getCount list - 1 - (ArrayList_getCount list - 1)) with 0 by lia.
    + split; auto. split; [unfold ArrayList_getCount; lia|].
      unfold advance. simpl.
      now replace (ArrayList_getCount list - 1 - (ArrayList_getCount list - 1)) with 0 by lia.
Qed.

Lemma rev_models_getCurrent (this : ArrayListReverseIterator T) (st : cursor T) :
  rev_models this st ->
  exists this', getCurrent this = (current st, this') /\ rev_models this' st.
Proof.
  intros Hm. exists this. split; auto.
  destruct this as [list [i|]]; unfold rev_models in Hm; simpl in *; destruct Hm as [Hwf Hst].
  - destruct Hst as [Hi ->]. f_equal.
    rewrite ArrayList_get_ofZ, current_cursor_at, hd_skipn_nth.
    pose proof (ArrayList_contents_length Hwf) as Hlen.
    unfold ArrayList_getCount in *.
    destruct (Z.leb_spec 0 i); simpl.
    + destruct (Z.ltb_spec i (Z.of_nat (_count list))); [|lia].
      rewrite rev_nth by lia. f_equal. lia.
    + rewrite nth_overflow; auto. rewrite length_rev. lia.
  - subst st. reflexivity.
Qed.

#[global] Instance ArrayListReverseIterator_Laws
  : IteratorLaws (I := ArrayListReverseIterator T) (T := T).
Proof.
  refine {| models := rev_models;
            models_next := rev_models_next;
            models_getCurrent := rev_models_getCurrent |}.
  - intros [list [i|]] st [Hwf Hst]; simpl in *.
    + destruct Hst as [_ ->]. now rewrite started_cursor_at.
    + now subst st.
  - intros this st Hm. exists this. split; auto.
    destruct this as [list [i|]]; destruct Hm as [Hwf Hst]; simpl in *.
    + destruct Hst as [Hi ->]. unfold rev_atEnd. simpl. f_equal.
      symmetry. now apply rev_positioned.
    + now subst st.
  - intros [list [i|]] st [Hwf Hst]; simpl in *.
    + destruct Hst as [Hi ->].
      rewrite upcoming_cursor_at, length_tl, length_skipn, length_rev,
        ArrayList_contents_length by auto.
      lia.
    + subst st. simpl. rewrite length_rev, ArrayList_contents_length by auto. lia.
Defined.

(** A list's fresh iterators, in the terms of the laws. *)
Lemma ArrayList_iterate_models (list : ArrayList T) :
  ArrayList_wf list ->
  models (ArrayList_iterate list) (NotStarted (ArrayList_contents list)).
Proof. intros Hwf. split; simpl; auto. Qed.

Lemma ArrayList_iterateReverse_models (list : ArrayList T) :
  ArrayList_wf list ->
  models (ArrayList_iterateReverse list) (NotStarted (rev (ArrayList_contents list))).
Proof. intros Hwf. split; simpl; auto. Qed.
End ArrayListReverseIteratorLaws.

(** ** WhereIterator obeys the laws *)

Section WhereIteratorLaws.
Context {I T : Type} `{IteratorLaws I T}.

(** The suffix of a list that starts at its first value matching the
    condition. *)
Fixpoint seekFrom (condition : T -> bool) (values : list T) : list T :=
  match values with
  | [] => []
  | value :: rest => if condition value then values else seekFrom condition rest
  end.

Lemma filter_seekFrom (condition : T -> bool) (values : list T) :
  filter condition values = filter condition (seekFrom condition values).
Proof.
  induction values as [|value rest IH]; simpl; auto.
  destruct (condition value) eqn:Hc; simpl; auto. now rewrite Hc.
Qed.

Lemma seekFrom_head (condition : T -> bool) (values : list T) :
  match seekFrom condition values with
  | [] => True
  | value :: _ => condition value = true
  end.
Proof.
  induction values as [|value rest IH]; simpl; auto.
  destruct (condition value) eqn:Hc; auto.
Qed.

Lemma length_seekFrom (condition : T -> bool) (values : list T) :
  (length (seekFrom condition values) <= length values)%nat.
Proof.
  induction values as [|value rest IH]; simpl; auto.
  destruct (condition value); simpl; lia.
Qed.

(** The state a [where] view shows for a state of its inner iterator. *)
Definition where_view (condition : option (T -> bool)) (st : cursor T) : cursor T :=
  match condition, st with
  | Some c, NotStarted rest => NotStarted (filter c rest)
  | Some c, At value rest => At value (filter c rest)
  | _, _ => st
  end.

Definition where_models (this : WhereIterator I T) (st : cursor T) : Prop :=
  exists inner_st,
    models (where_innerIterator this) inner_st
    /\ st = where_view (where_condition this) inner_st
    /\ match where_condition this, inner_st with
       | Some c, At value _ => c value = true
       | _, _ => True
       end.

Lemma where_view_cursor_at (c : T -> bool) (values : list T) :
  where_view (Some c) (cursor_at (seekFrom c values)) = cursor_at (filter c values).
Proof.
  rewrite (filter_seekFrom c values).
  pose proof (seekFrom_head c values) as Hhd.
  destruct (seekFrom c values) as [|value rest]; simpl in *; auto.
  now rewrite Hhd.
Qed.

Lemma upcoming_where_view (condition : option (T -> bool)) (st : cursor T) :
  upcoming (where_view condition st)
  = match condition with Some c => filter c (upcoming st) | None => upcoming st end.
Proof. destruct condition, st; reflexivity. Qed.

(** The loop of [next()] stops on the first upcoming value that matches. *)
Lemma WhereIterator_seek_spec (c : T -> bool) (fuel : nat) :
  forall (inner : I) (st : cursor T),
  models inner st -> (length (upcoming st) < fuel)%nat ->
  models (WhereIterator_seek c fuel inner) (cursor_at (seekFrom c (upcoming st))).
Proof.
  induction fuel as [|fuel IH]; intros inner st Hm Hlen; [lia|].
  simpl.
  destruct (models_next Hm) as (inner1 & -> & Hm1).
  unfold advance in *.
  destruct (upcoming st) as [|value rest] eqn:Hup; simpl in *; auto.
  destruct (models_getCurrent Hm1) as (inner2 & -> & Hm2). simpl.
  destruct (c value) eqn:Hc; simpl; auto.
  apply (IH inner2 (At value rest)); auto. simpl. lia.
Qed.

(** The constructor's loop leaves a positioned iterator on the first value,
    from the current one on, that matches. *)
Lemma WhereIterator_settle_spec (c : T -> bool) (fuel : nat) :
  forall (inner : I) (st : cursor T),
  models inner st -> (length (contents st) < fuel)%nat ->
  models (WhereIterator_settle c fuel inner)
    (match st with
     | NotStarted _ => st
     | _ => cursor_at (seekFrom c (contents st))
     end).
Proof.
  induction fuel as [|fuel IH]; intros inner st Hm Hlen; [lia|].
  simpl.
  destruct (models_hasCurrent Hm) as (inner1 & -> & Hm1).
  destruct st as [rest|value rest|]; simpl in *; auto.
  destruct (models_getCurrent Hm1) as (inner2 & -> & Hm2). simpl.
  destruct (c value) eqn:Hc; simpl; auto.
  destruct (models_next Hm2) as (inner3 & Hn & Hm3). rewrite Hn. simpl.
  unfold advance in Hm3. simpl in Hm3.
  specialize (IH inner3 (cursor_at rest) Hm3).
  rewrite contents_cursor_at in IH.
  destruct rest as [|value' rest']; simpl in *; apply IH; lia.
Qed.

#[local] Arguments where_view : simpl never.
#[local] Arguments WhereIterator_seek : simpl never.
#[local] Arguments WhereIterator_settle : simpl never.

Lemma where_models_next (this : WhereIterator I T) (st : cursor T) :
  where_models this st ->
  exists this', next this = (positioned (advance st), this') /\ where_models this' (advance st).
Proof.
  destruct this as [inner [c|]]; intros (inner_st & Hm & -> & Hc); simpl in *;
    unfold WhereIterator_next; simpl.
  - pose proof (@WhereIterator_seek_spec c (S (remaining inner)) inner inner_st Hm) as Hs.
    specialize (Hs ltac:(pose proof (models_remaining Hm); lia)).
    destruct (models_hasCurrent Hs) as (inner2 & -> & Hm2).
    unfold advance. rewrite upcoming_where_view, <- where_view_cursor_at.
    eexists; split.
    + f_equal. destruct (cursor_at (seekFrom c (upcoming inner_st))); reflexivity.
    + exists (cursor_at (seekFrom c (upcoming inner_st))). simpl. split; auto. split; auto.
      pose proof (seekFrom_head c (upcoming inner_st)) as Hhd.
      destruct (seekFrom c (upcoming inner_st)); simpl; auto.
  - destruct (models_next Hm) as (inner1 & -> & Hm1). simpl.
    destruct (models_hasCurrent Hm1) as (inner2 & -> & Hm2).
    eexists; split; [reflexivity|].
    exists (advance inner_st). simpl. auto.
Qed.

#[global] Instance WhereIterator_Laws : IteratorLaws (I := WhereIterator I T) (T := T).
Proof.
  refine {| models := where_models; models_next := where_models_next |}.
  - intros [inner c] st (inner_st & Hm & -> & Hc); simpl in *.
    rewrite (models_hasStarted Hm). destruct c, inner_st; reflexivity.
  - intros [inner c] st (inner_st & Hm & -> & Hc); simpl in *.
    destruct (models_hasCurrent Hm) as (inner1 & -> & Hm1).
    eexists; split.
    + f_equal. destruct c, inner_st; reflexivity.
    + exists inner_st. simpl. auto.
  - intros [inner c] st (inner_st & Hm & -> & Hc); simpl in *.
    destruct (models_getCurrent Hm) as (inner1 & -> & Hm1).
    eexists; split.
    + f_equal. destruct c, inner_st; reflexivity.
    + exists inner_st. simpl. auto.
  - intros [inner c] st (inner_st & Hm & -> & Hc); simpl in *.
    pose proof (models_remaining Hm) as Hr.
    rewrite upcoming_where_view. destruct c; auto.
    pose proof (filter_length_le b (upcoming inner_st)). lia.
Defined.

(** The state of a freshly built [where] decorator. *)
Definition where_of (condition : option (T -> bool)) (st : cursor T) : cursor T :=
  match condition, st with
  | Some c, NotStarted rest => NotStarted (filter c rest)
  | Some c, _ => cursor_at (filter c (contents st))
  | None, _ => st
  end.

Lemma new_WhereIterator_models (inner : I) (condition : option (T -> bool)) (st : cursor T) :
  models inner st ->
  models (new_WhereIterator inner condition) (where_of condition st).
Proof.
  intros Hm. destruct condition as [c|]; simpl.
  - pose proof (@WhereIterator_settle_spec c (S (remaining inner)) inner st Hm) as Hs.
    specialize (Hs ltac:(pose proof (models_remaining Hm); destruct st; simpl in *; lia)).
    destruct st as [rest|value rest|].
    + exists (NotStarted rest). simpl. auto.
    + exists (cursor_at (seekFrom c (value :: rest))). cbn [where_innerIterator where_condition].
      split; [exact Hs|]. split; [now rewrite where_view_cursor_at|].
      pose proof (seekFrom_head c (value :: rest)) as Hhd.
      destruct (seekFrom c (value :: rest)); simpl; auto.
    + exists Done. simpl. auto.
  - exists st. simpl. auto.
Qed.
End WhereIteratorLaws.

(** ** SkipIterator obeys the laws *)

Section AdvanceFacts.
Context {T : Type} `{Undefined T}.

Lemma started_advanceN (n : nat) (st : cursor T) :
  started st = true -> started (advanceN n st) = true.
Proof.
  revert st. induction n; intros st Hs; simpl; auto.
  apply IHn, started_advance.
Qed.

Lemma advanceN_started (n : nat) (st : cursor T) :
  started st = true -> advanceN n st = cursor_at (skipn n (contents st)).
Proof.
  revert st. induction n; intros st Hs.
  - simpl. now apply cursor_of_contents.
  - cbn [advanceN]. rewrite IHn by apply started_advance.
    rewrite contents_advance.
    destruct st; simpl in *; try discriminate; auto.
    now rewrite skipn_nil.
Qed.

Lemma advanceN_NotStarted (n : nat) (rest : list T) :
  advanceN (S n) (NotStarted rest) = cursor_at (skipn n rest).
Proof. cbn [advanceN]. now rewrite advanceN_started, contents_advance by apply started_advance. Qed.

Lemma length_upcoming_advance (st : cursor T) :
  (length (upcoming (advance st)) <= length (upcoming st))%nat.
Proof. rewrite upcoming_advance, length_tl. lia. Qed.

Lemma length_upcoming_advanceN (n : nat) (st : cursor T) :
  (length (upcoming (advanceN n st)) <= length (upcoming st))%nat.
Proof.
  revert st. induction n; intros st; simpl; auto.
  pose proof (IHn (advance st)). pose proof (length_upcoming_advance st). lia.
Qed.
End AdvanceFacts.

Section SkipIteratorLaws.
Context {I T : Type} `{IteratorLaws I T}.

(** The number of values [skipValues] still has to pass. *)
Definition skip_pending (toSkip : option Z) (skipped : Z) : nat :=
  match toSkip with
  | Some target => Z.to_nat (target - skipped)
  | None => 0
  end.

(** The state a [skip] view shows while [pending] values remain to pass. *)
Definition skip_view (pending : nat) (st : cursor T) : cursor T :=
  match st with
  | NotStarted rest => NotStarted (skipn pending rest)
  | _ => advanceN pending st
  end.

Definition skip_models (this : SkipIterator I) (st : cursor T) : Prop :=
  exists inner_st,
    models (skip_innerIterator this) inner_st
    /\ st = skip_view (skip_pending (skip_toSkip this) (skip_skipped this)) inner_st.

Lemma skip_view_0 (st : cursor T) : skip_view 0 st = st.
Proof. destruct st; reflexivity. Qed.

Lemma skipValues_loop_spec (toSkip : option Z) (fuel : nat) :
  forall (inner : I) (st : cursor T) (skipped : Z),
  models inner st -> (skip_pending toSkip skipped < fuel)%nat ->
  models (fst (skipValues_loop fuel inner toSkip skipped))
    (advanceN (skip_pending toSkip skipped) st)
  /\ skip_pending toSkip (snd (skipValues_loop fuel inner toSkip skipped)) = 0%nat.
Proof.
  induction fuel as [|fuel IH]; intros inner st skipped Hm Hfuel; [lia|].
  destruct toSkip as [target|]; simpl; [|auto].
  destruct (Z.ltb_spec skipped target) as [Hlt|Hge].
  - destruct (models_next Hm) as (inner1 & -> & Hm1).
    replace (Z.to_nat (target - skipped)) with (S (Z.to_nat (target - (skipped + 1)))) by lia.
    cbn [advanceN].
    destruct (positioned (advance st)) eqn:Hp.
    + apply IH; auto. simpl in *. lia.
    + rewrite (positioned_advance_false Hp) in *. rewrite advanceN_Done.
      destruct (IH inner1 Done target Hm1) as [IH1 IH2].
      * simpl in *. lia.
      * simpl in IH1. replace (Z.to_nat (target - target)) with 0%nat in IH1 by lia.
        auto.
  - simpl. replace (Z.to_nat (target - skipped)) with 0%nat by lia. auto.
Qed.

Lemma skipValues_spec (this : SkipIterator I) (st : cursor T) :
  models (skip_innerIterator this) st ->
  models (skip_innerIterator (skipValues this))
    (advanceN (skip_pending (skip_toSkip this) (skip_skipped this)) st)
  /\ skip_pending (skip_toSkip (skipValues this)) (skip_skipped (skipValues this)) = 0%nat
  /\ skip_toSkip (skipValues this) = skip_toSkip this.
Proof.
  intros Hm. unfold skipValues.
  destruct this as [inner toSkip skipped]. cbn [skip_innerIterator skip_toSkip skip_skipped] in *.
  match goal with |- context [skipValues_loop ?f _ _ _] => set (fuel := f) end.
  destruct (@skipValues_loop_spec toSkip fuel inner st skipped Hm) as [Hl1 Hl2].
  - subst fuel. destruct toSkip; simpl; lia.
  - destruct (skipValues_loop fuel inner toSkip skipped) as [inner' skipped'].
    simpl in *. auto.
Qed.

#[local] Arguments skipValues : simpl never.
#[local] Arguments skip_view : simpl never.

Lemma skip_models_next (this : SkipIterator I) (st : cursor T) :
  skip_models this st ->
  exists this', next this = (positioned (advance st), this') /\ skip_models this' (advance st).
Proof.
  intros (inner_st & Hm & ->).
  destruct (skipValues_spec Hm) as (Hm1 & Hp & Ht).
  simpl. unfold SkipIterator_next.
  destruct (models_next Hm1) as (inner2 & -> & Hm2).
  assert (Heq : advance (advanceN (skip_pending (skip_toSkip this) (skip_skipped this)) inner_st)
                = advance (skip_view (skip_pending (skip_toSkip this) (skip_skipped this))
                             inner_st)).
  { destruct inner_st as [rest|value rest|]; auto.
    unfold skip_view.
    destruct (skip_pending (skip_toSkip this) (skip_skipped this)) as [|n]; auto.
    rewrite advanceN_NotStarted, advance_cursor_at, <- skipn_succ_tl. reflexivity. }
  rewrite Heq in *.
  eexists; split; [reflexivity|].
  eexists; split; [exact Hm2|]. cbn [skip_toSkip skip_skipped].
  rewrite Hp. now rewrite skip_view_0.
Qed.

Lemma skip_models_hasCurrent (this : SkipIterator I) (st : cursor T) :
  skip_models this st ->
  exists this', hasCurrent this = (positioned st, this') /\ skip_models this' st.
Proof.
  intros (inner_st & Hm & ->). simpl. unfold SkipIterator_hasCurrent.
  destruct (models_hasCurrent Hm) as (inner1 & -> & Hm1).
  set (this1 := Build_SkipIterator inner1 (skip_toSkip this) (skip_skipped this)).
  destruct inner_st as [rest|value rest|]; cbn [positioned].
  - cbn [skip_innerIterator this1]. subst this1. cbn [skip_innerIterator skip_toSkip skip_skipped].
    destruct (models_hasCurrent Hm1) as (inner2 & -> & Hm2).
    eexists; split; [reflexivity|]. exists (NotStarted rest). auto.
  - destruct (@skipValues_spec this1 _ Hm1) as (Hs & Hp & Ht).
    destruct (models_hasCurrent Hs) as (inner2 & -> & Hm2).
    eexists; split; [reflexivity|].
    eexists; split; [exact Hm2|]. cbn [skip_toSkip skip_skipped].
    rewrite Hp. now rewrite skip_view_0.
  - subst this1. cbn [skip_innerIterator skip_toSkip skip_skipped].
    destruct (models_hasCurrent Hm1) as (inner2 & -> & Hm2).
    eexists; split.
    + unfold skip_view. now rewrite advanceN_Done.
    + exists Done. auto.
Qed.

Lemma skip_models_getCurrent (this : SkipIterator I) (st : cursor T) :
  skip_models this st ->
  exists this', getCurrent this = (current st, this') /\ skip_models this' st.
Proof.
  intros (inner_st & Hm & ->). simpl. unfold SkipIterator_getCurrent.
  destruct (models_hasCurrent Hm) as (inner1 & -> & Hm1).
  set (this1 := Build_SkipIterator inner1 (skip_toSkip this) (skip_skipped this)).
  destruct inner_st as [rest|value rest|]; cbn [positioned].
  - subst this1. cbn [skip_innerIterator skip_toSkip skip_skipped].
    destruct (models_getCurrent Hm1) as (inner2 & -> & Hm2).
    eexists; split; [reflexivity|]. exists (NotStarted rest). auto.
  - destruct (@skipValues_spec this1 _ Hm1) as (Hs & Hp & Ht).
    destruct (models_getCurrent Hs) as (inner2 & -> & Hm2).
    eexists; split; [reflexivity|].
    eexists; split; [exact Hm2|]. cbn [skip_toSkip skip_skipped].
    rewrite Hp. now rewrite skip_view_0.
  - subst this1. cbn [skip_innerIterator skip_toSkip skip_skipped].
    destruct (models_getCurrent Hm1) as (inner2 & -> & Hm2).
    eexists; split.
    + unfold skip_view. now rewrite advanceN_Done.
    + exists Done. auto.
Qed.

#[global] Instance SkipIterator_Laws : IteratorLaws (I := SkipIterator I) (T := T).
Proof.
  refine {| models := skip_models;
            models_hasCurrent := skip_models_hasCurrent;
            models_getCurrent := skip_models_getCurrent;
            models_next := skip_models_next |}.
  - intros this st (inner_st & Hm & ->). simpl.
    rewrite (models_hasStarted Hm).
    destruct inner_st; unfold skip_view; auto; symmetry; now apply started_advanceN.
  - intros this st (inner_st & Hm & ->). simpl.
    pose proof (models_remaining Hm) as Hr.
    assert (length (upcoming (skip_view (skip_pending (skip_toSkip this) (skip_skipped this))
                                inner_st)) <= length (upcoming inner_st))%nat; [|lia].
    destruct inner_st; unfold skip_view; try apply length_upcoming_advanceN.
    simpl. rewrite length_skipn. lia.
Defined.

(** The state of a freshly built [skip] decorator. *)
Lemma new_SkipIterator_models (inner : I) (toSkip : option Z) (st : cursor T) :
  models inner st ->
  models (new_SkipIterator inner toSkip) (skip_view (skip_pending toSkip 0) st).
Proof. intros Hm. exists st. simpl. auto. Qed.
End SkipIteratorLaws.

(** ** TakeIterator obeys the laws, when its bound lets it start *)

Section TakeIteratorLaws.
Context {I T : Type} `{IteratorLaws I T}.

(** How many more values the bound admits after the current one. *)
Definition take_room (toTake : option Z) (taken : Z) : nat :=
  match toTake with
  | Some bound => Z.to_nat (bound - taken)
  | None => 0
  end.

(** The state a [take] view shows for a state of its inner iterator. *)
Definition take_view (toTake : option Z) (taken : Z) (st : cursor T) : cursor T :=
  match st with
  | NotStarted rest => NotStarted (firstn (take_room toTake taken) rest)
  | At value rest =>
      if count_le taken toTake
      then At value (firstn (take_room toTake taken) rest)
      else Done
  | Done => Done
  end.

(** A decorator over an iterator that has not started is only lawful with
    a bound that lets [next()] reach the inner iterator: with an undefined
    or negative bound [next()] leaves it untouched, and [hasStarted()]
    stays false. *)
Definition take_models (this : TakeIterator I) (st : cursor T) : Prop :=
  exists inner_st,
    models (take_innerIterator this) inner_st
    /\ st = take_view (take_toTake this) (take_taken this) inner_st
    /\ (started inner_st = false ->
        take_taken this = 0 /\ count_le 0 (take_toTake this) = true).

Lemma canTakeValue_eq (this : TakeIterator I) :
  canTakeValue this = count_le (take_taken this) (take_toTake this).
Proof. unfold canTakeValue. destruct (take_toTake this); reflexivity. Qed.

Lemma take_models_hasCurrent (this : TakeIterator I) (st : cursor T) :
  take_models this st ->
  exists this', hasCurrent this = (positioned st, this') /\ take_models this' st.
Proof.
  intros (inner_st & Hm & -> & Hns). simpl. unfold TakeIterator_hasCurrent.
  destruct (models_hasCurrent Hm) as (inner1 & -> & Hm1).
  eexists; split.
  - f_equal. rewrite canTakeValue_eq. cbn [take_toTake take_taken].
    destruct inner_st; simpl; auto.
    now destruct (count_le (take_taken this) (take_toTake this)).
  - exists inner_st. auto.
Qed.

Lemma take_models_getCurrent (this : TakeIterator I) (st : cursor T) :
  take_models this st ->
  exists this', getCurrent this = (current st, this') /\ take_models this' st.
Proof.
  intros Hm. simpl. unfold TakeIterator_getCurrent.
  destruct (take_models_hasCurrent Hm) as (this1 & Hh & Hm1).
  simpl in Hh. rewrite Hh.
  destruct Hm1 as (inner_st & Hmi & -> & Hns).
  destruct (positioned (take_view (take_toTake this1) (take_taken this1) inner_st)) eqn:Hp.
  - destruct (models_getCurrent Hmi) as (inner2 & -> & Hm2).
    eexists; split.
    + f_equal. destruct inner_st; simpl in *; try discriminate.
      now destruct (count_le (take_taken this1) (take_toTake this1)).
    + exists inner_st. auto.
  - eexists; split.
    + f_equal. destruct inner_st; simpl in *; auto.
      now destruct (count_le (take_taken this1) (take_toTake this1)).
    + exists inner_st. auto.
Qed.

Lemma firstn_succ_cons (n : nat) (value : T) (rest : list T) :
  firstn (S n) (value :: rest) = value :: firstn n rest.
Proof. reflexivity. Qed.

Lemma take_models_next (this : TakeIterator I) (st : cursor T) :
  take_models this st ->
  exists this', next this = (positioned (advance st), this') /\ take_models this' (advance st).
Proof.
  intros (inner_st & Hm & -> & Hns).
  destruct this as [inner toTake taken]. cbn [take_innerIterator take_toTake take_taken] in *.
  simpl. unfold TakeIterator_next. rewrite canTakeValue_eq.
  cbn [take_innerIterator take_toTake take_taken].
  destruct (count_le taken toTake) eqn:Hle.
  - (* the bound admits one more value *)
    destruct (models_next Hm) as (inner1 & -> & Hm1). cbn [snd].
    assert (Hview : take_view toTake (taken + 1) (advance inner_st)
                    = advance (take_view toTake taken inner_st)).
    { destruct toTake as [bound|]; [|discriminate]. simpl in Hle.
      apply Z.leb_le in Hle.
      unfold advance. destruct inner_st as [rest|value rest|]; simpl; auto.
      - destruct rest as [|value rest]; simpl.
        + now rewrite firstn_nil.
        + destruct (Z.leb_spec (taken + 1) bound).
          * replace (Z.to_nat (bound - taken)) with (S (Z.to_nat (bound - (taken + 1)))) by lia.
            reflexivity.
          * replace (Z.to_nat (bound - taken)) with 0%nat by lia. reflexivity.
      - destruct (Z.leb_spec taken bound); [|lia]. simpl.
        destruct rest as [|value' rest]; simpl.
        + now rewrite firstn_nil.
        + destruct (Z.leb_spec (taken + 1) bound).
          * replace (Z.to_nat (bound - taken)) with (S (Z.to_nat (bound - (taken + 1)))) by lia.
            reflexivity.
          * replace (Z.to_nat (bound - taken)) with 0%nat by lia. reflexivity. }
    rewrite <- Hview.
    assert (Hm' : take_models (Build_TakeIterator inner1 toTake (taken + 1))
                    (take_view toTake (taken + 1) (advance inner_st))).
    { exists (advance inner_st). cbn [take_innerIterator take_toTake take_taken].
      split; auto. split; auto. rewrite started_advance. discriminate. }
    destruct (take_models_hasCurrent Hm') as (this2 & Hh & Hm2).
    simpl in Hh. rewrite Hh. eauto.
  - (* the bound is used up, or there is none *)
    assert (Hdone : take_view toTake taken inner_st = Done).
    { destruct inner_st as [rest|value rest|]; simpl; auto.
      - destruct (Hns eq_refl) as [-> Hz]. congruence.
      - now rewrite Hle. }
    rewrite Hdone in *.
    assert (Hm' : take_models (Build_TakeIterator inner toTake taken) Done).
    { exists inner_st. cbn [take_innerIterator take_toTake take_taken]. auto. }
    destruct (take_models_hasCurrent Hm') as (this2 & Hh & Hm2).
    simpl in Hh. rewrite Hh. eauto.
Qed.

#[global] Instance TakeIterator_Laws : IteratorLaws (I := TakeIterator I) (T := T).
Proof.
  refine {| models := take_models;
            models_hasCurrent := take_models_hasCurrent;
            models_getCurrent := take_models_getCurrent;
            models_next := take_models_next |}.
  - intros this st (inner_st & Hm & -> & Hns). simpl.
    rewrite (models_hasStarted Hm).
    destruct inner_st; simpl; auto.
    now destruct (count_le (take_taken this) (take_toTake this)).
  - intros this st (inner_st & Hm & -> & Hns). simpl.
    pose proof (models_remaining Hm) as Hr.
    assert (length (upcoming (take_view (take_toTake this) (take_taken this) inner_st))
            <= length (upcoming inner_st))%nat; [|lia].
    destruct inner_st; simpl; auto.
    + rewrite length_firstn. lia.
    + destruct (count_le (take_taken this) (take_toTake this)); simpl; [|lia].
      rewrite length_firstn. lia.
Defined.

(** The state of a freshly built [take] decorator. *)
Lemma new_TakeIterator_models (inner : I) (toTake : option Z) (st : cursor T) :
  models inner st ->
  (started st = false -> count_le 0 toTake = true) ->
  models (new_TakeIterator inner toTake)
    (take_view toTake (if positioned st then 1 else 0) st).
Proof.
  intros Hm Hb. unfold new_TakeIterator.
  destruct (models_hasCurrent Hm) as (inner1 & -> & Hm1).
  exists st. cbn [take_innerIterator take_toTake take_taken].
  split; auto. split; auto. intros Hs. split; auto.
  destruct st; simpl in *; auto; discriminate.
Qed.
End TakeIteratorLaws.

(** ** MapIterator obeys the laws *)

Section MapIteratorLaws.
Context {I InnerT OuterT : Type} `{IteratorLaws I InnerT} `{Undefined OuterT}.

Definition map_view (f : InnerT -> OuterT) (st : cursor InnerT) : cursor OuterT :=
  match st with
  | NotStarted rest => NotStarted (map f rest)
  | At value rest => At (f value) (map f rest)
  | Done => Done
  end.

Definition map_models (this : MapIterator I InnerT OuterT) (st : cursor OuterT) : Prop :=
  match map_mapFunction this with
  | Some f =>
      exists inner_st,
        models (map_innerIterator this) inner_st
        /\ st = map_view f inner_st
        /\ map_started this = started inner_st
  | None => st = if map_started this then Done else NotStarted []
  end.

Lemma map_view_advance (f : InnerT -> OuterT) (st : cursor InnerT) :
  map_view f (advance st) = advance (map_view f st).
Proof.
  unfold advance. destruct st as [rest|value rest|]; simpl; auto;
    destruct rest; reflexivity.
Qed.

Lemma map_models_hasCurrent (this : MapIterator I InnerT OuterT) (st : cursor OuterT) :
  map_models this st ->
  exists this', hasCurrent this = (positioned st, this') /\ map_models this' st.
Proof.
  destruct this as [inner [f|] started_]; unfold map_models; simpl;
    unfold MapIterator_hasCurrent; simpl.
  - intros (inner_st & Hm & -> & Hs).
    destruct (models_hasCurrent Hm) as (inner1 & -> & Hm1).
    eexists; split.
    + f_equal. now destruct inner_st.
    + simpl. eauto.
  - intros ->. exists (Build_MapIterator inner (@None (InnerT -> OuterT)) started_).
    split; [|reflexivity]. now destruct started_.
Qed.

Lemma map_models_getCurrent (this : MapIterator I InnerT OuterT) (st : cursor OuterT) :
  map_models this st ->
  exists this', getCurrent this = (current st, this') /\ map_models this' st.
Proof.
  intros Hm. simpl. unfold MapIterator_getCurrent.
  destruct (map_models_hasCurrent Hm) as (this1 & Hh & Hm1).
  simpl in Hh. rewrite Hh. clear Hh Hm.
  destruct this1 as [inner [f|] started_]; unfold map_models in *; simpl in *.
  - destruct Hm1 as (inner_st & Hm & -> & Hs).
    destruct inner_st as [rest|value rest|]; simpl.
    + eexists; split; [reflexivity|]. simpl. exists (NotStarted rest). auto.
    + destruct (models_getCurrent Hm) as (inner1 & -> & Hm1).
      eexists; split; [reflexivity|]. simpl. exists (At value rest). auto.
    + eexists; split; [reflexivity|]. simpl. exists Done. auto.
  - subst st. exists (Build_MapIterator inner (@None (InnerT -> OuterT)) started_).
    split; [|reflexivity]. now destruct started_.
Qed.

Lemma map_models_next (this : MapIterator I InnerT OuterT) (st : cursor OuterT) :
  map_models this st ->
  exists this', next this = (positioned (advance st), this') /\ map_models this' (advance st).
Proof.
  destruct this as [inner [f|] started_]; unfold map_models; simpl;
    unfold MapIterator_next; simpl.
  - intros (inner_st & Hm & -> & Hs).
    destruct (models_next Hm) as (inner1 & -> & Hm1).
    rewrite <- map_view_advance.
    eexists; split.
    + f_equal. now destruct (advance inner_st).
    + simpl. exists (advance inner_st). split; auto. split; auto.
      now rewrite started_advance.
  - intros ->. exists (Build_MapIterator inner (@None (InnerT -> OuterT)) true).
    split; now destruct started_.
Qed.

#[global] Instance MapIterator_Laws
  : IteratorLaws (I := MapIterator I InnerT OuterT) (T := OuterT).
Proof.
  refine {| models := map_models;
            models_hasCurrent := map_models_hasCurrent;
            models_getCurrent := map_models_getCurrent;
            models_next := map_models_next |}.
  - intros [inner [f|] started_] st; unfold map_models; simpl.
    + intros (inner_st & Hm & -> & ->). now destruct inner_st.
    + intros ->. now destruct started_.
  - intros [inner [f|] started_] st; unfold map_models; simpl.
    + intros (inner_st & Hm & -> & _).
      pose proof (models_remaining Hm).
      assert (length (upcoming (map_view f inner_st)) = length (upcoming inner_st)).
      { destruct inner_st; simpl; auto; apply length_map. }
      lia.
    + intros ->. destruct started_; simpl; lia.
Defined.

(** The state of a freshly built [map] decorator. *)
Lemma new_MapIterator_models (inner : I) (f : InnerT -> OuterT) (st : cursor InnerT) :
  models inner st ->
  models (new_MapIterator inner (Some f)) (map_view f st).
Proof.
  intros Hm. exists st. simpl. split; auto. split; auto.
  apply (models_hasStarted Hm).
Qed.

Lemma new_MapIterator_undefined_models (inner : I) :
  hasStarted inner = false ->
  models (new_MapIterator inner (@None (InnerT -> OuterT))) (NotStarted []).
Proof. intros Hs. simpl. unfold map_models. simpl. now rewrite Hs. Qed.
End MapIteratorLaws.

(** ** ConcatenateIterator obeys the laws *)

Section ConcatenateIteratorLaws.
Context {I1 I2 T : Type} `{Undefined T}.
Context {iterator1 : Iterator I1 T} {iterator2 : Iterator I2 T}.
Context {laws1 : IteratorLaws (I := I1) (T := T)} {laws2 : IteratorLaws (I := I2) (T := T)}.

(** The state of a concatenation: the second iterator is reached when the
    first one is exhausted. *)
Definition concat_view (st1 st2 : cursor T) : option (cursor T) :=
  match st1, st2 with
  | NotStarted rest1, NotStarted rest2 => Some (NotStarted (rest1 ++ rest2))
  | At value rest1, NotStarted rest2 => Some (At value (rest1 ++ rest2))
  | Done, NotStarted _ => None
  | Done, _ => Some st2
  | _, _ => None
  end.

Definition concat_models (this : ConcatenateIterator I1 I2) (st : cursor T) : Prop :=
  exists st1 st2,
    models (concat_first this) st1
    /\ models (concat_second this) st2
    /\ concat_view st1 st2 = Some st.

Lemma concat_models_hasCurrent (this : ConcatenateIterator I1 I2) (st : cursor T) :
  concat_models this st ->
  exists this', hasCurrent this = (positioned st, this') /\ concat_models this' st.
Proof.
  intros (st1 & st2 & Hm1 & Hm2 & Hv). simpl. unfold ConcatenateIterator_hasCurrent.
  destruct (models_hasCurrent Hm1) as (first & -> & Hf).
  destruct st1 as [rest1|value rest1|]; simpl in *.
  - destruct st2; try discriminate. injection Hv as <-.
    destruct (models_hasCurrent Hm2) as (second & -> & Hs).
    eexists; split; [reflexivity|]. exists (NotStarted rest1), (NotStarted rest). auto.
  - destruct st2; try discriminate. injection Hv as <-.
    eexists; split; [reflexivity|]. exists (At value rest1), (NotStarted rest). auto.
  - destruct (models_hasCurrent Hm2) as (second & -> & Hs).
    destruct st2; try discriminate; injection Hv as <-;
      (eexists; split; [reflexivity|]); eexists Done, _; simpl; eauto.
Qed.

Lemma concat_models_getCurrent (this : ConcatenateIterator I1 I2) (st : cursor T) :
  concat_models this st ->
  exists this', getCurrent this = (current st, this') /\ concat_models this' st.
Proof.
  intros (st1 & st2 & Hm1 & Hm2 & Hv). simpl. unfold ConcatenateIterator_getCurrent.
  destruct (models_hasCurrent Hm1) as (first & -> & Hf).
  destruct st1 as [rest1|value rest1|]; simpl in *.
  - destruct st2; try discriminate. injection Hv as <-.
    destruct (models_getCurrent Hm2) as (second & -> & Hs).
    eexists; split; [reflexivity|]. exists (NotStarted rest1), (NotStarted rest). auto.
  - destruct st2; try discriminate. injection Hv as <-.
    destruct (models_getCurrent Hf) as (first' & -> & Hf').
    eexists; split; [reflexivity|]. exists (At value rest1), (NotStarted rest). auto.
  - destruct (models_getCurrent Hm2) as (second & -> & Hs).
    destruct st2; try discriminate; injection Hv as <-;
      (eexists; split; [reflexivity|]); eexists Done, _; simpl; eauto.
Qed.

Lemma concat_view_Done_cursor_at (values : list T) :
  concat_view Done (cursor_at values) = Some (cursor_at values).
Proof. destruct values; reflexivity. Qed.

Lemma concat_models_next (this : ConcatenateIterator I1 I2) (st : cursor T) :
  concat_models this st ->
  exists this', next this = (positioned (advance st), this') /\ concat_models this' (advance st).
Proof.
  intros (st1 & st2 & Hm1 & Hm2 & Hv). simpl. unfold ConcatenateIterator_next.
  destruct (models_next Hm1) as (first & -> & Hf).
  destruct (models_next Hm2) as (second & Hn2 & Hs).
  unfold advance in *.
  destruct st1 as [rest1|value rest1|], st2 as [rest2|value2 rest2|];
    simpl in *; try discriminate; injection Hv as <-; simpl in *.
  - destruct rest1 as [|value1 rest1]; simpl in *.
    + rewrite Hn2. eexists; split; [reflexivity|].
      exists Done, (cursor_at rest2). simpl.
      split; auto. split; auto. apply concat_view_Done_cursor_at.
    + eexists; split; [reflexivity|].
      exists (At value1 rest1), (NotStarted rest2). simpl. auto.
  - destruct rest1 as [|value1 rest1]; simpl in *.
    + rewrite Hn2. eexists; split; [reflexivity|].
      exists Done, (cursor_at rest2). simpl.
      split; auto. split; auto. apply concat_view_Done_cursor_at.
    + eexists; split; [reflexivity|].
      exists (At value1 rest1), (NotStarted rest2). simpl. auto.
  - rewrite Hn2. eexists; split; [reflexivity|].
    exists Done, (cursor_at rest2). simpl.
    split; auto. split; auto. apply concat_view_Done_cursor_at.
  - rewrite Hn2. eexists; split; [reflexivity|].
    exists Done, Done. simpl. auto.
Qed.

#[global] Instance ConcatenateIterator_Laws
  : IteratorLaws (I := ConcatenateIterator I1 I2) (T := T).
Proof.
  refine {| models := concat_models;
            models_hasCurrent := concat_models_hasCurrent;
            models_getCurrent := concat_models_getCurrent;
            models_next := concat_models_next |}.
  - intros this st (st1 & st2 & Hm1 & Hm2 & Hv). simpl.
    rewrite (models_hasStarted Hm1).
    destruct st1, st2; simpl in *; try discriminate; injection Hv as <-; auto.
  - intros this st (st1 & st2 & Hm1 & Hm2 & Hv). simpl.
    pose proof (models_remaining Hm1). pose proof (models_remaining Hm2).
    destruct st1, st2; simpl in *; try discriminate; injection Hv as <-; simpl in *;
      rewrite ?length_app; lia.
Defined.

Lemma new_ConcatenateIterator_models (first : I1) (second : I2) (rest1 rest2 : list T) :
  models first (NotStarted rest1) -> models second (NotStarted rest2) ->
  models (Build_ConcatenateIterator first second) (NotStarted (rest1 ++ rest2)).
Proof. intros Hm1 Hm2. exists (NotStarted rest1), (NotStarted rest2). simpl. auto. Qed.
End ConcatenateIteratorLaws.

(** ** StringIterator *)

(** A string is a sequence of characters; [text[index]] is a character or
    [undefined].  The text itself may be [undefined]: [getLength] then
    answers 0, and indexing it, a TypeError in the source, is read as
    [undefined] (no iterator built with the default bounds reaches it). *)
Definition getLength (value : option string) : Z :=
  match value with
  | Some text => Z.of_nat (String.length text)
  | None => 0
  end.

Definition charAt (text : option string) (index : Z) : option ascii :=
  match text with
  | Some s => if index <? 0 then None else String.get (Z.to_nat index) s
  | None => None
  end.

Record StringIterator : Type := {
  _text : option string;
  _startIndex : Z;
  _endIndex : Z;
  _currentIndex : Z;
  _started : bool;
  _step : Z
}.

(** [constructor(text, startIndex = 0, endIndex = getLength(text))] *)
Definition new_StringIterator (text : option string) (startIndex endIndex : option Z)
  : StringIterator :=
  let startIndex' := match startIndex with Some s => s | None => 0 end in
  let endIndex' := match endIndex with Some e => e | None => getLength text end in
  {| _text := text;
     _startIndex := startIndex';
     _endIndex := endIndex';
     _currentIndex := startIndex';
     _started := false;
     _step := if endIndex' >=? startIndex' then 1 else -1 |}.

(** [(this._step > 0) ? this._currentIndex < this._endIndex : this._currentIndex > this._endIndex] *)
Definition hasMore (this : StringIterator) : bool :=
  if _step this >? 0
  then _currentIndex this <? _endIndex this
  else _currentIndex this >? _endIndex this.

Definition StringIterator_hasCurrent (this : StringIterator) : bool :=
  _started this && hasMore this.

(** [get currentIndex()] *)
Definition StringIterator_currentIndex (this : StringIterator) : option Z :=
  if StringIterator_hasCurrent this then Some (_currentIndex this) else None.

Definition StringIterator_getCurrent (this : StringIterator) : option ascii :=
  if StringIterator_hasCurrent this then charAt (_text this) (_currentIndex this) else None.

Definition StringIterator_next (this : StringIterator) : bool * StringIterator :=
  let this1 :=
    if negb (_started this)
    then {| _text := _text this; _startIndex := _startIndex this;
            _endIndex := _endIndex this; _currentIndex := _currentIndex this;
            _started := true; _step := _step this |}
    else if hasMore this
         then {| _text := _text this; _startIndex := _startIndex this;
                 _endIndex := _endIndex this;
                 _currentIndex := _currentIndex this + _step this;
                 _started := _started this; _step := _step this |}
         else this in
  (hasMore this1, this1).

(** The number of positions from the current one to the end. *)
Definition StringIterator_left (this : StringIterator) : nat :=
  Z.to_nat (if _step this >? 0
            then _endIndex this - _currentIndex this
            else _currentIndex this - _endIndex this).

#[global] Instance StringIterator_Iterator : Iterator StringIterator (option ascii) := {
  hasStarted := _started;
  hasCurrent this := (StringIterator_hasCurrent this, this);
  next := StringIterator_next;
  getCurrent this := (StringIterator_getCurrent this, this);
  remaining this := S (StringIterator_left this)
}.

(** [StringIterable.iterate()] and [iterateReverse()] *)
Definition StringIterable_iterate (text : option string) : StringIterator :=
  new_StringIterator text (Some 0) (Some (getLength text)).

Definition StringIterable_iterateReverse (text : option string) : StringIterator :=
  new_StringIterator text (Some (getLength text - 1)) (Some (-1)).

(** *** StringIterator obeys the laws *)

(** The characters at [count] positions from [index] on, [step] apart. *)
Fixpoint charsFrom (text : option string) (index step : Z) (count : nat)
  : list (option ascii) :=
  match count with
  | O => []
  | S count' => charAt text index :: charsFrom text (index + step) step count'
  end.

Definition StringIterator_values (this : StringIterator) : list (option ascii) :=
  charsFrom (_text this) (_currentIndex this) (_step this) (StringIterator_left this).

Definition string_models (this : StringIterator) (st : cursor (option ascii)) : Prop :=
  (_step this = 1 \/ _step this = -1)
  /\ st = if _started this
          then cursor_at (StringIterator_values this)
          else NotStarted (StringIterator_values this).

Lemma hasMore_left (this : StringIterator) :
  _step this = 1 \/ _step this = -1 ->
  hasMore this = negb (StringIterator_left this =? 0)%nat.
Proof.
  unfold hasMore, StringIterator_left. intros [-> | ->]; simpl.
  - destruct (Z.ltb_spec (_currentIndex this) (_endIndex this)),
      (Nat.eqb_spec (Z.to_nat (_endIndex this - _currentIndex this)) 0); simpl; auto; lia.
  - destruct (Z.gtb_spec (_currentIndex this) (_endIndex this)),
      (Nat.eqb_spec (Z.to_nat (_currentIndex this - _endIndex this)) 0); simpl; auto; lia.
Qed.

Lemma length_charsFrom (text : option string) (count : nat) : forall index step,
  length (charsFrom text index step count) = count.
Proof. induction count; intros; simpl; auto. Qed.

Lemma string_models_next (this : StringIterator) (st : cursor (option ascii)) :
  string_models this st ->
  exists this', next this = (positioned (advance st), this') /\ string_models this' (advance st).
Proof.
  intros [Hstep ->]. simpl. unfold StringIterator_next.
  destruct this as [text startIndex endIndex currentIndex started_ step].
  simpl in *. destruct started_; simpl.
  - rewrite advance_cursor_at.
    pose proof (@hasMore_left (Build_StringIterator text startIndex endIndex currentIndex
                                 true step) Hstep) as Hmore.
    rewrite Hmore.
    unfold StringIterator_values, StringIterator_left, hasMore in *. simpl in *.
    set (left := Z.to_nat (if step >? 0 then endIndex - currentIndex
                           else currentIndex - endIndex)) in *.
    destruct left as [|left'] eqn:Hleft; simpl.
    + eexists; split; [f_equal; apply Hmore|]. split; auto. simpl.
      unfold StringIterator_values, StringIterator_left. simpl.
      fold left. now rewrite Hleft.
    + eexists; split.
      * f_equal. unfold hasMore. simpl.
        rewrite positioned_cursor_at, length_charsFrom.
        subst left. destruct Hstep as [-> | ->]; simpl in *.
        -- destruct (Z.ltb_spec (currentIndex + 1) endIndex), (Nat.eqb_spec left' 0);
             simpl; auto; lia.
        -- destruct (Z.gtb_spec (currentIndex + -1) endIndex), (Nat.eqb_spec left' 0);
             simpl; auto; lia.
      * split; auto. simpl. unfold StringIterator_values, StringIterator_left. simpl.
        f_equal. f_equal. subst left. destruct Hstep as [-> | ->]; simpl in *; lia.
  - eexists; split.
    + f_equal. unfold advance. simpl.
      rewrite (@hasMore_left (Build_StringIterator text startIndex endIndex currentIndex
                                true step) Hstep).
      rewrite positioned_cursor_at. unfold StringIterator_values. simpl.
      now rewrite length_charsFrom.
    + split; auto.
Qed.

#[global] Instance StringIterator_Laws
  : IteratorLaws (I := StringIterator) (T := option ascii).
Proof.
  refine {| models := string_models; models_next := string_models_next |}.
  - intros this st [Hstep ->]. simpl. destruct (_started this); auto.
    now rewrite started_cursor_at.
  - intros this st [Hstep ->]. exists this. split; [|split; auto].
    simpl. f_equal. unfold StringIterator_hasCurrent.
    rewrite (hasMore_left Hstep). destruct (_started this); simpl; auto.
    rewrite positioned_cursor_at. unfold StringIterator_values.
    now rewrite length_charsFrom.
  - intros this st [Hstep ->]. exists this. split; [|split; auto].
    simpl. f_equal. unfold StringIterator_getCurrent, StringIterator_hasCurrent.
    rewrite (hasMore_left Hstep). destruct (_started this); simpl; auto.
    rewrite current_cursor_at. unfold StringIterator_values.
    destruct (StringIterator_left this); reflexivity.
  - intros this st [Hstep ->]. simpl.
    assert (length (StringIterator_values this) = StringIterator_left this)
      by apply length_charsFrom.
    destruct (_started this); simpl; [|lia].
    rewrite upcoming_cursor_at, length_tl. lia.
Defined.

Lemma new_StringIterator_models (text : option string) (startIndex endIndex : option Z) :
  models (new_StringIterator text startIndex endIndex)
    (NotStarted (StringIterator_values (new_StringIterator text startIndex endIndex))).
Proof.
  split; [|reflexivity]. simpl.
  destruct (_ >=? _); auto.
Qed.

(** ** Integer numbers

    A number of the code is a double.  The indexes and lengths of spans
    and lexes are integers and are kept in [Z]: every integer of magnitude
    up to 2^53 is a number, and beyond that the integers with a
    significand of 53 bits.  [+] and [-] give the number nearest to the
    exact sum or difference, and of two equally near ones the one with the
    even significand; [nearestNumber] is that rounding.  (It is the
    rounding of the finite range: from 2^1024 - 2^970 on the source has
    [Infinity], which the integers do not hold.) *)
Definition nearestNumber (z : Z) : Z :=
  let magnitude := Z.abs z in
  let spacing := 2 ^ Z.max 0 (Z.log2 magnitude - 52) in
  let below := magnitude / spacing in
  let rest := magnitude mod spacing in
  let significand :=
    if 2 * rest <? spacing then below
    else if spacing <? 2 * rest then below + 1
    else if Z.even below then below else below + 1 in
  Z.sgn z * (significand * spacing).

(** [a + b] and [a - b] on integer numbers. *)
Definition integer_add (a b : Z) : Z := nearestNumber (a + b).

Definition integer_sub (a b : Z) : Z := nearestNumber (a - b).

(** The integers on which the arithmetic of the code is exact. *)
Definition exactInteger (z : Z) : Prop := - 2 ^ 53 <= z <= 2 ^ 53.

Lemma nearestNumber_exact (z : Z) : exactInteger z -> nearestNumber z = z.
Proof.
  unfold exactInteger. intros Hz.
  destruct (Z.eq_dec (Z.abs z) (2 ^ 53)) as [Hmax|Hbelow].
  - assert (Hcases : z = 2 ^ 53 \/ z = - 2 ^ 53) by lia.
    destruct Hcases as [-> | ->]; vm_compute; reflexivity.
  - assert (Hlog : Z.log2 (Z.abs z) < 53).
    { destruct (Z.eq_dec (Z.abs z) 0) as [->|Hnonzero]; [simpl; lia|].
      apply Z.log2_lt_pow2; lia. }
    unfold nearestNumber. cbv zeta.
    replace (Z.max 0 (Z.log2 (Z.abs z) - 52)) with 0 by lia.
    change (2 ^ 0) with 1. rewrite Z.div_1_r, Z.mod_1_r. cbn [Z.mul Z.ltb Z.compare].
    destruct z; simpl; lia.
Qed.

Lemma integer_add_exact (a b : Z) : exactInteger (a + b) -> integer_add a b = a + b.
Proof. apply nearestNumber_exact. Qed.

Lemma integer_sub_exact (a b : Z) : exactInteger (a - b) -> integer_sub a b = a - b.
Proof. apply nearestNumber_exact. Qed.

(** ** Span *)

Record Span : Type := {
  span_startIndex : Z;
  span_length : Z
}.

(** [get afterEndIndex()]: [this.startIndex + this.length] *)
Definition Span_afterEndIndex (this : Span) : Z :=
  integer_add (span_startIndex this) (span_length this).

(** [get endIndex()]: [this.afterEndIndex - 1] *)
Definition Span_endIndex (this : Span) : Z := integer_sub (Span_afterEndIndex this) 1.

(** The decimal digits of a natural number, most significant first. *)
Fixpoint digitsOf (fuel : nat) (n : Z) (acc : string) : string :=
  match fuel with
  | O => acc
  | S fuel' =>
      let acc' := String (ascii_of_nat (48 + Z.to_nat (n mod 10))) acc in
      if n / 10 =? 0 then acc' else digitsOf fuel' (n / 10) acc'
  end.

(** An integer in decimal, with its sign; it has no more decimal digits
    than binary ones. *)
Definition decimal (z : Z) : string :=
  let digits := digitsOf (S (Z.to_nat (Z.log2 (Z.abs z)))) (Z.abs z) EmptyString in
  if z <? 0 then String "-" digits else digits.

(** A number inside a template string: an integer of magnitude up to 2^53
    prints in decimal.  Past that the source prints the fewest digits that
    give the number back, filled up with zeros (2^60 prints as
    ["1152921504606847000"]), and from 10^21 on the exponent form
    (["1e+21"]); these are not worked out here: [None]. *)
Definition numberToString (z : Z) : option string :=
  if Z.abs z <=? 2 ^ 53 then Some (decimal z) else None.

(** [toString()]: [`[${this.startIndex},${this.afterEndIndex})`] *)
Definition Span_toString (this : Span) : option string :=
  match numberToString (span_startIndex this), numberToString (Span_afterEndIndex this) with
  | Some startIndex, Some afterEndIndex =>
      Some ("[" ++ startIndex ++ "," ++ afterEndIndex ++ ")")%string
  | _, _ => None
  end.

(** ** Lex *)

Inductive LexType : Type :=
| LexType_LeftCurlyBracket
| LexType_RightCurlyBracket
| LexType_LeftSquareBracket
| LexType_RightSquareBracket
| LexType_LeftAngleBracket
| LexType_RightAngleBracket
| LexType_LeftParenthesis
| LexType_RightParenthesis
| LexType_Letters
| LexType_SingleQuote
| LexType_DoubleQuote
| LexType_Digits
| LexType_Comma
| LexType_Colon
| LexType_Semicolon
| LexType_ExclamationPoint
| LexType_Backslash
| LexType_ForwardSlash
| LexType_QuestionMark
| LexType_Dash
| LexType_Plus
| LexType_EqualsSign
| LexType_Period
| LexType_Underscore
| LexType_Ampersand
| LexType_VerticalBar
| LexType_Space
| LexType_Tab
| LexType_CarriageReturn
| LexType_NewLine
| LexType_CarriageReturnNewLine
| LexType_Asterisk
| LexType_Percent
| LexType_Hash
| LexType_Unrecognized.

(** The text of a lex is a string value, [undefined] included: the lexer
    hands [Unrecognized] and [Letters] whatever the character iterator
    returned. *)
Record Lex : Type := {
  lex_text : option string;
  lex_startIndex : Z;
  lex_type : LexType
}.

Definition Lex_toString (this : Lex) : option string := lex_text this.

Definition Lex_getType (this : Lex) : LexType := lex_type this.

Definition Lex_isWhitespace (this : Lex) : bool :=
  match lex_type this with
  | LexType_Space | LexType_Tab | LexType_CarriageReturn => true
  | _ => false
  end.

Definition Lex_isNewLine (this : Lex) : bool :=
  match lex_type this with
  | LexType_CarriageReturnNewLine | LexType_NewLine => true
  | _ => false
  end.

Definition CR : ascii := ascii_of_nat 13.
Definition LF : ascii := ascii_of_nat 10.
Definition TAB : ascii := ascii_of_nat 9.
Definition DQUOTE : ascii := ascii_of_nat 34.

Definition text1 (c : ascii) : option string := Some (String c EmptyString).

Definition LeftCurlyBracket (startIndex : Z) : Lex :=
  Build_Lex (text1 "{") startIndex LexType_LeftCurlyBracket.
Definition RightCurlyBracket (startIndex : Z) : Lex :=
  Build_Lex (text1 "}") startIndex LexType_RightCurlyBracket.
Definition LeftSquareBracket (startIndex : Z) : Lex :=
  Build_Lex (text1 "[") startIndex LexType_LeftSquareBracket.
Definition RightSquareBracket (startIndex : Z) : Lex :=
  Build_Lex (text1 "]") startIndex LexType_RightSquareBracket.
Definition LeftAngleBracket (startIndex : Z) : Lex :=
  Build_Lex (text1 "<") startIndex LexType_LeftAngleBracket.
Definition RightAngleBracket (startIndex : Z) : Lex :=
  Build_Lex (text1 ">") startIndex LexType_RightAngleBracket.
Definition LeftParenthesis (startIndex : Z) : Lex :=
  Build_Lex (text1 "(") startIndex LexType_LeftParenthesis.
Definition RightParenthesis (startIndex : Z) : Lex :=
  Build_Lex (text1 ")") startIndex LexType_RightParenthesis.
Definition SingleQuote (startIndex : Z) : Lex :=
  Build_Lex (text1 "'") startIndex LexType_SingleQuote.
Definition DoubleQuote (startIndex : Z) : Lex :=
  Build_Lex (text1 DQUOTE) startIndex LexType_DoubleQuote.
Definition Comma (startIndex : Z) : Lex :=
  Build_Lex (text1 ",") startIndex LexType_Comma.
Definition Colon (startIndex : Z) : Lex :=
  Build_Lex (text1 ":") startIndex LexType_Colon.
Definition Semicolon (startIndex : Z) : Lex :=
  Build_Lex (text1 ";") startIndex LexType_Semicolon.
Definition ExclamationPoint (startIndex : Z) : Lex :=
  Build_Lex (text1 "!") startIndex LexType_ExclamationPoint.
Definition Backslash (startIndex : Z) : Lex :=
  Build_Lex (text1 "\") startIndex LexType_Backslash.
Definition ForwardSlash (startIndex : Z) : Lex :=
  Build_Lex (text1 "/") startIndex LexType_ForwardSlash.
Definition QuestionMark (startIndex : Z) : Lex :=
  Build_Lex (text1 "?") startIndex LexType_QuestionMark.
Definition Dash (startIndex : Z) : Lex :=
  Build_Lex (text1 "-") startIndex LexType_Dash.
Definition Plus (startIndex : Z) : Lex :=
  Build_Lex (text1 "+") startIndex LexType_Plus.
Definition EqualsSign (startIndex : Z) : Lex :=
  Build_Lex (text1 "=") startIndex LexType_EqualsSign.
Definition Period (startIndex : Z) : Lex :=
  Build_Lex (text1 ".") startIndex LexType_Period.
Definition Underscore (startIndex : Z) : Lex :=
  Build_Lex (text1 "_") startIndex LexType_Underscore.
Definition Ampersand (startIndex : Z) : Lex :=
  Build_Lex (text1 "&") startIndex LexType_Ampersand.
Definition VerticalBar (startIndex : Z) : Lex :=
  Build_Lex (text1 "|") startIndex LexType_VerticalBar.
Definition Space (startIndex : Z) : Lex :=
  Build_Lex (text1 " ") startIndex LexType_Space.
Definition Tab (startIndex : Z) : Lex :=
  Build_Lex (text1 TAB) startIndex LexType_Tab.
Definition CarriageReturn (startIndex : Z) : Lex :=
  Build_Lex (text1 CR) startIndex LexType_CarriageReturn.
Definition NewLine (startIndex : Z) : Lex :=
  Build_Lex (text1 LF) startIndex LexType_NewLine.
(** The source builds this lex with [LexType.NewLine]. *)
Definition CarriageReturnNewLine (startIndex : Z) : Lex :=
  Build_Lex (Some (String CR (String LF EmptyString))) startIndex LexType_NewLine.
Definition Asterisk (startIndex : Z) : Lex :=
  Build_Lex (text1 "*") startIndex LexType_Asterisk.
Definition Percent (startIndex : Z) : Lex :=
  Build_Lex (text1 "%") startIndex LexType_Percent.
Definition Hash (startIndex : Z) : Lex :=
  Build_Lex (text1 "#") startIndex LexType_Hash.
Definition Letters (text : option string) (startIndex : Z) : Lex :=
  Build_Lex text startIndex LexType_Letters.
Definition Digits (text : option string) (startIndex : Z) : Lex :=
  Build_Lex text startIndex LexType_Digits.
Definition Unrecognized (character : option string) (startIndex : Z) : Lex :=
  Build_Lex character startIndex LexType_Unrecognized.

(** ** Character classes and readWhile *)

(** Comparison of one-character strings: by character code. *)
Definition char_le (a b : ascii) : bool := (nat_of_ascii a <=? nat_of_ascii b)%nat.

(** [isLetter(character)]; a comparison with [undefined] is false. *)
Definition isLetter (character : option ascii) : bool :=
  match character with
  | Some c => (char_le "a" c && char_le c "z") || (char_le "A" c && char_le c "Z")
  | None => false
  end.

(** [isDigit(character)] *)
Definition isDigit (character : option ascii) : bool :=
  match character with
  | Some c => char_le "0" c && char_le c "9"
  | None => false
  end.

(** [isWhitespace(value)] *)
Definition isWhitespace (value : option ascii) : bool :=
  match value with
  | Some c => Ascii.eqb c " " || Ascii.eqb c TAB || Ascii.eqb c CR
  | None => false
  end.

(** A character as the one-character string it is in the source. *)
Definition characterText (character : option ascii) : option string :=
  option_map (fun c => String c EmptyString) character.

(** A string value inside a concatenation: [undefined] prints its name. *)
Definition stringOf (value : option string) : string :=
  match value with
  | Some s => s
  | None => "undefined"
  end.

Section ReadWhile.
Context {I : Type} `{Iterator I (option ascii)}.

(** [while (iterator.next() && condition(iterator.getCurrent())) { result += iterator.getCurrent(); }] *)
Fixpoint readWhile_loop (fuel : nat) (iterator : I) (condition : option ascii -> bool)
  (result : option string) : option string * I :=
  match fuel with
  | O => (result, iterator)
  | S fuel' =>
      let (moved, iterator1) := next iterator in
      if moved then
        let (character, iterator2) := getCurrent iterator1 in
        if condition character then
          let (character', iterator3) := getCurrent iterator2 in
          readWhile_loop fuel' iterator3 condition
            (Some (stringOf result ++ stringOf (characterText character'))%string)
        else (result, iterator2)
      else (result, iterator1)
  end.

Definition readWhile (iterator : I) (condition : option ascii -> bool) : option string * I :=
  let (character, iterator1) := getCurrent iterator in
  readWhile_loop (S (remaining iterator1)) iterator1 condition (characterText character).

Definition readLetters (iterator : I) : option string * I := readWhile iterator isLetter.
Definition readWhitespace (iterator : I) : option string * I := readWhile iterator isWhitespace.
Definition readDigits (iterator : I) : option string * I := readWhile iterator isDigit.
End ReadWhile.

(** ** Lexer *)

Record Lexer : Type := {
  _iterator : StringIterator;
  _characterStartIndexOffset : Z;
  _currentLex : option Lex
}.

(** [constructor(text, startIndex = 0)] *)
Definition new_Lexer (text : option string) (startIndex : option Z) : Lexer :=
  {| _iterator := new_StringIterator text None None;
     _characterStartIndexOffset := match startIndex with Some s => s | None => 0 end;
     _currentLex := None |}.

Definition Lexer_hasStarted (this : Lexer) : bool := hasStarted (_iterator this).

Definition Lexer_hasCurrent (this : Lexer) : bool := isDefined (_currentLex this).

Definition Lexer_getCurrent (this : Lexer) : option Lex := _currentLex this.

(** [this._iterator.currentIndex + this._characterStartIndexOffset].  The
    sum with an undefined index is NaN in the source; it is read as the
    offset here, and [next()] only asks when there is a current character. *)
Definition Lexer_getCurrentCharacterStartIndex (this : Lexer) : Z :=
  match StringIterator_currentIndex (_iterator this) with
  | Some index => integer_add index (_characterStartIndexOffset this)
  | None => _characterStartIndexOffset this
  end.

Definition Lexer_hasCurrentCharacter (this : Lexer) : bool :=
  fst (hasCurrent (_iterator this)).

Definition Lexer_getCurrentCharacter (this : Lexer) : option ascii :=
  fst (getCurrent (_iterator this)).

Definition Lexer_withIterator (this : Lexer) (iterator : StringIterator) : Lexer :=
  {| _iterator := iterator;
     _characterStartIndexOffset := _characterStartIndexOffset this;
     _currentLex := _currentLex this |}.

Definition Lexer_withCurrentLex (this : Lexer) (lex : option Lex) : Lexer :=
  {| _iterator := _iterator this;
     _characterStartIndexOffset := _characterStartIndexOffset this;
     _currentLex := lex |}.

Definition Lexer_nextCharacter (this : Lexer) : bool * Lexer :=
  let (moved, iterator) := next (_iterator this) in
  (moved, Lexer_withIterator this iterator).

(** The cases of the switch in [next()] that read
    [this._currentLex = F(currentLexStartIndex); this.nextCharacter(); break;]
    as a table from the character to [F]. *)
Definition singleCharacterLex (c : ascii) : option (Z -> Lex) :=
  if Ascii.eqb c "{" then Some LeftCurlyBracket
  else if Ascii.eqb c "}" then Some RightCurlyBracket
  else if Ascii.eqb c "[" then Some LeftSquareBracket
  else if Ascii.eqb c "]" then Some RightSquareBracket
  else if Ascii.eqb c "(" then Some LeftParenthesis
  else if Ascii.eqb c ")" then Some RightParenthesis
  else if Ascii.eqb c "<" then Some LeftAngleBracket
  else if Ascii.eqb c ">" then Some RightAngleBracket
  else if Ascii.eqb c DQUOTE then Some DoubleQuote
  else if Ascii.eqb c "'" then Some SingleQuote
  else if Ascii.eqb c "-" then Some Dash
  else if Ascii.eqb c "+" then Some Plus
  else if Ascii.eqb c "," then Some Comma
  else if Ascii.eqb c ":" then Some Colon
  else if Ascii.eqb c ";" then Some Semicolon
  else if Ascii.eqb c "!" then Some ExclamationPoint
  else if Ascii.eqb c "\" then Some Backslash
  else if Ascii.eqb c "/" then Some ForwardSlash
  else if Ascii.eqb c "?" then Some QuestionMark
  else if Ascii.eqb c "=" then Some EqualsSign
  else if Ascii.eqb c "." then Some Period
  else if Ascii.eqb c "_" then Some Underscore
  else if Ascii.eqb c "&" then Some Ampersand
  else if Ascii.eqb c " " then Some Space
  else if Ascii.eqb c TAB then Some Tab
  else if Ascii.eqb c LF then Some NewLine
  else if Ascii.eqb c "*" then Some Asterisk
  else if Ascii.eqb c "%" then Some Percent
  else if Ascii.eqb c "|" then Some VerticalBar
  else if Ascii.eqb c "#" then Some Hash
  else None.

(** [this.getCurrentCharacter() !== "\n"] *)
Definition isNot (character : option ascii) (c : ascii) : bool :=
  match character with
  | Some c' => negb (Ascii.eqb c' c)
  | None => true
  end.

(** The [default:] case of the switch. *)
Definition Lexer_next_default (this : Lexer) (currentLexStartIndex : Z) : Lexer :=
  if isLetter (Lexer_getCurrentCharacter this) then
    let (text, iterator) := readLetters (_iterator this) in
    Lexer_withCurrentLex (Lexer_withIterator this iterator)
      (Some (Letters text currentLexStartIndex))
  else if isDigit (Lexer_getCurrentCharacter this) then
    let (text, iterator) := readDigits (_iterator this) in
    Lexer_withCurrentLex (Lexer_withIterator this iterator)
      (Some (Digits text currentLexStartIndex))
  else
    snd (Lexer_nextCharacter
           (Lexer_withCurrentLex this
              (Some (Unrecognized (characterText (Lexer_getCurrentCharacter this))
                       currentLexStartIndex)))).

(** The ["\r"] case of the switch. *)
Definition Lexer_next_carriageReturn (this : Lexer) (currentLexStartIndex : Z) : Lexer :=
  let (moved, this1) := Lexer_nextCharacter this in
  if negb moved || isNot (Lexer_getCurrentCharacter this1) LF then
    Lexer_withCurrentLex this1 (Some (CarriageReturn currentLexStartIndex))
  else
    snd (Lexer_nextCharacter
           (Lexer_withCurrentLex this1 (Some (CarriageReturnNewLine currentLexStartIndex)))).

(** [Lexer.next()] *)
Definition Lexer_next (this : Lexer) : bool * Lexer :=
  let this1 := if negb (Lexer_hasStarted this) then snd (Lexer_nextCharacter this) else this in
  let this2 :=
    if Lexer_hasCurrentCharacter this1 then
      let currentLexStartIndex := Lexer_getCurrentCharacterStartIndex this1 in
      match Lexer_getCurrentCharacter this1 with
      | Some c =>
          match singleCharacterLex c with
          | Some factory =>
              snd (Lexer_nextCharacter
                     (Lexer_withCurrentLex this1 (Some (factory currentLexStartIndex))))
          | None =>
              if Ascii.eqb c CR
              then Lexer_next_carriageReturn this1 currentLexStartIndex
              else Lexer_next_default this1 currentLexStartIndex
          end
      | None => Lexer_next_default this1 currentLexStartIndex
      end
    else Lexer_withCurrentLex this1 None in
  (Lexer_hasCurrent this2, this2).

#[global] Instance Lexer_Iterator : Iterator Lexer (option Lex) := {
  hasStarted := Lexer_hasStarted;
  hasCurrent this := (Lexer_hasCurrent this, this);
  next := Lexer_next;
  getCurrent this := (Lexer_getCurrent this, this);
  remaining this := remaining (_iterator this)
}.

(** ** Strings: characters and substrings *)

Lemma get_inside (s : string) : forall n : nat,
  (n < String.length s)%nat -> exists c, String.get n s = Some c.
Proof.
  induction s as [|c s IH]; intros n Hn; simpl in *; [lia|].
  destruct n as [|n]; [eauto|]. apply IH. lia.
Qed.

Lemma substring_one (s : string) : forall (n : nat) (c : ascii),
  String.get n s = Some c -> substring n 1 s = String c EmptyString.
Proof.
  induction s as [|c' s IH]; intros n c Hget; simpl in *; [discriminate|].
  destruct n as [|n].
  - injection Hget as ->. now destruct s.
  - now apply IH.
Qed.

Lemma substring_snoc (s : string) : forall (n m : nat) (c : ascii),
  String.get (n + m) s = Some c ->
  (substring n m s ++ String c EmptyString)%string = substring n (S m) s.
Proof.
  induction s as [|c' s IH]; intros n m c Hget; simpl in *; [discriminate|].
  destruct n as [|n]; simpl in *.
  - destruct m as [|m]; simpl in *.
    + injection Hget as ->. now destruct s.
    + f_equal. apply (IH 0%nat m c Hget).
  - apply IH. exact Hget.
Qed.

Lemma substring_split (s : string) : forall n m k : nat,
  (substring n m s ++ substring (n + m) k s)%string = substring n (m + k) s.
Proof.
  induction s as [|c s IH]; intros n m k; simpl.
  - destruct n, m, k; simpl; auto; destruct (n + 0)%nat; auto;
      destruct (n + S m)%nat; auto.
  - destruct n as [|n]; simpl.
    + destruct m as [|m]; simpl.
      * destruct k; reflexivity.
      * f_equal. apply (IH 0%nat m k).
    + apply IH.
Qed.

Lemma substring_all (s : string) : substring 0 (String.length s) s = s.
Proof. induction s; simpl; auto. now f_equal. Qed.

Lemma substring_empty (s : string) (n : nat) : substring n 0 s = EmptyString.
Proof. revert n. induction s; intros [|n]; simpl; auto. Qed.

Lemma getLength_nonneg (text : option string) : 0 <= getLength text.
Proof. destruct text; simpl; lia. Qed.

Lemma charAt_inside (text : option string) (p : Z) :
  0 <= p < getLength text ->
  exists s c, text = Some s /\ String.get (Z.to_nat p) s = Some c /\ charAt text p = Some c.
Proof.
  intros Hp. destruct text as [s|]; simpl in *; [|lia].
  destruct (@get_inside s (Z.to_nat p)) as [c Hc]; [lia|].
  exists s, c. split; auto. split; auto.
  destruct (Z.ltb_spec p 0); [lia|]. exact Hc.
Qed.

(** ** The lexer, one step at a time *)

(** A lexer over [text], as [new Lexer] builds it and [next()] moves it:
    its character iterator runs forward over the whole text and stands at
    position [p]. *)
Definition iterator_at (text : option string) (started_ : bool) (p : Z) : StringIterator :=
  {| _text := text; _startIndex := 0; _endIndex := getLength text;
     _currentIndex := p; _started := started_; _step := 1 |}.

Definition lexer_at (text : option string) (offset : Z) (started_ : bool) (p : Z)
  (lex : option Lex) : Lexer :=
  {| _iterator := iterator_at text started_ p;
     _characterStartIndexOffset := offset;
     _currentLex := lex |}.

Lemma new_Lexer_at (text : option string) (startIndex : option Z) :
  new_Lexer text startIndex
  = lexer_at text (match startIndex with Some s => s | None => 0 end) false 0 None.
Proof.
  unfold new_Lexer, lexer_at, iterator_at, new_StringIterator. f_equal. f_equal.
  pose proof (@getLength_nonneg text).
  destruct (Z.geb_spec (getLength text) 0); auto; lia.
Qed.

Lemma iterator_at_next (text : option string) (p : Z) :
  p < getLength text ->
  next (iterator_at text true p)
  = (p + 1 <? getLength text, iterator_at text true (p + 1)).
Proof.
  intros Hp. simpl. unfold StringIterator_next, hasMore. simpl.
  destruct (Z.ltb_spec p (getLength text)); [|lia]. reflexivity.
Qed.

Lemma iterator_at_start (text : option string) (p : Z) :
  next (iterator_at text false p) = (p <? getLength text, iterator_at text true p).
Proof. reflexivity. Qed.

Lemma iterator_at_getCurrent (text : option string) (p : Z) :
  getCurrent (iterator_at text true p)
  = (if p <? getLength text then charAt text p else None, iterator_at text true p).
Proof. reflexivity. Qed.

(** [readWhile] from position [p], whose character is already in
    [result]: it stops at some [q] after [p], with the characters from the
    start of the run to [q] in its result. *)
Lemma readWhile_loop_at (s : string) (condition : option ascii -> bool) (start : nat)
  (fuel : nat) : forall (p : Z),
  Z.of_nat start <= p < getLength (Some s) ->
  (Z.to_nat (getLength (Some s) - p) < fuel)%nat ->
  exists q,
    p < q <= getLength (Some s)
    /\ readWhile_loop fuel (iterator_at (Some s) true p) condition
         (Some (substring start (Z.to_nat p - start + 1) s))
       = (Some (substring start (Z.to_nat q - start) s), iterator_at (Some s) true q).
Proof.
  induction fuel as [|fuel IH]; intros p Hp Hfuel; [lia|].
  cbn [readWhile_loop]. rewrite iterator_at_next by lia.
  destruct (Z.ltb_spec (p + 1) (getLength (Some s))) as [Hlt|Hge].
  - rewrite iterator_at_getCurrent.
    destruct (Z.ltb_spec (p + 1) (getLength (Some s))); [|lia].
    destruct (condition (charAt (Some s) (p + 1))) eqn:Hc.
    + rewrite iterator_at_getCurrent.
      destruct (Z.ltb_spec (p + 1) (getLength (Some s))); [|lia].
      destruct (@charAt_inside (Some s) (p + 1)) as (s' & c & Hs & Hget & Hat); [lia|].
      injection Hs as <-. rewrite Hat. cbn [characterText option_map stringOf].
      rewrite substring_snoc.
      * destruct (IH (p + 1)) as (q & Hq & Hloop); [lia|lia|].
        exists q. split; [lia|]. rewrite <- Hloop.
        now replace (Z.to_nat (p + 1) - start + 1)%nat
          with (S (Z.to_nat p - start + 1)) by lia.
      * rewrite <- Hget. f_equal. lia.
    + exists (p + 1). split; [lia|].
      now replace (Z.to_nat (p + 1) - start)%nat with (Z.to_nat p - start + 1)%nat by lia.
  - exists (p + 1). split; [lia|].
    now replace (Z.to_nat (p + 1) - start)%nat with (Z.to_nat p - start + 1)%nat by lia.
Qed.

Lemma readWhile_at (s : string) (condition : option ascii -> bool) (p : Z) :
  0 <= p < getLength (Some s) ->
  exists q,
    p < q <= getLength (Some s)
    /\ readWhile (iterator_at (Some s) true p) condition
       = (Some (substring (Z.to_nat p) (Z.to_nat (q - p)) s), iterator_at (Some s) true q).
Proof.
  intros Hp. unfold readWhile. rewrite iterator_at_getCurrent.
  destruct (Z.ltb_spec p (getLength (Some s))); [|lia].
  destruct (@charAt_inside (Some s) p Hp) as (s' & c & Hs & Hget & Hat).
  injection Hs as <-. rewrite Hat. cbn [characterText option_map].
  rewrite <- (substring_one Hget).
  destruct (@readWhile_loop_at s condition (Z.to_nat p)
              (S (remaining (iterator_at (Some s) true p))) p) as (q & Hq & Hloop).
  - lia.
  - simpl. unfold StringIterator_left. simpl. lia.
  - exists q. split; auto.
    replace (Z.to_nat p - Z.to_nat p + 1)%nat with 1%nat in Hloop by lia.
    rewrite Hloop.
    now replace (Z.to_nat q - Z.to_nat p)%nat with (Z.to_nat (q - p)) by lia.
Qed.

Lemma singleCharacterLex_spec (c : ascii) (factory : Z -> Lex) :
  singleCharacterLex c = Some factory ->
  forall startIndex, lex_text (factory startIndex) = text1 c
                     /\ lex_startIndex (factory startIndex) = startIndex.
Proof.
  unfold singleCharacterLex.
  repeat match goal with
         | |- context [Ascii.eqb c ?x] =>
             destruct (Ascii.eqb_spec c x) as [->|_];
             [intros [= <-]; split; reflexivity|]
         end.
  discriminate.
Qed.

Lemma Lexer_nextCharacter_at (text : option string) (offset p : Z) (lex : option Lex) :
  p < getLength text ->
  Lexer_nextCharacter (lexer_at text offset true p lex)
  = (p + 1 <? getLength text, lexer_at text offset true (p + 1) lex).
Proof.
  intros Hp. unfold Lexer_nextCharacter, lexer_at. cbn [_iterator].
  now rewrite iterator_at_next.
Qed.

Lemma Lexer_getCurrentCharacter_at (text : option string) (offset p : Z) (lex : option Lex) :
  Lexer_getCurrentCharacter (lexer_at text offset true p lex)
  = if p <? getLength text then charAt text p else None.
Proof. reflexivity. Qed.

Lemma Lexer_started_at (text : option string) (offset p : Z) (started_ : bool)
  (lex : option Lex) :
  (if negb (Lexer_hasStarted (lexer_at text offset started_ p lex))
   then snd (Lexer_nextCharacter (lexer_at text offset started_ p lex))
   else lexer_at text offset started_ p lex)
  = lexer_at text offset true p lex.
Proof. destruct started_; reflexivity. Qed.

(** One [next()] on a lexer at position [p]: inside the text it produces
    a lex whose text is the piece of the input from [p] to the new
    position [q], which lies further on; at the end of the text it
    produces nothing and stays there. *)
Lemma Lexer_next_at (text : option string) (offset p : Z) (started_ : bool)
  (lex0 : option Lex) :
  0 <= p <= getLength text ->
  (p < getLength text ->
   exists lex q s,
     text = Some s
     /\ Lexer_next (lexer_at text offset started_ p lex0)
        = (true, lexer_at text offset true q (Some lex))
     /\ p < q <= getLength text
     /\ (lex_type lex = LexType_Unrecognized -> q = p + 1)
     /\ lex_text lex = Some (substring (Z.to_nat p) (Z.to_nat (q - p)) s)
     /\ lex_startIndex lex = integer_add p offset)
  /\ (p = getLength text ->
      Lexer_next (lexer_at text offset started_ p lex0)
      = (false, lexer_at text offset true p None)).
Proof.
  intros Hp. unfold Lexer_next. rewrite Lexer_started_at.
  unfold Lexer_hasCurrentCharacter, Lexer_getCurrentCharacterStartIndex.
  rewrite Lexer_getCurrentCharacter_at.
  cbn [lexer_at _iterator hasCurrent StringIterator_Iterator fst].
  unfold StringIterator_currentIndex, StringIterator_hasCurrent, hasMore.
  cbn [iterator_at _started _step _currentIndex _endIndex _characterStartIndexOffset andb].
  change (1 >? 0) with true. cbv iota.
  split.
  - intros Hlt. destruct (Z.ltb_spec p (getLength text)); [|lia].
    destruct (@charAt_inside text p) as (s & c & -> & Hget & Hat); [lia|].
    rewrite Hat.
    fold (iterator_at (Some s) true p). fold (lexer_at (Some s) offset true p lex0).
    change (_characterStartIndexOffset (lexer_at (Some s) offset true p lex0)) with offset.
    destruct (singleCharacterLex c) as [factory|] eqn:Hsingle.
    + (* a one-character lex *)
      destruct (singleCharacterLex_spec Hsingle (integer_add p offset)) as [Htext Hstart].
      exists (factory (integer_add p offset)), (p + 1), s. split; auto.
      change (Lexer_withCurrentLex (lexer_at (Some s) offset true p lex0)
                (Some (factory (integer_add p offset))))
        with (lexer_at (Some s) offset true p (Some (factory (integer_add p offset)))).
      rewrite Lexer_nextCharacter_at by lia. cbn [snd].
      split; [reflexivity|]. split; [lia|].
      split; [intros Hty; first [lia | discriminate Hty]|]. split; auto.
      rewrite Htext. unfold text1. f_equal.
      replace (Z.to_nat (p + 1 - p)) with 1%nat by lia.
      symmetry. now apply substring_one.
    + destruct (Ascii.eqb_spec c CR) as [->|Hcr].
      * (* carriage return, with one character of lookahead *)
        unfold Lexer_next_carriageReturn.
        rewrite Lexer_nextCharacter_at by lia.
        rewrite Lexer_getCurrentCharacter_at.
        destruct (Z.ltb_spec (p + 1) (getLength (Some s))) as [Hmore|Hlast]; cbn [negb orb].
        -- destruct (@charAt_inside (Some s) (p + 1)) as (s' & c' & Hs & Hget' & Hat');
             [lia|]. injection Hs as <-. rewrite Hat'. cbn [isNot].
           destruct (Ascii.eqb_spec c' LF) as [->|Hlf]; cbn [negb].
           ++ exists (CarriageReturnNewLine (integer_add p offset)), (p + 2), s. split; auto.
              change (Lexer_withCurrentLex (lexer_at (Some s) offset true (p + 1) lex0)
                        (Some (CarriageReturnNewLine (integer_add p offset))))
                with (lexer_at (Some s) offset true (p + 1)
                        (Some (CarriageReturnNewLine (integer_add p offset)))).
              rewrite Lexer_nextCharacter_at by lia. cbn [snd].
              replace (p + 1 + 1) with (p + 2) by lia.
              split; [reflexivity|]. split; [lia|].
              split; [intros Hty; first [lia | discriminate Hty]|]. split; auto.
              cbn [CarriageReturnNewLine lex_text]. f_equal.
              replace (Z.to_nat (p + 2 - p)) with (1 + 1)%nat by lia.
              rewrite <- substring_split.
              rewrite (substring_one Hget).
              replace (Z.to_nat p + 1)%nat with (Z.to_nat (p + 1)) by lia.
              now rewrite (substring_one Hget').
           ++ exists (CarriageReturn (integer_add p offset)), (p + 1), s. split; auto.
              split; [reflexivity|]. split; [lia|].
              split; [intros Hty; first [lia | discriminate Hty]|]. split; auto.
              cbn [CarriageReturn lex_text]. unfold text1. f_equal.
              replace (Z.to_nat (p + 1 - p)) with 1%nat by lia.
              symmetry. now apply substring_one.
        -- exists (CarriageReturn (integer_add p offset)), (p + 1), s. split; auto.
           split; [reflexivity|]. split; [lia|].
           split; [intros Hty; first [lia | discriminate Hty]|]. split; auto.
           cbn [CarriageReturn lex_text]. unfold text1. f_equal.
           replace (Z.to_nat (p + 1 - p)) with 1%nat by lia.
           symmetry. now apply substring_one.
      * (* the default case *)
        unfold Lexer_next_default. rewrite Lexer_getCurrentCharacter_at.
        destruct (Z.ltb_spec p (getLength (Some s))); [|lia]. rewrite Hat.
        unfold readLetters, readDigits. cbn [lexer_at _iterator].
        destruct (isLetter (Some c)).
        -- destruct (@readWhile_at s isLetter p) as (q & Hq & ->); [lia|].
           exists (Letters (Some (substring (Z.to_nat p) (Z.to_nat (q - p)) s)) (integer_add p offset)),
             q, s.
           repeat split; auto; try lia; intros Hty; discriminate Hty.
        -- destruct (isDigit (Some c)).
           ++ destruct (@readWhile_at s isDigit p) as (q & Hq & ->); [lia|].
              exists (Digits (Some (substring (Z.to_nat p) (Z.to_nat (q - p)) s)) (integer_add p offset)),
                q, s.
              repeat split; auto; try lia; intros Hty; discriminate Hty.
           ++ exists (Unrecognized (characterText (Some c)) (integer_add p offset)), (p + 1), s.
              split; auto.
              fold (iterator_at (Some s) true p).
              fold (lexer_at (Some s) offset true p lex0).
              change (Lexer_withCurrentLex (lexer_at (Some s) offset true p lex0)
                        (Some (Unrecognized (characterText (Some c)) (integer_add p offset))))
                with (lexer_at (Some s) offset true p
                        (Some (Unrecognized (characterText (Some c)) (integer_add p offset)))).
              rewrite Lexer_nextCharacter_at by lia. cbn [snd].
              split; [reflexivity|]. split; [lia|].
              split; [intros Hty; first [lia | discriminate Hty]|]. split; auto.
              cbn [Unrecognized lex_text characterText option_map]. f_equal.
              replace (Z.to_nat (p + 1 - p)) with 1%nat by lia.
              symmetry. now apply substring_one.
  - intros ->. rewrite Z.ltb_irrefl. reflexivity.
Qed.

(** ** The lexer obeys the laws *)

(** The lexes that further [next()] calls produce. *)
Fixpoint Lexer_rest (fuel : nat) (this : Lexer) : list (option Lex) :=
  match fuel with
  | O => []
  | S fuel' =>
      let (moved, this1) := Lexer_next this in
      if moved then _currentLex this1 :: Lexer_rest fuel' this1 else []
  end.

(** The states of a lexer that [new Lexer] and [next()] reach. *)
Definition Lexer_wf (this : Lexer) : Prop :=
  exists text offset started_ p lex,
    this = lexer_at text offset started_ p lex
    /\ 0 <= p <= getLength text
    /\ (started_ = false -> lex = None)
    /\ (started_ = true -> lex = None -> p = getLength text).

Definition Lexer_left (this : Lexer) : nat := StringIterator_left (_iterator this).

Definition lexer_models (this : Lexer) (st : cursor (option Lex)) : Prop :=
  Lexer_wf this
  /\ st = if Lexer_hasStarted this
          then match _currentLex this with
               | Some lex => At (Some lex) (Lexer_rest (S (Lexer_left this)) this)
               | None => Done
               end
          else NotStarted (Lexer_rest (S (Lexer_left this)) this).

Lemma Lexer_left_at (text : option string) (offset p : Z) (started_ : bool)
  (lex : option Lex) :
  Lexer_left (lexer_at text offset started_ p lex) = Z.to_nat (getLength text - p).
Proof. reflexivity. Qed.

Lemma Lexer_rest_fuel (text : option string) (offset : Z) (fuel : nat) :
  forall (fuel' : nat) (p : Z) (started_ : bool) (lex0 : option Lex),
  0 <= p <= getLength text ->
  (Z.to_nat (getLength text - p) < fuel)%nat ->
  (Z.to_nat (getLength text - p) < fuel')%nat ->
  Lexer_rest fuel (lexer_at text offset started_ p lex0)
  = Lexer_rest fuel' (lexer_at text offset started_ p lex0).
Proof.
  induction fuel as [|fuel IH]; intros fuel' p started_ lex0 Hp Hf Hf'; [lia|].
  destruct fuel' as [|fuel']; [lia|].
  cbn [Lexer_rest].
  destruct (@Lexer_next_at text offset p started_ lex0 Hp) as [Hin Hend].
  destruct (Z.eq_dec p (getLength text)) as [Heq|Hne].
  - now rewrite (Hend Heq).
  - destruct Hin as (lex & q & s & -> & -> & Hq & _); [lia|].
    f_equal. apply IH; lia.
Qed.

Lemma Lexer_rest_length (text : option string) (offset : Z) (fuel : nat) :
  forall (p : Z) (started_ : bool) (lex0 : option Lex),
  0 <= p <= getLength text ->
  (length (Lexer_rest fuel (lexer_at text offset started_ p lex0))
   <= Z.to_nat (getLength text - p))%nat.
Proof.
  induction fuel as [|fuel IH]; intros p started_ lex0 Hp; [simpl; lia|].
  cbn [Lexer_rest].
  destruct (@Lexer_next_at text offset p started_ lex0 Hp) as [Hin Hend].
  destruct (Z.eq_dec p (getLength text)) as [Heq|Hne].
  - rewrite (Hend Heq). simpl. lia.
  - destruct Hin as (lex & q & s & -> & -> & Hq & _); [lia|].
    cbn [length]. specialize (IH q true (Some lex) ltac:(lia)). lia.
Qed.

Lemma lexer_models_next (this : Lexer) (st : cursor (option Lex)) :
  lexer_models this st ->
  exists this', next this = (positioned (advance st), this') /\ lexer_models this' (advance st).
Proof.
  intros [(text & offset & started_ & p & lex0 & -> & Hp & Hfresh & Hdone) ->].
  rewrite Lexer_left_at.
  change (Lexer_hasStarted (lexer_at text offset started_ p lex0)) with started_.
  change (_currentLex (lexer_at text offset started_ p lex0)) with lex0.
  set (rest := Lexer_rest (S (Z.to_nat (getLength text - p)))
                 (lexer_at text offset started_ p lex0)).
  assert (Hadv : advance (if started_
                          then match lex0 with
                               | Some lex => At (Some lex) rest
                               | None => Done
                               end
                          else NotStarted rest)
                 = cursor_at rest).
  { destruct started_; auto. destruct lex0; auto.
    specialize (Hdone eq_refl eq_refl). subst rest. cbn [Lexer_rest].
    destruct (@Lexer_next_at text offset p true None Hp) as [_ Hend].
    now rewrite Hend by lia. }
  rewrite Hadv. clear Hadv. subst rest.
  cbn [next Lexer_Iterator Lexer_rest].
  destruct (@Lexer_next_at text offset p started_ lex0 Hp) as [Hin Hend].
  destruct (Z.eq_dec p (getLength text)) as [Heq|Hne].
  - rewrite (Hend Heq). eexists; split; [reflexivity|].
    split; [|reflexivity].
    exists text, offset, true, p, None. repeat split; auto; try lia; discriminate.
  - destruct Hin as (lex & q & s & -> & -> & Hq & _); [lia|].
    eexists; split; [reflexivity|].
    split.
    + exists (Some s), offset, true, q, (Some lex).
      repeat split; auto; try lia; discriminate.
    + change (Lexer_hasStarted (lexer_at (Some s) offset true q (Some lex))) with true.
      cbn [lexer_at _currentLex cursor_at]. f_equal. rewrite Lexer_left_at.
      apply Lexer_rest_fuel; lia.
Qed.

#[global] Instance Lexer_Laws : IteratorLaws (I := Lexer) (T := option Lex).
Proof.
  refine {| models := lexer_models; models_next := lexer_models_next |}.
  - intros this st [Hwf ->]. simpl.
    destruct (Lexer_hasStarted this); auto. now destruct (_currentLex this).
  - intros this st [Hwf ->]. exists this. split; [|split; auto].
    destruct Hwf as (text & offset & started_ & p & lex0 & -> & Hp & Hfresh & Hdone).
    simpl. f_equal. unfold Lexer_hasCurrent. simpl.
    destruct started_; [now destruct lex0|]. now rewrite Hfresh.
  - intros this st [Hwf ->]. exists this. split; [|split; auto].
    destruct Hwf as (text & offset & started_ & p & lex0 & -> & Hp & Hfresh & Hdone).
    simpl. f_equal. unfold Lexer_getCurrent. simpl.
    destruct started_; [now destruct lex0|]. now rewrite Hfresh.
  - intros this st [Hwf ->].
    destruct Hwf as (text & offset & started_ & p & lex0 & -> & Hp & Hfresh & Hdone).
    pose proof (@Lexer_rest_length text offset
                  (S (Lexer_left (lexer_at text offset started_ p lex0)))
                  p started_ lex0 Hp) as Hlen.
    change (remaining (lexer_at text offset started_ p lex0))
      with (S (Z.to_nat (getLength text - p))).
    change (Lexer_hasStarted (lexer_at text offset started_ p lex0)) with started_.
    change (_currentLex (lexer_at text offset started_ p lex0)) with lex0.
    destruct started_; [destruct lex0|]; cbn [upcoming length]; lia.
Defined.

(** A new lexer, in the terms of the laws. *)
Lemma new_Lexer_models (text : option string) (startIndex : option Z) :
  models (new_Lexer text startIndex)
    (NotStarted (Lexer_rest (S (Z.to_nat (getLength text))) (new_Lexer text startIndex))).
Proof.
  rewrite new_Lexer_at. split.
  - eexists text, _, false, 0, None.
    pose proof (@getLength_nonneg text).
    repeat split; auto; try lia; discriminate.
  - change (Lexer_hasStarted _) with false. cbv iota.
    rewrite Lexer_left_at. now rewrite Z.sub_0_r.
Qed.

(** ** Draining the lexer *)

Lemma append_nil_r (s : string) : (s ++ "")%string = s.
Proof. induction s; simpl; auto. now f_equal. Qed.

Lemma append_assoc (a b c : string) : ((a ++ b) ++ c)%string = (a ++ (b ++ c))%string.
Proof. induction a; simpl; auto. now f_equal. Qed.

(** [getCombinedText(values)]: [result += value.toString()] over the values
    of an iterator.  [toString] of an undefined value, a TypeError in the
    source, prints as [undefined]. *)
Definition getCombinedText {I V : Type} `{Iterator I (option V)}
  (toString : V -> option string) (values : I) : string :=
  fold_left
    (fun result value =>
       (result ++ stringOf (match value with Some v => toString v | None => None end))%string)
    (fst (IteratorBase_toArray values)) EmptyString.

(** The text an absent input stands for: none. *)
Definition textOf (text : option string) : string :=
  match text with Some s => s | None => EmptyString end.

(** Every lex of type [Unrecognized] holds exactly one character. *)
Definition oneCharacterWhenUnrecognized (lex : Lex) : Prop :=
  lex_type lex = LexType_Unrecognized ->
  exists c, lex_text lex = Some (String c EmptyString).

Lemma substring_length_one (s : string) (n : nat) :
  (n < String.length s)%nat -> exists c, substring n 1 s = String c EmptyString.
Proof.
  intros Hn. destruct (get_inside Hn) as [c Hc]. exists c. now apply substring_one.
Qed.

(** The lexes from position [p] on are defined, their texts are defined,
    and the texts put together are the input from [p] to its end. *)
Lemma Lexer_rest_pieces (text : option string) (offset : Z) (fuel : nat) :
  forall (p : Z) (started_ : bool) (lex0 : option Lex),
  0 <= p <= getLength text ->
  (Z.to_nat (getLength text - p) < fuel)%nat ->
  exists lexes pieces,
    Lexer_rest fuel (lexer_at text offset started_ p lex0) = map Some lexes
    /\ map lex_text lexes = map Some pieces
    /\ fold_right append EmptyString pieces
       = substring (Z.to_nat p) (Z.to_nat (getLength text - p)) (textOf text)
    /\ Forall oneCharacterWhenUnrecognized lexes.
Proof.
  induction fuel as [|fuel IH]; intros p started_ lex0 Hp Hfuel; [lia|].
  cbn [Lexer_rest].
  destruct (@Lexer_next_at text offset p started_ lex0 Hp) as [Hin Hend].
  destruct (Z.eq_dec p (getLength text)) as [Heq|Hne].
  - rewrite (Hend Heq). exists [], []. repeat split; auto.
    replace (Z.to_nat (getLength text - p)) with 0%nat by lia.
    now rewrite substring_empty.
  - destruct Hin as (lex & q & s & -> & -> & Hq & Hun & Htext & _); [lia|].
    destruct (IH q true (Some lex)) as (lexes & pieces & -> & Htexts & Hcat & Hall);
      [lia|lia|].
    exists (lex :: lexes), (substring (Z.to_nat p) (Z.to_nat (q - p)) s :: pieces).
    split; [reflexivity|]. split; [simpl; now rewrite Htext, Htexts|]. split.
    + cbn [fold_right textOf] in *. rewrite Hcat.
      replace (Z.to_nat q) with (Z.to_nat p + Z.to_nat (q - p))%nat by lia.
      rewrite substring_split. f_equal. lia.
    + constructor; auto. intros Hty. rewrite Htext, (Hun Hty).
      replace (Z.to_nat (p + 1 - p)) with 1%nat by lia.
      destruct (@substring_length_one s (Z.to_nat p)) as [c Hc].
      * simpl in Hq. lia.
      * exists c. now rewrite Hc.
Qed.

Lemma fold_left_append (pieces : list string) : forall acc : string,
  fold_left (fun result piece => (result ++ piece)%string) pieces acc
  = (acc ++ fold_right append EmptyString pieces)%string.
Proof.
  induction pieces as [|piece pieces IH]; intros acc; simpl.
  - now rewrite append_nil_r.
  - now rewrite IH, append_assoc.
Qed.

(** C9.  For every input, the text or nothing at all, draining the lexer
    returns a list of lexes, each one defined and with a defined text; a
    lex of type [Unrecognized] holds one character; the texts of the lexes
    put together in order are the input, and so is what
    [getCombinedText] returns for the lexer.  Absent and empty input give
    no lex. *)
Theorem Lexer_drain_reconstructs_input (text : option string) (startIndex : option Z) :
  exists lexes pieces,
    fst (IteratorBase_toArray (new_Lexer text startIndex)) = map Some lexes
    /\ map lex_text lexes = map Some pieces
    /\ fold_right append EmptyString pieces = textOf text
    /\ Forall oneCharacterWhenUnrecognized lexes
    /\ getCombinedText Lex_toString (new_Lexer text startIndex) = textOf text
    /\ (textOf text = EmptyString -> lexes = []).
Proof.
  destruct (toArray_spec (new_Lexer_models text startIndex)) as (this' & Harr & _).
  cbn [contents] in Harr.
  pose proof (@getLength_nonneg text) as Hlen.
  destruct (@Lexer_rest_pieces text (match startIndex with Some s => s | None => 0 end)
              (S (Z.to_nat (getLength text))) 0 false None)
    as (lexes & pieces & Hrest & Htexts & Hcat & Hall); [lia|lia|].
  rewrite <- new_Lexer_at in Hrest.
  assert (Hwhole : substring (Z.to_nat 0) (Z.to_nat (getLength text - 0)) (textOf text)
                   = textOf text).
  { destruct text as [s|]; simpl.
    - rewrite Z.sub_0_r, Nat2Z.id. apply substring_all.
    - reflexivity. }
  rewrite Hwhole in Hcat.
  exists lexes, pieces. rewrite Harr. cbn [fst].
  split; [exact Hrest|]. split; [exact Htexts|]. split; [exact Hcat|]. split; [exact Hall|].
  split.
  - unfold getCombinedText. rewrite Harr. cbn [fst]. rewrite Hrest.
    rewrite <- Hcat. clear - Htexts.
    assert (Hgen : forall acc,
      fold_left
        (fun result value =>
           (result ++ stringOf (match value with Some v => Lex_toString v | None => None end))%string)
        (map Some lexes) acc
      = (acc ++ fold_right append EmptyString pieces)%string).
    { revert pieces Htexts. induction lexes as [|lex lexes IH]; intros pieces Htexts acc.
      - destruct pieces; [|discriminate]. simpl. now rewrite append_nil_r.
      - destruct pieces as [|piece pieces]; [discriminate|].
        simpl in Htexts. injection Htexts as Hlex Hrest.
        simpl. unfold Lex_toString. rewrite Hlex. simpl.
        rewrite (IH pieces Hrest). now rewrite append_assoc. }
    apply (Hgen EmptyString).
  - intros Hempty. destruct lexes as [|lex lexes]; auto.
    exfalso.
    assert (Hcount : (length (Lexer_rest (S (Z.to_nat (getLength text)))
                                (new_Lexer text startIndex))
                      <= Z.to_nat (getLength text - 0))%nat).
    { rewrite new_Lexer_at. apply Lexer_rest_length. lia. }
    rewrite Hrest in Hcount. cbn [map length] in Hcount.
    assert (Hzero : getLength text = 0).
    { destruct text as [s|]; [|reflexivity]. simpl in Hempty. now subst s. }
    rewrite Hzero in Hcount. simpl in Hcount. lia.
Qed.

(** ** Iterators as objects *)

(** A value of the interface type [Iterator<T>]: a state together with the
    class it belongs to.  This is what an [Iterable] hands out, and what
    the methods [where], [skip], [take], [map] and [concatenate] of
    [IteratorBase] wrap. *)
Record IteratorObject (T : Type) : Type := {
  object_type : Type;
  object_class : Iterator object_type T;
  object_state : object_type
}.

Definition pack {I T : Type} {class : Iterator I T} (state : I) : IteratorObject T :=
  @Build_IteratorObject T I class state.

Section IteratorObject.
Context {T : Type} `{Undefined T}.

Definition repack (this : IteratorObject T) (state : object_type this) : IteratorObject T :=
  @Build_IteratorObject T (object_type this) (object_class this) state.

#[global] Instance IteratorObject_Iterator : Iterator (IteratorObject T) T := {
  hasStarted this := @hasStarted _ _ (object_class this) (object_state this);
  hasCurrent this :=
    let (result, state) := @hasCurrent _ _ (object_class this) (object_state this) in
    (result, repack state);
  next this :=
    let (result, state) := @next _ _ (object_class this) (object_state this) in
    (result, repack state);
  getCurrent this :=
    let (result, state) := @getCurrent _ _ (object_class this) (object_state this) in
    (result, repack state);
  remaining this := @remaining _ _ (object_class this) (object_state this)
}.

(** [IteratorBase.where(condition)]: [new WhereIterator(this, condition)] *)
Definition Iterator_where (this : IteratorObject T) (condition : option (T -> bool))
  : IteratorObject T :=
  @pack _ _ (@WhereIterator_Iterator _ _ (object_class this))
    (@new_WhereIterator _ _ (object_class this) (object_state this) condition).

(** [IteratorBase.skip(toSkip)]: [new SkipIterator(this, toSkip)] *)
Definition Iterator_skip (this : IteratorObject T) (toSkip : option Z) : IteratorObject T :=
  @pack _ _ (@SkipIterator_Iterator _ _ (object_class this))
    (new_SkipIterator (object_state this) toSkip).

(** [IteratorBase.take(toTake)]: [new TakeIterator(this, toTake)] *)
Definition Iterator_take (this : IteratorObject T) (toTake : option Z) : IteratorObject T :=
  @pack _ _ (@TakeIterator_Iterator _ _ (object_class this) _)
    (@new_TakeIterator _ _ (object_class this) (object_state this) toTake).

(** [IteratorBase.map(mapFunction)]: [new MapIterator(this, mapFunction)] *)
Definition Iterator_map (this : IteratorObject T) (mapFunction : option (T -> T))
  : IteratorObject T :=
  @pack _ _ (@MapIterator_Iterator _ _ _ (object_class this) _)
    (@new_MapIterator _ _ _ (object_class this) (object_state this) mapFunction).

(** [IteratorBase.concatenate(toConcatenate)] for an iterator argument (or
    nothing). *)
Definition Iterator_concatenate (this : IteratorObject T)
  (toConcatenate : option (IteratorObject T)) : IteratorObject T :=
  match toConcatenate with
  | None => this
  | Some other =>
      @pack _ _ (@ConcatenateIterator_Iterator _ _ _ (object_class this) (object_class other))
        (Build_ConcatenateIterator (object_state this) (object_state other))
  end.

(** [IteratorBase.first(condition)] *)
Definition Iterator_first (this : IteratorObject T) (condition : option (T -> bool)) : T :=
  match condition with
  | None => fst (IteratorBase_first this)
  | Some _ => fst (IteratorBase_first (Iterator_where this condition))
  end.

(** An object obeys the laws when its class does. *)
Definition object_models (this : IteratorObject T) (st : cursor T) : Prop :=
  exists laws : @IteratorLaws (object_type this) T (object_class this) _,
    @models _ _ _ _ laws (object_state this) st.

#[global] Instance IteratorObject_Laws : IteratorLaws (I := IteratorObject T) (T := T).
Proof.
  refine {| models := object_models |}.
  - intros [I class state] st [laws Hm]. simpl in *. apply (models_hasStarted Hm).
  - intros [I class state] st [laws Hm]. simpl in *.
    destruct (models_hasCurrent Hm) as (state' & -> & Hm').
    eexists; split; [reflexivity|]. exists laws. exact Hm'.
  - intros [I class state] st [laws Hm]. simpl in *.
    destruct (models_getCurrent Hm) as (state' & -> & Hm').
    eexists; split; [reflexivity|]. exists laws. exact Hm'.
  - intros [I class state] st [laws Hm]. simpl in *.
    destruct (models_next Hm) as (state' & -> & Hm').
    eexists; split; [reflexivity|]. exists laws. exact Hm'.
  - intros [I class state] st [laws Hm]. simpl in *. apply (models_remaining Hm).
Defined.

Lemma pack_models {I : Type} {class : Iterator I T} {laws : IteratorLaws (I := I) (T := T)}
  (state : I) (st : cursor T) :
  models state st -> models (pack state) st.
Proof. intros Hm. exists laws. exact Hm. Qed.

Lemma Iterator_where_models (this : IteratorObject T) (condition : option (T -> bool))
  (st : cursor T) :
  models this st -> models (Iterator_where this condition) (where_of condition st).
Proof.
  intros [laws Hm]. unfold Iterator_where.
  apply (@pack_models _ _ (@WhereIterator_Laws _ _ _ _ laws)).
  now apply new_WhereIterator_models.
Qed.

Lemma Iterator_skip_models (this : IteratorObject T) (toSkip : option Z) (st : cursor T) :
  models this st ->
  models (Iterator_skip this toSkip) (skip_view (skip_pending toSkip 0) st).
Proof.
  intros [laws Hm]. unfold Iterator_skip.
  apply (@pack_models _ _ (@SkipIterator_Laws _ _ _ _ laws)).
  now apply new_SkipIterator_models.
Qed.

Lemma Iterator_take_models (this : IteratorObject T) (toTake : option Z) (st : cursor T) :
  models this st ->
  (started st = false -> count_le 0 toTake = true) ->
  models (Iterator_take this toTake)
    (take_view toTake (if positioned st then 1 else 0) st).
Proof.
  intros [laws Hm] Hb. unfold Iterator_take.
  apply (@pack_models _ _ (@TakeIterator_Laws _ _ _ _ laws)).
  now apply new_TakeIterator_models.
Qed.

Lemma Iterator_map_models (this : IteratorObject T) (f : T -> T) (st : cursor T) :
  models this st -> models (Iterator_map this (Some f)) (map_view f st).
Proof.
  intros [laws Hm]. unfold Iterator_map.
  apply (@pack_models _ _ (@MapIterator_Laws _ _ _ _ _ laws _)).
  now apply new_MapIterator_models.
Qed.

Lemma Iterator_concatenate_models (this other : IteratorObject T) (rest1 rest2 : list T) :
  models this (NotStarted rest1) -> models other (NotStarted rest2) ->
  models (Iterator_concatenate this (Some other)) (NotStarted (rest1 ++ rest2)).
Proof.
  intros [laws1 Hm1] [laws2 Hm2]. unfold Iterator_concatenate.
  apply (@pack_models _ _ (@ConcatenateIterator_Laws _ _ _ _ _ _ laws1 laws2)).
  now apply new_ConcatenateIterator_models.
Qed.
End IteratorObject.

(** ** Iterables *)

Section Iterable.
Context {T : Type} `{Undefined T}.

(** The classes that implement [Iterable<T>], one constructor for each
    with its fields.  The views are only built by the methods [where],
    [skip], [take], [map] and [concatenate] below, which test their
    argument first: a condition or function held by a view is defined, a
    count is an integer ([wf] says it is positive).  A [MapIterable] maps
    values to values; TypeScript's type parameters leave no trace at run
    time. *)
Inductive Iterable : Type :=
| OfArrayList (list : ArrayList T)
| WhereIterable (innerIterable : Iterable) (condition : T -> bool)
| SkipIterable (innerIterable : Iterable) (toSkip : Z)
| TakeIterable (innerIterable : Iterable) (toTake : Z)
| MapIterable (innerIterable : Iterable) (mapFunction : T -> T)
| ConcatenateIterable (first : Iterable) (second : ArrayList T).

(** [iterate()] *)
Fixpoint iterate (this : Iterable) : IteratorObject T :=
  match this with
  | OfArrayList list => pack (ArrayList_iterate list)
  | WhereIterable inner condition => Iterator_where (iterate inner) (Some condition)
  | SkipIterable inner toSkip => Iterator_skip (iterate inner) (Some toSkip)
  | TakeIterable inner toTake => Iterator_take (iterate inner) (Some toTake)
  | MapIterable inner mapFunction => Iterator_map (iterate inner) (Some mapFunction)
  | ConcatenateIterable first second =>
      Iterator_concatenate (iterate first) (Some (pack (ArrayList_iterate second)))
  end.

(** [getCount()]: [IterableBase] drains a fresh iterator; [ArrayList],
    [SkipIterable], [TakeIterable] and [MapIterable] override it. *)
Fixpoint getCount (this : Iterable) : Z :=
  match this with
  | OfArrayList list => ArrayList_getCount list
  | SkipIterable inner toSkip =>
      let result := getCount inner in
      if result <=? toSkip then 0 else result - toSkip
  | TakeIterable inner toTake =>
      let result := getCount inner in
      if toTake <? result then toTake else result
  | MapIterable inner _ => getCount inner
  | WhereIterable _ _ | ConcatenateIterable _ _ => fst (IteratorBase_getCount (iterate this))
  end.

(** [iterateReverse()] *)
Fixpoint iterateReverse (this : Iterable) : IteratorObject T :=
  match this with
  | OfArrayList list => pack (ArrayList_iterateReverse list)
  | WhereIterable inner condition => Iterator_where (iterateReverse inner) (Some condition)
  | SkipIterable inner toSkip => Iterator_take (iterateReverse inner) (Some (getCount this))
  | TakeIterable inner toTake =>
      Iterator_skip (iterateReverse inner) (Some (getCount inner - toTake))
  | MapIterable inner mapFunction => Iterator_map (iterateReverse inner) (Some mapFunction)
  | ConcatenateIterable first second =>
      Iterator_concatenate (pack (ArrayList_iterateReverse second))
        (Some (iterateReverse first))
  end.

(** [while (iterator.next() && 0 < index) { --index; }] *)
Fixpoint get_loop (fuel : nat) (iterator : IteratorObject T) (index : Q) : IteratorObject T :=
  match fuel with
  | O => iterator
  | S fuel' =>
      let (moved, iterator1) := next iterator in
      if moved && Qlt_bool 0 index
      then get_loop fuel' iterator1 (index - 1)%Q
      else iterator1
  end.

(** The body shared by [IterableBase.get(index)] and
    [IterableBase.getLast(index)], over a fresh iterator. *)
Definition IterableBase_getFrom (iterator : IteratorObject T) (index : number) : T :=
  match index with
  | Num q =>
      if Qle_bool 0 q
      then fst (getCurrent (get_loop (S (remaining iterator)) iterator q))
      else undefined
  | _ => undefined
  end.

(** [get(index)] *)
Fixpoint get (this : Iterable) (index : number) : T :=
  match this with
  | OfArrayList list => ArrayList_get list index
  | SkipIterable inner toSkip => get inner (number_add index (ofZ toSkip))
  | TakeIterable inner toTake =>
      if number_le (ofZ 0) index && number_lt index (ofZ (getCount this))
      then get inner index
      else undefined
  | MapIterable inner mapFunction =>
      if number_isDefined index && number_le (ofZ 0) index
         && number_lt index (ofZ (getCount this))
      then mapFunction (get inner index)
      else undefined
  | WhereIterable _ _ | ConcatenateIterable _ _ => IterableBase_getFrom (iterate this) index
  end.

(** [getLast(index)]: only [MapIterable] has its own. *)
Fixpoint getLast (this : Iterable) (index : number) : T :=
  match this with
  | MapIterable inner mapFunction =>
      if number_isDefined index && number_le (ofZ 0) index
         && number_lt index (ofZ (getCount this))
      then mapFunction (getLast inner index)
      else undefined
  | _ => IterableBase_getFrom (iterateReverse this) index
  end.

(** [toArray()]: [this.iterate().toArray()] *)
Definition toArray (this : Iterable) : list T := fst (IteratorBase_toArray (iterate this)).

(** [where(condition)]: [condition ? new WhereIterable<T>(this, condition) : this] *)
Definition Iterable_where (this : Iterable) (condition : option (T -> bool)) : Iterable :=
  match condition with
  | Some c => WhereIterable this c
  | None => this
  end.

(** [skip(toSkip)]: [toSkip && 0 < toSkip ? new SkipIterable(this, toSkip) : this] *)
Definition Iterable_skip (this : Iterable) (toSkip : option Z) : Iterable :=
  match truthyPositive toSkip with
  | Some n => SkipIterable this n
  | None => this
  end.

(** [take(toTake)]: [toTake && 0 < toTake ? new TakeIterable(this, toTake) : new ArrayList<T>()] *)
Definition Iterable_take (this : Iterable) (toTake : option Z) : Iterable :=
  match truthyPositive toTake with
  | Some n => TakeIterable this n
  | None => OfArrayList new_ArrayList
  end.

(** [map(mapFunction)]: [mapFunction ? new MapIterable(this, mapFunction) : new ArrayList<U>()] *)
Definition Iterable_map (this : Iterable) (mapFunction : option (T -> T)) : Iterable :=
  match mapFunction with
  | Some f => MapIterable this f
  | None => OfArrayList new_ArrayList
  end.

(** [concatenate(toConcatenate)], for an array of values (or nothing):
    the constructor of [ConcatenateIterable] copies them into an
    [ArrayList]. *)
Definition Iterable_concatenate (this : Iterable) (toConcatenate : option (list T))
  : Iterable :=
  match toConcatenate with
  | Some values => ConcatenateIterable this (ArrayList_of values)
  | None => this
  end.

(** [skipLast(toSkip)] and [takeLast(toTake)] *)
Definition Iterable_skipLast (this : Iterable) (toSkip : option Z) : Iterable :=
  match truthyPositive toSkip with
  | Some n => Iterable_take this (Some (getCount this - n))
  | None => this
  end.

Definition Iterable_takeLast (this : Iterable) (toTake : option Z) : Iterable :=
  match toTake with
  | Some n =>
      if (n =? 0) || (n <? 0) then OfArrayList new_ArrayList
      else
        let count := getCount this in
        if count <=? n then this else Iterable_skip this (Some (count - n))
  | None => OfArrayList new_ArrayList
  end.

(** [first(condition)] and [last(condition)] *)
Definition Iterable_first (this : Iterable) (condition : option (T -> bool)) : T :=
  Iterator_first (iterate this) condition.

Definition Iterable_last (this : Iterable) (condition : option (T -> bool)) : T :=
  Iterator_first (iterateReverse this) condition.

(** The invariant the constructors and the guarded methods establish: a
    list's slots in use lie inside its array, and a view's count is
    positive. *)
Fixpoint wf (this : Iterable) : bool :=
  match this with
  | OfArrayList list => (_count list <=? length (_data list))%nat
  | WhereIterable inner _ => wf inner
  | SkipIterable inner toSkip => (0 <? toSkip) && wf inner
  | TakeIterable inner toTake => (0 <? toTake) && wf inner
  | MapIterable inner _ => wf inner
  | ConcatenateIterable first second =>
      wf first && (_count second <=? length (_data second))%nat
  end.

(** The values of an iterable, in order: what the laws say a traversal
    yields. *)
Fixpoint elements (this : Iterable) : list T :=
  match this with
  | OfArrayList list => ArrayList_contents list
  | WhereIterable inner condition => filter condition (elements inner)
  | SkipIterable inner toSkip => skipn (Z.to_nat toSkip) (elements inner)
  | TakeIterable inner toTake => firstn (Z.to_nat toTake) (elements inner)
  | MapIterable inner mapFunction => map mapFunction (elements inner)
  | ConcatenateIterable first second => elements first ++ ArrayList_contents second
  end.
End Iterable.

Arguments Iterable : clear implicits.

(** ** Every iterable hands out lawful iterators *)

Section IterableLaws.
Context {T : Type} `{Undefined T}.

Lemma wf_ArrayList (list : ArrayList T) :
  (_count list <=? length (_data list))%nat = true -> ArrayList_wf list.
Proof. intros Hwf. apply Nat.leb_le in Hwf. exact Hwf. Qed.

(** The fresh iterators of an iterable stand before its values, forward
    and in reverse, and [getCount()] is their number. *)
Lemma iterable_models (this : Iterable T) :
  wf this = true ->
  models (iterate this) (NotStarted (elements this))
  /\ getCount this = Z.of_nat (length (elements this))
  /\ models (iterateReverse this) (NotStarted (rev (elements this))).
Proof.
  induction this as [list|inner IH condition|inner IH toSkip|inner IH toTake
                    |inner IH mapFunction|first IH second]; cbn [wf]; intros Hwf.
  - apply wf_ArrayList in Hwf. cbn [iterate iterateReverse getCount elements].
    split; [|split].
    + apply pack_models. now apply ArrayList_iterate_models.
    + unfold ArrayList_getCount. now rewrite ArrayList_contents_length.
    + apply pack_models. now apply ArrayList_iterateReverse_models.
  - destruct (IH Hwf) as (Hfwd & Hcount & Hrev).
    assert (Hiter : models (iterate (WhereIterable inner condition))
                      (NotStarted (elements (WhereIterable inner condition)))).
    { apply (Iterator_where_models (Some condition) Hfwd). }
    split; [exact Hiter|split].
    + cbn [getCount].
      destruct (getCount_spec Hiter) as (this' & -> & _). reflexivity.
    + cbn [iterateReverse elements]. rewrite <- filter_rev.
      apply (Iterator_where_models (Some condition) Hrev).
  - apply andb_prop in Hwf. destruct Hwf as [Hpos Hwf]. apply Z.ltb_lt in Hpos.
    destruct (IH Hwf) as (Hfwd & Hcount & Hrev).
    assert (Hc : getCount (SkipIterable inner toSkip)
                 = Z.of_nat (length (elements (SkipIterable inner toSkip)))).
    { cbn [getCount elements]. rewrite Hcount, length_skipn.
      destruct (Z.leb_spec (Z.of_nat (length (elements inner))) toSkip); lia. }
    split; [|split; [exact Hc|]].
    + pose proof (Iterator_skip_models (Some toSkip) Hfwd) as Hs.
      cbn [skip_pending] in Hs. rewrite Z.sub_0_r in Hs. exact Hs.
    + cbn [iterateReverse]. rewrite Hc.
      pose proof (@Iterator_take_models _ _ (iterateReverse inner)
                    (Some (Z.of_nat (length (elements (SkipIterable inner toSkip)))))
                    _ Hrev) as Ht.
      cbn [positioned take_view take_room] in Ht.
      rewrite Z.sub_0_r, Nat2Z.id in Ht.
      replace (rev (elements (SkipIterable inner toSkip)))
        with (firstn (length (elements (SkipIterable inner toSkip))) (rev (elements inner))).
      * apply Ht. intros _. cbn [count_le]. apply Z.leb_le. lia.
      * cbn [elements]. rewrite firstn_rev, length_skipn. f_equal.
        destruct (Nat.le_gt_cases (length (elements inner)) (Z.to_nat toSkip)).
        -- rewrite !skipn_all2; auto; lia.
        -- f_equal. lia.
  - apply andb_prop in Hwf. destruct Hwf as [Hpos Hwf]. apply Z.ltb_lt in Hpos.
    destruct (IH Hwf) as (Hfwd & Hcount & Hrev).
    split; [|split].
    + pose proof (@Iterator_take_models _ _ (iterate inner) (Some toTake) _ Hfwd) as Ht.
      cbn [positioned take_view take_room] in Ht. rewrite Z.sub_0_r in Ht.
      apply Ht. intros _. cbn [count_le]. apply Z.leb_le. lia.
    + cbn [getCount elements]. rewrite Hcount, length_firstn.
      destruct (Z.ltb_spec toTake (Z.of_nat (length (elements inner)))); lia.
    + cbn [iterateReverse elements]. rewrite Hcount.
      pose proof (Iterator_skip_models
                    (Some (Z.of_nat (length (elements inner)) - toTake)) Hrev) as Hs.
      cbn [skip_pending skip_view] in Hs. rewrite Z.sub_0_r in Hs.
      replace (rev (firstn (Z.to_nat toTake) (elements inner)))
        with (skipn (Z.to_nat (Z.of_nat (length (elements inner)) - toTake))
                (rev (elements inner))); [exact Hs|].
      rewrite skipn_rev. f_equal.
      destruct (Nat.le_gt_cases (length (elements inner)) (Z.to_nat toTake)).
      * rewrite !firstn_all2; auto; lia.
      * f_equal. lia.
  - destruct (IH Hwf) as (Hfwd & Hcount & Hrev).
    split; [|split].
    + apply (Iterator_map_models mapFunction Hfwd).
    + cbn [getCount elements]. now rewrite length_map.
    + cbn [iterateReverse elements]. rewrite <- map_rev.
      apply (Iterator_map_models mapFunction Hrev).
  - apply andb_prop in Hwf. destruct Hwf as [Hwf Hsecond].
    apply wf_ArrayList in Hsecond.
    destruct (IH Hwf) as (Hfwd & Hcount & Hrev).
    assert (Hiter : models (iterate (ConcatenateIterable first second))
                      (NotStarted (elements (ConcatenateIterable first second)))).
    { cbn [iterate elements]. apply Iterator_concatenate_models; auto.
      apply pack_models. now apply ArrayList_iterate_models. }
    split; [exact Hiter|split].
    + cbn [getCount].
      destruct (getCount_spec Hiter) as (this' & -> & _). reflexivity.
    + cbn [iterateReverse elements]. rewrite rev_app_distr.
      apply Iterator_concatenate_models; auto.
      apply pack_models. now apply ArrayList_iterateReverse_models.
Qed.

Lemma toArray_elements (this : Iterable T) : wf this = true -> toArray this = elements this.
Proof.
  intros Hwf. destruct (iterable_models Hwf) as (Hfwd & _ & _).
  unfold toArray. destruct (toArray_spec Hfwd) as (this' & -> & _). reflexivity.
Qed.

Lemma truthyPositive_spec (n : option Z) :
  truthyPositive n = match n with
                     | Some z => if 0 <? z then Some z else None
                     | None => None
                     end.
Proof.
  destruct n as [z|]; simpl; auto.
  destruct (Z.eqb_spec z 0), (Z.ltb_spec 0 z); simpl; auto; lia.
Qed.

Lemma Iterable_skip_wf (this : Iterable T) (toSkip : option Z) :
  wf this = true ->
  wf (Iterable_skip this toSkip) = true
  /\ elements (Iterable_skip this toSkip)
     = skipn (match toSkip with Some z => Z.to_nat z | None => 0%nat end) (elements this).
Proof.
  intros Hwf. unfold Iterable_skip. rewrite truthyPositive_spec.
  destruct toSkip as [z|]; [|auto].
  destruct (Z.ltb_spec 0 z) as [Hpos|Hle]; cbn [wf elements].
  - split; auto. rewrite Hwf. apply Z.ltb_lt in Hpos. now rewrite Hpos.
  - split; auto. now replace (Z.to_nat z) with 0%nat by lia.
Qed.

Lemma Iterable_take_wf (this : Iterable T) (toTake : option Z) :
  wf this = true ->
  wf (Iterable_take this toTake) = true
  /\ elements (Iterable_take this toTake)
     = firstn (match toTake with Some z => Z.to_nat z | None => 0%nat end) (elements this).
Proof.
  intros Hwf. unfold Iterable_take. rewrite truthyPositive_spec.
  destruct toTake as [z|]; [|auto].
  destruct (Z.ltb_spec 0 z) as [Hpos|Hle]; cbn [wf elements].
  - split; auto. rewrite Hwf. apply Z.ltb_lt in Hpos. now rewrite Hpos.
  - split; auto. now replace (Z.to_nat z) with 0%nat by lia.
Qed.
End IterableLaws.

(** ** The operators on iterables *)

(** [Array.prototype.slice(start, end)] with integer arguments: a negative
    argument counts from the end of the array, and both are clamped to
    it. *)
Definition Array_slice {T : Type} (array : list T) (start end_ : Z) : list T :=
  let len := Z.of_nat (length array) in
  let from := if start <? 0 then Z.max (len + start) 0 else Z.min start len in
  let final := if end_ <? 0 then Z.max (len + end_) 0 else Z.min end_ len in
  firstn (Z.to_nat (Z.max (final - from) 0)) (skipn (Z.to_nat from) array).

Lemma Array_slice_nonneg {T : Type} (array : list T) (a b : Z) :
  0 <= a -> 0 <= b ->
  Array_slice array a (a + b) = firstn (Z.to_nat b) (skipn (Z.to_nat a) array).
Proof.
  intros Ha Hb. unfold Array_slice.
  destruct (Z.ltb_spec a 0); [lia|]. destruct (Z.ltb_spec (a + b) 0); [lia|].
  destruct (Z.le_gt_cases (Z.of_nat (length array)) a) as [Hout|Hin].
  - rewrite !(@skipn_all2 _ _ array) by lia. now rewrite !firstn_nil.
  - replace (Z.min a (Z.of_nat (length array))) with a by lia.
    destruct (Z.le_gt_cases (a + b) (Z.of_nat (length array))).
    + f_equal. lia.
    + rewrite !firstn_all2; auto; rewrite length_skipn; lia.
Qed.

(** Some values to run the operators on. *)
Definition sampleList : ArrayList (option Z) :=
  ArrayList_of [Some 10; Some 20; Some 30; Some 40; Some 50].

Definition sample : Iterable (option Z) := OfArrayList sampleList.

Section Operators.
Context {T : Type} `{Undefined T}.

(** C4.  For every iterable and all integer counts [a, b >= 0],
    [skip(a).take(b).toArray()] is [toArray().slice(a, a + b)], which is
    empty when [a] is at least the number of values; [skip(0)] yields the
    values of the iterable and [take(0)] yields none. *)
Theorem skip_take_is_slice (this : Iterable T) (a b : Z) :
  wf this = true -> 0 <= a -> 0 <= b ->
  toArray (Iterable_take (Iterable_skip this (Some a)) (Some b))
  = Array_slice (toArray this) a (a + b)
  /\ (Z.of_nat (length (toArray this)) <= a ->
      toArray (Iterable_take (Iterable_skip this (Some a)) (Some b)) = [])
  /\ toArray (Iterable_skip this (Some 0)) = toArray this
  /\ toArray (Iterable_take this (Some 0)) = [].
Proof.
  intros Hwf Ha Hb.
  destruct (Iterable_skip_wf (Some a) Hwf) as [Hwf1 Hel1].
  destruct (Iterable_take_wf (Some b) Hwf1) as [Hwf2 Hel2].
  assert (Hmain : toArray (Iterable_take (Iterable_skip this (Some a)) (Some b))
                  = firstn (Z.to_nat b) (skipn (Z.to_nat a) (toArray this))).
  { rewrite (toArray_elements Hwf2), (toArray_elements Hwf), Hel2, Hel1. reflexivity. }
  split; [|split; [|split]].
  - rewrite Hmain. symmetry. now apply Array_slice_nonneg.
  - intros Hlen. rewrite Hmain, skipn_all2 by lia. apply firstn_nil.
  - reflexivity.
  - reflexivity.
Qed.

(** C5.  For every iterable and positive integers [a] and [b],
    [skip(a).getCount()] is [max(0, getCount() - a)] and
    [take(b).getCount()] is [min(b, getCount())], and each is the number of
    values that iterating the view yields. *)
Theorem skip_take_getCount (this : Iterable T) (a b : Z) :
  wf this = true -> 0 < a -> 0 < b ->
  getCount (Iterable_skip this (Some a)) = Z.max 0 (getCount this - a)
  /\ getCount (Iterable_skip this (Some a))
     = Z.of_nat (length (toArray (Iterable_skip this (Some a))))
  /\ getCount (Iterable_take this (Some b)) = Z.min b (getCount this)
  /\ getCount (Iterable_take this (Some b))
     = Z.of_nat (length (toArray (Iterable_take this (Some b)))).
Proof.
  intros Hwf Ha Hb.
  destruct (Iterable_skip_wf (Some a) Hwf) as [Hwf1 _].
  destruct (Iterable_take_wf (Some b) Hwf) as [Hwf2 _].
  destruct (iterable_models Hwf1) as (_ & Hc1 & _).
  destruct (iterable_models Hwf2) as (_ & Hc2 & _).
  rewrite (toArray_elements Hwf1), (toArray_elements Hwf2), <- Hc1, <- Hc2.
  unfold Iterable_skip, Iterable_take. rewrite !truthyPositive_spec.
  destruct (Z.ltb_spec 0 a); [|lia]. destruct (Z.ltb_spec 0 b); [|lia].
  cbn [getCount].
  destruct (Z.leb_spec (getCount this) a), (Z.ltb_spec b (getCount this));
    repeat split; lia.
Qed.

(** [n] times [next()]. *)
Fixpoint nextN {I : Type} `{Iterator I T} (n : nat) (this : I) : I :=
  match n with
  | O => this
  | S n' => nextN n' (snd (next this))
  end.

(** A count that is undefined, zero or negative. *)
Definition noCount (n : option Z) : bool :=
  match n with
  | Some z => z <=? 0
  | None => true
  end.

(** C3.  The operators are total on absent and degenerate arguments:
    [where(undefined)] is the iterable itself; [skip] with an undefined or
    non-positive count is the iterable itself; [take] with an undefined or
    non-positive bound is a new empty list, whose iterator has no first
    value; [map(undefined)] is a new empty list too, so
    [map(undefined).toArray()] is empty whatever the iterable holds.  The
    same holds one level down: an iterator mapped with an undefined
    function never has a current value, however often it is advanced, and
    drains to the empty array. *)
Theorem operators_total_on_absent_arguments (this : Iterable T) :
  Iterable_where this None = this
  /\ (forall n, noCount n = true -> Iterable_skip this n = this)
  /\ (forall n, noCount n = true ->
      Iterable_take this n = OfArrayList new_ArrayList
      /\ toArray (Iterable_take this n) = []
      /\ fst (next (iterate (Iterable_take this n))) = false)
  /\ Iterable_map this None = OfArrayList new_ArrayList
  /\ toArray (Iterable_map this None) = []
  /\ (forall iterator : IteratorObject T,
      fst (IteratorBase_toArray (Iterator_map iterator None)) = []
      /\ forall n,
           fst (hasCurrent (nextN n (Iterator_map iterator None))) = false
           /\ fst (next (nextN n (Iterator_map iterator None))) = false
           /\ fst (getCurrent (nextN n (Iterator_map iterator None))) = undefined).
Proof.
  assert (Hno : forall n, noCount n = true -> truthyPositive n = None).
  { intros n Hn. rewrite truthyPositive_spec. destruct n as [z|]; auto.
    simpl in Hn. apply Z.leb_le in Hn. destruct (Z.ltb_spec 0 z); auto; lia. }
  split; [reflexivity|]. split; [|split; [|split; [|split]]].
  - intros n Hn. unfold Iterable_skip. now rewrite (Hno n Hn).
  - intros n Hn. unfold Iterable_take. rewrite (Hno n Hn). repeat split.
  - reflexivity.
  - reflexivity.
  - intros [I class state]. split; [reflexivity|].
    assert (Hstep : forall started_,
      snd (next (@pack _ _ (@MapIterator_Iterator _ _ _ class _)
                   (Build_MapIterator state (@None (T -> T)) started_)))
      = @pack _ _ (@MapIterator_Iterator _ _ _ class _)
          (Build_MapIterator state (@None (T -> T)) true)) by reflexivity.
    assert (Hall : forall n started_,
      let this' := nextN n (@pack _ _ (@MapIterator_Iterator _ _ _ class _)
                              (Build_MapIterator state (@None (T -> T)) started_)) in
      fst (hasCurrent this') = false /\ fst (next this') = false
      /\ fst (getCurrent this') = undefined).
    { induction n as [|n IH]; intros started_.
      - repeat split.
      - cbn [nextN]. rewrite Hstep. apply IH. }
    intros n. apply Hall.
Qed.
End Operators.

Lemma skip_take_is_slice_witness :
  wf sample = true /\ 0 <= 1 /\ 0 <= 2
  /\ toArray (Iterable_take (Iterable_skip sample (Some 1)) (Some 2))
     = Array_slice (toArray sample) 1 (1 + 2).
Proof.
  split; [reflexivity|]. split; [lia|]. split; [lia|].
  destruct (@skip_take_is_slice _ _ sample 1 2) as [Hslice _]; [reflexivity|lia|lia|].
  exact Hslice.
Defined.

Lemma skip_take_getCount_witness :
  wf sample = true /\ 0 < 2 /\ 0 < 3
  /\ getCount (Iterable_skip sample (Some 2)) = Z.max 0 (getCount sample - 2)
  /\ getCount (Iterable_take sample (Some 3)) = Z.min 3 (getCount sample).
Proof.
  split; [reflexivity|]. split; [lia|]. split; [lia|].
  destruct (@skip_take_getCount _ _ sample 2 3) as (Hs & _ & Ht & _);
    [reflexivity|lia|lia|].
  split; [exact Hs | exact Ht].
Defined.

Lemma operators_total_on_absent_arguments_witness :
  noCount (Some (-1)) = true
  /\ Iterable_skip sample (Some (-1)) = sample
  /\ toArray (Iterable_take sample (Some (-1))) = []
  /\ toArray (Iterable_map sample None) = [].
Proof.
  split; [reflexivity|].
  destruct (operators_total_on_absent_arguments sample) as (_ & Hskip & Htake & _ & Hmap & _).
  split; [apply Hskip; reflexivity|].
  split; [apply (Htake (Some (-1))); reflexivity | exact Hmap].
Defined.

(** ** The iterator protocol *)

Section Protocol.
Context {I T : Type} `{IteratorLaws I T}.

Lemma models_nextN (n : nat) : forall (this : I) (st : cursor T),
  models this st -> models (nextN n this) (advanceN n st).
Proof.
  induction n as [|n IH]; intros this st Hm; [exact Hm|].
  cbn [nextN advanceN]. destruct (models_next Hm) as (this' & Hn & Hm').
  rewrite Hn. apply IH. exact Hm'.
Qed.

Lemma nextN_add (n m : nat) (this : I) : nextN (n + m) this = nextN m (nextN n this).
Proof. revert this. induction n as [|n IH]; intros this; simpl; auto. Qed.

(** What the laws give for an iterator that has not started: it reports
    neither a start nor a current value; after the first [next()] it has
    started; every [next()] returns what [hasCurrent()] returns right
    after it; and once a [next()] returned false, every later [next()]
    returns false and [getCurrent()] returns [undefined].  The instances
    [ArrayListForwardIterator_Laws], [ArrayListReverseIterator_Laws],
    [StringIterator_Laws], [Lexer_Laws], [WhereIterator_Laws],
    [SkipIterator_Laws], [MapIterator_Laws], [ConcatenateIterator_Laws] and
    [IteratorObject_Laws] bring every iterator of the library under this
    lemma, [TakeIterator_Laws] only a take whose bound is an integer that
    is not negative. *)
Lemma iterator_protocol (this : I) (rest : list T) :
  models this (NotStarted rest) ->
  hasStarted this = false
  /\ fst (hasCurrent this) = false
  /\ hasStarted (snd (next this)) = true
  /\ (forall n, fst (hasCurrent (snd (next (nextN n this)))) = fst (next (nextN n this)))
  /\ (forall n, fst (next (nextN n this)) = false ->
      forall m, fst (next (nextN (n + 1 + m) this)) = false
                /\ fst (getCurrent (nextN (n + 1 + m) this)) = undefined).
Proof.
  intros Hm. split; [|split; [|split; [|split]]].
  - apply (models_hasStarted Hm).
  - destruct (models_hasCurrent Hm) as (this' & -> & _). reflexivity.
  - destruct (models_next Hm) as (this' & -> & Hm'). cbn [snd].
    rewrite (models_hasStarted Hm'). apply started_advance.
  - intros n. pose proof (models_nextN n Hm) as Hn.
    destruct (models_next Hn) as (this' & -> & Hm'). cbn [fst snd].
    destruct (models_hasCurrent Hm') as (this'' & -> & _). reflexivity.
  - intros n Hfalse m. pose proof (models_nextN n Hm) as Hn.
    destruct (models_next Hn) as (this' & Hnext & Hm').
    rewrite Hnext in Hfalse. cbn [fst] in Hfalse.
    rewrite (positioned_advance_false Hfalse) in Hm'.
    assert (Hdone : models (nextN (n + 1 + m) this) Done).
    { rewrite <- Nat.add_assoc, nextN_add. cbn [Nat.add nextN]. rewrite Hnext. cbn [snd].
      pose proof (models_nextN m Hm') as Hd. now rewrite advanceN_Done in Hd. }
    destruct (models_next Hdone) as (this1 & -> & _).
    destruct (models_getCurrent Hdone) as (this2 & -> & _).
    split; reflexivity.
Qed.

(** A take decorator without room for a first value (its bound undefined
    or negative) over an iterator that has not started: [next()] returns
    false and nothing starts, however often it is called. *)
Lemma TakeIterator_without_room (inner : I) (toTake : option Z) (rest : list T) :
  models inner (NotStarted rest) ->
  count_le 0 toTake = false ->
  forall n,
    hasStarted (nextN n (new_TakeIterator inner toTake)) = false
    /\ fst (next (nextN n (new_TakeIterator inner toTake))) = false.
Proof.
  intros Hm Hroom.
  assert (Hstay : forall inner0, models inner0 (NotStarted rest) ->
            exists inner1, models inner1 (NotStarted rest)
              /\ next (Build_TakeIterator inner0 toTake 0)
                 = (false, Build_TakeIterator inner1 toTake 0)).
  { intros inner0 Hm0. simpl. unfold TakeIterator_next.
    rewrite canTakeValue_eq. cbn [take_taken take_toTake]. rewrite Hroom.
    unfold TakeIterator_hasCurrent. cbn [take_innerIterator take_toTake take_taken].
    destruct (models_hasCurrent Hm0) as (inner1 & -> & Hm1).
    exists inner1. auto. }
  assert (Hall : forall n inner0, models inner0 (NotStarted rest) ->
            hasStarted (nextN n (Build_TakeIterator inner0 toTake 0)) = false
            /\ fst (next (nextN n (Build_TakeIterator inner0 toTake 0))) = false).
  { induction n as [|n IH]; intros inner0 Hm0.
    - cbn [nextN]. destruct (Hstay inner0 Hm0) as (inner1 & _ & ->).
      split; [apply (models_hasStarted Hm0) | reflexivity].
    - cbn [nextN]. destruct (Hstay inner0 Hm0) as (inner1 & Hm1 & ->). cbn [snd].
      apply IH. exact Hm1. }
  intros n. unfold new_TakeIterator.
  destruct (models_hasCurrent Hm) as (inner1 & -> & Hm1). cbn [positioned].
  apply Hall. exact Hm1.
Qed.

(** The loop of [toArray()] over a take decorator that has taken [k]
    values of [rest] and may take [bound]: it yields the values up to the
    bound, and its last [next()] moves the inner iterator once more. *)
Lemma take_forOf_loop (rest : list T) (bound : Z) (fuel : nat) :
  forall (k : nat) (inner : I) (result : list T),
  models inner (advanceN k (NotStarted rest)) ->
  Z.of_nat k <= bound -> bound < Z.of_nat (length rest) ->
  (Z.to_nat bound - k < fuel)%nat ->
  exists inner',
    forOf_loop fuel (Build_TakeIterator inner (Some bound) (Z.of_nat k)) result
    = (result ++ firstn (Z.to_nat bound - k) (skipn k rest),
       Build_TakeIterator inner' (Some bound) (bound + 1))
    /\ models inner' (advanceN (S (Z.to_nat bound)) (NotStarted rest)).
Proof.
  induction fuel as [|fuel IH]; intros k inner result Hm Hk Hbound Hfuel; [lia|].
  cbn [forOf_loop].
  destruct (models_next Hm) as (inner1 & Hnext & Hm1).
  rewrite <- advanceN_succ in Hm1.
  assert (Hat : advanceN (S k) (NotStarted rest)
                = At (nth k rest undefined) (skipn (S k) rest)).
  { rewrite advanceN_NotStarted.
    destruct (skipn k rest) as [|value rest'] eqn:Hskip.
    - apply skipn_nil_iff in Hskip. lia.
    - cbn [cursor_at]. f_equal.
      + rewrite <- (hd_skipn_nth k rest undefined), Hskip. reflexivity.
      + rewrite skipn_succ_tl, Hskip. reflexivity. }
  rewrite Hat in Hm1.
  destruct (models_hasCurrent Hm1) as (inner2 & Hhas & Hm2).
  change (next (Build_TakeIterator inner (Some bound) (Z.of_nat k)))
    with (TakeIterator_next (Build_TakeIterator inner (Some bound) (Z.of_nat k))).
  unfold TakeIterator_next. rewrite canTakeValue_eq.
  cbn [take_taken take_toTake take_innerIterator count_le].
  destruct (Z.leb_spec (Z.of_nat k) bound); [|lia].
  rewrite Hnext. cbn [snd]. unfold TakeIterator_hasCurrent.
  cbn [take_taken take_toTake take_innerIterator]. rewrite Hhas. cbn [positioned andb].
  rewrite canTakeValue_eq. cbn [take_taken take_toTake count_le].
  change (getCurrent (Build_TakeIterator inner2 (Some bound) (Z.of_nat k + 1)))
    with (TakeIterator_getCurrent (Build_TakeIterator inner2 (Some bound) (Z.of_nat k + 1))).
  unfold TakeIterator_getCurrent, TakeIterator_hasCurrent.
  cbn [take_taken take_toTake take_innerIterator].
  destruct (models_hasCurrent Hm2) as (inner3 & Hhas3 & Hm3). rewrite Hhas3.
  cbn [positioned andb]. rewrite canTakeValue_eq. cbn [take_taken take_toTake count_le].
  destruct (Z.leb_spec (Z.of_nat k + 1) bound) as [Hmore|Hlast].
  - cbn [take_taken take_toTake take_innerIterator].
    destruct (models_getCurrent Hm3) as (inner4 & Hcur & Hm4). rewrite Hcur. cbn [current].
    rewrite <- Hat in Hm4.
    replace (Z.of_nat k + 1) with (Z.of_nat (S k)) by lia.
    destruct (IH (S k) inner4 (result ++ [nth k rest undefined]) Hm4) as (inner' & -> & Hm');
      [lia|lia|lia|].
    exists inner'. split; auto. f_equal.
    replace (Z.to_nat bound - k)%nat with (S (Z.to_nat bound - S k)) by lia.
    rewrite <- app_assoc. f_equal.
    assert (Hskip : skipn k rest = nth k rest undefined :: skipn (S k) rest).
    { destruct (skipn k rest) as [|value rest'] eqn:Hs.
      - apply skipn_nil_iff in Hs. lia.
      - rewrite <- (hd_skipn_nth k rest undefined), skipn_succ_tl, Hs. reflexivity. }
    rewrite Hskip. reflexivity.
  - exists inner3. split.
    + replace (Z.to_nat bound - k)%nat with 0%nat by lia.
      cbn [firstn]. rewrite app_nil_r. repeat f_equal. lia.
    + rewrite <- Hat in Hm3. now replace (Z.to_nat bound) with k by lia.
Qed.

(** C10.  Draining the [take(n)] view of an iterator that has not
    started, over more than [n >= 1] values: the view yields the first [n]
    values and ends exhausted, and the inner iterator has been advanced
    [n + 1] times; it stands on the value of index [n], the one after the
    last value the view showed. *)
Theorem take_drain_advances_inner_past_the_bound (inner : I) (rest : list T) (n : Z) :
  models inner (NotStarted rest) ->
  1 <= n -> n < Z.of_nat (length rest) ->
  let drained := IteratorBase_toArray (new_TakeIterator inner (Some n)) in
  fst drained = firstn (Z.to_nat n) rest
  /\ models (take_innerIterator (snd drained)) (advanceN (S (Z.to_nat n)) (NotStarted rest))
  /\ advanceN (S (Z.to_nat n)) (NotStarted rest)
     = At (nth (Z.to_nat n) rest undefined) (skipn (S (Z.to_nat n)) rest)
  /\ fst (hasCurrent (take_innerIterator (snd drained))) = true
  /\ fst (getCurrent (take_innerIterator (snd drained))) = nth (Z.to_nat n) rest undefined
  /\ fst (hasCurrent (snd drained)) = false.
Proof.
  intros Hm Hn Hlen drained.
  assert (Hat : advanceN (S (Z.to_nat n)) (NotStarted rest)
                = At (nth (Z.to_nat n) rest undefined) (skipn (S (Z.to_nat n)) rest)).
  { rewrite advanceN_NotStarted.
    destruct (skipn (Z.to_nat n) rest) as [|value rest'] eqn:Hskip.
    - apply skipn_nil_iff in Hskip. lia.
    - cbn [cursor_at]. f_equal.
      + rewrite <- (hd_skipn_nth (Z.to_nat n) rest undefined), Hskip. reflexivity.
      + rewrite skipn_succ_tl, Hskip. reflexivity. }
  assert (Hdrained : exists inner',
            drained = (firstn (Z.to_nat n) rest, Build_TakeIterator inner' (Some n) (n + 1))
            /\ models inner' (advanceN (S (Z.to_nat n)) (NotStarted rest))).
  { subst drained. unfold IteratorBase_toArray, new_TakeIterator.
    destruct (models_hasCurrent Hm) as (inner1 & -> & Hm1). cbn [positioned].
    change (hasCurrent (Build_TakeIterator inner1 (Some n) 0))
      with (TakeIterator_hasCurrent (Build_TakeIterator inner1 (Some n) 0)).
    unfold TakeIterator_hasCurrent. cbn [take_innerIterator take_toTake take_taken].
    destruct (models_hasCurrent Hm1) as (inner2 & -> & Hm2). cbn [positioned andb].
    destruct (@take_forOf_loop rest n
                (S (remaining (Build_TakeIterator inner2 (Some n) 0))) 0 inner2 [])
      as (inner' & Hloop & Hm').
    - exact Hm2.
    - lia.
    - exact Hlen.
    - pose proof (models_remaining Hm2) as Hr. cbn [upcoming] in Hr.
      cbn [remaining TakeIterator_Iterator take_innerIterator]. lia.
    - exists inner'. split; auto.
      change (Z.of_nat 0) with 0 in Hloop. rewrite Hloop.
      cbn [app skipn]. now rewrite Nat.sub_0_r. }
  destruct Hdrained as (inner' & -> & Hm'). cbn [fst snd take_innerIterator].
  split; [reflexivity|]. split; [exact Hm'|]. split; [exact Hat|].
  rewrite Hat in Hm'.
  destruct (models_hasCurrent Hm') as (inner1 & Hh & _).
  destruct (models_getCurrent Hm') as (inner2 & Hg & _).
  rewrite Hh, Hg. split; [reflexivity|]. split; [reflexivity|].
  change (hasCurrent (Build_TakeIterator inner' (Some n) (n + 1)))
    with (TakeIterator_hasCurrent (Build_TakeIterator inner' (Some n) (n + 1))).
  unfold TakeIterator_hasCurrent. cbn [take_innerIterator take_toTake take_taken].
  rewrite Hh. cbn [fst positioned andb]. rewrite canTakeValue_eq.
  cbn [take_taken take_toTake count_le]. apply Z.leb_gt. lia.
Qed.
End Protocol.

Lemma sampleList_wf : ArrayList_wf sampleList.
Proof. unfold ArrayList_wf. simpl. lia. Qed.

Lemma take_drain_advances_inner_past_the_bound_witness :
  models (ArrayList_iterate sampleList) (NotStarted (ArrayList_contents sampleList))
  /\ 1 <= 2 /\ 2 < Z.of_nat (length (ArrayList_contents sampleList))
  /\ fst (IteratorBase_toArray (new_TakeIterator (ArrayList_iterate sampleList) (Some 2)))
     = firstn (Z.to_nat 2) (ArrayList_contents sampleList)
  /\ fst (getCurrent
            (take_innerIterator
               (snd (IteratorBase_toArray
                       (new_TakeIterator (ArrayList_iterate sampleList) (Some 2))))))
     = nth (Z.to_nat 2) (ArrayList_contents sampleList) undefined.
Proof.
  assert (Hm : models (ArrayList_iterate sampleList)
                 (NotStarted (ArrayList_contents sampleList)))
    by (apply ArrayList_iterate_models, sampleList_wf).
  assert (Hlen : 2 < Z.of_nat (length (ArrayList_contents sampleList)))
    by (simpl; lia).
  split; [exact Hm|]. split; [lia|]. split; [exact Hlen|].
  destruct (@take_drain_advances_inner_past_the_bound _ _ _ _ _
              (ArrayList_iterate sampleList) (ArrayList_contents sampleList) 2 Hm)
    as (Harr & _ & _ & _ & Hcur & _); [lia|exact Hlen|].
  split; [exact Harr | exact Hcur].
Defined.

(** C1, where the code departs from it.  A take decorator whose bound is
    undefined, or negative, over a list iterator that has not started:
    [next()] returns false without reaching the inner iterator, so
    [hasStarted()] is still false after the first [next()], and after any
    number of them. *)
Theorem TakeIterator_without_bound_never_starts :
  let undefinedBound := new_TakeIterator (ArrayList_iterate sampleList) None in
  let negativeBound := new_TakeIterator (ArrayList_iterate sampleList) (Some (-1)) in
  hasStarted undefinedBound = false
  /\ fst (next undefinedBound) = false
  /\ hasStarted (snd (next undefinedBound)) = false
  /\ hasStarted (nextN 5 undefinedBound) = false
  /\ fst (next negativeBound) = false
  /\ hasStarted (snd (next negativeBound)) = false
  /\ fst (IteratorBase_toArray undefinedBound) = [].
Proof. repeat split. Qed.

(** C6, where the code departs from it.  [SkipIterable.get] adds the
    count to the index without looking at its sign: on the list
    [10, 20, 30, 40, 50], [skip(2).get(-1)] is the inner [get(1)], the
    value 20.  The inherited [getLast] walks a reverse iterator while
    [0 < index] and decrements: [getLast(0.5)] stops on the second value
    from the end, 40, and [where(..).get(0.5)] on the second value, 20. *)
Theorem SkipIterable_get_negative_index_returns_a_value :
  get (Iterable_skip sample (Some 2)) (ofZ (-1)) = Some 20
  /\ get (Iterable_skip sample (Some 2)) (ofZ (-1)) <> undefined
  /\ getLast sample (Num (1 # 2)) = Some 40
  /\ get (Iterable_where sample (Some (fun _ => true))) (Num (1 # 2)) = Some 20.
Proof. repeat split. discriminate. Qed.

(** Where C6 holds: [ArrayList.get], and the guards of [TakeIterable.get],
    [MapIterable.get] and [MapIterable.getLast], return [undefined] for an
    index that is undefined, not a number, negative, or at least the
    count. *)
Lemma ArrayList_get_out_of_range {T : Type} `{Undefined T} (list : ArrayList T)
  (index : number) :
  match index with
  | Num q => Qlt_bool q 0 = true
             \/ Qle_bool (inject_Z (ArrayList_getCount list)) q = true
  | _ => True
  end ->
  ArrayList_get list index = undefined.
Proof.
  destruct index as [| |q]; auto. unfold ArrayList_get, number_le, number_lt, ofZ, Qlt_bool.
  cbn [number_isDefined andb]. intros [Hneg|Hbig].
  - unfold Qlt_bool in Hneg. apply negb_true_iff in Hneg.
    change (inject_Z 0) with 0%Q. now rewrite Hneg.
  - rewrite Hbig. cbn [negb]. now rewrite andb_false_r.
Qed.

Lemma guarded_get_out_of_range {T : Type} `{Undefined T} (inner : Iterable T)
  (toTake : Z) (mapFunction : T -> T) (index : number) :
  match index with
  | Num q => Qlt_bool q 0 = true \/ Qle_bool (inject_Z (getCount inner)) q = true
  | _ => True
  end ->
  getCount (TakeIterable inner toTake) <= getCount inner ->
  get (TakeIterable inner toTake) index = undefined
  /\ get (MapIterable inner mapFunction) index = undefined
  /\ getLast (MapIterable inner mapFunction) index = undefined.
Proof.
  intros Hindex Hcount.
  destruct index as [| |q]; [repeat split..|].
  cbn [get getLast number_isDefined number_le number_lt ofZ andb].
  cbn [getCount] in *. destruct Hindex as [Hneg|Hbig].
  - unfold Qlt_bool in Hneg. apply negb_true_iff in Hneg.
    change (inject_Z 0) with 0%Q. rewrite Hneg. repeat split.
  - assert (Hout : forall n, n <= getCount inner -> Qlt_bool q (inject_Z n) = false).
    { intros n Hn. unfold Qlt_bool. apply negb_false_iff.
      apply Qle_bool_iff. apply Qle_bool_iff in Hbig.
      eapply Qle_trans; [|exact Hbig]. rewrite <- Zle_Qle. exact Hn. }
    rewrite !Hout by lia. rewrite !andb_false_r. repeat split.
Qed.

(** C7, as the code has it.  On integers where the arithmetic of numbers
    is exact, that is when [startIndex], [length], their sum and the sum
    less one have a magnitude of at most 2^53: [afterEndIndex] is
    [startIndex + length]; [endIndex] is [afterEndIndex - 1] whatever the
    length, so the index before [startIndex] when the length is 0;
    [toString()] prints the half-open interval.  For [Span(3, 2)]: 3, 2,
    5, 4 and ["[3,5)"]. *)
Theorem Span_derived_indexes (startIndex length_ : Z) :
  exactInteger startIndex -> exactInteger length_ ->
  exactInteger (startIndex + length_) -> exactInteger (startIndex + length_ - 1) ->
  let span := Build_Span startIndex length_ in
  Span_afterEndIndex span = startIndex + length_
  /\ Span_endIndex span = Span_afterEndIndex span - 1
  /\ (length_ = 0 -> Span_endIndex span = startIndex - 1)
  /\ Span_toString span
     = Some ("[" ++ decimal startIndex ++ "," ++ decimal (startIndex + length_) ++ ")")%string
  /\ span_startIndex (Build_Span 3 2) = 3
  /\ span_length (Build_Span 3 2) = 2
  /\ Span_afterEndIndex (Build_Span 3 2) = 5
  /\ Span_endIndex (Build_Span 3 2) = 4
  /\ Span_toString (Build_Span 3 2) = Some "[3,5)"%string.
Proof.
  intros Hstart Hlength Hsum Hlast. cbv zeta.
  assert (Hafter : Span_afterEndIndex (Build_Span startIndex length_) = startIndex + length_)
    by (apply integer_add_exact; exact Hsum).
  assert (Hend : Span_endIndex (Build_Span startIndex length_) = startIndex + length_ - 1).
  { unfold Span_endIndex. rewrite Hafter. apply integer_sub_exact. exact Hlast. }
  split; [exact Hafter|]. split; [rewrite Hend, Hafter; reflexivity|].
  split; [intros ->; rewrite Hend; lia|].
  split; [|repeat split].
  unfold Span_toString, numberToString. rewrite Hafter. cbn [span_startIndex].
  unfold exactInteger in *.
  destruct (Z.leb_spec (Z.abs startIndex) (2 ^ 53)); [|lia].
  destruct (Z.leb_spec (Z.abs (startIndex + length_)) (2 ^ 53)); [|lia].
  reflexivity.
Qed.

Lemma Span_derived_indexes_witness :
  Span_afterEndIndex (Build_Span 7 4) = 11
  /\ Span_endIndex (Build_Span 7 4) = Span_afterEndIndex (Build_Span 7 4) - 1
  /\ Span_toString (Build_Span 7 4) = Some "[7,11)"%string.
Proof.
  destruct (@Span_derived_indexes 7 4) as (Hafter & Hend & _ & Hstring & _);
    try (unfold exactInteger; simpl; lia).
  split; [exact Hafter|]. split; [exact Hend|exact Hstring].
Defined.

(** C7 as stated fails on an empty span: the [endIndex] of [Span(3, 0)] is
    2, not its [startIndex]. *)
Lemma Span_endIndex_of_empty_span_is_before_start :
  Span_endIndex (Build_Span 3 0) = 2
  /\ Span_endIndex (Build_Span 3 0) <> span_startIndex (Build_Span 3 0).
Proof. split; [reflexivity | discriminate]. Qed.

(** Past 2^53 the sums of the code round: the [afterEndIndex] of
    [Span(9007199254740992, 1)] is 9007199254740992 again, and its
    [endIndex] 9007199254740991. *)
Lemma Span_afterEndIndex_rounds_past_the_exact_integers :
  Span_afterEndIndex (Build_Span 9007199254740992 1) = 9007199254740992
  /\ Span_endIndex (Build_Span 9007199254740992 1) = 9007199254740991
  /\ Span_toString (Build_Span 9007199254740992 1)
     = Some "[9007199254740992,9007199254740992)"%string.
Proof. vm_compute. repeat split. Qed.

(** ** ArrayList: searching and removing *)

Section ArrayListRemove.
Context {T : Type} `{Undefined T}.

(** The loop of [indexOf]:
    [for (let i = 0; i < this._count; ++i) if (comparer(this._data[i], value)) { result = i; break; }],
    from index [i] with [left] slots to go.  The comparison used when no
    comparer is given, [===], is passed in as one. *)
Fixpoint indexOf_loop (data : list T) (value : T) (comparer : T -> T -> bool)
  (i left : nat) : option Z :=
  match left with
  | O => None
  | S left' =>
      if comparer (nth i data undefined) value
      then Some (Z.of_nat i)
      else indexOf_loop data value comparer (S i) left'
  end.

Definition ArrayList_indexOf (this : ArrayList T) (value : T) (comparer : T -> T -> bool)
  : option Z :=
  indexOf_loop (_data this) value comparer 0 (_count this).

(** [for (let i = index; i < this._count - 1; ++i) this._data[i] = this._data[i + 1];] *)
Fixpoint shiftLeft (data : list T) (i left : nat) : list T :=
  match left with
  | O => data
  | S left' => shiftLeft (arraySet data i (nth (S i) data undefined)) (S i) left'
  end.

(** [ArrayList.removeAt(index)] *)
Definition ArrayList_removeAt (this : ArrayList T) (index : option Z) : T * ArrayList T :=
  match index with
  | Some i =>
      if (0 <=? i) && (i <? ArrayList_getCount this) then
        let result := nth (Z.to_nat i) (_data this) undefined in
        let data := shiftLeft (_data this) (Z.to_nat i) (_count this - 1 - Z.to_nat i) in
        (result, Build_ArrayList (arraySet data (_count this - 1) undefined) (_count this - 1))
      else (undefined, this)
  | None => (undefined, this)
  end.

(** [ArrayList.remove(value, comparer)] *)
Definition ArrayList_remove (this : ArrayList T) (value : T) (comparer : T -> T -> bool)
  : T * ArrayList T :=
  let removeIndex := ArrayList_indexOf this value comparer in
  if isDefined removeIndex then ArrayList_removeAt this removeIndex else (undefined, this).

(** [removeFirst()] and [removeLast()] *)
Definition ArrayList_removeFirst (this : ArrayList T) : T * ArrayList T :=
  ArrayList_removeAt this (Some 0).

Definition ArrayList_removeLast (this : ArrayList T) : T * ArrayList T :=
  ArrayList_removeAt this (Some (ArrayList_getCount this - 1)).

(** A list without the first value that the test accepts. *)
Fixpoint removeFirstMatch (test : T -> bool) (values : list T) : list T :=
  match values with
  | [] => []
  | value :: rest => if test value then rest else value :: removeFirstMatch test rest
  end.

Lemma arraySet_length (data : list T) : forall (i : nat) (value : T),
  length (arraySet data i value) = length data.
Proof. induction data as [|x data IH]; intros [|i] value; simpl; auto. Qed.

Lemma nth_arraySet (data : list T) : forall (i j : nat) (value : T),
  (i < length data)%nat ->
  nth j (arraySet data i value) undefined
  = if (j =? i)%nat then value else nth j data undefined.
Proof.
  induction data as [|x data IH]; intros [|i] [|j] value Hi; simpl in *; auto; try lia.
  apply IH. lia.
Qed.

Lemma shiftLeft_spec (left : nat) : forall (data : list T) (i : nat),
  (i + left < length data)%nat ->
  length (shiftLeft data i left) = length data
  /\ forall j, nth j (shiftLeft data i left) undefined
               = if (i <=? j)%nat && (j <? i + left)%nat
                 then nth (S j) data undefined
                 else nth j data undefined.
Proof.
  induction left as [|left IH]; intros data i Hlen; cbn [shiftLeft].
  - split; auto. intros j.
    destruct (Nat.leb_spec i j), (Nat.ltb_spec j (i + 0)); simpl; auto; lia.
  - destruct (IH (arraySet data i (nth (S i) data undefined)) (S i)) as [Hl Hn].
    + rewrite arraySet_length. lia.
    + rewrite arraySet_length in Hl. split; auto.
      intros j. rewrite Hn, !nth_arraySet by lia.
      destruct (Nat.leb_spec (S i) j), (Nat.ltb_spec j (S i + left)),
        (Nat.leb_spec i j), (Nat.ltb_spec j (i + S left)),
        (Nat.eqb_spec (S j) i), (Nat.eqb_spec j i); simpl; auto; try lia.
      subst j. reflexivity.
Qed.

Lemma ArrayList_removeAt_contents (this : ArrayList T) (i : nat) :
  ArrayList_wf this -> (i < _count this)%nat ->
  ArrayList_wf (snd (ArrayList_removeAt this (Some (Z.of_nat i))))
  /\ ArrayList_contents (snd (ArrayList_removeAt this (Some (Z.of_nat i))))
     = firstn i (ArrayList_contents this) ++ skipn (S i) (ArrayList_contents this).
Proof.
  unfold ArrayList_wf, ArrayList_contents, ArrayList_removeAt, ArrayList_getCount.
  destruct this as [data count]. cbn [_data _count]. intros Hwf Hi.
  destruct (Z.leb_spec 0 (Z.of_nat i)); [|lia].
  destruct (Z.ltb_spec (Z.of_nat i) (Z.of_nat count)); [|lia].
  cbn [andb snd _data _count]. rewrite Nat2Z.id.
  destruct (@shiftLeft_spec (count - 1 - i) data i) as [Hlen Hnth]; [lia|].
  split.
  - rewrite arraySet_length, Hlen. lia.
  - apply (nth_ext _ _ undefined undefined).
    + rewrite length_firstn, arraySet_length, Hlen, length_app, !length_firstn,
        length_skipn, length_firstn. lia.
    + intros j Hj. rewrite length_firstn, arraySet_length, Hlen in Hj.
      rewrite nth_firstn. destruct (Nat.ltb_spec j (count - 1)); [|lia].
      rewrite nth_arraySet by lia.
      destruct (Nat.eqb_spec j (count - 1)); [lia|].
      rewrite Hnth.
      destruct (Nat.lt_ge_cases j i) as [Hlt|Hge].
      * rewrite app_nth1 by (rewrite !length_firstn; lia).
        rewrite !nth_firstn.
        destruct (Nat.leb_spec i j), (Nat.ltb_spec j i), (Nat.ltb_spec j count);
          simpl; auto; lia.
      * rewrite app_nth2 by (rewrite !length_firstn; lia).
        rewrite !length_firstn, nth_skipn, nth_firstn.
        replace (Nat.min i (Nat.min count (length data))) with i by lia.
        replace (S i + (j - i))%nat with (S j) by lia.
        destruct (Nat.leb_spec i j), (Nat.ltb_spec j (i + (count - 1 - i))),
          (Nat.ltb_spec (S j) count); simpl; auto; lia.
Qed.

Lemma indexOf_loop_spec (data : list T) (value : T) (comparer : T -> T -> bool)
  (left : nat) : forall i : nat,
  match indexOf_loop data value comparer i left with
  | Some found =>
      exists j, found = Z.of_nat j /\ (i <= j < i + left)%nat
                /\ comparer (nth j data undefined) value = true
                /\ forall k, (i <= k < j)%nat -> comparer (nth k data undefined) value = false
  | None => forall k, (i <= k < i + left)%nat -> comparer (nth k data undefined) value = false
  end.
Proof.
  induction left as [|left IH]; intros i; cbn [indexOf_loop].
  - intros k Hk. lia.
  - destruct (comparer (nth i data undefined) value) eqn:Hc.
    + exists i. repeat split; auto; try lia; intros k Hk; lia.
    + specialize (IH (S i)). destruct (indexOf_loop data value comparer (S i) left).
      * destruct IH as (j & -> & Hj & Hfound & Hbefore).
        exists j. split; [reflexivity|]. split; [lia|]. split; [exact Hfound|].
        intros k Hk. destruct (Nat.eq_dec k i) as [->|]; auto. apply Hbefore. lia.
      * intros k Hk. destruct (Nat.eq_dec k i) as [->|]; auto. apply IH. lia.
Qed.

Lemma removeFirstMatch_split (test : T -> bool) (values : list T) (j : nat) :
  (j < length values)%nat ->
  test (nth j values undefined) = true ->
  (forall k, (k < j)%nat -> test (nth k values undefined) = false) ->
  removeFirstMatch test values = firstn j values ++ skipn (S j) values.
Proof.
  revert j. induction values as [|value rest IH]; intros j Hj Hfound Hbefore; simpl in *.
  - lia.
  - destruct j as [|j].
    + now rewrite Hfound.
    + pose proof (Hbefore 0%nat ltac:(lia)) as Hhead. simpl in Hhead.
      rewrite Hhead. cbn [firstn app]. f_equal.
      change (skipn (S (S j)) (value :: rest)) with (skipn (S j) rest).
      apply IH; auto; try lia.
      intros k Hk. apply (Hbefore (S k)). lia.
Qed.

Lemma removeFirstMatch_none (test : T -> bool) (values : list T) :
  (forall k, (k < length values)%nat -> test (nth k values undefined) = false) ->
  removeFirstMatch test values = values.
Proof.
  induction values as [|value rest IH]; intros Hnone; simpl; auto.
  pose proof (Hnone 0%nat ltac:(simpl; lia)) as Hhead. simpl in Hhead.
  rewrite Hhead. f_equal. apply IH.
  intros k Hk. apply (Hnone (S k)). simpl. lia.
Qed.

(** [remove] takes out the first value the comparer matches, if any. *)
Lemma ArrayList_remove_contents (this : ArrayList T) (value : T)
  (comparer : T -> T -> bool) :
  ArrayList_wf this ->
  ArrayList_wf (snd (ArrayList_remove this value comparer))
  /\ ArrayList_contents (snd (ArrayList_remove this value comparer))
     = removeFirstMatch (fun x => comparer x value) (ArrayList_contents this).
Proof.
  intros Hwf. unfold ArrayList_remove, ArrayList_indexOf.
  pose proof (@indexOf_loop_spec (_data this) value comparer (_count this) 0) as Hspec.
  assert (Hnth : forall k, (k < _count this)%nat ->
            nth k (ArrayList_contents this) undefined = nth k (_data this) undefined).
  { intros k Hk. unfold ArrayList_contents. rewrite nth_firstn.
    destruct (Nat.ltb_spec k (_count this)); auto; lia. }
  pose proof (ArrayList_contents_length Hwf) as Hlen.
  destruct (indexOf_loop (_data this) value comparer 0 (_count this)) as [found|].
  - destruct Hspec as (j & -> & Hj & Hfound & Hbefore). cbn [isDefined].
    destruct (@ArrayList_removeAt_contents this j Hwf) as [Hwf' Hc]; [lia|].
    split; auto. rewrite Hc. symmetry. apply removeFirstMatch_split.
    + lia.
    + rewrite Hnth by lia. exact Hfound.
    + intros k Hk. rewrite Hnth by lia. apply Hbefore. lia.
  - cbn [isDefined snd]. split; auto. symmetry. apply removeFirstMatch_none.
    intros k Hk. rewrite Hnth by lia. apply Hspec. lia.
Qed.
End ArrayListRemove.

(** ** Map *)

Record KeyValuePair (K V : Type) : Type := {
  pair_key : K;
  pair_value : V
}.

(** [_pairs] holds the pairs; a slot of the list is a pair or [undefined]. *)
Record Map (K V : Type) : Type := {
  _pairs : ArrayList (option (KeyValuePair K V))
}.

Section Map.
Context {K V : Type} `{Undefined V}.
(** [===] on keys, for keys that are equal to themselves (not [NaN]). *)
Context (key_eq_dec : forall a b : K, {a = b} + {a <> b}).

Definition key_eqb (a b : K) : bool := if key_eq_dec a b then true else false.

(** [(pair) => pair.key === key]; reading the key of [undefined], a
    TypeError in the source, is read as no match, and is not reached: the
    condition only sees slots in use. *)
Definition hasKey (k : K) (entry : option (KeyValuePair K V)) : bool :=
  match entry with
  | Some p => key_eqb (pair_key p) k
  | None => false
  end.

(** [(lhs, rhs) => lhs.key === rhs.key] *)
Definition sameKey (lhs rhs : option (KeyValuePair K V)) : bool :=
  match rhs with
  | Some p => hasKey (pair_key p) lhs
  | None => false
  end.

Definition Map_getCount (this : Map K V) : Z := ArrayList_getCount (_pairs this).

(** [Map.add(key, value)] *)
Definition Map_add (this : Map K V) (k : K) (v : V) : Map K V :=
  let entry := Some (Build_KeyValuePair k v) in
  let pairs := snd (ArrayList_remove (_pairs this) entry sameKey) in
  Build_Map (ArrayList_add pairs entry).

(** [Map.addAll(keyValuePairs)] *)
Definition Map_addAll (this : Map K V) (keyValuePairs : option (list (KeyValuePair K V)))
  : Map K V :=
  match keyValuePairs with
  | Some pairs => fold_left (fun m p => Map_add m (pair_key p) (pair_value p)) pairs this
  | None => this
  end.

(** [new Map(initialValues)] *)
Definition new_Map (initialValues : option (list (KeyValuePair K V))) : Map K V :=
  Map_addAll (Build_Map new_ArrayList) initialValues.

(** [Map.get(key)]: [this._pairs.first((pair) => pair.key === key)], then
    [pair ? pair.value : undefined] *)
Definition Map_get (this : Map K V) (k : K) : V :=
  match Iterable_first (OfArrayList (_pairs this)) (Some (hasKey k)) with
  | Some entry => pair_value entry
  | None => undefined
  end.

(** The pairs of a map, in the order of the list. *)
Definition Map_entries (this : Map K V) : list (option (KeyValuePair K V)) :=
  ArrayList_contents (_pairs this).

(** Adding [k] again and again, with the given values in turn. *)
Definition Map_addEach (this : Map K V) (k : K) (values : list V) : Map K V :=
  fold_left (fun m v => Map_add m k v) values this.

(** The pairs under other keys than [k]. *)
Definition otherKeys (k : K) (entries : list (option (KeyValuePair K V)))
  : list (option (KeyValuePair K V)) :=
  filter (fun entry => negb (hasKey k entry)) entries.

(** What [add] keeps true of a map: every slot in use holds a pair, and
    no two pairs have the same key. *)
Definition Map_wf (this : Map K V) : Prop :=
  ArrayList_wf (_pairs this)
  /\ exists pairs, Map_entries this = map Some pairs /\ NoDup (map (@pair_key K V) pairs).

Lemma key_eqb_refl (k : K) : key_eqb k k = true.
Proof. unfold key_eqb. destruct (key_eq_dec k k); congruence. Qed.

Lemma key_eqb_eq (a b : K) : key_eqb a b = true <-> a = b.
Proof. unfold key_eqb. destruct (key_eq_dec a b); split; congruence. Qed.

Lemma otherKeys_all (k : K) (pairs : list (KeyValuePair K V)) :
  ~ In k (map (@pair_key K V) pairs) ->
  otherKeys k (map Some pairs) = map Some pairs.
Proof.
  induction pairs as [|p pairs IH]; intros Hnot; simpl; auto.
  destruct (key_eqb (pair_key p) k) eqn:Hk.
  - apply key_eqb_eq in Hk. exfalso. apply Hnot. simpl. auto.
  - simpl. f_equal. apply IH. intros Hin. apply Hnot. simpl. auto.
Qed.

Lemma removeFirstMatch_otherKeys (k : K) (v : V) (pairs : list (KeyValuePair K V)) :
  NoDup (map (@pair_key K V) pairs) ->
  removeFirstMatch (fun x => sameKey x (Some (Build_KeyValuePair k v))) (map Some pairs)
  = otherKeys k (map Some pairs).
Proof.
  induction pairs as [|p pairs IH]; intros Hnodup; simpl; auto.
  inversion Hnodup as [|? ? Hnotin Hrest]; subst.
  destruct (key_eqb (pair_key p) k) eqn:Hk; simpl.
  - apply key_eqb_eq in Hk. subst k. symmetry. now apply otherKeys_all.
  - f_equal. now apply IH.
Qed.

Lemma otherKeys_pairs (k : K) (pairs : list (KeyValuePair K V)) :
  NoDup (map (@pair_key K V) pairs) ->
  exists others,
    otherKeys k (map Some pairs) = map Some others
    /\ NoDup (map (@pair_key K V) others)
    /\ ~ In k (map (@pair_key K V) others).
Proof.
  induction pairs as [|p pairs IH]; intros Hnodup; simpl.
  - exists []. simpl. split; [reflexivity|]. split; [constructor|intros []].
  - inversion Hnodup as [|? ? Hnotin Hrest]; subst.
    destruct (IH Hrest) as (others & Heq & Hnd & Hnot).
    assert (Hsub : forall x, In x (map (@pair_key K V) others)
                             -> In x (map (@pair_key K V) pairs)).
    { intros x Hx. apply in_map_iff in Hx. destruct Hx as (q & <- & Hq).
      assert (Hin : In (Some q) (otherKeys k (map Some pairs)))
        by (rewrite Heq; now apply in_map).
      apply filter_In in Hin. destruct Hin as [Hin _].
      apply in_map_iff in Hin. destruct Hin as (q' & [= ->] & Hq').
      now apply in_map. }
    destruct (key_eqb (pair_key p) k) eqn:Hk; simpl.
    + exists others. auto.
    + exists (p :: others). simpl. rewrite Heq. repeat split; auto.
      * constructor; auto.
      * intros [Hp|Hin]; [|contradiction].
        subst k. now rewrite key_eqb_refl in Hk.
Qed.

(** [add] drops the pair under the key, if there is one, and appends the
    new pair. *)
Lemma Map_add_entries (this : Map K V) (k : K) (v : V) :
  Map_wf this ->
  Map_wf (Map_add this k v)
  /\ Map_entries (Map_add this k v)
     = otherKeys k (Map_entries this) ++ [Some (Build_KeyValuePair k v)].
Proof.
  intros [Hwf (pairs & Hentries & Hnodup)].
  unfold Map_add, Map_entries in *. cbn [_pairs].
  destruct (@ArrayList_remove_contents _ _ (_pairs this)
              (Some (Build_KeyValuePair k v)) sameKey Hwf) as [Hwf1 Hc1].
  destruct (ArrayList_add_contents (Some (Build_KeyValuePair k v)) Hwf1) as [Hwf2 Hc2].
  assert (Hc : ArrayList_contents
                 (ArrayList_add
                    (snd (ArrayList_remove (_pairs this)
                            (Some (Build_KeyValuePair k v)) sameKey))
                    (Some (Build_KeyValuePair k v)))
               = otherKeys k (map Some pairs) ++ [Some (Build_KeyValuePair k v)]).
  { rewrite Hc2, Hc1, Hentries, removeFirstMatch_otherKeys by exact Hnodup. reflexivity. }
  rewrite Hc, Hentries. split; [|reflexivity]. split; [exact Hwf2|].
  destruct (otherKeys_pairs k Hnodup) as (others & Heq & Hnd & Hnot).
  exists (others ++ [Build_KeyValuePair k v]). unfold Map_entries. cbn [_pairs].
  rewrite Hc, Heq.
  rewrite !map_app. split; [reflexivity|]. simpl.
  apply NoDup_app; auto.
  - constructor; [intros []|constructor].
  - intros x Hx [<-|[]]. contradiction.
Qed.

Lemma new_Map_wf (initialValues : option (list (KeyValuePair K V))) :
  Map_wf (new_Map initialValues).
Proof.
  assert (Hempty : Map_wf (Build_Map (@new_ArrayList (option (KeyValuePair K V))))).
  { split; [unfold ArrayList_wf; simpl; lia|]. exists []. split; [reflexivity|constructor]. }
  unfold new_Map, Map_addAll. destruct initialValues as [pairs|]; [|exact Hempty].
  revert Hempty. generalize (Build_Map (@new_ArrayList (option (KeyValuePair K V)))).
  induction pairs as [|p pairs IH]; intros m Hm; simpl; auto.
  apply IH. now apply Map_add_entries.
Qed.

(** [get] returns the value of the first pair under the key. *)
Lemma Map_get_entries (this : Map K V) (k : K) :
  Map_wf this ->
  Map_get this k
  = match hd None (filter (hasKey k) (Map_entries this)) with
    | Some entry => pair_value entry
    | None => undefined
    end.
Proof.
  intros [Hwf _]. unfold Map_get, Iterable_first, Iterator_first, Map_entries.
  assert (Hm : models (iterate (OfArrayList (_pairs this)))
                 (NotStarted (ArrayList_contents (_pairs this)))).
  { apply pack_models. now apply ArrayList_iterate_models. }
  pose proof (Iterator_where_models (Some (hasKey k)) Hm) as Hw.
  rewrite (first_spec Hw). reflexivity.
Qed.

Lemma otherKeys_idempotent (k : K) (entries : list (option (KeyValuePair K V))) :
  otherKeys k (otherKeys k entries) = otherKeys k entries.
Proof.
  unfold otherKeys. induction entries as [|e entries IH]; simpl; auto.
  destruct (negb (hasKey k e)) eqn:He; simpl; rewrite ?He, IH; reflexivity.
Qed.

Lemma hasKey_otherKeys (k : K) (entries : list (option (KeyValuePair K V))) :
  filter (hasKey k) (otherKeys k entries) = [].
Proof.
  unfold otherKeys. induction entries as [|e entries IH]; simpl; auto.
  destruct (hasKey k e) eqn:He; simpl; auto. now rewrite He.
Qed.

(** After [add(k, v)]: [get(k)] is [v], the pair under [k] is the last of
    the list, and [getCount()] is one more than the number of pairs under
    other keys. *)
Lemma Map_add_get (this : Map K V) (k : K) (v : V) :
  Map_wf this ->
  Map_get (Map_add this k v) k = v
  /\ Map_getCount (Map_add this k v)
     = Z.of_nat (length (otherKeys k (Map_entries this))) + 1
  /\ otherKeys k (Map_entries (Map_add this k v)) = otherKeys k (Map_entries this).
Proof.
  intros Hwf. destruct (Map_add_entries k v Hwf) as [Hwf' Hentries].
  split; [|split].
  - rewrite (Map_get_entries k Hwf'), Hentries, filter_app, hasKey_otherKeys.
    simpl. now rewrite key_eqb_refl.
  - unfold Map_getCount, ArrayList_getCount.
    rewrite <- (ArrayList_contents_length (proj1 Hwf')).
    fold (Map_entries (Map_add this k v)). rewrite Hentries, length_app. simpl. lia.
  - rewrite Hentries. unfold otherKeys at 1. rewrite filter_app.
    fold (otherKeys k (otherKeys k (Map_entries this))). rewrite otherKeys_idempotent.
    simpl. rewrite key_eqb_refl. simpl. apply app_nil_r.
Qed.
End Map.

Section MapFacts.
Context {K V : Type} `{Undefined V}.
Context (key_eq_dec : forall a b : K, {a = b} + {a <> b}).

Lemma last_cons (A : Type) (a d : A) (l : list A) : last (a :: l) d = last l a.
Proof.
  revert a d. induction l as [|b l IH]; intros a d; [reflexivity|].
  change (last (a :: b :: l) d) with (last (b :: l) d). rewrite !IH. reflexivity.
Qed.

(** However often [k] is added again, the pairs under other keys stay as
    they are and one pair under [k], the last one added, follows them. *)
Lemma Map_addEach_entries (again : list V) (this : Map K V) (k : K) (v : V) :
  Map_wf this ->
  Map_wf (Map_addEach key_eq_dec (Map_add key_eq_dec this k v) k again)
  /\ Map_entries (Map_addEach key_eq_dec (Map_add key_eq_dec this k v) k again)
     = otherKeys key_eq_dec k (Map_entries this)
       ++ [Some (Build_KeyValuePair k (last again v))].
Proof.
  revert this v. induction again as [|a again IH]; intros this v Hwf.
  - simpl. now apply Map_add_entries.
  - destruct (Map_add_entries key_eq_dec k v Hwf) as [Hwf' _].
    destruct (IH (Map_add key_eq_dec this k v) a Hwf') as [Hwf'' Hentries].
    change (Map_addEach key_eq_dec (Map_add key_eq_dec this k v) k (a :: again))
      with (Map_addEach key_eq_dec
              (Map_add key_eq_dec (Map_add key_eq_dec this k v) k a) k again).
    split; [exact Hwf''|]. rewrite Hentries, last_cons.
    destruct (Map_add_get key_eq_dec k v Hwf) as (_ & _ & Hothers).
    now rewrite Hothers.
Qed.

(** What [get] and [getCount] return on a map whose pairs are those under
    other keys followed by one pair under [k]. *)
Lemma Map_get_getCount (this : Map K V) (k : K) (v : V)
    (others : list (option (KeyValuePair K V))) :
  Map_wf this ->
  Map_entries this = otherKeys key_eq_dec k others ++ [Some (Build_KeyValuePair k v)] ->
  Map_get key_eq_dec this k = v
  /\ Map_getCount this = Z.of_nat (length (otherKeys key_eq_dec k others)) + 1.
Proof.
  intros Hwf Hentries. split.
  - rewrite (Map_get_entries key_eq_dec k Hwf), Hentries, filter_app, hasKey_otherKeys.
    simpl. now rewrite key_eqb_refl.
  - unfold Map_getCount, ArrayList_getCount.
    rewrite <- (ArrayList_contents_length (proj1 Hwf)).
    fold (Map_entries this). rewrite Hentries, length_app. simpl. lia.
Qed.
End MapFacts.

(** C8, as the code has it.  On a map built by the constructor from any
    initial pairs (or none), after [add(k, v1)], [add(k, v2)] and any
    number of further [add]s of [k]: [get(k)] returns the value added
    last, the pair list is the pairs under the other keys, in their
    order, followed by the one pair under [k], and [getCount()] is one
    more than the number of pairs under other keys; on a map constructed
    without initial pairs [getCount()] is 1.  Keys are compared with
    [===], read here as a decidable equality (which leaves out [NaN]). *)
Theorem Map_add_last_write_wins (K V : Type) (undefinedV : Undefined V)
    (key_eq_dec : forall a b : K, {a = b} + {a <> b})
    (initialValues : option (list (KeyValuePair K V)))
    (k : K) (v1 v2 : V) (again : list V) :
  let m0 := new_Map key_eq_dec initialValues in
  let m := Map_addEach key_eq_dec
             (Map_add key_eq_dec (Map_add key_eq_dec m0 k v1) k v2) k again in
  let fresh := Map_addEach key_eq_dec
                 (Map_add key_eq_dec (Map_add key_eq_dec (new_Map key_eq_dec None) k v1) k v2)
                 k again in
  Map_get key_eq_dec m k = last again v2
  /\ Map_entries m
     = otherKeys key_eq_dec k (Map_entries m0)
       ++ [Some (Build_KeyValuePair k (last again v2))]
  /\ Map_getCount m = Z.of_nat (length (otherKeys key_eq_dec k (Map_entries m0))) + 1
  /\ Map_get key_eq_dec fresh k = last again v2
  /\ Map_getCount fresh = 1.
Proof.
  assert (Hgeneral : forall m0 : Map K V, Map_wf m0 ->
            let m := Map_addEach key_eq_dec
                       (Map_add key_eq_dec (Map_add key_eq_dec m0 k v1) k v2) k again in
            Map_get key_eq_dec m k = last again v2
            /\ Map_entries m
               = otherKeys key_eq_dec k (Map_entries m0)
                 ++ [Some (Build_KeyValuePair k (last again v2))]
            /\ Map_getCount m
               = Z.of_nat (length (otherKeys key_eq_dec k (Map_entries m0))) + 1).
  { intros m0 Hwf0 m.
    destruct (Map_add_entries key_eq_dec k v1 Hwf0) as [Hwf1 _].
    destruct (Map_addEach_entries key_eq_dec again k v2 Hwf1) as [Hwf Hentries].
    destruct (Map_add_get key_eq_dec k v1 Hwf0) as (_ & _ & Hothers).
    rewrite Hothers in Hentries.
    destruct (Map_get_getCount Hwf Hentries) as [Hget Hcount].
    auto. }
  intros m0 m fresh.
  destruct (Hgeneral m0 (new_Map_wf key_eq_dec initialValues)) as (Hget & Hentries & Hcount).
  destruct (Hgeneral (new_Map key_eq_dec None) (new_Map_wf key_eq_dec None))
    as (Hget' & _ & Hcount').
  repeat split; auto.
Qed.

(** C8, the claim as worded fails on a map that holds another key: after
    [new Map([{key: 7, value: 0}])], [add(5, 1)] and [add(5, 2)],
    [get(5)] is 2 but [getCount()] is 2, not 1. *)
Lemma Map_getCount_counts_the_other_keys :
  let m0 := new_Map Z.eq_dec (Some [Build_KeyValuePair 7 (Some 0)]) in
  let m := Map_add Z.eq_dec (Map_add Z.eq_dec m0 5 (Some 1)) 5 (Some 2) in
  Map_get Z.eq_dec m 5 = Some 2
  /\ Map_getCount m = 2
  /\ Map_getCount m <> 1.
Proof. vm_compute. repeat split; congruence. Qed.

(** C2, where the code departs from it.  [next()] on a carriage return at
    position [p]: when a character follows and it is a line feed, the lex
    has the text of both characters and starts at [p], counted from the
    start index of the lexer, the lexer moves
    past both, and the type of the lex is the one the factory
    [CarriageReturnNewLine] gives it, [LexType.NewLine], not
    [LexType.CarriageReturnNewLine]; otherwise the lex is the carriage
    return alone, of type [CarriageReturn], and the lexer moves one
    character. *)
Theorem Lexer_next_on_carriageReturn (s : string) (offset p : Z) (started_ : bool)
    (lex0 : option Lex) :
  0 <= p < getLength (Some s) ->
  charAt (Some s) p = Some CR ->
  (p + 1 < getLength (Some s) /\ charAt (Some s) (p + 1) = Some LF ->
   Lexer_next (lexer_at (Some s) offset started_ p lex0)
   = (true,
      lexer_at (Some s) offset true (p + 2)
        (Some (Build_Lex (Some (String CR (String LF EmptyString))) (integer_add p offset)
                 LexType_NewLine))))
  /\ (~ (p + 1 < getLength (Some s) /\ charAt (Some s) (p + 1) = Some LF) ->
      Lexer_next (lexer_at (Some s) offset started_ p lex0)
      = (true,
         lexer_at (Some s) offset true (p + 1)
           (Some (Build_Lex (Some (String CR EmptyString)) (integer_add p offset)
                    LexType_CarriageReturn)))).
Proof.
  intros Hp Hcr.
  assert (Hnext : Lexer_next (lexer_at (Some s) offset started_ p lex0)
                  = (Lexer_hasCurrent
                       (Lexer_next_carriageReturn (lexer_at (Some s) offset true p lex0)
                          (integer_add p offset)),
                     Lexer_next_carriageReturn (lexer_at (Some s) offset true p lex0)
                       (integer_add p offset))).
  { unfold Lexer_next. rewrite Lexer_started_at.
    unfold Lexer_hasCurrentCharacter, Lexer_getCurrentCharacterStartIndex.
    rewrite Lexer_getCurrentCharacter_at.
    cbn [lexer_at _iterator hasCurrent StringIterator_Iterator fst].
    unfold StringIterator_currentIndex, StringIterator_hasCurrent, hasMore.
    cbn [iterator_at _started _step _currentIndex _endIndex _characterStartIndexOffset andb].
    change (1 >? 0) with true. cbv iota.
    destruct (Z.ltb_spec p (getLength (Some s))); [|lia].
    rewrite Hcr. reflexivity. }
  rewrite Hnext. clear Hnext. unfold Lexer_next_carriageReturn.
  rewrite Lexer_nextCharacter_at by lia.
  rewrite Lexer_getCurrentCharacter_at.
  change (Lexer_withCurrentLex (lexer_at (Some s) offset true (p + 1) lex0)
            (Some (CarriageReturnNewLine (integer_add p offset))))
    with (lexer_at (Some s) offset true (p + 1) (Some (CarriageReturnNewLine (integer_add p offset)))).
  change (Lexer_withCurrentLex (lexer_at (Some s) offset true (p + 1) lex0)
            (Some (CarriageReturn (integer_add p offset))))
    with (lexer_at (Some s) offset true (p + 1) (Some (CarriageReturn (integer_add p offset)))).
  destruct (Z.ltb_spec (p + 1) (getLength (Some s))) as [Hmore|Hlast]; cbn [negb orb].
  - rewrite Lexer_nextCharacter_at by lia. cbn [snd].
    replace (p + 1 + 1) with (p + 2) by lia.
    split.
    + intros [_ Hlf]. rewrite Hlf. cbn [isNot]. rewrite Ascii.eqb_refl. reflexivity.
    + intros Hnot. destruct (charAt (Some s) (p + 1)) as [c|]; cbn [isNot]; [|reflexivity].
      destruct (Ascii.eqb_spec c LF) as [->|Hc]; [|reflexivity].
      exfalso. apply Hnot. auto.
  - split; [intros [Hlt _]; lia|intros _; reflexivity].
Qed.

(** On the text of a carriage return and a line feed, the first [next()]
    of a new lexer gives the one lex of both characters, of type
    [NewLine]. *)
Lemma Lexer_next_on_carriageReturn_witness :
  let text := String CR (String LF EmptyString) in
  Lexer_next (lexer_at (Some text) 0 false 0 None)
  = (true, lexer_at (Some text) 0 true 2 (Some (Build_Lex (Some text) 0 LexType_NewLine))).
Proof.
  intros text.
  destruct (@Lexer_next_on_carriageReturn text 0 0 false None) as [Hboth _].
  - simpl. lia.
  - reflexivity.
  - apply Hboth. split; [simpl; lia|reflexivity].
Defined.

(** The two inputs of the lexing scenario, drained: a carriage return and
    a line feed give one lex, of type [NewLine]; a carriage return and a
    letter give two. *)
Lemma Lexer_drain_carriageReturn_examples :
  fst (IteratorBase_toArray (new_Lexer (Some (String CR (String LF EmptyString))) None))
  = [Some (Build_Lex (Some (String CR (String LF EmptyString))) 0 LexType_NewLine)]
  /\ fst (IteratorBase_toArray (new_Lexer (Some (String CR (String "a" EmptyString))) None))
     = [Some (CarriageReturn 0); Some (Letters (Some (String "a" EmptyString)) 1)]
  /\ LexType_NewLine <> LexType_CarriageReturnNewLine.
Proof. split; [reflexivity|]. split; [reflexivity|discriminate]. Qed.

(** * Further properties of the library *)

(** ** The iterator contract, where the code keeps it *)

(** The contract of [Iterator<T>], for an iterator that has not started. *)
Definition obeysContract {I T : Type} `{Iterator I T} `{Undefined T} (this : I) : Prop :=
  hasStarted this = false
  /\ fst (hasCurrent this) = false
  /\ hasStarted (snd (next this)) = true
  /\ (forall n, fst (hasCurrent (snd (next (nextN n this)))) = fst (next (nextN n this)))
  /\ (forall n, fst (next (nextN n this)) = false ->
      forall m, fst (next (nextN (n + 1 + m) this)) = false
                /\ fst (getCurrent (nextN (n + 1 + m) this)) = undefined).

(** X1.  The iterators that an iterable hands out, forward and reverse,
    keep the iterator contract: neither started nor on a value at first,
    started after the first [next()], [next()] returning what
    [hasCurrent()] then returns, and [false] and [undefined] for good once
    [next()] returned [false].  The iterable is an [ArrayList] or any view
    built over one by [where], [skip], [take], [map] and [concatenate]
    (which only build a skip or take view for a positive count). *)
Theorem Iterable_iterators_keep_the_contract (T : Type) (undefinedT : Undefined T)
    (this : Iterable T) :
  wf this = true ->
  obeysContract (iterate this) /\ obeysContract (iterateReverse this).
Proof.
  intros Hwf. destruct (iterable_models Hwf) as (Hforward & _ & Hreverse).
  split.
  - exact (iterator_protocol Hforward).
  - exact (iterator_protocol Hreverse).
Qed.

Lemma Iterable_iterators_keep_the_contract_witness :
  obeysContract (iterate (Iterable_take (Iterable_skip sample (Some 1)) (Some 3)))
  /\ obeysContract (iterateReverse (Iterable_take (Iterable_skip sample (Some 1)) (Some 3))).
Proof. apply Iterable_iterators_keep_the_contract. reflexivity. Defined.

(** X2.  A [StringIterator] over any text, forward or reverse, and a
    [Lexer] over any text and start index keep the iterator contract. *)
Theorem StringIterator_and_Lexer_keep_the_contract (text : option string)
    (startIndex : option Z) :
  obeysContract (StringIterable_iterate text)
  /\ obeysContract (StringIterable_iterateReverse text)
  /\ obeysContract (new_Lexer text startIndex).
Proof.
  split; [|split].
  - exact (iterator_protocol (new_StringIterator_models text _ _)).
  - exact (iterator_protocol (new_StringIterator_models text _ _)).
  - exact (iterator_protocol (new_Lexer_models text startIndex)).
Qed.

(** ** What the views of an iterable hold *)

Section IterableViews.
Context {T : Type} `{Undefined T}.

Lemma hd_rev_last (values : list T) (d : T) : hd d (rev values) = last values d.
Proof.
  induction values as [|v values IH] using rev_ind; [reflexivity|].
  rewrite rev_app_distr, last_last. reflexivity.
Qed.

Lemma Iterable_where_wf (this : Iterable T) (condition : option (T -> bool)) :
  wf this = true ->
  wf (Iterable_where this condition) = true
  /\ elements (Iterable_where this condition)
     = match condition with
       | Some c => filter c (elements this)
       | None => elements this
       end.
Proof. intros Hwf. destruct condition; simpl; auto. Qed.

Lemma Iterable_map_wf (this : Iterable T) (mapFunction : T -> T) :
  wf this = true ->
  wf (Iterable_map this (Some mapFunction)) = true
  /\ elements (Iterable_map this (Some mapFunction)) = map mapFunction (elements this).
Proof. intros Hwf. simpl. auto. Qed.

Lemma Iterable_concatenate_wf (this : Iterable T) (values : list T) :
  wf this = true ->
  wf (Iterable_concatenate this (Some values)) = true
  /\ elements (Iterable_concatenate this (Some values)) = elements this ++ values.
Proof.
  intros Hwf. destruct (ArrayList_of_contents values) as [Hwf' Hc].
  cbn [Iterable_concatenate wf elements]. rewrite Hwf, Hc. split; [|reflexivity].
  apply Nat.leb_le. exact Hwf'.
Qed.

(** A traversal in reverse yields the values of the forward one, last
    first. *)
Lemma iterateReverse_toArray (this : Iterable T) :
  wf this = true ->
  fst (IteratorBase_toArray (iterateReverse this)) = rev (toArray this).
Proof.
  intros Hwf. destruct (iterable_models Hwf) as (_ & _ & Hreverse).
  destruct (toArray_spec Hreverse) as (this' & -> & _).
  rewrite (toArray_elements Hwf). reflexivity.
Qed.

Lemma Iterable_first_elements (this : Iterable T) (condition : option (T -> bool)) :
  wf this = true ->
  Iterable_first this condition
  = hd undefined (match condition with
                  | Some c => filter c (elements this)
                  | None => elements this
                  end).
Proof.
  intros Hwf. destruct (iterable_models Hwf) as (Hforward & _ & _).
  unfold Iterable_first, Iterator_first. destruct condition as [c|].
  - rewrite (first_spec (Iterator_where_models (Some c) Hforward)). reflexivity.
  - rewrite (first_spec Hforward). reflexivity.
Qed.

Lemma Iterable_last_elements (this : Iterable T) (condition : option (T -> bool)) :
  wf this = true ->
  Iterable_last this condition
  = last (match condition with
          | Some c => filter c (elements this)
          | None => elements this
          end) undefined.
Proof.
  intros Hwf. destruct (iterable_models Hwf) as (_ & _ & Hreverse).
  unfold Iterable_last, Iterator_first. destruct condition as [c|].
  - rewrite (first_spec (Iterator_where_models (Some c) Hreverse)).
    cbn [where_of contents]. rewrite <- hd_rev_last. f_equal. clear Hreverse.
    induction (elements this) as [|v values IH]; [reflexivity|].
    simpl. rewrite filter_app, IH. simpl. destruct (c v); simpl; [reflexivity|].
    now rewrite app_nil_r.
  - rewrite (first_spec Hreverse). cbn [contents]. apply hd_rev_last.
Qed.
End IterableViews.

(** X3.  [where(condition)] holds the values that satisfy the condition,
    [map(f)] the images of the values and [concatenate(values)] the values
    followed by the given ones, each in the order of the iterable; the
    [getCount()] of each view is the number of values it yields. *)
Theorem Iterable_where_map_concatenate_toArray (T : Type) (undefinedT : Undefined T)
    (this : Iterable T) (condition : T -> bool) (mapFunction : T -> T) (values : list T) :
  wf this = true ->
  toArray (Iterable_where this (Some condition)) = filter condition (toArray this)
  /\ toArray (Iterable_map this (Some mapFunction)) = map mapFunction (toArray this)
  /\ toArray (Iterable_concatenate this (Some values)) = toArray this ++ values
  /\ getCount (Iterable_where this (Some condition))
     = Z.of_nat (length (filter condition (toArray this)))
  /\ getCount (Iterable_map this (Some mapFunction)) = Z.of_nat (length (toArray this))
  /\ getCount (Iterable_concatenate this (Some values))
     = Z.of_nat (length (toArray this) + length values).
Proof.
  intros Hwf.
  destruct (Iterable_where_wf (Some condition) Hwf) as [Hwf1 He1].
  destruct (Iterable_map_wf mapFunction Hwf) as [Hwf2 He2].
  destruct (Iterable_concatenate_wf values Hwf) as [Hwf3 He3].
  destruct (iterable_models Hwf1) as (_ & Hc1 & _).
  destruct (iterable_models Hwf2) as (_ & Hc2 & _).
  destruct (iterable_models Hwf3) as (_ & Hc3 & _).
  rewrite (toArray_elements Hwf1), (toArray_elements Hwf2), (toArray_elements Hwf3),
    (toArray_elements Hwf), Hc1, Hc2, Hc3, He1, He2, He3, length_map, length_app.
  repeat split; reflexivity.
Qed.

Lemma Iterable_where_map_concatenate_toArray_witness :
  toArray (Iterable_where sample (Some (fun v => match v with Some z => 25 <? z | None => false end)))
  = [Some 30; Some 40; Some 50]
  /\ toArray (Iterable_map sample (Some (option_map (Z.add 1))))
     = [Some 11; Some 21; Some 31; Some 41; Some 51]
  /\ toArray (Iterable_concatenate sample (Some [Some 60])) 
     = [Some 10; Some 20; Some 30; Some 40; Some 50; Some 60].
Proof.
  destruct (@Iterable_where_map_concatenate_toArray _ _ sample
              (fun v => match v with Some z => 25 <? z | None => false end)
              (option_map (Z.add 1)) [Some 60]) as (Hw & Hm & Hc & _);
    [reflexivity|].
  rewrite Hw, Hm, Hc. repeat split.
Defined.

(** X4.  Traversing an iterable in reverse yields the values of the forward
    traversal in the opposite order, also for a skip or take view, whose
    reverse iterator is a take or skip over the reversed inner
    iterable. *)
Theorem Iterable_iterateReverse_reverses (T : Type) (undefinedT : Undefined T)
    (this : Iterable T) :
  wf this = true ->
  fst (IteratorBase_toArray (iterateReverse this)) = rev (toArray this).
Proof. apply iterateReverse_toArray. Qed.

Lemma Iterable_iterateReverse_reverses_witness :
  fst (IteratorBase_toArray
         (iterateReverse (Iterable_take (Iterable_skip sample (Some 1)) (Some 3))))
  = [Some 40; Some 30; Some 20].
Proof.
  rewrite (@Iterable_iterateReverse_reverses _ _
             (Iterable_take (Iterable_skip sample (Some 1)) (Some 3)));
    reflexivity.
Defined.

(** X5.  [first()] is the first value of the iterable and [last()] its
    last one; with a condition they are the first and the last value that
    satisfy it; each is [undefined] when there is no such value. *)
Theorem Iterable_first_and_last (T : Type) (undefinedT : Undefined T)
    (this : Iterable T) (condition : T -> bool) :
  wf this = true ->
  Iterable_first this None = hd undefined (toArray this)
  /\ Iterable_last this None = last (toArray this) undefined
  /\ Iterable_first this (Some condition) = hd undefined (filter condition (toArray this))
  /\ Iterable_last this (Some condition) = last (filter condition (toArray this)) undefined
  /\ (toArray this = [] ->
      Iterable_first this None = undefined /\ Iterable_last this None = undefined)
  /\ (forallb (fun v => negb (condition v)) (toArray this) = true ->
      Iterable_first this (Some condition) = undefined
      /\ Iterable_last this (Some condition) = undefined).
Proof.
  intros Hwf.
  rewrite (Iterable_first_elements None Hwf), (Iterable_last_elements None Hwf),
    (Iterable_first_elements (Some condition) Hwf),
    (Iterable_last_elements (Some condition) Hwf), (toArray_elements Hwf).
  split; [reflexivity|]. split; [reflexivity|]. split; [reflexivity|].
  split; [reflexivity|]. split.
  - intros ->. split; reflexivity.
  - intros Hnone.
    assert (Hfilter : filter condition (elements this) = []).
    { induction (elements this) as [|v values IH]; [reflexivity|].
      simpl in *. apply andb_prop in Hnone. destruct Hnone as [Hv Hrest].
      destruct (condition v); [discriminate|]. auto. }
    rewrite Hfilter. split; reflexivity.
Qed.

Lemma Iterable_first_and_last_witness :
  Iterable_first sample None = Some 10
  /\ Iterable_last sample None = Some 50
  /\ Iterable_last sample (Some (fun v => match v with Some z => z <? 35 | None => false end))
     = Some 30.
Proof.
  destruct (@Iterable_first_and_last _ _ sample
              (fun v => match v with Some z => z <? 35 | None => false end))
    as (Hfirst & Hlast & _ & Hlastc & _); [reflexivity|].
  rewrite Hfirst, Hlast, Hlastc. repeat split.
Defined.

(** X6.  How the operators compose, for counts that are not negative:
    skipping twice skips the sum, taking twice takes the smaller count,
    the values taken and the values skipped with the same count make up
    the iterable, filtering twice filters by both conditions, and mapping
    twice maps by the composed function. *)
Theorem Iterable_operators_compose (T : Type) (undefinedT : Undefined T)
    (this : Iterable T) (a b : Z) (c1 c2 : T -> bool) (f g : T -> T) :
  wf this = true -> 0 <= a -> 0 <= b ->
  toArray (Iterable_skip (Iterable_skip this (Some a)) (Some b))
  = toArray (Iterable_skip this (Some (a + b)))
  /\ toArray (Iterable_take (Iterable_take this (Some a)) (Some b))
     = toArray (Iterable_take this (Some (Z.min a b)))
  /\ toArray (Iterable_take this (Some a)) ++ toArray (Iterable_skip this (Some a))
     = toArray this
  /\ toArray (Iterable_where (Iterable_where this (Some c1)) (Some c2))
     = toArray (Iterable_where this (Some (fun value => c1 value && c2 value)))
  /\ toArray (Iterable_map (Iterable_map this (Some f)) (Some g))
     = toArray (Iterable_map this (Some (fun value => g (f value)))).
Proof.
  intros Hwf Ha Hb.
  destruct (Iterable_skip_wf (Some a) Hwf) as [Hs1 Es1].
  destruct (Iterable_skip_wf (Some b) Hs1) as [Hs2 Es2].
  destruct (Iterable_skip_wf (Some (a + b)) Hwf) as [Hs3 Es3].
  destruct (Iterable_take_wf (Some a) Hwf) as [Ht1 Et1].
  destruct (Iterable_take_wf (Some b) Ht1) as [Ht2 Et2].
  destruct (Iterable_take_wf (Some (Z.min a b)) Hwf) as [Ht3 Et3].
  rewrite (toArray_elements Hs2), (toArray_elements Hs3), (toArray_elements Ht2),
    (toArray_elements Ht3), (toArray_elements Ht1), (toArray_elements Hs1),
    (toArray_elements Hwf), Es2, Es1, Es3, Et2, Et1, Et3.
  split; [|split; [|split; [|split]]].
  - rewrite skipn_skipn. f_equal. lia.
  - rewrite firstn_firstn. f_equal. lia.
  - apply firstn_skipn.
  - rewrite !toArray_elements by (simpl; exact Hwf). simpl.
    clear Es1 Es2 Es3 Et1 Et2 Et3.
    induction (elements this) as [|v values IH]; [reflexivity|].
    simpl. destruct (c1 v); simpl; [destruct (c2 v)|]; simpl; rewrite ?IH; reflexivity.
  - rewrite !toArray_elements by (simpl; exact Hwf). simpl. apply map_map.
Qed.

Lemma Iterable_operators_compose_witness :
  toArray (Iterable_skip (Iterable_skip sample (Some 1)) (Some 2)) = [Some 40; Some 50]
  /\ toArray (Iterable_take (Iterable_take sample (Some 4)) (Some 2)) = [Some 10; Some 20].
Proof.
  destruct (@Iterable_operators_compose _ _ sample 1 2 (fun _ => true) (fun _ => true)
              (fun v => v) (fun v => v)) as (Hskip & _); [reflexivity|lia|lia|].
  destruct (@Iterable_operators_compose _ _ sample 4 2 (fun _ => true) (fun _ => true)
              (fun v => v) (fun v => v)) as (_ & Htake & _); [reflexivity|lia|lia|].
  rewrite Hskip, Htake. split; reflexivity.
Defined.

(** X7.  [skipLast(n)] holds all but the last [n] values and
    [takeLast(n)] the last [n] values, for every count [n] that is not
    negative, also one larger than the number of values; together they
    make up the iterable.  With an undefined or negative count,
    [skipLast] is the iterable itself and [takeLast] is empty. *)
Theorem Iterable_skipLast_and_takeLast (T : Type) (undefinedT : Undefined T)
    (this : Iterable T) (n : Z) :
  wf this = true -> 0 <= n ->
  toArray (Iterable_skipLast this (Some n))
  = firstn (length (toArray this) - Z.to_nat n) (toArray this)
  /\ toArray (Iterable_takeLast this (Some n))
     = skipn (length (toArray this) - Z.to_nat n) (toArray this)
  /\ toArray (Iterable_skipLast this (Some n)) ++ toArray (Iterable_takeLast this (Some n))
     = toArray this
  /\ Iterable_skipLast this None = this
  /\ Iterable_skipLast this (Some (- n)) = this
  /\ toArray (Iterable_takeLast this None) = []
  /\ toArray (Iterable_takeLast this (Some (- n))) = [].
Proof.
  intros Hwf Hn.
  destruct (iterable_models Hwf) as (_ & Hcount & _).
  assert (HskipLast : toArray (Iterable_skipLast this (Some n))
                      = firstn (length (toArray this) - Z.to_nat n) (toArray this)).
  { unfold Iterable_skipLast. rewrite truthyPositive_spec.
    destruct (Z.ltb_spec 0 n) as [Hpos|Hzero].
    - destruct (Iterable_take_wf (Some (getCount this - n)) Hwf) as [Hwf' He].
      rewrite (toArray_elements Hwf'), He, (toArray_elements Hwf), Hcount.
      f_equal. lia.
    - replace (Z.to_nat n) with 0%nat by lia. rewrite Nat.sub_0_r, firstn_all.
      reflexivity. }
  assert (HtakeLast : toArray (Iterable_takeLast this (Some n))
                      = skipn (length (toArray this) - Z.to_nat n) (toArray this)).
  { unfold Iterable_takeLast.
    destruct (Z.eqb_spec n 0) as [->|Hne]; cbn [orb].
    - simpl. rewrite Nat.sub_0_r, skipn_all. reflexivity.
    - destruct (Z.ltb_spec n 0); [lia|].
      rewrite (toArray_elements Hwf), Hcount.
      destruct (Z.leb_spec (Z.of_nat (length (elements this))) n) as [Hall|Hsome].
      + replace (length (elements this) - Z.to_nat n)%nat with 0%nat by lia.
        apply (toArray_elements Hwf).
      + destruct (Iterable_skip_wf
                    (Some (Z.of_nat (length (elements this)) - n)) Hwf) as [Hwf' He].
        rewrite (toArray_elements Hwf'), He. f_equal. lia. }
  split; [exact HskipLast|]. split; [exact HtakeLast|].
  split; [rewrite HskipLast, HtakeLast; apply firstn_skipn|].
  split; [reflexivity|]. split.
  - unfold Iterable_skipLast. rewrite truthyPositive_spec.
    destruct (Z.ltb_spec 0 (- n)); [lia|reflexivity].
  - split; [reflexivity|]. unfold Iterable_takeLast.
    destruct (Z.eqb_spec (- n) 0); [reflexivity|].
    destruct (Z.ltb_spec (- n) 0); [reflexivity|lia].
Qed.

Lemma Iterable_skipLast_and_takeLast_witness :
  toArray (Iterable_skipLast sample (Some 2)) = [Some 10; Some 20; Some 30]
  /\ toArray (Iterable_takeLast sample (Some 2)) = [Some 40; Some 50].
Proof.
  destruct (@Iterable_skipLast_and_takeLast _ _ sample 2) as (Hskip & Htake & _);
    [reflexivity|lia|].
  rewrite Hskip, Htake. split; reflexivity.
Defined.

(** ** Reading a value by its index *)

Section IterableGet.
Context {T : Type} `{Undefined T}.

Lemma Qle_bool_integer_r (a : Z) (q : Q) (i : Z) :
  (q == inject_Z i)%Q -> Qle_bool (inject_Z a) q = (a <=? i).
Proof.
  intros Hq. rewrite <- Qle_bool_inject_Z.
  apply Qleb_comp; [reflexivity|exact Hq].
Qed.

Lemma Qlt_bool_integer_l (q : Q) (i b : Z) :
  (q == inject_Z i)%Q -> Qlt_bool q (inject_Z b) = (i <? b).
Proof.
  intros Hq. rewrite <- Qlt_bool_inject_Z. unfold Qlt_bool. f_equal.
  apply Qleb_comp; [reflexivity|exact Hq].
Qed.

Lemma Qlt_bool_integer_r (a : Z) (q : Q) (i : Z) :
  (q == inject_Z i)%Q -> Qlt_bool (inject_Z a) q = (a <? i).
Proof.
  intros Hq. rewrite <- Qlt_bool_inject_Z. unfold Qlt_bool. f_equal.
  apply Qleb_comp; [exact Hq|reflexivity].
Qed.

Lemma arrayGet_integer (array : list T) (q : Q) (i : Z) :
  (q == inject_Z i)%Q -> 0 <= i ->
  arrayGet array (Num q) = nth (Z.to_nat i) array undefined.
Proof.
  intros Hq Hi. unfold arrayGet.
  rewrite (Qred_complete _ _ Hq), Qred_inject_Z. simpl.
  destruct (Z.leb_spec 0 i); [reflexivity|lia].
Qed.

(** The loop of [get] and [getLast] calls [next()] once more than the
    index, or until [next()] returns false. *)
Lemma get_loop_spec (fuel : nat) :
  forall (iterator : IteratorObject T) (st : cursor T) (q : Q) (i : Z),
  models iterator st -> (q == inject_Z i)%Q -> 0 <= i ->
  (length (upcoming st) < fuel)%nat ->
  models (get_loop fuel iterator q) (advanceN (S (Z.to_nat i)) st).
Proof.
  induction fuel as [|fuel IH]; intros iterator st q i Hm Hq Hi Hfuel; [lia|].
  cbn [get_loop]. destruct (models_next Hm) as (iterator1 & -> & Hm1).
  change (Qlt_bool 0 q) with (Qlt_bool (inject_Z 0) q).
  rewrite (Qlt_bool_integer_r 0 Hq).
  destruct (positioned (advance st)) eqn:Hpos; cbn [andb].
  - destruct (Z.ltb_spec 0 i) as [Hlt|Hzero].
    + replace (S (Z.to_nat i)) with (S (S (Z.to_nat (i - 1)))) by lia.
      change (advanceN (S (S (Z.to_nat (i - 1)))) st)
        with (advanceN (S (Z.to_nat (i - 1))) (advance st)).
      apply IH; auto; try lia.
      * rewrite Hq. unfold Qminus, Z.sub. rewrite inject_Z_plus, inject_Z_opp. reflexivity.
      * rewrite upcoming_advance, length_tl. rewrite positioned_advance in Hpos.
        destruct (upcoming st); simpl in *; [discriminate|lia].
    + replace (Z.to_nat i) with 0%nat by lia. exact Hm1.
  - change (advanceN (S (Z.to_nat i)) st) with (advanceN (Z.to_nat i) (advance st)).
    rewrite (positioned_advance_false Hpos) in *. now rewrite advanceN_Done.
Qed.

Lemma IterableBase_getFrom_integer (iterator : IteratorObject T) (values : list T)
  (q : Q) (i : Z) :
  models iterator (NotStarted values) -> (q == inject_Z i)%Q -> 0 <= i ->
  IterableBase_getFrom iterator (Num q) = nth (Z.to_nat i) values undefined.
Proof.
  intros Hm Hq Hi. unfold IterableBase_getFrom.
  change 0%Q with (inject_Z 0). rewrite (Qle_bool_integer_r 0 Hq).
  destruct (Z.leb_spec 0 i); [|lia].
  pose proof (models_remaining Hm) as Hrem. cbn [upcoming] in Hrem.
  assert (Hloop := @get_loop_spec (S (remaining iterator)) iterator _ q i Hm Hq Hi
                     ltac:(cbn [upcoming]; lia)).
  destruct (models_getCurrent Hloop) as (iterator' & -> & _). cbn [fst].
  rewrite advanceN_NotStarted. rewrite <- hd_skipn_nth.
  destruct (skipn (Z.to_nat i) values); reflexivity.
Qed.

(** [get] with an integer index that is not negative: the value at that
    place of the traversal, [undefined] past its end. *)
Lemma get_integer (this : Iterable T) : forall (q : Q) (i : Z),
  wf this = true -> (q == inject_Z i)%Q -> 0 <= i ->
  get this (Num q) = nth (Z.to_nat i) (elements this) undefined.
Proof.
  induction this as [list|inner IH condition|inner IH toSkip|inner IH toTake
                    |inner IH mapFunction|first IH second]; intros q i Hwf Hq Hi.
  - cbn [get elements]. unfold ArrayList_get. cbn [number_isDefined number_le number_lt ofZ andb].
    rewrite (Qle_bool_integer_r 0 Hq), (Qlt_bool_integer_l _ Hq).
    destruct (Z.leb_spec 0 i); [|lia]. cbn [andb].
    pose proof (ArrayList_contents_length (wf_ArrayList Hwf)) as Hlen.
    unfold ArrayList_getCount.
    destruct (Z.ltb_spec i (Z.of_nat (_count list))).
    + rewrite (arrayGet_integer _ Hq Hi). unfold ArrayList_contents.
      rewrite nth_firstn.
      destruct (Nat.ltb_spec (Z.to_nat i) (_count list)); [reflexivity|lia].
    + symmetry. apply nth_overflow. lia.
  - destruct (iterable_models Hwf) as (Hforward & _ & _).
    apply (IterableBase_getFrom_integer Hforward Hq Hi).
  - cbn [wf] in Hwf. apply andb_prop in Hwf. destruct Hwf as [Hpos Hwf].
    apply Z.ltb_lt in Hpos.
    cbn [get elements number_add ofZ].
    rewrite (IH (q + inject_Z toSkip)%Q (i + toSkip)); auto; try lia.
    + rewrite nth_skipn. f_equal. lia.
    + rewrite Hq, inject_Z_plus. reflexivity.
  - pose proof Hwf as Hview. cbn [wf] in Hwf. apply andb_prop in Hwf.
    destruct Hwf as [Hpos Hwf]. apply Z.ltb_lt in Hpos.
    destruct (iterable_models Hview) as (_ & Hcount & _).
    cbn [get]. rewrite Hcount. cbn [number_le number_lt ofZ].
    rewrite (Qle_bool_integer_r 0 Hq), (Qlt_bool_integer_l _ Hq).
    destruct (Z.leb_spec 0 i); [|lia]. cbn [andb].
    destruct (Z.ltb_spec i (Z.of_nat (length (elements (TakeIterable inner toTake)))))
      as [Hin|Hout].
    + rewrite (IH q i Hwf Hq Hi). cbn [elements] in *.
      rewrite nth_firstn. rewrite length_firstn in Hin.
      destruct (Nat.ltb_spec (Z.to_nat i) (Z.to_nat toTake)); [reflexivity|lia].
    + symmetry. apply nth_overflow. lia.
  - pose proof Hwf as Hview. cbn [wf] in Hwf.
    destruct (iterable_models Hview) as (_ & Hcount & _).
    cbn [get]. rewrite Hcount. cbn [number_isDefined number_le number_lt ofZ andb].
    rewrite (Qle_bool_integer_r 0 Hq), (Qlt_bool_integer_l _ Hq).
    destruct (Z.leb_spec 0 i); [|lia]. cbn [andb].
    destruct (Z.ltb_spec i (Z.of_nat (length (elements (MapIterable inner mapFunction)))))
      as [Hin|Hout].
    + rewrite (IH q i Hwf Hq Hi). cbn [elements] in *.
      rewrite <- (map_nth mapFunction (elements inner) undefined (Z.to_nat i)).
      apply nth_indep. lia.
    + symmetry. apply nth_overflow. lia.
  - destruct (iterable_models Hwf) as (Hforward & _ & _).
    apply (IterableBase_getFrom_integer Hforward Hq Hi).
Qed.

(** [getLast] with an integer index that is not negative counts from the
    end. *)
Lemma getLast_integer (this : Iterable T) : forall (q : Q) (i : Z),
  wf this = true -> (q == inject_Z i)%Q -> 0 <= i ->
  getLast this (Num q) = nth (Z.to_nat i) (rev (elements this)) undefined.
Proof.
  assert (Hbase : forall (view : Iterable T) q i,
            wf view = true -> (q == inject_Z i)%Q -> 0 <= i ->
            IterableBase_getFrom (iterateReverse view) (Num q)
            = nth (Z.to_nat i) (rev (elements view)) undefined).
  { intros view q i Hwf Hq Hi. destruct (iterable_models Hwf) as (_ & _ & Hreverse).
    apply (IterableBase_getFrom_integer Hreverse Hq Hi). }
  induction this as [list|inner IH condition|inner IH toSkip|inner IH toTake
                    |inner IH mapFunction|first IH second]; intros q i Hwf Hq Hi;
    try (apply Hbase; assumption).
  pose proof Hwf as Hview. cbn [wf] in Hwf.
  destruct (iterable_models Hview) as (_ & Hcount & _).
  cbn [getLast]. rewrite Hcount. cbn [number_isDefined number_le number_lt ofZ andb].
  rewrite (Qle_bool_integer_r 0 Hq), (Qlt_bool_integer_l _ Hq).
  destruct (Z.leb_spec 0 i); [|lia]. cbn [andb].
  destruct (Z.ltb_spec i (Z.of_nat (length (elements (MapIterable inner mapFunction)))))
    as [Hin|Hout].
  - rewrite (IH q i Hwf Hq Hi). cbn [elements] in *.
    rewrite <- map_rev.
    rewrite <- (map_nth mapFunction (rev (elements inner)) undefined (Z.to_nat i)).
    apply nth_indep. rewrite length_map in *. rewrite length_rev. lia.
  - symmetry. apply nth_overflow. rewrite length_rev. lia.
Qed.
End IterableGet.

(** X8.  For an integer index [i] that is not negative, [get(i)] is the
    value at place [i] of [toArray()] and [getLast(i)] the value at place
    [i] from the end, for a list and for every view, whichever way the
    view computes it; both are [undefined] when [i] is the count or
    more. *)
Theorem Iterable_get_is_the_value_at_the_index (T : Type) (undefinedT : Undefined T)
    (this : Iterable T) (i : Z) :
  wf this = true -> 0 <= i ->
  get this (ofZ i) = nth (Z.to_nat i) (toArray this) undefined
  /\ getLast this (ofZ i) = nth (Z.to_nat i) (rev (toArray this)) undefined
  /\ (getCount this <= i ->
      get this (ofZ i) = undefined /\ getLast this (ofZ i) = undefined).
Proof.
  intros Hwf Hi. unfold ofZ.
  rewrite (@get_integer _ _ this (inject_Z i) i Hwf ltac:(reflexivity) Hi),
    (@getLast_integer _ _ this (inject_Z i) i Hwf ltac:(reflexivity) Hi),
    (toArray_elements Hwf).
  split; [reflexivity|]. split; [reflexivity|].
  destruct (iterable_models Hwf) as (_ & Hcount & _). intros Hout.
  split; apply nth_overflow; rewrite ?length_rev; lia.
Qed.

Lemma Iterable_get_is_the_value_at_the_index_witness :
  get (Iterable_skip (Iterable_where sample (Some (fun _ => true))) (Some 1)) (ofZ 2)
  = Some 40
  /\ getLast (Iterable_skip (Iterable_where sample (Some (fun _ => true))) (Some 1)) (ofZ 0)
     = Some 50.
Proof.
  destruct (@Iterable_get_is_the_value_at_the_index _ _
              (Iterable_skip (Iterable_where sample (Some (fun _ => true))) (Some 1)) 2)
    as (Hget & _); [reflexivity|lia|].
  destruct (@Iterable_get_is_the_value_at_the_index _ _
              (Iterable_skip (Iterable_where sample (Some (fun _ => true))) (Some 1)) 0)
    as (_ & Hlast & _); [reflexivity|lia|].
  rewrite Hget, Hlast. split; reflexivity.
Defined.

(** ** [any] and [contains] *)

Section IteratorAny.
Context {I T : Type} `{Iterator I T}.

(** The loop of [any(condition)]:
    [for (const value of this) { if (condition(value)) { result = true; break; } }],
    after the initial value. *)
Fixpoint any_loop (fuel : nat) (this : I) (condition : T -> bool) : bool * I :=
  match fuel with
  | O => (false, this)
  | S fuel' =>
      let (moved, this1) := next this in
      let (value, this2) := getCurrent this1 in
      if moved then
        if condition value then (true, this2) else any_loop fuel' this2 condition
      else (false, this2)
  end.

(** [IteratorBase.any(condition)] *)
Definition IteratorBase_anyWith (this : I) (condition : option (T -> bool)) : bool * I :=
  match condition with
  | None => IteratorBase_any this
  | Some c =>
      let (hasInitialValue, this1) := hasCurrent this in
      if hasInitialValue then
        let (value, this2) := getCurrent this1 in
        if c value then (true, this2) else any_loop (S (remaining this2)) this2 c
      else any_loop (S (remaining this1)) this1 c
  end.
End IteratorAny.

Section IterableAny.
Context {T : Type} `{Undefined T}.

(** [any(condition)]: [IterableBase] asks a fresh iterator; [ArrayList]
    answers [this._count > 0] when there is no condition. *)
Definition Iterable_any (this : Iterable T) (condition : option (T -> bool)) : bool :=
  match this, condition with
  | OfArrayList list, None => 0 <? ArrayList_getCount list
  | _, _ => fst (IteratorBase_anyWith (iterate this) condition)
  end.

(** [contains(value, comparison)]; the comparison used when none is
    given, [===], is passed in as one. *)
Definition Iterable_contains (this : Iterable T) (value : T) (comparison : T -> T -> bool)
  : bool :=
  Iterable_any this (Some (fun iterableValue => comparison iterableValue value)).

Lemma any_loop_spec {I : Type} `{IteratorLaws I T} (condition : T -> bool) (fuel : nat) :
  forall (this : I) (st : cursor T),
  models this st -> (length (upcoming st) < fuel)%nat ->
  fst (any_loop fuel this condition) = existsb condition (upcoming st).
Proof.
  induction fuel as [|fuel IH]; intros this st Hm Hfuel; [lia|].
  cbn [any_loop]. destruct (models_next Hm) as (this1 & -> & Hm1).
  destruct (models_getCurrent Hm1) as (this2 & -> & Hm2).
  unfold advance, cursor_at in *.
  destruct (upcoming st) as [|value rest] eqn:Hup; cbn [positioned current existsb] in *;
    [reflexivity|].
  destruct (condition value); [reflexivity|].
  cbn [orb]. rewrite (IH this2 (At value rest) Hm2); [reflexivity|].
  cbn [upcoming length] in *. lia.
Qed.

Lemma anyWith_spec {I : Type} `{IteratorLaws I T} (this : I) (st : cursor T)
  (condition : option (T -> bool)) :
  models this st ->
  fst (IteratorBase_anyWith this condition)
  = match condition with
    | Some c => existsb c (contents st)
    | None => negb (match contents st with [] => true | _ => false end)
    end.
Proof.
  intros Hm. unfold IteratorBase_anyWith, IteratorBase_any.
  destruct (models_hasCurrent Hm) as (this1 & -> & Hm1).
  destruct condition as [c|].
  - destruct st as [rest|value rest|]; cbn [positioned contents].
    + apply (any_loop_spec c Hm1). pose proof (models_remaining Hm1). simpl in *. lia.
    + destruct (models_getCurrent Hm1) as (this2 & -> & Hm2). cbn [current existsb].
      destruct (c value); [reflexivity|]. cbn [orb].
      apply (any_loop_spec c Hm2). pose proof (models_remaining Hm2). simpl in *. lia.
    + apply (any_loop_spec c Hm1). simpl. lia.
  - destruct st as [rest|value rest|]; cbn [positioned contents]; [|reflexivity|];
      destruct (models_next Hm1) as (this2 & -> & _); cbn [fst];
      unfold advance, cursor_at; cbn [upcoming]; [destruct rest|]; reflexivity.
Qed.

Lemma Iterable_any_elements (this : Iterable T) (condition : option (T -> bool)) :
  wf this = true ->
  Iterable_any this condition
  = match condition with
    | Some c => existsb c (elements this)
    | None => negb (match elements this with [] => true | _ => false end)
    end.
Proof.
  intros Hwf. destruct (iterable_models Hwf) as (Hforward & Hcount & _).
  assert (Hbase : fst (IteratorBase_anyWith (iterate this) condition)
                  = match condition with
                    | Some c => existsb c (elements this)
                    | None => negb (match elements this with [] => true | _ => false end)
                    end) by apply (anyWith_spec condition Hforward).
  destruct this; try exact Hbase.
  destruct condition; [exact Hbase|].
  cbn [Iterable_any getCount] in *. rewrite Hcount.
  destruct (elements (OfArrayList list)); reflexivity.
Qed.
End IterableAny.

(** X9.  [any()] tells whether the iterable has a value, [any(condition)]
    whether one of its values satisfies the condition, and
    [contains(value, comparison)] whether one of them compares equal to
    the value; on an iterable without values all three are false. *)
Theorem Iterable_any_and_contains (T : Type) (undefinedT : Undefined T)
    (this : Iterable T) (condition : T -> bool) (value : T) (comparison : T -> T -> bool) :
  wf this = true ->
  (Iterable_any this None = true <-> toArray this <> [])
  /\ (Iterable_any this (Some condition) = true
      <-> exists found, In found (toArray this) /\ condition found = true)
  /\ (Iterable_contains this value comparison = true
      <-> exists found, In found (toArray this) /\ comparison found value = true).
Proof.
  intros Hwf. unfold Iterable_contains.
  rewrite !Iterable_any_elements by exact Hwf. rewrite (toArray_elements Hwf).
  split; [|split].
  - destruct (elements this); simpl; split; congruence.
  - apply existsb_exists.
  - apply existsb_exists.
Qed.

Lemma Iterable_any_and_contains_witness :
  Iterable_any sample None = true
  /\ Iterable_contains sample (Some 30)
       (fun a b => match a, b with Some x, Some y => x =? y | _, _ => false end) = true.
Proof.
  destruct (@Iterable_any_and_contains _ _ sample (fun _ => true) (Some 30)
              (fun a b => match a, b with Some x, Some y => x =? y | _, _ => false end))
    as (Hany & _ & Hcontains); [reflexivity|].
  split.
  - apply Hany. intros Hempty. vm_compute in Hempty. discriminate Hempty.
  - apply Hcontains. exists (Some 30). split; [vm_compute; auto|reflexivity].
Defined.

(** ** ArrayList: adding, setting, searching and removing *)

Section ArrayListSet.
Context {T : Type} `{Undefined T}.

(** [ArrayList.set(index, value)], for an integer index or none.  (With a
    fractional index inside the list the source stores the value under
    that key of the backing array, beside the values of the list; [_data]
    has no place for such keys, and the index is an integer here.) *)
Definition ArrayList_set (this : ArrayList T) (index : option Z) (value : T) : ArrayList T :=
  match index with
  | Some i =>
      if (0 <=? i) && (i <? ArrayList_getCount this)
      then Build_ArrayList (arraySet (_data this) (Z.to_nat i) value) (_count this)
      else this
  | None => this
  end.

(** [ArrayList.setLast(value)] *)
Definition ArrayList_setLast (this : ArrayList T) (value : T) : ArrayList T :=
  if Iterable_any (OfArrayList this) None
  then Build_ArrayList (arraySet (_data this) (_count this - 1) value) (_count this)
  else this.

Lemma toArray_ArrayList (list : ArrayList T) :
  ArrayList_wf list -> toArray (OfArrayList list) = ArrayList_contents list.
Proof.
  intros Hwf. apply (@toArray_elements _ _ (OfArrayList list)).
  apply Nat.leb_le. exact Hwf.
Qed.

Lemma ArrayList_get_nth (this : ArrayList T) (i : Z) :
  ArrayList_wf this -> 0 <= i ->
  ArrayList_get this (ofZ i) = nth (Z.to_nat i) (ArrayList_contents this) undefined.
Proof.
  intros Hwf Hi. rewrite ArrayList_get_ofZ.
  destruct (Z.leb_spec 0 i); [|lia]. cbn [andb].
  destruct (Z.ltb_spec i (ArrayList_getCount this)) as [Hin|Hout]; [reflexivity|].
  symmetry. apply nth_overflow. rewrite (ArrayList_contents_length Hwf).
  unfold ArrayList_getCount in Hout. lia.
Qed.

Lemma arraySet_firstn_skipn (data : list T) : forall (i : nat) (value : T),
  (i < length data)%nat ->
  arraySet data i value = firstn i data ++ value :: skipn (S i) data.
Proof.
  induction data as [|x data IH]; intros [|i] value Hi; simpl in *; try lia; auto.
  f_equal. apply IH. lia.
Qed.

Lemma ArrayList_set_contents (this : ArrayList T) (i : nat) (value : T) :
  ArrayList_wf this -> (i < _count this)%nat ->
  ArrayList_wf (ArrayList_set this (Some (Z.of_nat i)) value)
  /\ ArrayList_contents (ArrayList_set this (Some (Z.of_nat i)) value)
     = firstn i (ArrayList_contents this) ++ value :: skipn (S i) (ArrayList_contents this).
Proof.
  intros Hwf Hi. unfold ArrayList_set, ArrayList_getCount, ArrayList_wf in *.
  destruct (Z.leb_spec 0 (Z.of_nat i)); [|lia].
  destruct (Z.ltb_spec (Z.of_nat i) (Z.of_nat (_count this))); [|lia].
  cbn [andb]. unfold ArrayList_contents. cbn [_data _count].
  rewrite Nat2Z.id, arraySet_length. split; [exact Hwf|].
  rewrite arraySet_firstn_skipn by lia.
  rewrite firstn_app, !firstn_firstn, length_firstn.
  replace (Nat.min (_count this) i) with i by lia.
  replace (Nat.min i (_count this)) with i by lia.
  replace (Nat.min i (length (_data this))) with i by lia.
  f_equal.
  replace (_count this - i)%nat with (S (_count this - S i)) by lia.
  cbn [firstn]. f_equal.
  rewrite skipn_firstn_comm. reflexivity.
Qed.
End ArrayListSet.

(** X10.  [add(value)] puts the value after the values of the list: the
    count grows by one, [get] at the old count returns the value and the
    values before it stay, whether the backing array had a free slot
    (left by a removal) or not.  A list constructed from an array holds
    the values of the array, in order. *)
Theorem ArrayList_add_appends (T : Type) (undefinedT : Undefined T)
    (this : ArrayList T) (value : T) (values : list T) :
  ArrayList_wf this ->
  ArrayList_getCount (ArrayList_add this value) = ArrayList_getCount this + 1
  /\ toArray (OfArrayList (ArrayList_add this value)) = toArray (OfArrayList this) ++ [value]
  /\ ArrayList_get (ArrayList_add this value) (ofZ (ArrayList_getCount this)) = value
  /\ (forall i, 0 <= i < ArrayList_getCount this ->
      ArrayList_get (ArrayList_add this value) (ofZ i) = ArrayList_get this (ofZ i))
  /\ toArray (OfArrayList (ArrayList_of values)) = values
  /\ ArrayList_getCount (ArrayList_of values) = Z.of_nat (length values).
Proof.
  intros Hwf. destruct (ArrayList_add_contents value Hwf) as [Hwf' Hc].
  destruct (ArrayList_of_contents values) as [Hwf0 Hc0].
  pose proof (ArrayList_contents_length Hwf) as Hlen.
  rewrite (toArray_ArrayList Hwf'), (toArray_ArrayList Hwf), (toArray_ArrayList Hwf0).
  split; [unfold ArrayList_getCount; simpl; lia|]. split; [exact Hc|]. split; [|split; [|split]].
  - rewrite (ArrayList_get_nth Hwf') by (unfold ArrayList_getCount; lia).
    rewrite Hc. unfold ArrayList_getCount. rewrite Nat2Z.id, app_nth2 by lia.
    rewrite Hlen, Nat.sub_diag. reflexivity.
  - intros i Hi. unfold ArrayList_getCount in Hi.
    rewrite (ArrayList_get_nth Hwf'), (ArrayList_get_nth Hwf) by lia.
    rewrite Hc. apply app_nth1. lia.
  - exact Hc0.
  - unfold ArrayList_getCount. rewrite <- (ArrayList_contents_length Hwf0), Hc0. reflexivity.
Qed.

Lemma ArrayList_add_appends_witness :
  let afterRemoval := snd (ArrayList_removeAt sampleList (Some 1)) in
  toArray (OfArrayList (ArrayList_add afterRemoval (Some 60)))
  = [Some 10; Some 30; Some 40; Some 50; Some 60].
Proof.
  intros afterRemoval.
  destruct (@ArrayList_add_appends _ _ afterRemoval (Some 60) []) as (_ & Hadd & _).
  - unfold ArrayList_wf. simpl. lia.
  - rewrite Hadd. reflexivity.
Defined.

(** X11.  [set(index, value)] with an index inside the list replaces the
    value at that index and no other, and keeps the count; with an index
    that is negative, not below the count, or undefined it leaves the
    list as it is.  [setLast(value)] replaces the last value, and does
    nothing to an empty list. *)
Theorem ArrayList_set_replaces_one_value (T : Type) (undefinedT : Undefined T)
    (this : ArrayList T) (i : Z) (value : T) :
  ArrayList_wf this ->
  (0 <= i < ArrayList_getCount this ->
   ArrayList_getCount (ArrayList_set this (Some i) value) = ArrayList_getCount this
   /\ ArrayList_get (ArrayList_set this (Some i) value) (ofZ i) = value
   /\ forall j, 0 <= j -> j <> i ->
      ArrayList_get (ArrayList_set this (Some i) value) (ofZ j) = ArrayList_get this (ofZ j))
  /\ (i < 0 \/ ArrayList_getCount this <= i -> ArrayList_set this (Some i) value = this)
  /\ ArrayList_set this None value = this
  /\ (0 < ArrayList_getCount this ->
      toArray (OfArrayList (ArrayList_setLast this value))
      = removelast (toArray (OfArrayList this)) ++ [value])
  /\ (ArrayList_getCount this = 0 -> ArrayList_setLast this value = this).
Proof.
  intros Hwf. pose proof (ArrayList_contents_length Hwf) as Hlen.
  split; [|split; [|split; [|split]]].
  - intros Hi. unfold ArrayList_getCount in Hi.
    destruct (@ArrayList_set_contents _ this (Z.to_nat i) value Hwf ltac:(lia))
      as [Hwf' Hc].
    rewrite Z2Nat.id in * by lia.
    split; [|split].
    + unfold ArrayList_set. destruct (_ && _); reflexivity.
    + rewrite (ArrayList_get_nth Hwf') by lia. rewrite Hc.
      rewrite app_nth2; rewrite length_firstn; [|lia].
      replace (Z.to_nat i - Nat.min (Z.to_nat i) (length (ArrayList_contents this)))%nat
        with 0%nat by lia.
      reflexivity.
    + intros j Hj Hne.
      rewrite (ArrayList_get_nth Hwf'), (ArrayList_get_nth Hwf) by lia. rewrite Hc.
      rewrite <- (firstn_skipn (Z.to_nat i) (ArrayList_contents this)) at 3.
      destruct (Nat.lt_ge_cases (Z.to_nat j) (Z.to_nat i)) as [Hlt|Hge].
      * rewrite !app_nth1 by (rewrite length_firstn; lia). reflexivity.
      * rewrite !app_nth2 by (rewrite length_firstn; lia).
        rewrite length_firstn.
        replace (Nat.min (Z.to_nat i) (length (ArrayList_contents this)))
          with (Z.to_nat i) by lia.
        destruct (Z.to_nat j - Z.to_nat i)%nat as [|d] eqn:Hd; [lia|].
        cbn [nth]. rewrite skipn_succ_tl.
        destruct (skipn (Z.to_nat i) (ArrayList_contents this)); [destruct d|]; reflexivity.
  - intros Hout. unfold ArrayList_set.
    destruct (Z.leb_spec 0 i); [|reflexivity].
    destruct (Z.ltb_spec i (ArrayList_getCount this)); [lia|reflexivity].
  - reflexivity.
  - intros Hpos. unfold ArrayList_getCount in Hpos.
    assert (Hlast : ArrayList_setLast this value
                    = ArrayList_set this (Some (Z.of_nat (_count this - 1))) value).
    { unfold ArrayList_setLast, ArrayList_set, Iterable_any, ArrayList_getCount.
      destruct (Z.ltb_spec 0 (Z.of_nat (_count this))); [|lia].
      destruct (Z.leb_spec 0 (Z.of_nat (_count this - 1))); [|lia].
      destruct (Z.ltb_spec (Z.of_nat (_count this - 1)) (Z.of_nat (_count this))); [|lia].
      cbn [andb]. now rewrite Nat2Z.id. }
    rewrite Hlast.
    destruct (@ArrayList_set_contents _ this (_count this - 1) value Hwf ltac:(lia))
      as [Hwf' Hc].
    rewrite (toArray_ArrayList Hwf'), (toArray_ArrayList Hwf), Hc.
    replace (S (_count this - 1)) with (length (ArrayList_contents this)) by lia.
    rewrite skipn_all. f_equal.
    rewrite removelast_firstn_len. f_equal. lia.
  - intros Hzero. unfold ArrayList_setLast, Iterable_any. rewrite Hzero. reflexivity.
Qed.

Lemma ArrayList_set_replaces_one_value_witness :
  toArray (OfArrayList (ArrayList_set sampleList (Some 1) (Some 25)))
  = [Some 10; Some 25; Some 30; Some 40; Some 50]
  /\ ArrayList_get (ArrayList_set sampleList (Some 1) (Some 25)) (ofZ 1) = Some 25.
Proof.
  destruct (@ArrayList_set_replaces_one_value _ _ sampleList 1 (Some 25)) as (Hin & _).
  - unfold ArrayList_wf. simpl. lia.
  - destruct Hin as (_ & Hget & _); [vm_compute; split; [discriminate|reflexivity]|].
    split; [reflexivity|exact Hget].
Defined.

Section ArrayListSearch.
Context {T : Type} `{Undefined T}.

Lemma ArrayList_contents_nth (this : ArrayList T) (k : nat) :
  (k < _count this)%nat ->
  nth k (ArrayList_contents this) undefined = nth k (_data this) undefined.
Proof.
  intros Hk. unfold ArrayList_contents. rewrite nth_firstn.
  destruct (Nat.ltb_spec k (_count this)); [reflexivity|lia].
Qed.

Lemma find_first_match (test : T -> bool) (values : list T) : forall j : nat,
  (j < length values)%nat ->
  test (nth j values undefined) = true ->
  (forall k, (k < j)%nat -> test (nth k values undefined) = false) ->
  find test values = Some (nth j values undefined).
Proof.
  induction values as [|value rest IH]; intros j Hj Hfound Hbefore; simpl in *; [lia|].
  destruct j as [|j].
  - now rewrite Hfound.
  - pose proof (Hbefore 0%nat ltac:(lia)) as Hhead. simpl in Hhead. rewrite Hhead.
    apply IH; [lia|exact Hfound|]. intros k Hk. apply (Hbefore (S k)). lia.
Qed.

Lemma find_no_match (test : T -> bool) (values : list T) :
  (forall k, (k < length values)%nat -> test (nth k values undefined) = false) ->
  find test values = None.
Proof.
  induction values as [|value rest IH]; intros Hnone; simpl; [reflexivity|].
  pose proof (Hnone 0%nat ltac:(simpl; lia)) as Hhead. simpl in Hhead. rewrite Hhead.
  apply IH. intros k Hk. apply (Hnone (S k)). simpl. lia.
Qed.

(** What [remove] returns: the first value the comparer matches. *)
Lemma ArrayList_remove_result (this : ArrayList T) (value : T) (comparer : T -> T -> bool) :
  ArrayList_wf this ->
  fst (ArrayList_remove this value comparer)
  = match find (fun x => comparer x value) (ArrayList_contents this) with
    | Some found => found
    | None => undefined
    end.
Proof.
  intros Hwf. unfold ArrayList_remove, ArrayList_indexOf.
  pose proof (@indexOf_loop_spec _ _ (_data this) value comparer (_count this) 0) as Hspec.
  pose proof (ArrayList_contents_length Hwf) as Hlen.
  destruct (indexOf_loop (_data this) value comparer 0 (_count this)) as [found|].
  - destruct Hspec as (j & -> & Hj & Hfound & Hbefore). cbn [isDefined].
    rewrite (@find_first_match (fun x => comparer x value) (ArrayList_contents this) j).
    + unfold ArrayList_removeAt, ArrayList_getCount.
      destruct (Z.leb_spec 0 (Z.of_nat j)); [|lia].
      destruct (Z.ltb_spec (Z.of_nat j) (Z.of_nat (_count this))); [|lia].
      cbn [andb fst]. rewrite Nat2Z.id. symmetry. apply ArrayList_contents_nth. lia.
    + lia.
    + rewrite ArrayList_contents_nth by lia. exact Hfound.
    + intros k Hk. rewrite ArrayList_contents_nth by lia. apply Hbefore. lia.
  - cbn [isDefined fst]. rewrite find_no_match; [reflexivity|].
    intros k Hk. rewrite ArrayList_contents_nth by lia. apply Hspec. lia.
Qed.
End ArrayListSearch.

(** X12.  [removeAt(index)] with an index inside the list returns the
    value at that index and closes the gap: the values before and after
    it keep their order and the count drops by one.  With an index that
    is negative, not below the count, or undefined it returns [undefined]
    and leaves the list as it is; so do [removeFirst()] and
    [removeLast()] on an empty list. *)
Theorem ArrayList_removeAt_removes_one_value (T : Type) (undefinedT : Undefined T)
    (this : ArrayList T) (i : Z) :
  ArrayList_wf this ->
  (0 <= i < ArrayList_getCount this ->
   fst (ArrayList_removeAt this (Some i)) = ArrayList_get this (ofZ i)
   /\ toArray (OfArrayList (snd (ArrayList_removeAt this (Some i))))
      = firstn (Z.to_nat i) (toArray (OfArrayList this))
        ++ skipn (S (Z.to_nat i)) (toArray (OfArrayList this))
   /\ ArrayList_getCount (snd (ArrayList_removeAt this (Some i)))
      = ArrayList_getCount this - 1)
  /\ (i < 0 \/ ArrayList_getCount this <= i ->
      ArrayList_removeAt this (Some i) = (undefined, this))
  /\ ArrayList_removeAt this None = (undefined, this)
  /\ (ArrayList_getCount this = 0 ->
      ArrayList_removeFirst this = (undefined, this)
      /\ ArrayList_removeLast this = (undefined, this)).
Proof.
  intros Hwf. split; [|split; [|split]].
  - intros Hi. unfold ArrayList_getCount in Hi.
    destruct (@ArrayList_removeAt_contents _ _ this (Z.to_nat i) Hwf ltac:(lia))
      as [Hwf' Hc].
    rewrite Z2Nat.id in * by lia.
    rewrite (toArray_ArrayList Hwf'), (toArray_ArrayList Hwf), Hc.
    split; [|split; [reflexivity|]].
    + rewrite (ArrayList_get_nth Hwf) by lia.
      rewrite ArrayList_contents_nth by lia.
      unfold ArrayList_removeAt, ArrayList_getCount.
      destruct (Z.leb_spec 0 i); [|lia].
      destruct (Z.ltb_spec i (Z.of_nat (_count this))); [|lia]. reflexivity.
    + unfold ArrayList_removeAt, ArrayList_getCount.
      destruct (Z.leb_spec 0 i); [|lia].
      destruct (Z.ltb_spec i (Z.of_nat (_count this))); [|lia].
      cbn [andb snd _count]. lia.
  - intros Hout. unfold ArrayList_removeAt.
    destruct (Z.leb_spec 0 i); [|reflexivity].
    destruct (Z.ltb_spec i (ArrayList_getCount this)); [lia|reflexivity].
  - reflexivity.
  - intros Hzero. unfold ArrayList_removeFirst, ArrayList_removeLast, ArrayList_removeAt.
    rewrite Hzero. split; reflexivity.
Qed.

Lemma ArrayList_removeAt_removes_one_value_witness :
  fst (ArrayList_removeAt sampleList (Some 1)) = Some 20
  /\ toArray (OfArrayList (snd (ArrayList_removeAt sampleList (Some 1))))
     = [Some 10; Some 30; Some 40; Some 50].
Proof.
  destruct (@ArrayList_removeAt_removes_one_value _ _ sampleList 1) as (Hin & _).
  - unfold ArrayList_wf. simpl. lia.
  - destruct Hin as (Hresult & Harray & _); [vm_compute; split; [discriminate|reflexivity]|].
    rewrite Hresult, Harray. split; reflexivity.
Defined.

(** X13.  [indexOf(value, comparer)] is the least index whose value the
    comparer matches, and [undefined] when it matches none.
    [remove(value, comparer)] returns the first value that matches and
    takes only that one out, keeping the order of the others; when
    nothing matches it returns [undefined] and the values stay. *)
Theorem ArrayList_remove_takes_out_the_first_match (T : Type) (undefinedT : Undefined T)
    (this : ArrayList T) (value : T) (comparer : T -> T -> bool) :
  ArrayList_wf this ->
  match ArrayList_indexOf this value comparer with
  | Some i =>
      0 <= i < ArrayList_getCount this
      /\ comparer (ArrayList_get this (ofZ i)) value = true
      /\ forall j, 0 <= j < i -> comparer (ArrayList_get this (ofZ j)) value = false
  | None =>
      forall found, In found (toArray (OfArrayList this)) -> comparer found value = false
  end
  /\ fst (ArrayList_remove this value comparer)
     = match find (fun x => comparer x value) (toArray (OfArrayList this)) with
       | Some found => found
       | None => undefined
       end
  /\ toArray (OfArrayList (snd (ArrayList_remove this value comparer)))
     = removeFirstMatch (fun x => comparer x value) (toArray (OfArrayList this))
  /\ (find (fun x => comparer x value) (toArray (OfArrayList this)) = None ->
      ArrayList_remove this value comparer = (undefined, this)).
Proof.
  intros Hwf. destruct (ArrayList_remove_contents value comparer Hwf) as [Hwf' Hc].
  pose proof (ArrayList_contents_length Hwf) as Hlen.
  rewrite (toArray_ArrayList Hwf'), (toArray_ArrayList Hwf), Hc,
    (ArrayList_remove_result value comparer Hwf).
  pose proof (@indexOf_loop_spec _ _ (_data this) value comparer (_count this) 0) as Hspec.
  split; [|split; [reflexivity|split; [reflexivity|]]].
  - unfold ArrayList_indexOf.
    destruct (indexOf_loop (_data this) value comparer 0 (_count this)) as [found|].
    + destruct Hspec as (j & -> & Hj & Hfound & Hbefore). unfold ArrayList_getCount.
      split; [lia|]. split.
      * rewrite (ArrayList_get_nth Hwf), Nat2Z.id, ArrayList_contents_nth by lia.
        exact Hfound.
      * intros k Hk.
        rewrite (ArrayList_get_nth Hwf), ArrayList_contents_nth by lia.
        apply Hbefore. lia.
    + intros found Hin. destruct (In_nth _ _ undefined Hin) as (k & Hk & <-).
      rewrite ArrayList_contents_nth by lia. apply Hspec. lia.
  - intros Hnone. unfold ArrayList_remove, ArrayList_indexOf.
    destruct (indexOf_loop (_data this) value comparer 0 (_count this)) as [found|];
      [|reflexivity].
    destruct Hspec as (j & -> & Hj & Hfound & Hbefore).
    rewrite (@find_first_match _ _ (fun x => comparer x value) (ArrayList_contents this) j)
      in Hnone; [discriminate| lia | |].
    + rewrite ArrayList_contents_nth by lia. exact Hfound.
    + intros k Hk. rewrite ArrayList_contents_nth by lia. apply Hbefore. lia.
Qed.

Lemma ArrayList_remove_takes_out_the_first_match_witness :
  let atLeast30 := fun a b : option Z =>
                     match a, b with Some x, Some y => y <=? x | _, _ => false end in
  fst (ArrayList_remove sampleList (Some 30) atLeast30) = Some 30
  /\ toArray (OfArrayList (snd (ArrayList_remove sampleList (Some 30) atLeast30)))
     = [Some 10; Some 20; Some 40; Some 50].
Proof.
  intros atLeast30.
  destruct (@ArrayList_remove_takes_out_the_first_match _ _ sampleList (Some 30) atLeast30)
    as (_ & Hresult & Harray & _).
  - unfold ArrayList_wf. simpl. lia.
  - rewrite Hresult, Harray. split; reflexivity.
Defined.

(** ** Stack and Queue *)

(** [Stack<T>]: the values, the top last. *)
Record Stack (T : Type) : Type := {
  stack_values : ArrayList T
}.

(** [Queue<T>]: the values, the oldest first. *)
Record Queue (T : Type) : Type := {
  queue_values : ArrayList T
}.

Section StackAndQueue.
Context {T : Type} `{Undefined T}.

Definition new_Stack : Stack T := Build_Stack new_ArrayList.

Definition Stack_any (this : Stack T) : bool :=
  Iterable_any (OfArrayList (stack_values this)) None.

Definition Stack_getCount (this : Stack T) : Z := ArrayList_getCount (stack_values this).

Definition Stack_contains (this : Stack T) (value : T) (comparison : T -> T -> bool) : bool :=
  Iterable_contains (OfArrayList (stack_values this)) value comparison.

(** [push(value)]: [this._values.add(value)] *)
Definition Stack_push (this : Stack T) (value : T) : Stack T :=
  Build_Stack (ArrayList_add (stack_values this) value).

(** [pop()]: [this._values.removeLast()] *)
Definition Stack_pop (this : Stack T) : T * Stack T :=
  let (result, values) := ArrayList_removeLast (stack_values this) in
  (result, Build_Stack values).

(** [peek()]: [this._values.last()] *)
Definition Stack_peek (this : Stack T) : T :=
  Iterable_last (OfArrayList (stack_values this)) None.

Definition new_Queue : Queue T := Build_Queue new_ArrayList.

Definition Queue_any (this : Queue T) : bool :=
  Iterable_any (OfArrayList (queue_values this)) None.

Definition Queue_getCount (this : Queue T) : Z := ArrayList_getCount (queue_values this).

Definition Queue_contains (this : Queue T) (value : T) (comparison : T -> T -> bool) : bool :=
  Iterable_contains (OfArrayList (queue_values this)) value comparison.

(** [enqueue(value)]: [this._values.add(value)] *)
Definition Queue_enqueue (this : Queue T) (value : T) : Queue T :=
  Build_Queue (ArrayList_add (queue_values this) value).

(** [dequeue()]: [this._values.removeFirst()] *)
Definition Queue_dequeue (this : Queue T) : T * Queue T :=
  let (result, values) := ArrayList_removeFirst (queue_values this) in
  (result, Build_Queue values).

(** The values on a stack, the top last, and in a queue, the oldest
    first. *)
Definition Stack_contents (this : Stack T) : list T := ArrayList_contents (stack_values this).
Definition Queue_contents (this : Queue T) : list T := ArrayList_contents (queue_values this).

(** Pushing values one after the other, and popping [n] times. *)
Definition Stack_pushAll (this : Stack T) (values : list T) : Stack T :=
  fold_left Stack_push values this.

Fixpoint Stack_popN (n : nat) (this : Stack T) : list T * Stack T :=
  match n with
  | O => ([], this)
  | S n' =>
      let (value, this1) := Stack_pop this in
      let (values, this2) := Stack_popN n' this1 in
      (value :: values, this2)
  end.

Definition Queue_enqueueAll (this : Queue T) (values : list T) : Queue T :=
  fold_left Queue_enqueue values this.

Fixpoint Queue_dequeueN (n : nat) (this : Queue T) : list T * Queue T :=
  match n with
  | O => ([], this)
  | S n' =>
      let (value, this1) := Queue_dequeue this in
      let (values, this2) := Queue_dequeueN n' this1 in
      (value :: values, this2)
  end.

Lemma Stack_push_contents (this : Stack T) (value : T) :
  ArrayList_wf (stack_values this) ->
  ArrayList_wf (stack_values (Stack_push this value))
  /\ Stack_contents (Stack_push this value) = Stack_contents this ++ [value].
Proof. intros Hwf. apply (ArrayList_add_contents value Hwf). Qed.

Lemma Stack_pushAll_contents (values : list T) : forall this : Stack T,
  ArrayList_wf (stack_values this) ->
  ArrayList_wf (stack_values (Stack_pushAll this values))
  /\ Stack_contents (Stack_pushAll this values) = Stack_contents this ++ values.
Proof.
  induction values as [|v values IH]; intros this Hwf; cbn [Stack_pushAll fold_left].
  - now rewrite app_nil_r.
  - destruct (Stack_push_contents v Hwf) as [Hwf' Hc].
    destruct (IH _ Hwf') as [Hwf'' Hc'']. split; [exact Hwf''|].
    unfold Stack_pushAll in Hc''. rewrite Hc'', Hc, <- app_assoc. reflexivity.
Qed.

Lemma last_nth (values : list T) (d : T) :
  last values d = nth (length values - 1) values d.
Proof.
  induction values as [|v values IH] using rev_ind; [reflexivity|].
  rewrite last_last, length_app, app_nth2 by (simpl; lia).
  simpl. replace (length values + 1 - 1 - length values)%nat with 0%nat by lia.
  reflexivity.
Qed.

Lemma removeAt_last_contents (values : ArrayList T) :
  ArrayList_wf values ->
  ArrayList_wf (snd (ArrayList_removeLast values))
  /\ fst (ArrayList_removeLast values) = last (ArrayList_contents values) undefined
  /\ ArrayList_contents (snd (ArrayList_removeLast values))
     = removelast (ArrayList_contents values).
Proof.
  intros Hwf. pose proof (ArrayList_contents_length Hwf) as Hlen.
  unfold ArrayList_removeLast. destruct (Nat.eq_dec (_count values) 0) as [Hzero|Hpos].
  - unfold ArrayList_removeAt, ArrayList_getCount. rewrite Hzero. cbn [Z.of_nat].
    cbn [Z.sub Z.opp Z.add Z.leb Z.compare andb snd fst].
    destruct (ArrayList_contents values); [|simpl in Hlen; lia].
    split; [exact Hwf|]. split; reflexivity.
  - replace (ArrayList_getCount values - 1) with (Z.of_nat (_count values - 1))
      by (unfold ArrayList_getCount; lia).
    destruct (@ArrayList_removeAt_contents _ _ values (_count values - 1) Hwf ltac:(lia))
      as [Hwf' Hc].
    split; [exact Hwf'|]. split.
    + unfold ArrayList_removeAt, ArrayList_getCount.
      destruct (Z.leb_spec 0 (Z.of_nat (_count values - 1))); [|lia].
      destruct (Z.ltb_spec (Z.of_nat (_count values - 1)) (Z.of_nat (_count values)));
        [|lia].
      cbn [andb fst]. rewrite Nat2Z.id, <- ArrayList_contents_nth by lia.
      rewrite <- Hlen. symmetry. apply last_nth.
    + rewrite Hc.
      replace (S (_count values - 1)) with (length (ArrayList_contents values)) by lia.
      rewrite skipn_all, app_nil_r, removelast_firstn_len. f_equal. lia.
Qed.

Lemma removeAt_first_contents (values : ArrayList T) :
  ArrayList_wf values ->
  ArrayList_wf (snd (ArrayList_removeFirst values))
  /\ fst (ArrayList_removeFirst values) = hd undefined (ArrayList_contents values)
  /\ ArrayList_contents (snd (ArrayList_removeFirst values))
     = tl (ArrayList_contents values).
Proof.
  intros Hwf. pose proof (ArrayList_contents_length Hwf) as Hlen.
  unfold ArrayList_removeFirst. destruct (Nat.eq_dec (_count values) 0) as [Hzero|Hpos].
  - unfold ArrayList_removeAt, ArrayList_getCount. rewrite Hzero. cbn [Z.of_nat].
    cbn [Z.leb Z.ltb Z.compare andb snd fst].
    destruct (ArrayList_contents values); [|simpl in Hlen; lia].
    split; [exact Hwf|]. split; reflexivity.
  - destruct (@ArrayList_removeAt_contents _ _ values 0 Hwf ltac:(lia)) as [Hwf' Hc].
    cbn [Z.of_nat] in *. split; [exact Hwf'|]. split.
    + unfold ArrayList_removeAt, ArrayList_getCount.
      destruct (Z.ltb_spec 0 (Z.of_nat (_count values))); [|lia].
      cbn [Z.leb Z.compare andb fst Z.to_nat].
      rewrite <- ArrayList_contents_nth by lia.
      destruct (ArrayList_contents values); reflexivity.
    + rewrite Hc. cbn [firstn app]. destruct (ArrayList_contents values); reflexivity.
Qed.
End StackAndQueue.

Section StackAndQueueFacts.
Context {T : Type} `{Undefined T}.

Lemma Stack_pop_contents (this : Stack T) :
  ArrayList_wf (stack_values this) ->
  ArrayList_wf (stack_values (snd (Stack_pop this)))
  /\ fst (Stack_pop this) = last (Stack_contents this) undefined
  /\ Stack_contents (snd (Stack_pop this)) = removelast (Stack_contents this).
Proof.
  intros Hwf. destruct (removeAt_last_contents Hwf) as (Hwf' & Hresult & Hc).
  unfold Stack_pop, Stack_contents.
  destruct (ArrayList_removeLast (stack_values this)) as [result values]. auto.
Qed.

Lemma Stack_popN_contents (values : list T) : forall (this : Stack T) (below : list T),
  ArrayList_wf (stack_values this) ->
  Stack_contents this = below ++ values ->
  ArrayList_wf (stack_values (snd (Stack_popN (length values) this)))
  /\ fst (Stack_popN (length values) this) = rev values
  /\ Stack_contents (snd (Stack_popN (length values) this)) = below.
Proof.
  induction values as [|v values IH] using rev_ind; intros this below Hwf Hc.
  - rewrite app_nil_r in Hc. simpl. auto.
  - rewrite length_app, Nat.add_comm. cbn [length Nat.add Stack_popN].
    destruct (Stack_pop_contents Hwf) as (Hwf' & Hresult & Hc').
    destruct (Stack_pop this) as [value this1]. cbn [fst snd] in *.
    rewrite Hc, app_assoc in Hresult, Hc'.
    rewrite last_last in Hresult. rewrite removelast_last in Hc'.
    destruct (IH this1 below Hwf' Hc') as (Hwf'' & Hvalues & Hbelow).
    destruct (Stack_popN (length values) this1) as [popped this2]. cbn [fst snd] in *.
    rewrite rev_app_distr. simpl. subst. auto.
Qed.

Lemma Queue_dequeue_contents (this : Queue T) :
  ArrayList_wf (queue_values this) ->
  ArrayList_wf (queue_values (snd (Queue_dequeue this)))
  /\ fst (Queue_dequeue this) = hd undefined (Queue_contents this)
  /\ Queue_contents (snd (Queue_dequeue this)) = tl (Queue_contents this).
Proof.
  intros Hwf. destruct (removeAt_first_contents Hwf) as (Hwf' & Hresult & Hc).
  unfold Queue_dequeue, Queue_contents.
  destruct (ArrayList_removeFirst (queue_values this)) as [result values]. auto.
Qed.

Lemma Queue_enqueueAll_contents (values : list T) : forall this : Queue T,
  ArrayList_wf (queue_values this) ->
  ArrayList_wf (queue_values (Queue_enqueueAll this values))
  /\ Queue_contents (Queue_enqueueAll this values) = Queue_contents this ++ values.
Proof.
  induction values as [|v values IH]; intros this Hwf; cbn [Queue_enqueueAll fold_left].
  - now rewrite app_nil_r.
  - destruct (ArrayList_add_contents v Hwf) as [Hwf' Hc].
    destruct (IH (Queue_enqueue this v) Hwf') as [Hwf'' Hc'']. split; [exact Hwf''|].
    unfold Queue_enqueueAll in Hc''. rewrite Hc''. unfold Queue_contents at 1.
    cbn [Queue_enqueue queue_values]. rewrite Hc, <- app_assoc. reflexivity.
Qed.

Lemma Queue_dequeueN_contents (values : list T) : forall this : Queue T,
  ArrayList_wf (queue_values this) ->
  Queue_contents this = values ->
  fst (Queue_dequeueN (length values) this) = values
  /\ Queue_contents (snd (Queue_dequeueN (length values) this)) = []
  /\ ArrayList_wf (queue_values (snd (Queue_dequeueN (length values) this))).
Proof.
  induction values as [|v values IH]; intros this Hwf Hc.
  - simpl. auto.
  - cbn [length Queue_dequeueN].
    destruct (Queue_dequeue_contents Hwf) as (Hwf' & Hresult & Hc').
    destruct (Queue_dequeue this) as [value this1]. cbn [fst snd] in *.
    rewrite Hc in Hresult, Hc'. cbn [hd tl] in *.
    destruct (IH this1 Hwf' Hc') as (Hvalues & Hempty & Hwf'').
    destruct (Queue_dequeueN (length values) this1) as [taken this2]. cbn [fst snd] in *.
    subst. auto.
Qed.
End StackAndQueueFacts.

(** X14.  A stack gives back last what was pushed first: [pop()] returns
    the value pushed last and leaves the values below it, [peek()]
    returns it and removes nothing, and popping as often as values were
    pushed returns them in the opposite order and leaves what was there
    before.  On an empty stack [pop()] and [peek()] return [undefined]
    and the stack stays empty. *)
Theorem Stack_is_last_in_first_out (T : Type) (undefinedT : Undefined T)
    (this : Stack T) (value : T) (values : list T) :
  ArrayList_wf (stack_values this) ->
  fst (Stack_pop (Stack_push this value)) = value
  /\ Stack_contents (snd (Stack_pop (Stack_push this value))) = Stack_contents this
  /\ Stack_peek (Stack_push this value) = value
  /\ Stack_getCount (Stack_push this value) = Stack_getCount this + 1
  /\ fst (Stack_popN (length values) (Stack_pushAll this values)) = rev values
  /\ Stack_contents (snd (Stack_popN (length values) (Stack_pushAll this values)))
     = Stack_contents this
  /\ (Stack_getCount this = 0 ->
      Stack_pop this = (undefined, this) /\ Stack_peek this = undefined
      /\ Stack_any this = false).
Proof.
  intros Hwf.
  destruct (Stack_push_contents value Hwf) as [Hwf1 Hc1].
  destruct (Stack_pop_contents Hwf1) as (_ & Hresult & Hc2).
  destruct (Stack_pushAll_contents values Hwf) as [Hwf3 Hc3].
  destruct (Stack_popN_contents Hwf3 Hc3) as (_ & Hpopped & Hbelow).
  assert (Hpeek : forall stack : Stack T, ArrayList_wf (stack_values stack) ->
            Stack_peek stack = last (Stack_contents stack) undefined).
  { intros stack Hstack. unfold Stack_peek.
    rewrite (@Iterable_last_elements _ _ (OfArrayList (stack_values stack)) None);
      [reflexivity|]. apply Nat.leb_le. exact Hstack. }
  rewrite Hresult, Hc2, (Hpeek _ Hwf1), Hc1, last_last, removelast_last.
  repeat (split; [reflexivity || assumption|]).
  split; [unfold Stack_getCount, ArrayList_getCount; simpl; lia|].
  split; [exact Hpopped|]. split; [exact Hbelow|].
  intros Hzero. unfold Stack_getCount in Hzero.
  pose proof (ArrayList_contents_length Hwf) as Hlen.
  assert (Hempty : Stack_contents this = []).
  { unfold Stack_contents. destruct (ArrayList_contents (stack_values this)); [reflexivity|].
    unfold ArrayList_getCount in Hzero. simpl in Hlen. lia. }
  split; [|split].
  - unfold Stack_pop, ArrayList_removeLast, ArrayList_removeAt. rewrite Hzero.
    cbn [Z.sub Z.opp Z.add Z.leb Z.compare andb].
    destruct this; reflexivity.
  - rewrite (Hpeek _ Hwf), Hempty. reflexivity.
  - unfold Stack_any, Iterable_any. rewrite Hzero. reflexivity.
Qed.

Lemma Stack_is_last_in_first_out_witness :
  fst (Stack_popN 3 (Stack_pushAll (Build_Stack sampleList) [Some 1; Some 2; Some 3]))
  = [Some 3; Some 2; Some 1]
  /\ Stack_peek (Stack_push (Build_Stack sampleList) (Some 60)) = Some 60.
Proof.
  destruct (@Stack_is_last_in_first_out _ _ (Build_Stack sampleList) (Some 60)
              [Some 1; Some 2; Some 3]) as (_ & _ & Hpeek & _ & Hpopped & _).
  - unfold ArrayList_wf. simpl. lia.
  - split; [exact Hpopped|exact Hpeek].
Defined.

(** X15.  A queue gives back first what was put in first: [enqueue] puts
    the value behind the others, [dequeue()] returns the oldest value
    and leaves the others in their order, and taking out as many values
    as were put into a new queue returns them in the order they were put
    in and leaves the queue empty.  On an empty queue [dequeue()] returns
    [undefined] and the queue stays empty. *)
Theorem Queue_is_first_in_first_out (T : Type) (undefinedT : Undefined T)
    (this : Queue T) (value : T) (values : list T) :
  ArrayList_wf (queue_values this) ->
  Queue_contents (Queue_enqueue this value) = Queue_contents this ++ [value]
  /\ Queue_getCount (Queue_enqueue this value) = Queue_getCount this + 1
  /\ fst (Queue_dequeue this) = hd undefined (Queue_contents this)
  /\ Queue_contents (snd (Queue_dequeue this)) = tl (Queue_contents this)
  /\ fst (Queue_dequeueN (length (Queue_contents this ++ values))
            (Queue_enqueueAll this values))
     = Queue_contents this ++ values
  /\ fst (Queue_dequeueN (length values) (Queue_enqueueAll new_Queue values)) = values
  /\ Queue_getCount (snd (Queue_dequeueN (length values) (Queue_enqueueAll new_Queue values)))
     = 0
  /\ (Queue_getCount this = 0 ->
      Queue_dequeue this = (undefined, this) /\ Queue_any this = false).
Proof.
  intros Hwf.
  destruct (ArrayList_add_contents value Hwf) as [_ Hc1].
  destruct (Queue_dequeue_contents Hwf) as (_ & Hresult & Hc2).
  destruct (Queue_enqueueAll_contents values Hwf) as [Hwf3 Hc3].
  destruct (Queue_dequeueN_contents Hwf3 Hc3) as (Htaken & _ & _).
  assert (Hnew : ArrayList_wf (queue_values (@new_Queue T)))
    by (unfold ArrayList_wf; simpl; lia).
  destruct (Queue_enqueueAll_contents values Hnew) as [Hwf4 Hc4].
  cbn [app] in Hc4. change (Queue_contents new_Queue) with (@nil T) in Hc4.
  cbn [app] in Hc4.
  destruct (Queue_dequeueN_contents Hwf4 Hc4) as (Htaken' & Hempty' & Hwf5).
  split; [exact Hc1|].
  split; [unfold Queue_getCount, ArrayList_getCount; simpl; lia|].
  split; [exact Hresult|]. split; [exact Hc2|]. split; [exact Htaken|].
  split; [exact Htaken'|]. split.
  - unfold Queue_getCount, ArrayList_getCount.
    rewrite <- (ArrayList_contents_length Hwf5).
    unfold Queue_contents in Hempty'. rewrite Hempty'. reflexivity.
  - intros Hzero. unfold Queue_getCount in Hzero. split.
    + unfold Queue_dequeue, ArrayList_removeFirst, ArrayList_removeAt. rewrite Hzero.
      cbn [Z.leb Z.ltb Z.compare andb]. destruct this; reflexivity.
    + unfold Queue_any, Iterable_any. rewrite Hzero. reflexivity.
Qed.

Lemma Queue_is_first_in_first_out_witness :
  fst (Queue_dequeue (Queue_enqueue (Build_Queue sampleList) (Some 60))) = Some 10
  /\ Queue_contents (snd (Queue_dequeue (Build_Queue sampleList)))
     = [Some 20; Some 30; Some 40; Some 50].
Proof.
  destruct (@Queue_is_first_in_first_out _ _ (Queue_enqueue (Build_Queue sampleList) (Some 60))
              None []) as (_ & _ & Hfirst & _).
  - unfold ArrayList_wf. simpl. lia.
  - destruct (@Queue_is_first_in_first_out _ _ (Build_Queue sampleList) None [])
      as (_ & _ & _ & Hrest & _).
    + unfold ArrayList_wf. simpl. lia.
    + rewrite Hfirst, Hrest. split; reflexivity.
Defined.

(** ** Map: looking up *)

Section MapLookup.
Context {K V : Type} `{Undefined V}.
Context (key_eq_dec : forall a b : K, {a = b} + {a <> b}).

(** [Map.contains(key)]: [this._pairs.any((pair) => pair.key === key)] *)
Definition Map_contains (this : Map K V) (k : K) : bool :=
  Iterable_any (OfArrayList (_pairs this)) (Some (hasKey key_eq_dec k)).

Lemma Map_contains_entries (this : Map K V) (k : K) :
  Map_wf this ->
  Map_contains this k = existsb (hasKey key_eq_dec k) (Map_entries this).
Proof.
  intros [Hwf _]. unfold Map_contains.
  rewrite (@Iterable_any_elements _ _ (OfArrayList (_pairs this))); [reflexivity|].
  apply Nat.leb_le. exact Hwf.
Qed.

Lemma hasKey_other (k k' : K) (entries : list (option (KeyValuePair K V))) :
  k' <> k ->
  filter (hasKey key_eq_dec k') (otherKeys key_eq_dec k entries)
  = filter (hasKey key_eq_dec k') entries.
Proof.
  intros Hne. unfold otherKeys.
  induction entries as [|[p|] entries IH]; simpl; auto.
  destruct (key_eqb key_eq_dec (pair_key p) k) eqn:Hk; simpl.
  - apply key_eqb_eq in Hk.
    destruct (key_eqb key_eq_dec (pair_key p) k') eqn:Hk'; [|exact IH].
    apply key_eqb_eq in Hk'. congruence.
  - now rewrite IH.
Qed.

Lemma existsb_filter_nil (A : Type) (test : A -> bool) (values : list A) :
  existsb test values = negb (match filter test values with [] => true | _ => false end).
Proof.
  induction values as [|v values IH]; simpl; [reflexivity|].
  destruct (test v); simpl; auto.
Qed.

Lemma otherKeys_length (k : K) (pairs : list (KeyValuePair K V)) :
  NoDup (map (@pair_key K V) pairs) ->
  length (map Some pairs)
  = (length (otherKeys key_eq_dec k (map Some pairs))
     + if existsb (hasKey key_eq_dec k) (map Some pairs) then 1 else 0)%nat.
Proof.
  induction pairs as [|p pairs IH]; intros Hnodup; simpl; [reflexivity|].
  inversion Hnodup as [|? ? Hnotin Hrest]; subst.
  destruct (key_eqb key_eq_dec (pair_key p) k) eqn:Hk; simpl.
  - apply key_eqb_eq in Hk. subst k.
    rewrite (otherKeys_all key_eq_dec Hnotin). lia.
  - rewrite (IH Hrest). lia.
Qed.
End MapLookup.

(** X16.  On every map the constructor and [add] build, [get] after
    [add(k, v)] returns [v] for [k] and what it returned before for every
    other key, and [contains] answers true for [k] and as before for the
    others; [get] of a key the map does not contain is [undefined];
    [add] raises the count by one when the key is new and leaves it when
    the key was there; a map constructed without pairs contains no key.
    Keys are compared with [===], read as a decidable equality. *)
Theorem Map_get_after_add (K V : Type) (undefinedV : Undefined V)
    (key_eq_dec : forall a b : K, {a = b} + {a <> b})
    (initialValues : option (list (KeyValuePair K V))) (k k' : K) (v : V) :
  let m := new_Map key_eq_dec initialValues in
  Map_get key_eq_dec (Map_add key_eq_dec m k v) k'
  = (if key_eq_dec k' k then v else Map_get key_eq_dec m k')
  /\ Map_contains key_eq_dec (Map_add key_eq_dec m k v) k'
     = (if key_eq_dec k' k then true else Map_contains key_eq_dec m k')
  /\ (Map_contains key_eq_dec m k' = false -> Map_get key_eq_dec m k' = undefined)
  /\ Map_getCount (Map_add key_eq_dec m k v)
     = Map_getCount m + (if Map_contains key_eq_dec m k then 0 else 1)
  /\ Map_contains key_eq_dec (new_Map key_eq_dec None : Map K V) k' = false
  /\ Map_get key_eq_dec (new_Map key_eq_dec None) k' = undefined
  /\ Map_getCount (new_Map key_eq_dec None : Map K V) = 0.
Proof.
  intros m. pose proof (new_Map_wf key_eq_dec initialValues) as Hwf. fold m in Hwf.
  destruct (Map_add_entries key_eq_dec k v Hwf) as [Hwf' Hentries].
  rewrite (Map_get_entries key_eq_dec k' Hwf'), (Map_get_entries key_eq_dec k' Hwf),
    (Map_contains_entries key_eq_dec k' Hwf'), !(Map_contains_entries key_eq_dec _ Hwf),
    !existsb_filter_nil, Hentries, filter_app.
  split; [|split; [|split; [|split]]].
  - destruct (key_eq_dec k' k) as [->|Hne].
    + rewrite hasKey_otherKeys. simpl. now rewrite key_eqb_refl.
    + rewrite (hasKey_other key_eq_dec _ Hne). simpl.
      destruct (key_eqb key_eq_dec k k') eqn:Hk; [apply key_eqb_eq in Hk; congruence|].
      now rewrite app_nil_r.
  - destruct (key_eq_dec k' k) as [->|Hne].
    + rewrite hasKey_otherKeys. simpl. now rewrite key_eqb_refl.
    + rewrite (hasKey_other key_eq_dec _ Hne). simpl.
      destruct (key_eqb key_eq_dec k k') eqn:Hk; [apply key_eqb_eq in Hk; congruence|].
      now rewrite app_nil_r.
  - destruct (filter (hasKey key_eq_dec k') (Map_entries m)); [reflexivity|discriminate].
  - destruct (Map_add_get key_eq_dec k v Hwf) as (_ & Hcount & _). rewrite Hcount.
    destruct Hwf as [Hlist (pairs & Hpairs & Hnodup)].
    unfold Map_getCount, ArrayList_getCount.
    rewrite <- (ArrayList_contents_length Hlist). fold (Map_entries m).
    rewrite Hpairs, (otherKeys_length key_eq_dec k Hnodup), <- existsb_filter_nil.
    destruct (existsb (hasKey key_eq_dec k) (map Some pairs)); lia.
  - split; [reflexivity|]. split; reflexivity.
Qed.

(** ** The characters a StringIterator yields *)

Lemma list_ascii_of_string_append (a b : string) :
  list_ascii_of_string (a ++ b) = list_ascii_of_string a ++ list_ascii_of_string b.
Proof. induction a as [|c a IH]; simpl; [reflexivity|]. now rewrite IH. Qed.

Lemma charAt_get (s : string) (p : nat) : charAt (Some s) (Z.of_nat p) = String.get p s.
Proof.
  unfold charAt. destruct (Z.ltb_spec (Z.of_nat p) 0); [lia|]. now rewrite Nat2Z.id.
Qed.

Lemma charsFrom_forward (s : string) (count : nat) : forall p : nat,
  (p + count <= String.length s)%nat ->
  charsFrom (Some s) (Z.of_nat p) 1 count
  = map Some (list_ascii_of_string (substring p count s)).
Proof.
  induction count as [|count IH]; intros p Hp; cbn [charsFrom].
  - now rewrite substring_empty.
  - destruct (@get_inside s p ltac:(lia)) as [c Hc].
    rewrite charAt_get, Hc.
    replace (Z.of_nat p + 1) with (Z.of_nat (S p)) by lia.
    rewrite IH by lia.
    change (S count) with (1 + count)%nat.
    rewrite <- substring_split, (substring_one Hc), Nat.add_1_r. reflexivity.
Qed.

Lemma charsFrom_backward (s : string) (count : nat) : forall p : nat,
  (count <= S p)%nat -> (p < String.length s)%nat ->
  charsFrom (Some s) (Z.of_nat p) (-1) count
  = rev (map Some (list_ascii_of_string (substring (S p - count) count s))).
Proof.
  induction count as [|count IH]; intros p Hcount Hp; cbn [charsFrom].
  - now rewrite substring_empty.
  - destruct (@get_inside s p Hp) as [c Hc].
    rewrite charAt_get, Hc.
    rewrite <- (@substring_snoc s (S p - S count) count c)
      by (replace (S p - S count + count)%nat with p by lia; exact Hc).
    rewrite list_ascii_of_string_append, map_app, rev_app_distr.
    cbn [rev map app list_ascii_of_string].
    f_equal. destruct count as [|count]; [now rewrite substring_empty|].
    replace (Z.of_nat p + -1) with (Z.of_nat (p - 1)) by lia.
    rewrite IH by lia.
    replace (S (p - 1) - S count)%nat with (S p - S (S count))%nat by lia. reflexivity.
Qed.

(** X17.  A [StringIterator] from [startIndex] up to [endIndex] yields
    the characters of the text from the first index to just before the
    second, in order.  The forward iterator of a [StringIterable] yields
    all characters of the text and the reverse iterator yields them last
    first; for an absent or empty text both yield nothing. *)
Theorem StringIterator_yields_the_characters (text : option string) (s : string)
    (startIndex endIndex : nat) :
  (startIndex <= endIndex <= String.length s)%nat ->
  fst (IteratorBase_toArray
         (new_StringIterator (Some s) (Some (Z.of_nat startIndex)) (Some (Z.of_nat endIndex))))
  = map Some (list_ascii_of_string (substring startIndex (endIndex - startIndex) s))
  /\ fst (IteratorBase_toArray (StringIterable_iterate text))
     = map Some (list_ascii_of_string (textOf text))
  /\ fst (IteratorBase_toArray (StringIterable_iterateReverse text))
     = rev (map Some (list_ascii_of_string (textOf text))).
Proof.
  intros Hrange.
  assert (Hdrain : forall t a b,
            fst (IteratorBase_toArray (new_StringIterator t a b))
            = StringIterator_values (new_StringIterator t a b)).
  { intros t a b. destruct (toArray_spec (new_StringIterator_models t a b)) as (it & -> & _).
    reflexivity. }
  unfold StringIterable_iterate, StringIterable_iterateReverse. rewrite !Hdrain.
  unfold StringIterator_values, StringIterator_left, new_StringIterator.
  cbn [_text _currentIndex _step _endIndex].
  split; [|split].
  - destruct (Z.geb_spec (Z.of_nat endIndex) (Z.of_nat startIndex)); [|lia].
    change (1 >? 0) with true. cbv iota.
    replace (Z.to_nat (Z.of_nat endIndex - Z.of_nat startIndex))
      with (endIndex - startIndex)%nat by lia.
    apply charsFrom_forward. lia.
  - pose proof (@getLength_nonneg text).
    destruct (Z.geb_spec (getLength text) 0); [|lia].
    change (1 >? 0) with true. cbv iota. rewrite Z.sub_0_r.
    destruct text as [t|]; [|reflexivity]. cbn [getLength textOf].
    rewrite Nat2Z.id. change 0 with (Z.of_nat 0).
    rewrite charsFrom_forward by lia. now rewrite substring_all.
  - destruct text as [t|]; [|reflexivity]. cbn [getLength textOf].
    destruct (Nat.eq_dec (String.length t) 0) as [Hzero|Hpos].
    + destruct t; [reflexivity|discriminate].
    + destruct (Z.geb_spec (-1) (Z.of_nat (String.length t) - 1)); [lia|].
      change (-1 >? 0) with false. cbv iota.
      replace (Z.of_nat (String.length t) - 1) with (Z.of_nat (String.length t - 1)) by lia.
      replace (Z.to_nat (Z.of_nat (String.length t - 1) - -1)) with (String.length t) by lia.
      rewrite charsFrom_backward by lia.
      replace (S (String.length t - 1) - String.length t)%nat with 0%nat by lia.
      now rewrite substring_all.
Qed.

Lemma StringIterator_yields_the_characters_witness :
  fst (IteratorBase_toArray (new_StringIterator (Some "abcd"%string) (Some 1) (Some 3)))
  = [Some "b"%char; Some "c"%char].
Proof.
  destruct (@StringIterator_yields_the_characters None "abcd"%string 1 3) as (Hrange & _).
  - simpl. lia.
  - exact Hrange.
Defined.

(** ** Spans of lexes *)

(** [Lex.getLength()]: [this._text.length]; the lexer gives every lex a
    text, and the length of an undefined one, a TypeError in the source,
    reads as 0. *)
Definition Lex_getLength (this : Lex) : Z := getLength (lex_text this).

(** [get afterEndIndex()] and [get span()] of a lex. *)
Definition Lex_afterEndIndex (this : Lex) : Z :=
  integer_add (lex_startIndex this) (Lex_getLength this).

Definition Lex_span (this : Lex) : Span := Build_Span (lex_startIndex this) (Lex_getLength this).

(** The interfaces [HasStartIndex], [HasAfterEndIndex] and
    [HasGetLength]. *)
Class HasStartIndex (A : Type) : Type := startIndexOf : A -> Z.
Class HasAfterEndIndex (A : Type) : Type := afterEndIndexOf : A -> Z.
Class HasGetLength (A : Type) : Type := lengthOf : A -> Z.

#[global] Instance Lex_HasStartIndex : HasStartIndex Lex := lex_startIndex.
#[global] Instance Lex_HasAfterEndIndex : HasAfterEndIndex Lex := Lex_afterEndIndex.
#[global] Instance Lex_HasGetLength : HasGetLength Lex := Lex_getLength.
#[global] Instance Span_HasStartIndex : HasStartIndex Span := span_startIndex.
#[global] Instance Span_HasAfterEndIndex : HasAfterEndIndex Span := Span_afterEndIndex.

Section Aggregates.
Context {A : Type} `{HasStartIndex A} `{HasAfterEndIndex A} `{HasGetLength A}.

(** [getStartIndex(values)], for an array of values or nothing. *)
Definition getStartIndex (values : option (list A)) : option Z :=
  match values with
  | Some (first :: _) => Some (startIndexOf first)
  | _ => None
  end.

(** [getAfterEndIndex(values)] *)
Definition getAfterEndIndex (values : option (list A)) : option Z :=
  match values with
  | Some (first :: rest) => Some (afterEndIndexOf (last rest first))
  | _ => None
  end.

(** [getSpan(values)] *)
Definition getSpan (values : option (list A)) : option Span :=
  match values with
  | Some (first :: rest) =>
      let startIndex := startIndexOf first in
      let afterEndIndex := afterEndIndexOf (last rest first) in
      Some (Build_Span startIndex (integer_sub afterEndIndex startIndex))
  | _ => None
  end.

(** [getCombinedLength(values)] *)
Definition getCombinedLength (values : option (list A)) : Z :=
  match values with
  | Some vs => fold_left (fun result value => integer_add result (lengthOf value)) vs 0
  | None => 0
  end.

(** [getContiguousLength(values)] *)
Definition getContiguousLength (values : option (list A)) : Z :=
  match values with
  | Some (first :: rest) => integer_sub (afterEndIndexOf (last rest first)) (startIndexOf first)
  | _ => 0
  end.
End Aggregates.

(** Lexes that follow each other from [startIndex] on: each starts where
    the one before it ends, and none is empty. *)
Fixpoint contiguousFrom (startIndex : Z) (lexes : list Lex) : Prop :=
  match lexes with
  | [] => True
  | lex :: rest =>
      lex_startIndex lex = startIndex
      /\ 0 < Lex_getLength lex
      /\ contiguousFrom (Lex_afterEndIndex lex) rest
  end.

Lemma substring_length (s : string) : forall n m : nat,
  (n + m <= String.length s)%nat -> String.length (substring n m s) = m.
Proof.
  induction s as [|c s IH]; intros n m Hlen; simpl in *.
  - destruct n, m; simpl; lia.
  - destruct n as [|n].
    + destruct m as [|m]; simpl; [reflexivity|]. f_equal. apply (IH 0%nat). lia.
    + apply IH. lia.
Qed.

(** The lengths of lexes, added up. *)
Definition totalLength (lexes : list Lex) : Z :=
  fold_right (fun lex total => Lex_getLength lex + total) 0 lexes.

Lemma totalLength_nonneg (lexes : list Lex) : 0 <= totalLength lexes.
Proof.
  induction lexes as [|lex lexes IH]; cbn [totalLength fold_right]; [lia|].
  fold (totalLength lexes).
  pose proof (@getLength_nonneg (lex_text lex)). unfold Lex_getLength. lia.
Qed.

Lemma fold_left_lengths (lexes : list Lex) : forall acc : Z,
  0 <= acc -> acc + totalLength lexes <= 2 ^ 53 ->
  fold_left (fun result value => integer_add result (lengthOf value)) lexes acc
  = acc + totalLength lexes.
Proof.
  induction lexes as [|lex lexes IH]; intros acc Hacc Hsum;
    cbn [fold_left totalLength fold_right] in *; [lia|].
  fold (totalLength lexes) in *.
  pose proof (@totalLength_nonneg lexes) as Hrest.
  pose proof (@getLength_nonneg (lex_text lex)) as Hlex.
  unfold lengthOf, Lex_HasGetLength, Lex_getLength in *.
  rewrite integer_add_exact by (unfold exactInteger; lia).
  rewrite IH by lia. lia.
Qed.

Lemma contiguousFrom_last (lexes : list Lex) : forall (startIndex : Z) (first : Lex),
  lex_startIndex first = startIndex ->
  contiguousFrom (Lex_afterEndIndex first) lexes ->
  - 2 ^ 53 <= startIndex ->
  startIndex + Lex_getLength first + totalLength lexes <= 2 ^ 53 ->
  Lex_afterEndIndex (last lexes first)
  = startIndex + Lex_getLength first + totalLength lexes.
Proof.
  induction lexes as [|lex lexes IH]; intros startIndex first Hstart Hc Hlow Hhigh.
  - cbn [last totalLength fold_right] in *. unfold Lex_afterEndIndex. rewrite Hstart.
    pose proof (@getLength_nonneg (lex_text first)). unfold Lex_getLength in *.
    rewrite integer_add_exact by (unfold exactInteger; lia). lia.
  - destruct Hc as (Hlex & Hpositive & Hrest).
    pose proof (@totalLength_nonneg lexes) as Htotal.
    pose proof (@getLength_nonneg (lex_text first)) as Hfirst.
    cbn [totalLength fold_right] in Hhigh. fold (totalLength lexes) in Hhigh.
    assert (Hafter : Lex_afterEndIndex first = startIndex + Lex_getLength first).
    { unfold Lex_afterEndIndex. rewrite Hstart. unfold Lex_getLength in *.
      apply integer_add_exact. unfold exactInteger. lia. }
    rewrite Hafter in Hlex.
    rewrite (last_cons lex first lexes).
    rewrite (IH _ lex Hlex Hrest); unfold Lex_getLength in *; [|lia|lia].
    cbn [totalLength fold_right]. fold (totalLength lexes). unfold Lex_getLength. lia.
Qed.

(** The lexes from position [p] on follow each other from [p] (shifted by
    the start index of the lexer) to the end of the text, as long as the
    indexes stay among the integers where the sums are exact. *)
Lemma Lexer_rest_contiguous (text : option string) (offset : Z) (fuel : nat) :
  - 2 ^ 53 <= offset -> offset + getLength text <= 2 ^ 53 ->
  forall (p : Z) (started_ : bool) (lex0 : option Lex),
  0 <= p <= getLength text ->
  (Z.to_nat (getLength text - p) < fuel)%nat ->
  exists lexes,
    Lexer_rest fuel (lexer_at text offset started_ p lex0) = map Some lexes
    /\ contiguousFrom (p + offset) lexes
    /\ totalLength lexes = getLength text - p.
Proof.
  intros Hlow Hhigh.
  induction fuel as [|fuel IH]; intros p started_ lex0 Hp Hfuel; [lia|].
  cbn [Lexer_rest].
  destruct (@Lexer_next_at text offset p started_ lex0 Hp) as [Hin Hend].
  destruct (Z.eq_dec p (getLength text)) as [Heq|Hne].
  - rewrite (Hend Heq). exists []. simpl. repeat split. lia.
  - destruct Hin as (lex & q & s & -> & -> & Hq & _ & Htext & Hstart); [lia|].
    destruct (IH q true (Some lex)) as (lexes & -> & Hcontiguous & Hsum); [lia|lia|].
    rewrite integer_add_exact in Hstart by (unfold exactInteger; lia).
    assert (Hlength : Lex_getLength lex = q - p).
    { unfold Lex_getLength. rewrite Htext. cbn [getLength] in *.
      rewrite substring_length by lia. lia. }
    exists (lex :: lexes). split; [reflexivity|]. split.
    + cbn [contiguousFrom]. split; [exact Hstart|]. split; [lia|].
      unfold Lex_afterEndIndex. rewrite Hstart, Hlength.
      rewrite integer_add_exact by (unfold exactInteger; lia).
      replace (p + offset + (q - p)) with (q + offset) by lia. exact Hcontiguous.
    + cbn [totalLength fold_right]. fold (totalLength lexes). rewrite Hsum, Hlength. lia.
Qed.

(** X18.  The lexes of a text follow each other without gap or overlap,
    as long as the start index given to the lexer (0 when none is given),
    the length of the text and their sum are integers where the
    arithmetic of numbers is exact (a magnitude of at most 2^53): the
    first lex starts at the start index, each next one starts where the
    one before it ends, none is empty, and the last ends at the start
    index plus the length of the text.  So for the lexes of a text that
    is not empty, [getSpan] is the span of the whole text, and
    [getCombinedLength] and [getContiguousLength] are both the length of
    the text. *)
Theorem Lexer_lexes_are_contiguous (text : option string) (startIndex : option Z) :
  let offset := match startIndex with Some s => s | None => 0 end in
  exactInteger offset -> exactInteger (getLength text) ->
  exactInteger (offset + getLength text) ->
  exists lexes,
    fst (IteratorBase_toArray (new_Lexer text startIndex)) = map Some lexes
    /\ contiguousFrom offset lexes
    /\ getCombinedLength (Some lexes) = getLength text
    /\ getContiguousLength (Some lexes) = getLength text
    /\ (lexes = [] <-> getLength text = 0)
    /\ (lexes <> [] ->
        getStartIndex (Some lexes) = Some offset
        /\ getAfterEndIndex (Some lexes) = Some (offset + getLength text)
        /\ getSpan (Some lexes) = Some (Build_Span offset (getLength text))).
Proof.
  intros offset Hoffset Hlength Hboth. unfold exactInteger in *.
  destruct (toArray_spec (new_Lexer_models text startIndex)) as (this' & Harray & _).
  cbn [contents] in Harray. rewrite Harray, new_Lexer_at. fold offset.
  pose proof (@getLength_nonneg text) as Hlen.
  destruct (@Lexer_rest_contiguous text offset (S (Z.to_nat (getLength text)))
              ltac:(lia) ltac:(lia) 0 false None)
    as (lexes & -> & Hcontiguous & Hsum); [lia|lia|].
  rewrite Z.add_0_l in Hcontiguous. rewrite Z.sub_0_r in Hsum.
  exists lexes. split; [reflexivity|]. split; [exact Hcontiguous|].
  assert (Hcombined : getCombinedLength (Some lexes) = getLength text).
  { unfold getCombinedLength. rewrite fold_left_lengths, Hsum; lia. }
  split; [exact Hcombined|].
  destruct lexes as [|first rest].
  - simpl in *. split; [lia|]. split; [split; [lia|reflexivity]|]. intros Hne. congruence.
  - destruct Hcontiguous as (Hstart & Hpositive & Hrest).
    cbn [totalLength fold_right] in Hsum. fold (totalLength rest) in Hsum.
    pose proof (@totalLength_nonneg rest) as Hnonneg.
    pose proof (@contiguousFrom_last rest offset first Hstart Hrest ltac:(lia) ltac:(lia))
      as Hlast.
    cbn [getContiguousLength getStartIndex getAfterEndIndex getSpan].
    unfold afterEndIndexOf, startIndexOf, Lex_HasAfterEndIndex, Lex_HasStartIndex.
    rewrite Hlast, Hstart.
    rewrite integer_sub_exact by (unfold exactInteger; lia).
    split; [lia|]. split; [split; [discriminate|lia]|]. intros _.
    split; [reflexivity|]. split; [f_equal; lia|]. f_equal. f_equal. lia.
Qed.

Lemma Lexer_lexes_are_contiguous_witness :
  exists lexes,
    fst (IteratorBase_toArray (new_Lexer (Some "ab 12"%string) (Some 5))) = map Some lexes
    /\ getContiguousLength (Some lexes) = 5
    /\ getCombinedLength (Some lexes) = 5.
Proof.
  pose proof (@Lexer_lexes_are_contiguous (Some "ab 12"%string) (Some 5)) as Hlexes.
  cbv zeta in Hlexes.
  destruct Hlexes as (lexes & Harray & _ & Hcombined & Hcontiguous & _);
    [unfold exactInteger; simpl; lia|unfold exactInteger; simpl; lia
    |unfold exactInteger; simpl; lia|].
  exists lexes. split; [exact Harray|]. split; [exact Hcontiguous|exact Hcombined].
Defined.

(** Past 2^53 the sums of the code round: the one lex of
    [new Lexer("a", 9007199254740992)] starts and ends at
    9007199254740992, so that the contiguous length of the lexes is 0. *)
Lemma Lexer_start_index_past_the_exact_integers :
  let lexes := [Letters (Some "a"%string) 9007199254740992] in
  fst (IteratorBase_toArray (new_Lexer (Some "a"%string) (Some 9007199254740992)))
  = map Some lexes
  /\ getAfterEndIndex (Some lexes) = Some 9007199254740992
  /\ getContiguousLength (Some lexes) = 0
  /\ getSpan (Some lexes) = Some (Build_Span 9007199254740992 0).
Proof. vm_compute. repeat split. Qed.

(** ** Runs of letters and digits *)

(** [readWhile] from position [p], whose character is already in
    [result]: the characters it adds all satisfy the condition, and it
    stops at the end of the text or on a character that does not. *)
Lemma readWhile_loop_run (s : string) (condition : option ascii -> bool) (start : nat)
  (fuel : nat) : forall (p : Z),
  Z.of_nat start <= p < getLength (Some s) ->
  (Z.to_nat (getLength (Some s) - p) < fuel)%nat ->
  exists q,
    p < q <= getLength (Some s)
    /\ readWhile_loop fuel (iterator_at (Some s) true p) condition
         (Some (substring start (Z.to_nat p - start + 1) s))
       = (Some (substring start (Z.to_nat q - start) s), iterator_at (Some s) true q)
    /\ (forall k, p < k < q -> condition (charAt (Some s) k) = true)
    /\ (q < getLength (Some s) -> condition (charAt (Some s) q) = false).
Proof.
  induction fuel as [|fuel IH]; intros p Hp Hfuel; [lia|].
  cbn [readWhile_loop]. rewrite iterator_at_next by lia.
  destruct (Z.ltb_spec (p + 1) (getLength (Some s))) as [Hlt|Hge].
  - rewrite iterator_at_getCurrent.
    destruct (Z.ltb_spec (p + 1) (getLength (Some s))); [|lia].
    destruct (condition (charAt (Some s) (p + 1))) eqn:Hc.
    + rewrite iterator_at_getCurrent.
      destruct (Z.ltb_spec (p + 1) (getLength (Some s))); [|lia].
      destruct (@charAt_inside (Some s) (p + 1)) as (s' & c & Hs & Hget & Hat); [lia|].
      injection Hs as <-. rewrite Hat. cbn [characterText option_map stringOf].
      rewrite substring_snoc.
      * destruct (IH (p + 1)) as (q & Hq & Hloop & Hrun & Hstop); [lia|lia|].
        exists q. split; [lia|]. split.
        -- rewrite <- Hloop.
           now replace (Z.to_nat (p + 1) - start + 1)%nat
             with (S (Z.to_nat p - start + 1)) by lia.
        -- split; [|exact Hstop]. intros k Hk.
           destruct (Z.eq_dec k (p + 1)) as [->|Hne]; [exact Hc|].
           apply Hrun. lia.
      * rewrite <- Hget. f_equal. lia.
    + exists (p + 1). split; [lia|]. split; [|split].
      * now replace (Z.to_nat (p + 1) - start)%nat with (Z.to_nat p - start + 1)%nat by lia.
      * intros k Hk. lia.
      * intros _. exact Hc.
  - exists (p + 1). split; [lia|]. split; [|split].
    + now replace (Z.to_nat (p + 1) - start)%nat with (Z.to_nat p - start + 1)%nat by lia.
    + intros k Hk. lia.
    + intros Hmore. lia.
Qed.

Lemma readWhile_run (s : string) (condition : option ascii -> bool) (p : Z) :
  0 <= p < getLength (Some s) ->
  exists q,
    p < q <= getLength (Some s)
    /\ readWhile (iterator_at (Some s) true p) condition
       = (Some (substring (Z.to_nat p) (Z.to_nat (q - p)) s), iterator_at (Some s) true q)
    /\ (forall k, p < k < q -> condition (charAt (Some s) k) = true)
    /\ (q < getLength (Some s) -> condition (charAt (Some s) q) = false).
Proof.
  intros Hp. unfold readWhile. rewrite iterator_at_getCurrent.
  destruct (Z.ltb_spec p (getLength (Some s))); [|lia].
  destruct (@charAt_inside (Some s) p Hp) as (s' & c & Hs & Hget & Hat).
  injection Hs as <-. rewrite Hat. cbn [characterText option_map].
  rewrite <- (substring_one Hget).
  destruct (@readWhile_loop_run s condition (Z.to_nat p)
              (S (remaining (iterator_at (Some s) true p))) p)
    as (q & Hq & Hloop & Hrun & Hstop).
  - lia.
  - simpl. unfold StringIterator_left. simpl. lia.
  - exists q. split; [exact Hq|]. split; [|split; [exact Hrun|exact Hstop]].
    replace (Z.to_nat p - Z.to_nat p + 1)%nat with 1%nat in Hloop by lia.
    rewrite Hloop.
    now replace (Z.to_nat q - Z.to_nat p)%nat with (Z.to_nat (q - p)) by lia.
Qed.

Lemma singleCharacterLex_kind (c : ascii) (factory : Z -> Lex) :
  singleCharacterLex c = Some factory ->
  isLetter (Some c) = false /\ isDigit (Some c) = false
  /\ forall startIndex, lex_type (factory startIndex) <> LexType_Letters
                        /\ lex_type (factory startIndex) <> LexType_Digits.
Proof.
  unfold singleCharacterLex.
  repeat match goal with
         | |- context [Ascii.eqb c ?x] =>
             destruct (Ascii.eqb_spec c x) as [->|_];
             [intros [= <-]; split; [reflexivity|];
              split; [reflexivity|]; intros startIndex; split; discriminate|]
         end.
  discriminate.
Qed.

Lemma isLetter_not_isDigit (character : option ascii) :
  isLetter character = true -> isDigit character = false.
Proof.
  destruct character as [c|]; [|discriminate]. unfold isLetter, isDigit, char_le.
  change (nat_of_ascii "a") with 97%nat. change (nat_of_ascii "z") with 122%nat.
  change (nat_of_ascii "A") with 65%nat. change (nat_of_ascii "Z") with 90%nat.
  change (nat_of_ascii "0") with 48%nat. change (nat_of_ascii "9") with 57%nat.
  intros Hletter.
  destruct (Nat.leb_spec 48 (nat_of_ascii c)), (Nat.leb_spec (nat_of_ascii c) 57);
    try reflexivity.
  destruct (Nat.leb_spec 97 (nat_of_ascii c)), (Nat.leb_spec (nat_of_ascii c) 122),
    (Nat.leb_spec 65 (nat_of_ascii c)), (Nat.leb_spec (nat_of_ascii c) 90);
    simpl in Hletter; try discriminate; lia.
Qed.

(** What kind of lex one [next()] produces at position [p]: a [Letters]
    lex exactly on a letter and a [Digits] lex exactly on a digit, each
    over the whole run of such characters from [p] on. *)
Lemma Lexer_next_kind (s : string) (offset p : Z) (started_ : bool) (lex0 : option Lex) :
  0 <= p < getLength (Some s) ->
  exists lex q,
    Lexer_next (lexer_at (Some s) offset started_ p lex0)
    = (true, lexer_at (Some s) offset true q (Some lex))
    /\ p < q <= getLength (Some s)
    /\ (lex_type lex = LexType_Letters <-> isLetter (charAt (Some s) p) = true)
    /\ (lex_type lex = LexType_Digits <-> isDigit (charAt (Some s) p) = true)
    /\ (lex_type lex = LexType_Letters ->
        (forall k, p <= k < q -> isLetter (charAt (Some s) k) = true)
        /\ (q < getLength (Some s) -> isLetter (charAt (Some s) q) = false))
    /\ (lex_type lex = LexType_Digits ->
        (forall k, p <= k < q -> isDigit (charAt (Some s) k) = true)
        /\ (q < getLength (Some s) -> isDigit (charAt (Some s) q) = false)).
Proof.
  intros Hp. unfold Lexer_next. rewrite Lexer_started_at.
  unfold Lexer_hasCurrentCharacter, Lexer_getCurrentCharacterStartIndex.
  rewrite Lexer_getCurrentCharacter_at.
  cbn [lexer_at _iterator hasCurrent StringIterator_Iterator fst].
  unfold StringIterator_currentIndex, StringIterator_hasCurrent, hasMore.
  cbn [iterator_at _started _step _currentIndex _endIndex _characterStartIndexOffset andb].
  change (1 >? 0) with true. cbv iota.
  destruct (Z.ltb_spec p (getLength (Some s))); [|lia].
  destruct (@charAt_inside (Some s) p) as (s' & c & Hs & Hget & Hat); [lia|].
  injection Hs as <-. rewrite Hat.
  fold (iterator_at (Some s) true p). fold (lexer_at (Some s) offset true p lex0).
  change (_characterStartIndexOffset (lexer_at (Some s) offset true p lex0)) with offset.
  destruct (singleCharacterLex c) as [factory|] eqn:Hsingle.
  - destruct (singleCharacterLex_kind Hsingle) as (Hletter & Hdigit & Hkind).
    destruct (Hkind (integer_add p offset)) as [Hnl Hnd].
    exists (factory (integer_add p offset)), (p + 1).
    change (Lexer_withCurrentLex (lexer_at (Some s) offset true p lex0)
              (Some (factory (integer_add p offset))))
      with (lexer_at (Some s) offset true p (Some (factory (integer_add p offset)))).
    rewrite Lexer_nextCharacter_at by lia. cbn [snd].
    split; [reflexivity|]. split; [lia|]. rewrite Hletter, Hdigit.
    repeat split; intros; congruence.
  - destruct (Ascii.eqb_spec c CR) as [->|Hcr].
    + change (isLetter (Some CR)) with false. change (isDigit (Some CR)) with false.
      unfold Lexer_next_carriageReturn.
      rewrite Lexer_nextCharacter_at by lia.
      rewrite Lexer_getCurrentCharacter_at.
      change (Lexer_withCurrentLex (lexer_at (Some s) offset true (p + 1) lex0)
                (Some (CarriageReturnNewLine (integer_add p offset))))
        with (lexer_at (Some s) offset true (p + 1)
                (Some (CarriageReturnNewLine (integer_add p offset)))).
      change (Lexer_withCurrentLex (lexer_at (Some s) offset true (p + 1) lex0)
                (Some (CarriageReturn (integer_add p offset))))
        with (lexer_at (Some s) offset true (p + 1) (Some (CarriageReturn (integer_add p offset)))).
      destruct (Z.ltb_spec (p + 1) (getLength (Some s))) as [Hmore|Hlast]; cbn [negb orb].
      * destruct (isNot (charAt (Some s) (p + 1)) LF).
        -- exists (CarriageReturn (integer_add p offset)), (p + 1).
           split; [reflexivity|]. split; [lia|].
           repeat split; intros; discriminate.
        -- exists (CarriageReturnNewLine (integer_add p offset)), (p + 2).
           rewrite Lexer_nextCharacter_at by lia. cbn [snd].
           replace (p + 1 + 1) with (p + 2) by lia.
           split; [reflexivity|]. split; [lia|].
           repeat split; intros; discriminate.
      * exists (CarriageReturn (integer_add p offset)), (p + 1).
        split; [reflexivity|]. split; [lia|].
        repeat split; intros; discriminate.
    + unfold Lexer_next_default. rewrite Lexer_getCurrentCharacter_at.
      destruct (Z.ltb_spec p (getLength (Some s))); [|lia]. rewrite Hat.
      unfold readLetters, readDigits. cbn [lexer_at _iterator].
      destruct (isLetter (Some c)) eqn:Hletter.
      * pose proof (isLetter_not_isDigit Hletter) as Hdigit.
        destruct (@readWhile_run s isLetter p) as (q & Hq & -> & Hrun & Hstop); [lia|].
        exists (Letters (Some (substring (Z.to_nat p) (Z.to_nat (q - p)) s)) (integer_add p offset)), q.
        split; [reflexivity|]. split; [exact Hq|]. rewrite Hdigit.
        split; [split; reflexivity|]. split; [split; discriminate|].
        split; [|discriminate]. intros _. split; [|exact Hstop].
        intros k Hk. destruct (Z.eq_dec k p) as [->|Hne]; [now rewrite Hat|].
        apply Hrun. lia.
      * destruct (isDigit (Some c)) eqn:Hdigit.
        -- destruct (@readWhile_run s isDigit p) as (q & Hq & -> & Hrun & Hstop); [lia|].
           exists (Digits (Some (substring (Z.to_nat p) (Z.to_nat (q - p)) s)) (integer_add p offset)), q.
           split; [reflexivity|]. split; [exact Hq|].
           split; [split; discriminate|]. split; [split; reflexivity|].
           split; [discriminate|]. intros _. split; [|exact Hstop].
           intros k Hk. destruct (Z.eq_dec k p) as [->|Hne]; [now rewrite Hat|].
           apply Hrun. lia.
        -- exists (Unrecognized (characterText (Some c)) (integer_add p offset)), (p + 1).
           fold (iterator_at (Some s) true p).
           fold (lexer_at (Some s) offset true p lex0).
           change (Lexer_withCurrentLex (lexer_at (Some s) offset true p lex0)
                     (Some (Unrecognized (characterText (Some c)) (integer_add p offset))))
             with (lexer_at (Some s) offset true p
                     (Some (Unrecognized (characterText (Some c)) (integer_add p offset)))).
           rewrite Lexer_nextCharacter_at by lia. cbn [snd].
           split; [reflexivity|]. split; [lia|].
           repeat split; intros; discriminate.
Qed.

Lemma get_substring (s : string) : forall p n k : nat,
  (k < n)%nat -> String.get k (substring p n s) = String.get (p + k) s.
Proof.
  induction s as [|c s IH]; intros p n k Hk.
  - destruct p, n; simpl; try lia; destruct k; reflexivity.
  - destruct p as [|p]; simpl.
    + destruct n as [|n]; [lia|]. destruct k as [|k]; [reflexivity|].
      simpl. apply (IH 0%nat). lia.
    + apply IH. exact Hk.
Qed.

Lemma get_some_inside (s : string) : forall (k : nat) (c : ascii),
  String.get k s = Some c -> (k < String.length s)%nat.
Proof.
  induction s as [|c' s IH]; intros k c Hget; simpl in *; [discriminate|].
  destruct k as [|k]; [lia|]. apply IH in Hget. lia.
Qed.

Lemma substring_length_le (s : string) : forall p n : nat,
  (String.length (substring p n s) <= n)%nat.
Proof.
  induction s as [|c s IH]; intros p n.
  - destruct p, n; simpl; lia.
  - destruct p as [|p]; simpl; [|apply IH].
    destruct n as [|n]; simpl; [lia|]. specialize (IH 0%nat n). lia.
Qed.

(** Whether every character of a text passes a test. *)
Definition everyCharacter (test : option ascii -> bool) (text : option string) : bool :=
  forallb (fun c => test (Some c)) (list_ascii_of_string (textOf text)).

Lemma everyCharacter_get (test : option ascii -> bool) (s : string) :
  (forall k c, String.get k s = Some c -> test (Some c) = true) ->
  everyCharacter test (Some s) = true.
Proof.
  unfold everyCharacter. cbn [textOf].
  induction s as [|c s IH]; intros Hall; simpl; [reflexivity|].
  rewrite (Hall 0%nat c eq_refl). apply IH.
  intros k c' Hget. apply (Hall (S k)). exact Hget.
Qed.

(** A lex is of type [Letters] exactly when its text begins with a
    letter, and then holds letters only; the same for [Digits]. *)
Definition Lex_kindMatchesText (lex : Lex) : Prop :=
  (lex_type lex = LexType_Letters <-> isLetter (charAt (lex_text lex) 0) = true)
  /\ (lex_type lex = LexType_Digits <-> isDigit (charAt (lex_text lex) 0) = true)
  /\ (lex_type lex = LexType_Letters -> everyCharacter isLetter (lex_text lex) = true)
  /\ (lex_type lex = LexType_Digits -> everyCharacter isDigit (lex_text lex) = true).

(** No lex of type [Letters] is followed by another one, and none of type
    [Digits] by another one. *)
Fixpoint runsAreWhole (lexes : list Lex) : Prop :=
  match lexes with
  | lex :: ((following :: _) as rest) =>
      (lex_type lex = LexType_Letters -> lex_type following <> LexType_Letters)
      /\ (lex_type lex = LexType_Digits -> lex_type following <> LexType_Digits)
      /\ runsAreWhole rest
  | _ => True
  end.

Lemma Lexer_rest_runs (s : string) (offset : Z) (fuel : nat) :
  forall (p : Z) (started_ : bool) (lex0 : option Lex),
  0 <= p <= getLength (Some s) ->
  (Z.to_nat (getLength (Some s) - p) < fuel)%nat ->
  exists lexes,
    Lexer_rest fuel (lexer_at (Some s) offset started_ p lex0) = map Some lexes
    /\ Forall Lex_kindMatchesText lexes
    /\ runsAreWhole lexes
    /\ match lexes with
       | lex :: _ =>
           (lex_type lex = LexType_Letters <-> isLetter (charAt (Some s) p) = true)
           /\ (lex_type lex = LexType_Digits <-> isDigit (charAt (Some s) p) = true)
       | [] => p = getLength (Some s)
       end.
Proof.
  induction fuel as [|fuel IH]; intros p started_ lex0 Hp Hfuel; [lia|].
  cbn [Lexer_rest].
  destruct (@Lexer_next_at (Some s) offset p started_ lex0 Hp) as [Hin Hend].
  destruct (Z.eq_dec p (getLength (Some s))) as [Heq|Hne].
  - rewrite (Hend Heq). exists []. repeat split; auto.
  - destruct Hin as (lex & q & s' & Hs & Hnext & Hq & _ & Htext & _); [lia|].
    injection Hs as <-.
    destruct (@Lexer_next_kind s offset p started_ lex0 ltac:(lia))
      as (lex' & q' & Hnext' & _ & Hletters & Hdigits & Hrun & Hrun').
    rewrite Hnext in Hnext'. injection Hnext' as Hq' Hlex'. subst q' lex'.
    rewrite Hnext.
    destruct (IH q true (Some lex)) as (lexes & -> & Hall & Hwhole & Hhead); [lia|lia|].
    exists (lex :: lexes). split; [reflexivity|].
    assert (Hfirst : charAt (lex_text lex) 0 = charAt (Some s) p).
    { rewrite Htext. unfold charAt. cbn [Z.ltb Z.compare Z.to_nat].
      destruct (Z.ltb_spec p 0); [lia|].
      rewrite get_substring by lia. f_equal. lia. }
    assert (Hevery : forall test : option ascii -> bool,
              (forall k, p <= k < q -> test (charAt (Some s) k) = true) ->
              everyCharacter test (lex_text lex) = true).
    { intros test Htest. rewrite Htext. apply everyCharacter_get. intros k c Hget.
      pose proof (get_some_inside Hget) as Hk.
      pose proof (substring_length_le s (Z.to_nat p) (Z.to_nat (q - p))) as Hle.
      rewrite get_substring in Hget by lia.
      specialize (Htest (p + Z.of_nat k) ltac:(lia)).
      unfold charAt in Htest. destruct (Z.ltb_spec (p + Z.of_nat k) 0); [lia|].
      replace (Z.to_nat (p + Z.of_nat k)) with (Z.to_nat p + k)%nat in Htest by lia.
      now rewrite Hget in Htest. }
    split; [|split; [|split; [exact Hletters|exact Hdigits]]].
    + constructor; [|exact Hall]. unfold Lex_kindMatchesText. rewrite Hfirst.
      split; [exact Hletters|]. split; [exact Hdigits|]. split.
      * intros Hty. apply Hevery. apply (Hrun Hty).
      * intros Hty. apply Hevery. apply (Hrun' Hty).
    + destruct lexes as [|following rest]; [exact I|].
      cbn [runsAreWhole]. destruct Hhead as [Hl Hd].
      split; [|split; [|exact Hwhole]].
      * intros Hty Hty'. destruct (Hrun Hty) as [_ Hstop].
        apply Hl in Hty'.
        destruct (Z.eq_dec q (getLength (Some s))) as [Hend'|Hmore].
        -- rewrite Hend' in Hty'. unfold charAt in Hty'.
           destruct (_ <? 0) in Hty'; [discriminate|].
           destruct (String.get _ s) eqn:Hget in Hty'; [|discriminate].
           apply get_some_inside in Hget. cbn [getLength] in Hget. lia.
        -- rewrite Hstop in Hty' by lia. discriminate.
      * intros Hty Hty'. destruct (Hrun' Hty) as [_ Hstop].
        apply Hd in Hty'.
        destruct (Z.eq_dec q (getLength (Some s))) as [Hend'|Hmore].
        -- rewrite Hend' in Hty'. unfold charAt in Hty'.
           destruct (_ <? 0) in Hty'; [discriminate|].
           destruct (String.get _ s) eqn:Hget in Hty'; [|discriminate].
           apply get_some_inside in Hget. cbn [getLength] in Hget. lia.
        -- rewrite Hstop in Hty' by lia. discriminate.
Qed.

(** X19.  The lexer takes whole runs: a lex is of type [Letters] exactly
    when its text begins with a letter and of type [Digits] exactly when
    it begins with a digit, a [Letters] lex holds letters only and a
    [Digits] lex digits only, and no [Letters] lex is followed by another
    [Letters] lex, nor a [Digits] lex by another [Digits] lex. *)
Theorem Lexer_takes_whole_runs (text : option string) (startIndex : option Z) :
  exists lexes,
    fst (IteratorBase_toArray (new_Lexer text startIndex)) = map Some lexes
    /\ Forall Lex_kindMatchesText lexes
    /\ runsAreWhole lexes.
Proof.
  destruct (toArray_spec (new_Lexer_models text startIndex)) as (this' & Harray & _).
  cbn [contents] in Harray. rewrite Harray, new_Lexer_at.
  destruct text as [s|].
  - destruct (@Lexer_rest_runs s (match startIndex with Some i => i | None => 0 end)
                (S (Z.to_nat (getLength (Some s)))) 0 false None)
      as (lexes & -> & Hall & Hwhole & _); [simpl; lia|lia|].
    exists lexes. auto.
  - exists []. split; [reflexivity|]. split; [constructor|exact I].
Qed.

(** ** Text functions *)

Open Scope string_scope.

(** [text.replace(pattern, replacement)] for a pattern of one character
    and a replacement without [$]: the first occurrence is replaced. *)
Fixpoint replaceFirst (pattern : ascii) (replacement : string) (text : string) : string :=
  match text with
  | EmptyString => EmptyString
  | String c rest =>
      if Ascii.eqb c pattern
      then replacement ++ rest
      else String c (replaceFirst pattern replacement rest)
  end.

(** [result.replace("\n", "\\n").replace("\t", "\\t").replace("\r", "\\r")];
    a backslash in a string of this file is one character. *)
Definition escape_step (result : string) : string :=
  replaceFirst CR "\r" (replaceFirst TAB "\t" (replaceFirst LF "\n" result)).

(** [do { result = newResult; newResult = ...; } while (result !== newResult);] *)
Fixpoint escape_loop (fuel : nat) (newResult : string) : string :=
  match fuel with
  | O => newResult
  | S fuel' =>
      let result := newResult in
      let newResult' := escape_step result in
      if String.eqb result newResult' then result else escape_loop fuel' newResult'
  end.

(** [escape(documentText)]; the loop runs at most once more than the text
    has characters. *)
Definition escape (documentText : option string) : option string :=
  match documentText with
  | Some text =>
      if String.eqb text "" then Some text
      else Some (escape_loop (S (String.length text)) text)
  | None => None
  end.

(** [quote(value)] *)
Definition quote (value : option string) : string :=
  match value with
  | None => "undefined"
  | Some text => String DQUOTE (text ++ String DQUOTE "")
  end.

(** [escapeAndQuote(text)] *)
Definition escapeAndQuote (text : option string) : string := quote (escape text).

(** A character with its escape: a line feed, a tab and a carriage
    return become a backslash and a letter, every other character stays. *)
Definition escapeCharacter (c : ascii) : string :=
  if Ascii.eqb c LF then "\n"
  else if Ascii.eqb c TAB then "\t"
  else if Ascii.eqb c CR then "\r"
  else String c "".

(** A text with every character escaped. *)
Fixpoint escapeAll (text : string) : string :=
  match text with
  | EmptyString => EmptyString
  | String c rest => escapeCharacter c ++ escapeAll rest
  end.

Definition isControl (c : ascii) : bool := Ascii.eqb c LF || Ascii.eqb c TAB || Ascii.eqb c CR.

(** The number of line feeds, tabs and carriage returns of a text. *)
Fixpoint controls (text : string) : nat :=
  match text with
  | EmptyString => 0
  | String c rest => (if isControl c then 1 else 0) + controls rest
  end.

Fixpoint occurs (pattern : ascii) (text : string) : bool :=
  match text with
  | EmptyString => false
  | String c rest => Ascii.eqb c pattern || occurs pattern rest
  end.

Lemma escapeAll_append (a b : string) : escapeAll (a ++ b) = escapeAll a ++ escapeAll b.
Proof.
  induction a as [|c a IH]; simpl; [reflexivity|]. now rewrite IH, append_assoc.
Qed.

Lemma controls_append (a b : string) : controls (a ++ b) = (controls a + controls b)%nat.
Proof. induction a as [|c a IH]; simpl; [reflexivity|]. rewrite IH. lia. Qed.

Lemma replaceFirst_absent (pattern : ascii) (replacement text : string) :
  occurs pattern text = false -> replaceFirst pattern replacement text = text.
Proof.
  induction text as [|c text IH]; simpl; [reflexivity|].
  destruct (Ascii.eqb c pattern); simpl; [discriminate|]. intros Hno. now rewrite IH.
Qed.

(** Replacing the first occurrence of a control character by its escape
    keeps the escaped text and takes one control character away. *)
Lemma replaceFirst_escape (pattern : ascii) (text : string) :
  isControl pattern = true ->
  escapeAll (replaceFirst pattern (escapeCharacter pattern) text) = escapeAll text
  /\ (controls (replaceFirst pattern (escapeCharacter pattern) text)
      + (if occurs pattern text then 1 else 0) = controls text)%nat.
Proof.
  intros Hcontrol.
  assert (Hescape : escapeAll (escapeCharacter pattern) = escapeCharacter pattern
                    /\ controls (escapeCharacter pattern) = 0%nat).
  { unfold isControl in Hcontrol. unfold escapeCharacter.
    destruct (Ascii.eqb pattern LF); [split; reflexivity|].
    destruct (Ascii.eqb pattern TAB); [split; reflexivity|].
    destruct (Ascii.eqb pattern CR); [split; reflexivity|discriminate]. }
  destruct Hescape as [Hsame Hnone].
  induction text as [|c text [IHe IHc]]; simpl; [split; reflexivity|].
  destruct (Ascii.eqb_spec c pattern) as [->|Hne]; simpl.
  - rewrite escapeAll_append, controls_append, Hsame, Hnone, Hcontrol. split; [reflexivity|lia].
  - rewrite IHe. split; [reflexivity|]. lia.
Qed.

Lemma controls_occurs (text : string) :
  (0 < controls text)%nat ->
  occurs LF text = true \/ occurs TAB text = true \/ occurs CR text = true.
Proof.
  induction text as [|c text IH]; simpl; [lia|]. unfold isControl.
  destruct (Ascii.eqb c LF); [auto|]. destruct (Ascii.eqb c TAB); [auto|].
  destruct (Ascii.eqb c CR); [auto|]. simpl. exact IH.
Qed.

Lemma controls_none (text : string) : controls text = 0%nat -> escapeAll text = text.
Proof.
  induction text as [|c text IH]; simpl; [reflexivity|].
  unfold escapeCharacter, isControl.
  destruct (Ascii.eqb c LF); [simpl; lia|]. destruct (Ascii.eqb c TAB); [simpl; lia|].
  destruct (Ascii.eqb c CR); [simpl; lia|]. simpl. intros Hnone. now rewrite IH.
Qed.

Lemma escape_step_spec (text : string) :
  escapeAll (escape_step text) = escapeAll text
  /\ (controls (escape_step text) <= controls text)%nat
  /\ ((0 < controls text)%nat -> (controls (escape_step text) < controls text)%nat)
  /\ (controls text = 0%nat -> escape_step text = text).
Proof.
  unfold escape_step.
  destruct (@replaceFirst_escape LF text eq_refl) as [He1 Hc1].
  destruct (@replaceFirst_escape TAB (replaceFirst LF "\n" text) eq_refl) as [He2 Hc2].
  destruct (@replaceFirst_escape CR (replaceFirst TAB "\t" (replaceFirst LF "\n" text))
              eq_refl) as [He3 Hc3].
  change (escapeCharacter LF) with "\n" in *. change (escapeCharacter TAB) with "\t" in *.
  change (escapeCharacter CR) with "\r" in *.
  split; [now rewrite He3, He2, He1|]. split; [lia|]. split.
  - intros Hpos. destruct (occurs LF text) eqn:Hlf; [lia|].
    rewrite (replaceFirst_absent _ Hlf) in *.
    destruct (occurs TAB text) eqn:Htab; [lia|].
    rewrite (replaceFirst_absent _ Htab) in *.
    destruct (occurs CR text) eqn:Hcr; [lia|].
    destruct (controls_occurs Hpos) as [Hyes|[Hyes|Hyes]]; congruence.
  - intros Hnone.
    assert (Hno : forall pattern, isControl pattern = true -> occurs pattern text = false).
    { intros pattern Hcontrol. clear - Hnone Hcontrol.
      induction text as [|c text IH]; simpl in *; [reflexivity|].
      destruct (Ascii.eqb_spec c pattern) as [->|Hne]; simpl.
      - rewrite Hcontrol in Hnone. lia.
      - apply IH. lia. }
    rewrite (replaceFirst_absent "\n" (Hno LF eq_refl)).
    rewrite (replaceFirst_absent "\t" (Hno TAB eq_refl)).
    apply (replaceFirst_absent "\r" (Hno CR eq_refl)).
Qed.

Lemma escape_loop_spec (fuel : nat) : forall text : string,
  (controls text < fuel)%nat -> escape_loop fuel text = escapeAll text.
Proof.
  induction fuel as [|fuel IH]; intros text Hfuel; [lia|].
  cbn [escape_loop]. destruct (escape_step_spec text) as (He & Hle & Hlt & Hsame).
  destruct (String.eqb_spec text (escape_step text)) as [Heq|Hne].
  - symmetry. apply controls_none.
    destruct (controls text) as [|n] eqn:Hn; [reflexivity|].
    specialize (Hlt ltac:(lia)). rewrite <- Heq in Hlt. lia.
  - rewrite IH; [exact He|].
    destruct (controls text) as [|n] eqn:Hn; [now rewrite Hsame in Hne|].
    specialize (Hlt ltac:(lia)). lia.
Qed.

Lemma controls_length (text : string) : (controls text <= String.length text)%nat.
Proof. induction text as [|c text IH]; simpl; [lia|]. destruct (isControl c); lia. Qed.

Lemma controls_escapeAll (text : string) : controls (escapeAll text) = 0%nat.
Proof.
  induction text as [|c text IH]; simpl; [reflexivity|].
  rewrite controls_append, IH. unfold escapeCharacter.
  destruct (Ascii.eqb c LF) eqn:Hlf; [reflexivity|].
  destruct (Ascii.eqb c TAB) eqn:Htab; [reflexivity|].
  destruct (Ascii.eqb c CR) eqn:Hcr; [reflexivity|].
  simpl. unfold isControl. now rewrite Hlf, Htab, Hcr.
Qed.

Lemma escape_escapeAll (text : string) : escape (Some text) = Some (escapeAll text).
Proof.
  unfold escape. destruct (String.eqb_spec text "") as [->|Hne]; [reflexivity|].
  rewrite escape_loop_spec; [reflexivity|]. pose proof (controls_length text). lia.
Qed.

(** X20.  [escape] replaces every line feed, tab and carriage return of
    the text by a backslash followed by [n], [t] or [r] and leaves every
    other character, double quotes and backslashes included, as it is; the
    result holds no line feed, tab or carriage return, and escaping it
    again changes nothing.  An undefined text stays undefined.
    [escapeAndQuote] puts the escaped text between double quotes. *)
Theorem escape_replaces_every_control_character (text : string) :
  escape (Some text) = Some (escapeAll text)
  /\ controls (escapeAll text) = 0%nat
  /\ escape (escape (Some text)) = escape (Some text)
  /\ (controls text = 0%nat -> escape (Some text) = Some text)
  /\ escape None = None
  /\ escapeAndQuote (Some text) = String DQUOTE (escapeAll text ++ String DQUOTE "").
Proof.
  unfold escapeAndQuote. rewrite !escape_escapeAll.
  split; [reflexivity|]. split; [apply controls_escapeAll|]. split.
  - f_equal. apply controls_none, controls_escapeAll.
  - split; [intros Hnone; f_equal; now apply controls_none|]. split; reflexivity.
Qed.

(** [for (let i = 0; i < count; ++i) { result += value; }] *)
Fixpoint repeat_loop (left : nat) (value result : string) : string :=
  match left with
  | O => result
  | S left' => repeat_loop left' value (result ++ value)
  end.

(** [repeat(value, count)], for an integer count or none. *)
Definition repeat (value : option string) (count : option Z) : string :=
  match value, count with
  | Some text, Some n =>
      if negb (String.eqb text "") && negb (n =? 0)%Z && (n >? 0)%Z
      then repeat_loop (Z.to_nat n) text ""
      else ""
  | _, _ => ""
  end.

(** What JavaScript's [&&] hands back when its operands are texts and a
    truth value: a text, [undefined], or a boolean. *)
Inductive textOrBoolean : Type :=
| IsUndefined
| IsText (text : string)
| IsBoolean (b : bool).

Definition truthy (value : textOrBoolean) : bool :=
  match value with
  | IsUndefined => false
  | IsText text => negb (String.eqb text "")
  | IsBoolean b => b
  end.

Definition ofText (value : option string) : textOrBoolean :=
  match value with Some text => IsText text | None => IsUndefined end.

(** [a && b]: [a] when [a] is falsy, [b] otherwise. *)
Definition and_then (a b : textOrBoolean) : textOrBoolean := if truthy a then b else a.

(** [startsWith(value, prefix)]:
    [value && prefix && (prefix === value.substr(0, prefix.length))] *)
Definition startsWith (value prefix : option string) : textOrBoolean :=
  and_then (and_then (ofText value) (ofText prefix))
    (IsBoolean (String.eqb (textOf prefix)
                  (substring 0 (String.length (textOf prefix)) (textOf value)))).

(** [endsWith(value, suffix)]:
    [value && suffix && value.length >= suffix.length
     && value.substring(value.length - suffix.length) === suffix ? true : false] *)
Definition endsWith (value suffix : option string) : bool :=
  truthy
    (and_then
       (and_then (and_then (ofText value) (ofText suffix))
          (IsBoolean (String.length (textOf suffix) <=? String.length (textOf value))%nat))
       (IsBoolean
          (String.eqb
             (substring (String.length (textOf value) - String.length (textOf suffix))
                (String.length (textOf suffix)) (textOf value))
             (textOf suffix)))).

Lemma repeat_loop_spec (left : nat) (value : string) : forall result : string,
  repeat_loop left value result = result ++ repeat_loop left value "".
Proof.
  induction left as [|left IH]; intros result; cbn [repeat_loop].
  - now rewrite append_nil_r.
  - rewrite (IH (result ++ value)), (IH ("" ++ value)). cbn [append].
    now rewrite append_assoc.
Qed.

Lemma repeat_loop_add (a b : nat) (value : string) :
  repeat_loop (a + b) value "" = repeat_loop a value "" ++ repeat_loop b value "".
Proof.
  induction a as [|a IH]; [reflexivity|].
  cbn [Nat.add repeat_loop append].
  rewrite (repeat_loop_spec (a + b)), (repeat_loop_spec a), IH. now rewrite append_assoc.
Qed.

Lemma length_append (a b : string) :
  String.length (a ++ b) = (String.length a + String.length b)%nat.
Proof. induction a as [|c a IH]; simpl; [reflexivity|]. now rewrite IH. Qed.

Lemma repeat_loop_length (left : nat) (value : string) :
  String.length (repeat_loop left value "") = (left * String.length value)%nat.
Proof.
  induction left as [|left IH]; [reflexivity|].
  cbn [repeat_loop append]. rewrite repeat_loop_spec, length_append, IH. lia.
Qed.

Lemma repeat_loop_empty (left : nat) : repeat_loop left "" "" = "".
Proof. induction left as [|left IH]; [reflexivity|]. exact IH. Qed.

Lemma repeat_integer (value : string) (n : Z) :
  repeat (Some value) (Some n) = repeat_loop (Z.to_nat n) value "".
Proof.
  unfold repeat. destruct (String.eqb_spec value "") as [->|Hne]; cbn [negb andb].
  - now rewrite repeat_loop_empty.
  - destruct (Z.eqb_spec n 0) as [->|Hnz]; [reflexivity|]. cbn [negb andb].
    destruct (Z.gtb_spec n 0) as [Hpos|Hneg]; [reflexivity|].
    now replace (Z.to_nat n) with 0%nat by lia.
Qed.

(** X21.  [repeat(value, count)] is [count] copies of the value one after
    the other: its length is [count] times the length of the value,
    repeating [a + b] times is repeating [a] times followed by repeating
    [b] times, and the result is empty for a count that is zero, negative
    or undefined and for a value that is empty or undefined. *)
Theorem repeat_is_count_copies (value : string) (a b : Z) :
  (0 <= a)%Z -> (0 <= b)%Z ->
  String.length (repeat (Some value) (Some a)) = (Z.to_nat a * String.length value)%nat
  /\ repeat (Some value) (Some (a + b))
     = repeat (Some value) (Some a) ++ repeat (Some value) (Some b)
  /\ repeat (Some value) (Some 1) = value
  /\ repeat (Some value) (Some (- a)) = ""
  /\ repeat (Some value) None = ""
  /\ repeat None (Some a) = ""
  /\ repeat (Some "") (Some a) = "".
Proof.
  intros Ha Hb. rewrite !repeat_integer.
  split; [apply repeat_loop_length|]. split.
  - rewrite Z2Nat.inj_add by lia. apply repeat_loop_add.
  - split; [reflexivity|]. split.
    + now replace (Z.to_nat (- a)) with 0%nat by lia.
    + split; [reflexivity|]. split; [reflexivity|apply repeat_loop_empty].
Qed.

Lemma repeat_is_count_copies_witness :
  repeat (Some "ab") (Some 3) = "ababab".
Proof.
  destruct (@repeat_is_count_copies "ab" 1 2) as (_ & Hadd & _); [lia|lia|].
  change (Some 3) with (Some (1 + 2)%Z). rewrite Hadd. reflexivity.
Defined.

Lemma substring_prefix (a b : string) : substring 0 (String.length a) (a ++ b) = a.
Proof.
  induction a as [|c a IH]; simpl.
  - now destruct b.
  - now rewrite IH.
Qed.

Lemma substring_suffix (a b : string) :
  substring (String.length a) (String.length b) (a ++ b) = b.
Proof.
  induction a as [|c a IH]; simpl; [apply substring_all|exact IH].
Qed.

Lemma substring_whole (s : string) (n : nat) :
  (n <= String.length s)%nat ->
  s = substring 0 n s ++ substring n (String.length s - n) s.
Proof.
  intros Hn. pose proof (substring_split s 0 n (String.length s - n)) as Hsplit.
  cbn [Nat.add] in Hsplit. rewrite Hsplit.
  replace (n + (String.length s - n))%nat with (String.length s) by lia.
  symmetry. apply substring_all.
Qed.

(** X22.  [startsWith(value, prefix)] is truthy exactly when the prefix
    is not empty and the value is the prefix followed by some text, and
    [endsWith(value, suffix)] is true exactly when the suffix is not empty
    and the value is some text followed by the suffix.  When the value is
    empty or undefined [startsWith] hands back the value itself, not
    [false], and for a value that is not empty and an undefined prefix it
    hands back [undefined]; [endsWith] always hands back a boolean. *)
Theorem startsWith_and_endsWith (value affix : string) :
  (truthy (startsWith (Some value) (Some affix)) = true
   <-> affix <> "" /\ exists rest, value = affix ++ rest)
  /\ (endsWith (Some value) (Some affix) = true
      <-> affix <> "" /\ exists front, value = front ++ affix)
  /\ startsWith (Some "") (Some affix) = IsText ""
  /\ startsWith None (Some affix) = IsUndefined
  /\ (value <> "" -> startsWith (Some value) None = IsUndefined)
  /\ endsWith None (Some affix) = false
  /\ endsWith (Some value) None = false.
Proof.
  split; [|split; [|split; [|split; [|split; [|split]]]]];
    try reflexivity.
  - unfold startsWith, and_then, ofText, truthy, textOf.
    destruct (String.eqb_spec value "") as [->|Hvalue]; cbn [negb].
    + split; [discriminate|]. intros [Hne [rest Hrest]].
      destruct affix; [congruence|discriminate].
    + destruct (String.eqb_spec affix "") as [->|Haffix]; cbn [negb].
      * split; [discriminate|]. intros [Hne _]. congruence.
      * destruct (String.eqb_spec affix (substring 0 (String.length affix) value))
          as [Heq|Hneq].
        -- split; [|reflexivity]. intros _. split; [exact Haffix|].
           destruct (Nat.le_gt_cases (String.length affix) (String.length value)) as [Hle|Hgt].
           ++ exists (substring (String.length affix)
                        (String.length value - String.length affix) value).
              rewrite Heq at 1. now apply substring_whole.
           ++ pose proof (substring_length_le value 0 (String.length affix)) as Hlen.
              assert (Hshort : (String.length (substring 0 (String.length affix) value)
                                <= String.length value)%nat).
              { clear. generalize (String.length affix). intros n. revert n.
                induction value as [|c value IH]; intros [|n]; simpl; try lia.
                specialize (IH n). lia. }
              rewrite <- Heq in Hshort. lia.
        -- split; [discriminate|]. intros [_ [rest ->]].
           now rewrite substring_prefix in Hneq.
  - unfold endsWith, and_then, ofText, truthy, textOf.
    destruct (String.eqb_spec value "") as [->|Hvalue]; cbn [negb].
    + split; [discriminate|]. intros [Hne [front Hfront]].
      destruct front; simpl in Hfront; [congruence|discriminate].
    + destruct (String.eqb_spec affix "") as [->|Haffix]; cbn [negb].
      * split; [discriminate|]. intros [Hne _]. congruence.
      * destruct (Nat.leb_spec (String.length affix) (String.length value)) as [Hle|Hgt].
        -- destruct (String.eqb_spec
                       (substring (String.length value - String.length affix)
                          (String.length affix) value) affix) as [Heq|Hneq].
           ++ split; [|reflexivity]. intros _. split; [exact Haffix|].
              exists (substring 0 (String.length value - String.length affix) value).
              pose proof (@substring_whole value
                            (String.length value - String.length affix) ltac:(lia)) as Hwhole.
              replace (String.length value - (String.length value - String.length affix))%nat
                with (String.length affix) in Hwhole by lia.
              now rewrite Heq in Hwhole.
           ++ split; [discriminate|]. intros [_ [front ->]].
              rewrite length_append in Hneq.
              replace (String.length front + String.length affix - String.length affix)%nat
                with (String.length front) in Hneq by lia.
              now rewrite substring_suffix in Hneq.
        -- split; [discriminate|]. intros [_ [front ->]].
           rewrite length_append in Hgt. lia.
  - intros Hvalue. destruct value; [congruence|reflexivity].
  - destruct value; reflexivity.
Qed.

(** [value[i] === "\n"]; past the end of the text [value[i]] is
    [undefined]. *)
Definition isLineFeedAt (text : string) (i : nat) : bool :=
  match String.get i text with
  | Some c => Ascii.eqb c LF
  | None => false
  end.

(** [for (let i = 0; i < characterIndex; ++i) { if (value[i] === "\n") { ++result; } }] *)
Fixpoint getLineIndex_loop (text : string) (i left : nat) (result : Z) : Z :=
  match left with
  | O => result
  | S left' =>
      getLineIndex_loop text (S i) left'
        (if isLineFeedAt text i then result + 1 else result)%Z
  end.

(** [getLineIndex(value, characterIndex)], for an integer index or none. *)
Definition getLineIndex (value : option string) (characterIndex : option Z) : option Z :=
  match value, characterIndex with
  | Some text, Some n =>
      if (0 <=? n)%Z then Some (getLineIndex_loop text 0 (Z.to_nat n) 0) else None
  | _, _ => None
  end.

(** [for (...) { if (value[i] === "\n") { result = 0; } else { ++result; } }] *)
Fixpoint getColumnIndex_loop (text : string) (i left : nat) (result : Z) : Z :=
  match left with
  | O => result
  | S left' =>
      getColumnIndex_loop text (S i) left'
        (if isLineFeedAt text i then 0 else result + 1)%Z
  end.

(** [getColumnIndex(value, characterIndex)] *)
Definition getColumnIndex (value : option string) (characterIndex : option Z) : option Z :=
  match value, characterIndex with
  | Some text, Some n =>
      if (0 <=? n)%Z then Some (getColumnIndex_loop text 0 (Z.to_nat n) 0) else None
  | _, _ => None
  end.

(** The number of line feeds of a text. *)
Fixpoint lineFeeds (text : string) : Z :=
  match text with
  | EmptyString => 0
  | String c rest => ((if Ascii.eqb c LF then 1 else 0) + lineFeeds rest)%Z
  end.

Lemma get_append_right (a : string) (c : ascii) (b : string) :
  String.get (String.length a) (a ++ String c b) = Some c.
Proof. induction a as [|c' a IH]; simpl; [reflexivity|exact IH]. Qed.

Lemma append_cons (a : string) (c : ascii) (b : string) :
  a ++ String c b = (a ++ String c "") ++ b.
Proof. induction a as [|c' a IH]; simpl; [reflexivity|]. now rewrite IH. Qed.

Lemma getLineIndex_loop_spec (part : string) : forall (before after : string) (result : Z),
  getLineIndex_loop (before ++ part ++ after) (String.length before) (String.length part)
    result
  = (result + lineFeeds part)%Z.
Proof.
  induction part as [|c part IH]; intros before after result;
    cbn [String.length getLineIndex_loop lineFeeds append]; [lia|].
  unfold isLineFeedAt. rewrite get_append_right.
  rewrite (append_cons before c (part ++ after)).
  replace (S (String.length before)) with (String.length (before ++ String c ""))
    by (rewrite length_append; simpl; lia).
  rewrite IH. destruct (Ascii.eqb c LF); lia.
Qed.

Lemma getColumnIndex_loop_line (part : string) : forall (before after : string) (result : Z),
  occurs LF part = false ->
  getColumnIndex_loop (before ++ part ++ after) (String.length before) (String.length part)
    result
  = (result + Z.of_nat (String.length part))%Z.
Proof.
  induction part as [|c part IH]; intros before after result Hline;
    cbn [String.length getColumnIndex_loop append occurs] in *; [lia|].
  unfold isLineFeedAt. rewrite get_append_right.
  rewrite (append_cons before c (part ++ after)).
  replace (S (String.length before)) with (String.length (before ++ String c ""))
    by (rewrite length_append; simpl; lia).
  destruct (Ascii.eqb c LF); [discriminate|]. rewrite IH by exact Hline. lia.
Qed.

(** Up to and with a line feed, the column is back at 0. *)
Lemma getColumnIndex_loop_lineFeed (part : string) :
  forall (before after : string) (result : Z),
  getColumnIndex_loop (before ++ (part ++ String LF "") ++ after) (String.length before)
    (String.length (part ++ String LF "")) result
  = 0%Z.
Proof.
  induction part as [|c part IH]; intros before after result;
    cbn [String.length getColumnIndex_loop append].
  - unfold isLineFeedAt. rewrite get_append_right. now rewrite Ascii.eqb_refl.
  - unfold isLineFeedAt. rewrite get_append_right.
    rewrite (append_cons before c ((part ++ String LF "") ++ after)).
    replace (S (String.length before)) with (String.length (before ++ String c ""))
      by (rewrite length_append; simpl; lia).
    apply IH.
Qed.

Lemma getColumnIndex_loop_add (text : string) (a : nat) :
  forall (i b : nat) (result : Z),
  getColumnIndex_loop text i (a + b) result
  = getColumnIndex_loop text (i + a) b (getColumnIndex_loop text i a result).
Proof.
  induction a as [|a IH]; intros i b result; cbn [Nat.add getColumnIndex_loop].
  - now rewrite Nat.add_0_r.
  - rewrite IH. f_equal. lia.
Qed.

Lemma getColumnIndex_loop_past_the_end (text : string) (left : nat) :
  forall (i : nat) (result : Z),
  (String.length text <= i)%nat ->
  getColumnIndex_loop text i left result = (result + Z.of_nat left)%Z.
Proof.
  induction left as [|left IH]; intros i result Hi; cbn [getColumnIndex_loop]; [lia|].
  unfold isLineFeedAt.
  destruct (String.get i text) as [c|] eqn:Hget.
  - apply get_some_inside in Hget. lia.
  - rewrite IH by lia. lia.
Qed.

(** The column at the end of a piece without line feed that stands at
    the start of the text or right after a line feed. *)
Lemma getColumnIndex_on_line (before line rest : string) :
  occurs LF line = false ->
  getColumnIndex (Some (line ++ rest)) (Some (Z.of_nat (String.length line)))
  = Some (Z.of_nat (String.length line))
  /\ getColumnIndex (Some (before ++ String LF (line ++ rest)))
       (Some (Z.of_nat (String.length before + 1 + String.length line)))
     = Some (Z.of_nat (String.length line)).
Proof.
  intros Hline. unfold getColumnIndex.
  repeat match goal with
         | |- context [(0 <=? Z.of_nat ?n)%Z] =>
             destruct (Z.leb_spec 0 (Z.of_nat n)); [|lia]
         end.
  rewrite !Nat2Z.id. split.
  - pose proof (getColumnIndex_loop_line "" rest 0 Hline) as Hloop.
    cbn [append String.length] in Hloop. rewrite Hloop. reflexivity.
  - rewrite <- Nat.add_assoc.
    replace (String.length before + (1 + String.length line))%nat
      with (String.length (before ++ String LF "") + String.length line)%nat
      by (rewrite length_append; simpl; lia).
    rewrite getColumnIndex_loop_add. cbn [Nat.add].
    replace (before ++ String LF (line ++ rest))
      with ((before ++ String LF "") ++ line ++ rest)
      by (rewrite <- append_cons; reflexivity).
    rewrite (getColumnIndex_loop_line (before ++ String LF "") rest _ Hline).
    pose proof (getColumnIndex_loop_lineFeed before "" (line ++ rest) 0) as Hzero.
    cbn [append String.length] in Hzero. rewrite Hzero. reflexivity.
Qed.

(** X23.  [getLineIndex] is the number of line feeds before the index
    and [getColumnIndex] the number of characters between the last line
    feed before the index and the index: at the end of a piece [line]
    without line feed that stands at the start of the text or right
    after a line feed, the column is the length of [line].  Past the end
    of the text the column goes on counting.  Both are [undefined] for
    an undefined text and for an index that is undefined or negative. *)
Theorem getLineIndex_and_getColumnIndex (before line rest : string) (k : nat)
    (text : option string) (index : option Z) (negative : positive) :
  occurs LF line = false ->
  getLineIndex (Some (line ++ rest)) (Some (Z.of_nat (String.length line))) = Some 0%Z
  /\ getColumnIndex (Some (line ++ rest)) (Some (Z.of_nat (String.length line)))
     = Some (Z.of_nat (String.length line))
  /\ getLineIndex (Some (before ++ String LF (line ++ rest)))
       (Some (Z.of_nat (String.length before + 1 + String.length line)))
     = Some (lineFeeds before + 1)%Z
  /\ getColumnIndex (Some (before ++ String LF (line ++ rest)))
       (Some (Z.of_nat (String.length before + 1 + String.length line)))
     = Some (Z.of_nat (String.length line))
  /\ getColumnIndex (Some line) (Some (Z.of_nat (String.length line + k)))
     = Some (Z.of_nat (String.length line + k))
  /\ getLineIndex text None = None
  /\ getColumnIndex text None = None
  /\ getLineIndex text (Some (Z.neg negative)) = None
  /\ getColumnIndex text (Some (Z.neg negative)) = None
  /\ getLineIndex None index = None
  /\ getColumnIndex None index = None.
Proof.
  intros Hline.
  assert (Hfeeds : lineFeeds line = 0%Z).
  { clear - Hline. induction line as [|c line IH]; simpl in *; [reflexivity|].
    destruct (Ascii.eqb c LF); [discriminate|]. now rewrite IH. }
  assert (Happend : forall a b, lineFeeds (a ++ b) = (lineFeeds a + lineFeeds b)%Z).
  { intros a b. induction a as [|c a IH]; simpl; [reflexivity|]. rewrite IH. lia. }
  destruct (getColumnIndex_on_line before rest Hline) as [Hfirst Hcolumn].
  rewrite Hfirst, Hcolumn.
  unfold getLineIndex, getColumnIndex.
  repeat match goal with
         | |- context [(0 <=? Z.of_nat ?n)%Z] =>
             destruct (Z.leb_spec 0 (Z.of_nat n)); [|lia]
         end.
  rewrite !Nat2Z.id.
  split; [|split; [reflexivity|split; [|split; [reflexivity|split]]]].
  - pose proof (getLineIndex_loop_spec line "" rest 0) as Hloop.
    cbn [append String.length] in Hloop. rewrite Hloop, Hfeeds. reflexivity.
  - pose proof (getLineIndex_loop_spec (before ++ String LF line) "" rest 0) as Hloop.
    cbn [append] in Hloop. rewrite append_assoc in Hloop. cbn [append] in Hloop.
    rewrite length_append in Hloop. cbn [String.length] in Hloop.
    replace (String.length before + 1 + String.length line)%nat
      with (String.length before + S (String.length line))%nat by lia.
    rewrite Hloop, Happend. cbn [lineFeeds]. rewrite Ascii.eqb_refl, Hfeeds. f_equal; lia.
  - rewrite getColumnIndex_loop_add. cbn [Nat.add].
    pose proof (getColumnIndex_loop_line "" "" 0 Hline) as Hcolumn'.
    cbn [append String.length] in Hcolumn'. rewrite append_nil_r in Hcolumn'.
    rewrite Hcolumn', getColumnIndex_loop_past_the_end by lia. f_equal; lia.
  - repeat split; try reflexivity; destruct text; reflexivity.
Qed.

Lemma getLineIndex_and_getColumnIndex_witness :
  getLineIndex (Some (String "a" (String LF "bcd"))) (Some 4%Z) = Some 1%Z
  /\ getColumnIndex (Some (String "a" (String LF "bcd"))) (Some 4%Z) = Some 2%Z.
Proof.
  destruct (@getLineIndex_and_getColumnIndex "a" "bc" "d" 0 None None 1%positive eq_refl)
    as (_ & _ & Hline & Hcolumn & _).
  split; [exact Hline|exact Hcolumn].
Defined.

(** [value[i] === " " || value[i] === "\t"] *)
Definition isIndentAt (text : string) (i : nat) : bool :=
  match String.get i text with
  | Some c => Ascii.eqb c " " || Ascii.eqb c TAB
  | None => false
  end.

(** [while (value[i] === " " || value[i] === "\t") { result += value[i]; ++i; }];
    the test fails at the end of the text at the latest. *)
Fixpoint getLineIndent_loop (fuel : nat) (text : string) (i : nat) (result : string)
  : string :=
  match fuel with
  | O => result
  | S fuel' =>
      if isIndentAt text i
      then getLineIndent_loop fuel' text (S i)
             (result ++ stringOf (characterText (String.get i text)))
      else result
  end.

(** [getLineIndent(value, characterIndex)] *)
Definition getLineIndent (value : option string) (characterIndex : option Z)
  : option string :=
  match getColumnIndex value characterIndex, value, characterIndex with
  | Some columnIndex, Some text, Some n =>
      Some (getLineIndent_loop (String.length text) text (Z.to_nat (n - columnIndex)) "")
  | _, _, _ => None
  end.

(** A text of spaces and tabs only. *)
Fixpoint isIndent (text : string) : bool :=
  match text with
  | EmptyString => true
  | String c rest => (Ascii.eqb c " " || Ascii.eqb c TAB) && isIndent rest
  end.

Lemma getLineIndent_loop_spec (indent : string) :
  forall (fuel : nat) (before after result : string),
  isIndent indent = true ->
  isIndentAt after 0 = false ->
  (String.length indent <= fuel)%nat ->
  getLineIndent_loop fuel (before ++ indent ++ after) (String.length before) result
  = result ++ indent.
Proof.
  induction indent as [|c indent IH]; intros fuel before after result Hindent Hafter Hfuel.
  - cbn [append]. rewrite append_nil_r. destruct fuel as [|fuel]; [reflexivity|].
    cbn [getLineIndent_loop]. unfold isIndentAt in *.
    destruct after as [|c after].
    + rewrite append_nil_r.
      destruct (String.get (String.length before) before) eqn:Hget; [|reflexivity].
      apply get_some_inside in Hget. lia.
    + rewrite get_append_right. cbn [String.get] in Hafter. now rewrite Hafter.
  - destruct fuel as [|fuel]; [simpl in Hfuel; lia|].
    cbn [getLineIndent_loop isIndent append] in *.
    apply andb_prop in Hindent. destruct Hindent as [Hc Hindent].
    unfold isIndentAt. rewrite get_append_right, Hc.
    cbn [characterText option_map stringOf].
    rewrite (append_cons before c (indent ++ after)).
    replace (S (String.length before)) with (String.length (before ++ String c ""))
      by (rewrite length_append; simpl; lia).
    rewrite IH by (auto; simpl in Hfuel; lia).
    now rewrite append_assoc.
Qed.

Lemma isIndent_line (indent : string) : isIndent indent = true -> occurs LF indent = false.
Proof.
  induction indent as [|c indent IH]; simpl; [reflexivity|].
  intros Hindent. apply andb_prop in Hindent. destruct Hindent as [Hc Hrest].
  rewrite (IH Hrest).
  destruct (Ascii.eqb_spec c LF) as [->|]; [discriminate|reflexivity].
Qed.

Lemma occurs_append (pattern : ascii) (a b : string) :
  occurs pattern (a ++ b) = occurs pattern a || occurs pattern b.
Proof.
  induction a as [|c a IH]; simpl; [reflexivity|]. rewrite IH. now rewrite orb_assoc.
Qed.

(** X24.  [getLineIndent] is the run of spaces and tabs at the start of
    the line that holds the index, for an index anywhere on that line:
    with [indent] a text of spaces and tabs, followed by a piece [middle]
    without line feed, right after a line feed (or at the start of the
    text), and the index at the end of [middle], the result is [indent].
    It is [undefined] for an undefined text and for an index that is
    undefined or negative. *)
Theorem getLineIndent_is_the_indentation (before indent middle rest : string)
    (text : option string) (index : option Z) (negative : positive) :
  isIndent indent = true ->
  occurs LF middle = false ->
  isIndentAt (middle ++ rest) 0 = false ->
  getLineIndent (Some (before ++ String LF (indent ++ middle ++ rest)))
    (Some (Z.of_nat (String.length before + 1 + String.length (indent ++ middle))))
  = Some indent
  /\ getLineIndent (Some (indent ++ middle ++ rest))
       (Some (Z.of_nat (String.length (indent ++ middle))))
     = Some indent
  /\ getLineIndent None index = None
  /\ getLineIndent text None = None
  /\ getLineIndent text (Some (Z.neg negative)) = None.
Proof.
  intros Hindent Hmiddle Hafter.
  assert (Hline : occurs LF (indent ++ middle) = false)
    by (rewrite occurs_append, (isIndent_line Hindent), Hmiddle; reflexivity).
  destruct (getColumnIndex_on_line before rest Hline) as [Hfirst Hcolumn].
  rewrite append_assoc in Hfirst, Hcolumn.
  split; [|split; [|split; [|split]]];
    try (unfold getLineIndent, getColumnIndex; destruct text; reflexivity).
  - unfold getLineIndent. rewrite Hcolumn.
    replace (Z.to_nat (Z.of_nat (String.length before + 1 + String.length (indent ++ middle))
                       - Z.of_nat (String.length (indent ++ middle))))
      with (String.length (before ++ String LF "")) by (rewrite length_append; simpl; lia).
    rewrite (append_cons before LF (indent ++ middle ++ rest)).
    rewrite getLineIndent_loop_spec; auto.
    rewrite !length_append. lia.
  - unfold getLineIndent. rewrite Hfirst. rewrite Z.sub_diag.
    pose proof (@getLineIndent_loop_spec indent (String.length (indent ++ middle ++ rest))
                  "" (middle ++ rest) "" Hindent Hafter) as Hloop.
    cbn [append String.length Z.to_nat] in *. rewrite Hloop; [reflexivity|].
    rewrite length_append. lia.
Qed.

Lemma getLineIndent_is_the_indentation_witness :
  getLineIndent (Some (String "a" (String LF "  bc d"))) (Some 5%Z) = Some "  ".
Proof.
  destruct (@getLineIndent_is_the_indentation "a" "  " "b" "c d" None None 1%positive
              eq_refl eq_refl eq_refl)
    as (Hindent & _).
  exact Hindent.
Defined.

(** [contains(value, searchString)]:
    [value && searchString && value.indexOf(searchString) !== -1 ? true : false];
    [indexOf] is the library's search for the first occurrence. *)
Definition contains (value searchString : option string) : bool :=
  truthy
    (and_then (and_then (ofText value) (ofText searchString))
       (IsBoolean (match index 0 (textOf searchString) (textOf value) with
                   | Some _ => true
                   | None => false
                   end))).

Lemma substring_length_min (s : string) : forall m n : nat,
  String.length (substring m n s) = Nat.min n (String.length s - m).
Proof.
  induction s as [|c s IH]; intros m n.
  - destruct m, n; reflexivity.
  - destruct m as [|m]; simpl.
    + destruct n as [|n]; simpl; [reflexivity|]. rewrite (IH 0%nat n). lia.
    + apply IH.
Qed.

Lemma substring_middle (a s b : string) :
  substring (String.length a) (String.length s) (a ++ s ++ b) = s.
Proof.
  induction a as [|c a IH]; simpl; [apply substring_prefix|exact IH].
Qed.

(** X25.  [contains(value, searchString)] is true exactly when the search
    string is not empty and occurs in the value, that is when the value is
    some text, the search string, and some text; it is false for an empty
    or undefined search string, although the empty string occurs
    everywhere. *)
Theorem contains_finds_an_occurrence (value searchString : string) :
  (contains (Some value) (Some searchString) = true
   <-> searchString <> "" /\ exists front rest, value = front ++ searchString ++ rest)
  /\ contains (Some value) (Some "") = false
  /\ contains (Some value) None = false
  /\ contains None (Some searchString) = false.
Proof.
  split; [|split; [|split]]; try reflexivity.
  - unfold contains, and_then, ofText, truthy, textOf.
    destruct (String.eqb_spec value "") as [->|Hvalue]; cbn [negb].
    + split; [discriminate|]. intros [Hne (front & rest & Heq)].
      destruct front; simpl in Heq; [|discriminate].
      destruct searchString; [congruence|discriminate].
    + destruct (String.eqb_spec searchString "") as [->|Hsearch]; cbn [negb].
      * split; [discriminate|]. intros [Hne _]. congruence.
      * destruct (index 0 searchString value) as [m|] eqn:Hindex.
        -- split; [|reflexivity]. intros _. split; [exact Hsearch|].
           pose proof (index_correct1 _ _ _ _ Hindex) as Hfound.
           pose proof (substring_length_min value m (String.length searchString)) as Hlen.
           rewrite Hfound in Hlen.
           assert (Hpositive : (0 < String.length searchString)%nat)
             by (destruct searchString; [congruence|simpl; lia]).
           remember (String.length searchString) as n eqn:Hn.
           exists (substring 0 m value), (substring (m + n) (String.length value - (m + n)) value).
           assert (Hwhole : value = substring 0 m value
                                    ++ substring m n value
                                    ++ substring (m + n) (String.length value - (m + n)) value).
           { rewrite (substring_split value m n (String.length value - (m + n))).
             replace (n + (String.length value - (m + n)))%nat
               with (String.length value - m)%nat by lia.
             apply substring_whole. lia. }
           now rewrite Hfound in Hwhole.
        -- split; [discriminate|]. intros [_ (front & rest & ->)].
           exfalso.
           apply (index_correct3 0 (String.length front) _ _ Hindex Hsearch); [lia|].
           apply substring_middle.
  - destruct value; reflexivity.
  - destruct value; reflexivity.
Qed.

Close Scope string_scope.

(** ** Whether an iterable ends with the values of another *)

Section IterableEndsWith.
Context {T : Type} `{Undefined T}.
(** [===] on values. *)
Context (strictEquals : T -> T -> bool).

(** [while (a.next() === b.next() && a.hasCurrent())
       { if (a.getCurrent() !== b.getCurrent()) { result = false; break; } }];
    the result is true unless the loop sets it. *)
Fixpoint endsWith_loop (fuel : nat) (a b : IteratorObject T) : bool :=
  match fuel with
  | O => true
  | S fuel' =>
      let (movedA, a1) := next a in
      let (movedB, b1) := next b in
      if Bool.eqb movedA movedB then
        let (hasA, a2) := hasCurrent a1 in
        if hasA then
          let (valueA, a3) := getCurrent a2 in
          let (valueB, b2) := getCurrent b1 in
          if strictEquals valueA valueB then endsWith_loop fuel' a3 b2 else false
        else true
      else true
  end.

(** [IterableBase.endsWith(values)] *)
Definition Iterable_endsWith (this : Iterable T) (values : option (Iterable T)) : bool :=
  match values with
  | None => false
  | Some others =>
      let valuesCount := getCount others in
      if valuesCount =? 0 then false
      else if getCount this <? valuesCount then false
      else
        let thisLastValuesIterator := iterate (Iterable_takeLast this (Some valuesCount)) in
        endsWith_loop (S (remaining thisLastValuesIterator)) thisLastValuesIterator
          (iterate others)
  end.

Hypothesis strictEquals_eq : forall x y : T, strictEquals x y = true <-> x = y.

Lemma endsWith_loop_spec (fuel : nat) :
  forall (a b : IteratorObject T) (stA stB : cursor T),
  models a stA -> models b stB ->
  length (upcoming stA) = length (upcoming stB) ->
  (length (upcoming stA) < fuel)%nat ->
  (endsWith_loop fuel a b = true <-> upcoming stA = upcoming stB).
Proof.
  induction fuel as [|fuel IH]; intros a b stA stB Ha Hb Hlen Hfuel; [lia|].
  cbn [endsWith_loop].
  destruct (models_next Ha) as (a1 & -> & Ha1).
  destruct (models_next Hb) as (b1 & -> & Hb1).
  destruct (models_hasCurrent Ha1) as (a2 & -> & Ha2).
  destruct (models_getCurrent Ha2) as (a3 & Hcurrent & Ha3).
  destruct (models_getCurrent Hb1) as (b2 & Hcurrent' & Hb2).
  unfold advance, cursor_at in *.
  destruct (upcoming stA) as [|x restA], (upcoming stB) as [|y restB];
    try discriminate Hlen; cbn [positioned Bool.eqb] in *.
  - split; reflexivity.
  - rewrite Hcurrent, Hcurrent'. cbn [current].
    destruct (strictEquals x y) eqn:Hxy.
    + apply strictEquals_eq in Hxy. subst y.
      rewrite (IH a3 b2 (At x restA) (At x restB) Ha3 Hb2); cbn [upcoming] in *;
        [|simpl in Hlen; lia|simpl in Hfuel; lia].
      split; [intros ->; reflexivity|intros [= ->]; reflexivity].
    + split; [discriminate|]. intros [= -> _].
      assert (Hrefl : strictEquals y y = true) by now apply strictEquals_eq.
      congruence.
Qed.

Lemma Iterable_takeLast_wf (this : Iterable T) (n : Z) :
  wf this = true -> 0 < n ->
  wf (Iterable_takeLast this (Some n)) = true
  /\ elements (Iterable_takeLast this (Some n))
     = skipn (length (elements this) - Z.to_nat n) (elements this).
Proof.
  intros Hwf Hn. destruct (iterable_models Hwf) as (_ & Hcount & _).
  unfold Iterable_takeLast.
  destruct (Z.eqb_spec n 0); [lia|]. destruct (Z.ltb_spec n 0); [lia|]. cbn [orb].
  rewrite Hcount.
  destruct (Z.leb_spec (Z.of_nat (length (elements this))) n) as [Hall|Hsome].
  - replace (length (elements this) - Z.to_nat n)%nat with 0%nat by lia. auto.
  - destruct (Iterable_skip_wf (Some (Z.of_nat (length (elements this)) - n)) Hwf)
      as [Hwf' He].
    split; [exact Hwf'|]. rewrite He. f_equal. lia.
Qed.

Lemma Iterable_endsWith_elements (this others : Iterable T) :
  wf this = true -> wf others = true ->
  (Iterable_endsWith this (Some others) = true
   <-> elements others <> [] /\ exists front, elements this = front ++ elements others).
Proof.
  intros Hwf Hwf'.
  destruct (iterable_models Hwf) as (_ & Hcount & _).
  destruct (iterable_models Hwf') as (Hothers & Hcount' & _).
  unfold Iterable_endsWith. rewrite Hcount, Hcount'.
  destruct (Z.eqb_spec (Z.of_nat (length (elements others))) 0) as [Hzero|Hpositive].
  - split; [discriminate|]. intros [Hne _].
    destruct (elements others); [congruence|simpl in Hzero; lia].
  - destruct (Z.ltb_spec (Z.of_nat (length (elements this)))
                (Z.of_nat (length (elements others)))) as [Hshort|Hlong].
    + split; [discriminate|]. intros [_ [front Hfront]].
      rewrite Hfront, length_app in Hshort. lia.
    + destruct (@Iterable_takeLast_wf this (Z.of_nat (length (elements others))) Hwf
                  ltac:(lia)) as [Hwf'' He].
      destruct (iterable_models Hwf'') as (Hlast & _ & _).
      rewrite Nat2Z.id in He.
      rewrite (@endsWith_loop_spec _ _ _ _ _ Hlast Hothers).
      * cbn [upcoming]. rewrite He. split.
        -- intros Heq. split; [intros Hnil; rewrite Hnil in Hpositive; simpl in Hpositive; lia|].
           exists (firstn (length (elements this) - length (elements others))
                     (elements this)).
           remember (length (elements this) - length (elements others))%nat as k.
           rewrite <- Heq. symmetry. apply firstn_skipn.
        -- intros [_ [front Hfront]]. rewrite Hfront, length_app.
           replace (length front + length (elements others) - length (elements others))%nat
             with (length front) by lia.
           rewrite skipn_app, Nat.sub_diag, skipn_all. reflexivity.
      * cbn [upcoming]. rewrite He, length_skipn. lia.
      * pose proof (models_remaining Hlast) as Hrem. cbn [upcoming] in *. lia.
Qed.
End IterableEndsWith.

(** X26.  [endsWith(values)] is true exactly when the other iterable has
    values and they are the last values of this one, in the same order;
    it is false when the other iterable is empty or undefined.  Values
    are compared with [===]. *)
Theorem Iterable_endsWith_compares_the_last_values (T : Type) (undefinedT : Undefined T)
    (strictEquals : T -> T -> bool) (this others : Iterable T) :
  (forall x y : T, strictEquals x y = true <-> x = y) ->
  wf this = true -> wf others = true ->
  (Iterable_endsWith strictEquals this (Some others) = true
   <-> toArray others <> [] /\ exists front, toArray this = front ++ toArray others)
  /\ (toArray others = [] -> Iterable_endsWith strictEquals this (Some others) = false)
  /\ Iterable_endsWith strictEquals this None = false.
Proof.
  intros Hequals Hwf Hwf'.
  pose proof (Iterable_endsWith_elements Hequals Hwf Hwf') as Hspec.
  rewrite (toArray_elements Hwf), (toArray_elements Hwf').
  split; [exact Hspec|]. split; [|reflexivity].
  intros Hempty. apply Bool.not_true_is_false. intros Hends.
  apply Hspec in Hends. destruct Hends as [Hne _]. congruence.
Qed.

Lemma Iterable_endsWith_compares_the_last_values_witness :
  let equals := fun a b : option Z =>
                  match a, b with
                  | Some x, Some y => x =? y
                  | None, None => true
                  | _, _ => false
                  end in
  Iterable_endsWith equals sample (Some (Iterable_skip sample (Some 3))) = true.
Proof.
  intros equals.
  assert (Hequals : forall x y : option Z, equals x y = true <-> x = y).
  { intros [x|] [y|]; simpl; split; try congruence.
    - intros Hxy. apply Z.eqb_eq in Hxy. congruence.
    - intros [= ->]. apply Z.eqb_refl. }
  destruct (@Iterable_endsWith_compares_the_last_values _ _ equals
              sample (Iterable_skip sample (Some 3)) Hequals eq_refl eq_refl)
    as (Hends & _).
  apply Hends. split.
  - intros Hempty. vm_compute in Hempty. discriminate Hempty.
  - exists [Some 10; Some 20; Some 30]. vm_compute. reflexivity.
Defined.

(** ** Indexes outside an iterable *)

(** An index that is undefined, not a number, negative, or at least the
    count. *)
Definition outOfRange (count : Z) (index : number) : Prop :=
  match index with
  | Num q => (q < 0)%Q \/ (inject_Z count <= q)%Q
  | _ => True
  end.

(** An index that is undefined, not a number, or at least the count. *)
Definition beyond (count : Z) (index : number) : Prop :=
  match index with
  | Num q => (inject_Z count <= q)%Q
  | _ => True
  end.

(** An index that is a negative number. *)
Definition negative (index : number) : Prop :=
  match index with
  | Num q => (q < 0)%Q
  | _ => False
  end.

(** The views that [skip] builds. *)
Definition isSkipIterable {T : Type} (this : Iterable T) : bool :=
  match this with
  | SkipIterable _ _ => true
  | _ => false
  end.

Lemma outOfRange_guard (count : Z) (index : number) :
  outOfRange count index ->
  number_isDefined index && number_le (ofZ 0) index && number_lt index (ofZ count) = false
  /\ number_le (ofZ 0) index && number_lt index (ofZ count) = false.
Proof.
  destruct index as [| |q]; try (split; reflexivity).
  cbn [outOfRange number_isDefined number_le number_lt ofZ andb].
  intros [Hnegative|Hlarge].
  - assert (Hle : Qle_bool (inject_Z 0) q = false).
    { destruct (Qle_bool (inject_Z 0) q) eqn:Hq; [|reflexivity].
      apply Qle_bool_iff in Hq. change (inject_Z 0) with 0%Q in Hq.
      exfalso. apply (Qlt_not_le _ _ Hnegative Hq). }
    rewrite Hle. split; reflexivity.
  - assert (Hlt : Qlt_bool q (inject_Z count) = false).
    { unfold Qlt_bool. apply negb_false_iff. now apply Qle_bool_iff. }
    rewrite Hlt, andb_false_r. split; reflexivity.
Qed.

Lemma beyond_outOfRange (count : Z) (index : number) :
  beyond count index -> outOfRange count index.
Proof. destruct index; simpl; auto. Qed.

Lemma negative_outOfRange (count : Z) (index : number) :
  negative index -> outOfRange count index.
Proof. destruct index; simpl; auto. Qed.

Section IterableOutside.
Context {T : Type} `{Undefined T}.

(** With an index that is at least the number of values left, the loop
    of [get] and [getLast] runs until [next()] returns false. *)
Lemma get_loop_beyond (fuel : nat) :
  forall (iterator : IteratorObject T) (st : cursor T) (q : Q),
  models iterator st -> (length (upcoming st) < fuel)%nat ->
  (inject_Z (Z.of_nat (length (upcoming st))) <= q)%Q ->
  models (get_loop fuel iterator q) Done.
Proof.
  induction fuel as [|fuel IH]; intros iterator st q Hm Hfuel Hq; [lia|].
  cbn [get_loop]. destruct (models_next Hm) as (iterator1 & -> & Hm1).
  destruct (positioned (advance st)) eqn:Hpos; cbn [andb].
  - rewrite positioned_advance in Hpos.
    destruct (upcoming st) as [|value rest] eqn:Hupcoming; [discriminate|].
    cbn [length] in Hq, Hfuel. rewrite Nat2Z.inj_succ in Hq.
    unfold Z.succ in Hq. rewrite inject_Z_plus in Hq.
    assert (Hrest : (0 <= inject_Z (Z.of_nat (length rest)))%Q)
      by (change 0%Q with (inject_Z 0); rewrite <- Zle_Qle; lia).
    change (inject_Z 1) with 1%Q in Hq.
    assert (Hpositive : Qlt_bool 0 q = true).
    { unfold Qlt_bool. apply negb_true_iff.
      destruct (Qle_bool q 0) eqn:Hle; [|reflexivity].
      apply Qle_bool_iff in Hle. exfalso. lra. }
    rewrite Hpositive. apply (IH iterator1 (advance st)); auto.
    + rewrite upcoming_advance, Hupcoming. simpl. lia.
    + rewrite upcoming_advance, Hupcoming. cbn [tl]. lra.
  - rewrite (positioned_advance_false Hpos) in Hm1. exact Hm1.
Qed.

Lemma IterableBase_getFrom_beyond (iterator : IteratorObject T) (values : list T)
  (index : number) :
  models iterator (NotStarted values) -> beyond (Z.of_nat (length values)) index ->
  IterableBase_getFrom iterator index = undefined.
Proof.
  intros Hm Hbeyond. destruct index as [| |q]; try reflexivity.
  cbn [beyond] in Hbeyond. unfold IterableBase_getFrom.
  destruct (Qle_bool 0 q); [|reflexivity].
  pose proof (models_remaining Hm) as Hrem. cbn [upcoming] in Hrem.
  assert (Hloop := @get_loop_beyond (S (remaining iterator)) iterator _ q Hm
                     ltac:(cbn [upcoming]; lia) Hbeyond).
  destruct (models_getCurrent Hloop) as (iterator' & -> & _). reflexivity.
Qed.

Lemma IterableBase_getFrom_negative (iterator : IteratorObject T) (index : number) :
  negative index -> IterableBase_getFrom iterator index = undefined.
Proof.
  destruct index as [| |q]; try reflexivity. cbn [negative]. intros Hnegative.
  unfold IterableBase_getFrom.
  destruct (Qle_bool 0 q) eqn:Hle; [|reflexivity].
  apply Qle_bool_iff in Hle. exfalso. lra.
Qed.

Lemma get_beyond (this : Iterable T) : forall index : number,
  wf this = true -> beyond (getCount this) index -> get this index = undefined.
Proof.
  induction this as [list|inner IH condition|inner IH toSkip|inner IH toTake
                    |inner IH mapFunction|first IH second]; intros index Hwf Hbeyond.
  - cbn [get getCount] in *. unfold ArrayList_get.
    destruct (outOfRange_guard (beyond_outOfRange Hbeyond)) as [-> _]. reflexivity.
  - destruct (iterable_models Hwf) as (Hforward & Hcount & _). rewrite Hcount in Hbeyond.
    apply (IterableBase_getFrom_beyond Hforward Hbeyond).
  - cbn [wf] in Hwf. apply andb_prop in Hwf. destruct Hwf as [Hpos Hwf].
    apply Z.ltb_lt in Hpos. cbn [get]. apply IH; [exact Hwf|].
    destruct index as [| |q]; cbn [number_add ofZ beyond]; auto.
    unfold beyond in Hbeyond. cbn [getCount] in Hbeyond.
    destruct (Z.leb_spec (getCount inner) toSkip) as [Hle|Hgt].
    + rewrite Zle_Qle in Hle. change (inject_Z 0) with 0%Q in Hbeyond. lra.
    + unfold Z.sub in Hbeyond. rewrite inject_Z_plus, inject_Z_opp in Hbeyond. lra.
  - cbn [get]. destruct (outOfRange_guard (beyond_outOfRange Hbeyond)) as [_ ->].
    reflexivity.
  - cbn [get]. destruct (outOfRange_guard (beyond_outOfRange Hbeyond)) as [-> _].
    reflexivity.
  - destruct (iterable_models Hwf) as (Hforward & Hcount & _). rewrite Hcount in Hbeyond.
    apply (IterableBase_getFrom_beyond Hforward Hbeyond).
Qed.

Lemma getLast_beyond (this : Iterable T) (index : number) :
  wf this = true -> beyond (getCount this) index -> getLast this index = undefined.
Proof.
  intros Hwf Hbeyond.
  assert (Hbase : IterableBase_getFrom (iterateReverse this) index = undefined).
  { destruct (iterable_models Hwf) as (_ & Hcount & Hreverse). rewrite Hcount in Hbeyond.
    rewrite <- length_rev in Hbeyond. apply (IterableBase_getFrom_beyond Hreverse Hbeyond). }
  destruct this; try exact Hbase.
  cbn [getLast]. destruct (outOfRange_guard (beyond_outOfRange Hbeyond)) as [-> _].
  reflexivity.
Qed.

Lemma get_negative (this : Iterable T) (index : number) :
  negative index -> isSkipIterable this = false -> get this index = undefined.
Proof.
  intros Hnegative Hview.
  destruct this as [list|inner condition|inner toSkip|inner toTake|inner mapFunction
                   |first second]; cbn [get]; try discriminate.
  - unfold ArrayList_get.
    destruct (outOfRange_guard (negative_outOfRange (ArrayList_getCount list) Hnegative))
      as [-> _]. reflexivity.
  - now apply IterableBase_getFrom_negative.
  - destruct (outOfRange_guard
                (negative_outOfRange (getCount (TakeIterable inner toTake)) Hnegative))
      as [_ ->]. reflexivity.
  - destruct (outOfRange_guard
                (negative_outOfRange (getCount (MapIterable inner mapFunction)) Hnegative))
      as [-> _]. reflexivity.
  - now apply IterableBase_getFrom_negative.
Qed.

Lemma getLast_negative (this : Iterable T) (index : number) :
  negative index -> getLast this index = undefined.
Proof.
  intros Hnegative.
  destruct this as [list|inner condition|inner toSkip|inner toTake|inner mapFunction
                   |first second]; cbn [getLast];
    try (now apply IterableBase_getFrom_negative).
  destruct (outOfRange_guard
              (negative_outOfRange (getCount (MapIterable inner mapFunction)) Hnegative))
    as [-> _]. reflexivity.
Qed.
End IterableOutside.

(** X27.  Outside its values an iterable has nothing to give.  For an
    [ArrayList] and every view over one, and every index, integer or not:
    [get(index)] and [getLast(index)] are [undefined] when the index is
    undefined, not a number, or at least [getCount()]; for a negative
    index [getLast] is [undefined] too, and so is [get] unless the
    iterable is a skip view, whose [get] has no test of its own. *)
Theorem Iterable_get_outside_the_values_is_undefined (T : Type) (undefinedT : Undefined T)
    (this : Iterable T) (index : number) :
  wf this = true ->
  (beyond (getCount this) index ->
   get this index = undefined /\ getLast this index = undefined)
  /\ (negative index ->
      getLast this index = undefined
      /\ (isSkipIterable this = false -> get this index = undefined)).
Proof.
  intros Hwf. split.
  - intros Hbeyond. split; [now apply get_beyond|now apply getLast_beyond].
  - intros Hnegative. split; [now apply getLast_negative|].
    intros Hview. now apply get_negative.
Qed.

Lemma Iterable_get_outside_the_values_is_undefined_witness :
  get (Iterable_where sample (Some (fun _ => true))) (Num (11 # 2)) = None
  /\ getLast (Iterable_take sample (Some 2)) (Num (5 # 2)) = None
  /\ get (Iterable_map sample (Some (fun value => value))) (Num (- 1 # 2)) = None.
Proof.
  destruct (@Iterable_get_outside_the_values_is_undefined _ _
              (Iterable_where sample (Some (fun _ => true))) (Num (11 # 2)) eq_refl)
    as (Hwhere & _).
  destruct (@Iterable_get_outside_the_values_is_undefined _ _
              (Iterable_take sample (Some 2)) (Num (5 # 2)) eq_refl)
    as (Htake & _).
  destruct (@Iterable_get_outside_the_values_is_undefined _ _
              (Iterable_map sample (Some (fun value => value))) (Num (- 1 # 2)) eq_refl)
    as (_ & Hmap).
  split; [apply Hwhere; vm_compute; discriminate|].
  split; [apply Htake; vm_compute; discriminate|].
  apply Hmap; [vm_compute; reflexivity|reflexivity].
Defined.

(** ** Draining an iterator that is under way *)

(** X28.  [toArray()] and [getCount()] of an iterator that has been
    advanced [k >= 1] times take the value the iterator stands on first,
    then the values after it: on the iterator of an iterable they give
    the values from place [k - 1] on, and their number.  Both use the
    iterator up: afterwards it has no current value, and draining it
    again gives nothing. *)
Theorem Iterator_toArray_starts_at_the_current_value (T : Type) (undefinedT : Undefined T)
    (this : Iterable T) (k : nat) :
  wf this = true ->
  let advanced := nextN (S k) (iterate this) in
  fst (IteratorBase_toArray advanced) = skipn k (toArray this)
  /\ fst (IteratorBase_getCount advanced) = Z.of_nat (length (skipn k (toArray this)))
  /\ fst (hasCurrent (snd (IteratorBase_toArray advanced))) = false
  /\ fst (IteratorBase_toArray (snd (IteratorBase_toArray advanced))) = []
  /\ fst (IteratorBase_toArray (snd (IteratorBase_getCount advanced))) = []
  /\ fst (getCurrent advanced) = nth k (toArray this) undefined.
Proof.
  intros Hwf advanced. destruct (iterable_models Hwf) as (Hforward & _ & _).
  pose proof (models_nextN (S k) Hforward) as Hadvanced. fold advanced in Hadvanced.
  rewrite advanceN_NotStarted in Hadvanced. rewrite (toArray_elements Hwf).
  destruct (toArray_spec Hadvanced) as (drained & Harray & Hdrained).
  destruct (getCount_spec Hadvanced) as (counted & Hcount & Hcounted).
  destruct (toArray_spec Hdrained) as (again & Hagain & _).
  destruct (toArray_spec Hcounted) as (again' & Hagain' & _).
  destruct (models_hasCurrent Hdrained) as (drained' & Hhas & _).
  destruct (models_getCurrent Hadvanced) as (advanced' & Hcurrent & _).
  rewrite Harray, Hcount. cbn [fst snd].
  rewrite Hagain, Hagain', Hhas, Hcurrent. cbn [fst snd contents positioned current].
  assert (Hcontents : contents (cursor_at (skipn k (elements this))) = skipn k (elements this))
    by (destruct (skipn k (elements this)); reflexivity).
  rewrite Hcontents. repeat split.
  rewrite <- hd_skipn_nth. destruct (skipn k (elements this)); reflexivity.
Qed.

Lemma Iterator_toArray_starts_at_the_current_value_witness :
  fst (IteratorBase_toArray (nextN 2 (iterate sample))) = [Some 20; Some 30; Some 40; Some 50].
Proof.
  destruct (@Iterator_toArray_starts_at_the_current_value _ _ sample 1 eq_refl)
    as (Harray & _).
  exact Harray.
Defined.

(** ** Line breaks and white space among the lexes *)

(** [isNewLine()] holds exactly for the lexes whose text is a line feed
    or a carriage return and a line feed, [isWhitespace()] exactly for
    those whose text is a space, a tab or a carriage return alone. *)
Definition Lex_typeMatchesText (lex : Lex) : Prop :=
  (Lex_isNewLine lex = true
   <-> lex_text lex = Some (String LF EmptyString)
       \/ lex_text lex = Some (String CR (String LF EmptyString)))
  /\ (Lex_isWhitespace lex = true
      <-> lex_text lex = Some (String " " EmptyString)
          \/ lex_text lex = Some (String TAB EmptyString)
          \/ lex_text lex = Some (String CR EmptyString)).

Ltac refute_texts :=
  repeat match goal with
         | H : _ \/ _ |- _ => destruct H as [H|H]
         end;
  match goal with
  | H : _ = Some _ |- _ => cbv in H; discriminate H
  end.

Lemma singleCharacterLex_whitespace (c : ascii) (factory : Z -> Lex) :
  singleCharacterLex c = Some factory ->
  forall startIndex, Lex_typeMatchesText (factory startIndex).
Proof.
  unfold singleCharacterLex.
  repeat match goal with
         | |- context [Ascii.eqb c ?x] =>
             destruct (Ascii.eqb_spec c x) as [->|_];
             [intros [= <-] startIndex; unfold Lex_typeMatchesText; cbn;
              split; split; intros Hyes;
              first [reflexivity | discriminate Hyes | refute_texts
                    | left; reflexivity | right; left; reflexivity
                    | right; right; reflexivity]|]
         end.
  discriminate.
Qed.

Lemma singleCharacterLex_none (c : ascii) :
  singleCharacterLex c = None ->
  c <> LF /\ c <> " "%char /\ c <> TAB.
Proof.
  intros Hnone. repeat split; intros ->; vm_compute in Hnone; discriminate Hnone.
Qed.

(** A text that begins with a character that is no line feed, carriage
    return, space or tab is none of the five texts. *)
Lemma Lex_typeMatchesText_other (text : string) (c : ascii) (startIndex : Z) (type : LexType) :
  String.get 0 text = Some c ->
  c <> LF -> c <> CR -> c <> " "%char -> c <> TAB ->
  Lex_isNewLine (Build_Lex (Some text) startIndex type) = false ->
  Lex_isWhitespace (Build_Lex (Some text) startIndex type) = false ->
  Lex_typeMatchesText (Build_Lex (Some text) startIndex type).
Proof.
  intros Hget Hlf Hcr Hspace Htab HnewLine Hwhitespace.
  unfold Lex_typeMatchesText. rewrite HnewLine, Hwhitespace. cbn [lex_text].
  split; (split; [discriminate|]).
  - intros [[= ->]|[= ->]]; cbn in Hget; injection Hget as Hc; subst c; exfalso;
      first [now apply Hlf | now apply Hcr | now apply Hspace | now apply Htab].
  - intros [[= ->]|[[= ->]|[= ->]]]; cbn in Hget; injection Hget as Hc; subst c; exfalso;
      first [now apply Hlf | now apply Hcr | now apply Hspace | now apply Htab].
Qed.

Lemma Lexer_next_whitespace (s : string) (offset p : Z) (started_ : bool)
  (lex0 : option Lex) :
  0 <= p < getLength (Some s) ->
  exists lex q,
    Lexer_next (lexer_at (Some s) offset started_ p lex0)
    = (true, lexer_at (Some s) offset true q (Some lex))
    /\ p < q <= getLength (Some s)
    /\ Lex_typeMatchesText lex.
Proof.
  intros Hp. unfold Lexer_next. rewrite Lexer_started_at.
  unfold Lexer_hasCurrentCharacter, Lexer_getCurrentCharacterStartIndex.
  rewrite Lexer_getCurrentCharacter_at.
  cbn [lexer_at _iterator hasCurrent StringIterator_Iterator fst].
  unfold StringIterator_currentIndex, StringIterator_hasCurrent, hasMore.
  cbn [iterator_at _started _step _currentIndex _endIndex _characterStartIndexOffset andb].
  change (1 >? 0) with true. cbv iota.
  destruct (Z.ltb_spec p (getLength (Some s))); [|lia].
  destruct (@charAt_inside (Some s) p) as (s' & c & Hs & Hget & Hat); [lia|].
  injection Hs as <-. rewrite Hat.
  fold (iterator_at (Some s) true p). fold (lexer_at (Some s) offset true p lex0).
  change (_characterStartIndexOffset (lexer_at (Some s) offset true p lex0)) with offset.
  destruct (singleCharacterLex c) as [factory|] eqn:Hsingle.
  - exists (factory (integer_add p offset)), (p + 1).
    change (Lexer_withCurrentLex (lexer_at (Some s) offset true p lex0)
              (Some (factory (integer_add p offset))))
      with (lexer_at (Some s) offset true p (Some (factory (integer_add p offset)))).
    rewrite Lexer_nextCharacter_at by lia. cbn [snd].
    split; [reflexivity|]. split; [lia|]. apply (singleCharacterLex_whitespace Hsingle).
  - destruct (singleCharacterLex_none Hsingle) as (Hlf & Hspace & Htab).
    destruct (Ascii.eqb_spec c CR) as [->|Hcr].
    + unfold Lexer_next_carriageReturn.
      rewrite Lexer_nextCharacter_at by lia.
      rewrite Lexer_getCurrentCharacter_at.
      change (Lexer_withCurrentLex (lexer_at (Some s) offset true (p + 1) lex0)
                (Some (CarriageReturnNewLine (integer_add p offset))))
        with (lexer_at (Some s) offset true (p + 1)
                (Some (CarriageReturnNewLine (integer_add p offset)))).
      change (Lexer_withCurrentLex (lexer_at (Some s) offset true (p + 1) lex0)
                (Some (CarriageReturn (integer_add p offset))))
        with (lexer_at (Some s) offset true (p + 1) (Some (CarriageReturn (integer_add p offset)))).
      assert (HcarriageReturn : Lex_typeMatchesText (CarriageReturn (integer_add p offset))).
      { unfold Lex_typeMatchesText. cbn. split; split; intros Hyes; auto;
          first [discriminate Hyes | refute_texts]. }
      assert (HnewLine : Lex_typeMatchesText (CarriageReturnNewLine (integer_add p offset))).
      { unfold Lex_typeMatchesText. cbn. split; split; intros Hyes; auto;
          first [discriminate Hyes | refute_texts]. }
      destruct (Z.ltb_spec (p + 1) (getLength (Some s))) as [Hmore|Hlast]; cbn [negb orb].
      * destruct (isNot (charAt (Some s) (p + 1)) LF).
        -- exists (CarriageReturn (integer_add p offset)), (p + 1).
           split; [reflexivity|]. split; [lia|exact HcarriageReturn].
        -- exists (CarriageReturnNewLine (integer_add p offset)), (p + 2).
           rewrite Lexer_nextCharacter_at by lia. cbn [snd].
           replace (p + 1 + 1) with (p + 2) by lia.
           split; [reflexivity|]. split; [lia|exact HnewLine].
      * exists (CarriageReturn (integer_add p offset)), (p + 1).
        split; [reflexivity|]. split; [lia|exact HcarriageReturn].
    + assert (Hrun : forall q, p < q ->
                String.get 0 (substring (Z.to_nat p) (Z.to_nat (q - p)) s) = Some c).
      { intros q Hq. rewrite get_substring by lia. rewrite Nat.add_0_r. exact Hget. }
      unfold Lexer_next_default. rewrite Lexer_getCurrentCharacter_at.
      destruct (Z.ltb_spec p (getLength (Some s))); [|lia]. rewrite Hat.
      unfold readLetters, readDigits. cbn [lexer_at _iterator].
      destruct (isLetter (Some c)).
      * destruct (@readWhile_at s isLetter p) as (q & Hq & ->); [lia|].
        exists (Letters (Some (substring (Z.to_nat p) (Z.to_nat (q - p)) s)) (integer_add p offset)), q.
        split; [reflexivity|]. split; [exact Hq|].
        apply (@Lex_typeMatchesText_other _ c); auto. apply Hrun. lia.
      * destruct (isDigit (Some c)).
        -- destruct (@readWhile_at s isDigit p) as (q & Hq & ->); [lia|].
           exists (Digits (Some (substring (Z.to_nat p) (Z.to_nat (q - p)) s)) (integer_add p offset)), q.
           split; [reflexivity|]. split; [exact Hq|].
           apply (@Lex_typeMatchesText_other _ c); auto. apply Hrun. lia.
        -- exists (Unrecognized (characterText (Some c)) (integer_add p offset)), (p + 1).
           fold (iterator_at (Some s) true p).
           fold (lexer_at (Some s) offset true p lex0).
           change (Lexer_withCurrentLex (lexer_at (Some s) offset true p lex0)
                     (Some (Unrecognized (characterText (Some c)) (integer_add p offset))))
             with (lexer_at (Some s) offset true p
                     (Some (Unrecognized (characterText (Some c)) (integer_add p offset)))).
           rewrite Lexer_nextCharacter_at by lia. cbn [snd].
           split; [reflexivity|]. split; [lia|].
           apply (@Lex_typeMatchesText_other _ c); auto.
Qed.

Lemma Lexer_rest_whitespace (s : string) (offset : Z) (fuel : nat) :
  forall (p : Z) (started_ : bool) (lex0 : option Lex),
  0 <= p <= getLength (Some s) ->
  (Z.to_nat (getLength (Some s) - p) < fuel)%nat ->
  exists lexes,
    Lexer_rest fuel (lexer_at (Some s) offset started_ p lex0) = map Some lexes
    /\ Forall Lex_typeMatchesText lexes.
Proof.
  induction fuel as [|fuel IH]; intros p started_ lex0 Hp Hfuel; [lia|].
  cbn [Lexer_rest].
  destruct (Z.eq_dec p (getLength (Some s))) as [Heq|Hne].
  - destruct (@Lexer_next_at (Some s) offset p started_ lex0 Hp) as [_ Hend].
    rewrite (Hend Heq). exists []. split; [reflexivity|constructor].
  - destruct (@Lexer_next_whitespace s offset p started_ lex0 ltac:(lia))
      as (lex & q & -> & Hq & Hlex).
    destruct (IH q true (Some lex)) as (lexes & -> & Hall); [lia|lia|].
    exists (lex :: lexes). split; [reflexivity|]. constructor; assumption.
Qed.

(** X29.  Among the lexes of a text, [isNewLine()] is true exactly for
    those whose text is a line feed or a carriage return followed by a
    line feed, and [isWhitespace()] exactly for those whose text is a
    space, a tab or a carriage return on its own. *)
Theorem Lexer_line_breaks_and_white_space (text : option string) (startIndex : option Z) :
  exists lexes,
    fst (IteratorBase_toArray (new_Lexer text startIndex)) = map Some lexes
    /\ Forall Lex_typeMatchesText lexes.
Proof.
  destruct (toArray_spec (new_Lexer_models text startIndex)) as (this' & Harray & _).
  cbn [contents] in Harray. rewrite Harray, new_Lexer_at.
  destruct text as [s|].
  - destruct (@Lexer_rest_whitespace s (match startIndex with Some i => i | None => 0 end)
                (S (Z.to_nat (getLength (Some s)))) 0 false None)
      as (lexes & -> & Hall); [simpl; lia|lia|].
    exists lexes. auto.
  - exists []. split; [reflexivity|constructor].
Qed.
